(** * PolyTree: a shallow embedding of [equadratures/polytree.py]

    Numbers: NumPy's float64 values are idealised as exact rationals [Q].
    NaN is modelled explicitly (type [float], [None] is NaN) wherever the
    code can produce or receive it and a decision depends on it: the
    buffer of [predict], the weighted child loss of [prune], the score of
    the model-agnostic search, the gains of the gradient selector and the
    arrays handed to [apply], [get_node], [get_paths] and [get_graphviz].
    Rounding to float64 is modelled explicitly ([fl64]) where the rounded
    value itself is compared with the data: the midpoint of the gradient
    selector and the grid of [np.linspace].  Counts and indices are [nat].
    Python exceptions are modelled by the [Raise] constructor of [result]. *)

From Stdlib Require Import String.
From Stdlib Require Import QArith ZArith List Bool Arith Lia Lqa.
From Stdlib Require Import Permutation Sorted.
Import ListNotations.
Close Scope Q_scope.
Open Scope nat_scope.

Set Warnings "-register-all".

(* ------------------------------------------------------------------ *)
(** ** Exceptions and the error monad                                  *)
(* ------------------------------------------------------------------ *)

Inductive exn : Type :=
| TypeError
| IndexError
| ValueError
| AssertionError
| RecursionError
| KeyError
| ZeroDivisionError
| Exception (msg : string).

Inductive result (A : Type) : Type :=
| Ok (a : A)
| Raise (e : exn).

Arguments Ok {A} a.
Arguments Raise {A} e.

Definition rbind {A B} (m : result A) (f : A -> result B) : result B :=
  match m with
  | Ok a => f a
  | Raise e => Raise e
  end.

Declare Scope res_scope.
Delimit Scope res_scope with res.
Notation "x <- m ;; k" := (rbind m (fun x => k))
  (at level 100, m at next level, right associativity) : res_scope.
Notation "' p <- m ;; k" := (rbind m (fun x => let p := x in k))
  (at level 100, p pattern, m at next level, right associativity) : res_scope.
Local Open Scope res_scope.

Fixpoint mapM {A B} (f : A -> result B) (l : list A) : result (list B) :=
  match l with
  | [] => Ok []
  | a :: l' => b <- f a ;; bs <- mapM f l' ;; Ok (b :: bs)
  end.

Fixpoint filterM {A} (f : A -> result bool) (l : list A) : result (list A) :=
  match l with
  | [] => Ok []
  | a :: l' =>
      b <- f a ;; r <- filterM f l' ;; Ok (if b then a :: r else r)
  end.

(** [a[i]] on a Python sequence: out of range raises [IndexError]. *)
Definition getitem {A} (l : list A) (i : nat) : result A :=
  match nth_error l i with
  | Some a => Ok a
  | None => Raise IndexError
  end.

(* ------------------------------------------------------------------ *)
(** ** Arrays                                                          *)
(* ------------------------------------------------------------------ *)

Definition row := list Q.
Definition matrix := list row.      (* X, shape (N, d) *)
Definition vec := list Q.           (* y, shape (N,)   *)
Definition dataset := (matrix * vec)%type.

(** [X[:, j]].  A matrix is the list of its rows: its width is that of
    its rows, so an array without rows carries no width here, and the
    column of such an array is empty for every [j] (NumPy raises
    [IndexError] on shape (0, d) when [j >= d]). *)
Definition column (X : matrix) (j : nat) : result (list Q) :=
  mapM (fun r => getitem r j) X.

(** [X[idx]] for an index array [idx]. *)
Definition take {A} (a : list A) (idx : list nat) : result (list A) :=
  mapM (getitem a) idx.

Definition Qsum (l : list Q) : Q := fold_right Qplus 0%Q l.

Definition Qlen {A} (l : list A) : Q := inject_Z (Z.of_nat (length l)).
Definition Qnat (n : nat) : Q := inject_Z (Z.of_nat n).

(** The fitted polynomial surrogate is opaque to the tree; the tree only
    evaluates it ([get_polyfit]).  It is represented by its evaluation. *)
Definition Poly := row -> Q.

Definition get_polyfit (p : Poly) (X : matrix) : list Q := map p X.

(** [np.linalg.norm(y - poly.get_polyfit(X).reshape(-1)) ** 2 / N]
    Subtracting arrays of different lengths raises [ValueError] (NumPy's
    broadcast of a one-element array is not modelled). *)
Fixpoint sub_vec (a b : list Q) : result (list Q) :=
  match a, b with
  | [], [] => Ok []
  | x :: a', y :: b' => r <- sub_vec a' b' ;; Ok ((x - y)%Q :: r)
  | _, _ => Raise ValueError
  end.

Definition norm2 (v : list Q) : Q := Qsum (map (fun x => (x * x)%Q) v).

Definition mse (p : Poly) (X : matrix) (y : vec) : result Q :=
  r <- sub_vec y (get_polyfit p X) ;;
  Ok (norm2 r / Qlen X)%Q.

(** A float64 value that may be NaN; [None] is NaN.  Every comparison
    with NaN is false. *)
Definition float := option Q.
Definition nan : float := None.

Definition isnan (f : float) : bool :=
  match f with None => true | Some _ => false end.

(** [a <= b] and [a > b] on float64 values. *)
Definition fle (a b : float) : bool :=
  match a, b with Some x, Some y => Qle_bool x y | _, _ => false end.
Definition fgt (a b : float) : bool :=
  match a, b with
  | Some x, Some y => negb (Qle_bool x y)
  | _, _ => false
  end.

(** The integer nearest to [n / d] ([d > 0]), ties to the even one. *)
Definition round_even (n d : Z) : Z :=
  let q := (n / d)%Z in
  match (2 * (n mod d) ?= d)%Z with
  | Lt => q
  | Gt => (q + 1)%Z
  | Eq => if Z.even q then q else (q + 1)%Z
  end.

(** The float64 nearest to a real number: round to nearest, ties to even,
    with 53 significant bits.  The exponent range is taken unbounded (no
    overflow to infinity, no subnormal numbers).  For [x = +-n/d], [e0] is
    the integer with [2^e0 <= n/d < 2^(e0+1)], and the result is
    [+-m * 2^(e0-52)] for the integer [m] nearest to [n/d / 2^(e0-52)]. *)
Definition fl64 (x : Q) : Q :=
  let n := Z.abs (Qnum x) in
  let d := Zpos (Qden x) in
  if (n =? 0)%Z then 0%Q
  else
    let k := (Z.log2 n - Z.log2 d)%Z in
    let e0 :=
      if (if (0 <=? k)%Z then (d * 2 ^ k <=? n)%Z
          else (d <=? n * 2 ^ (- k))%Z)
      then k else (k - 1)%Z in
    let e := (e0 - 52)%Z in
    let m := if (0 <=? e)%Z then round_even n (d * 2 ^ e)
             else round_even (n * 2 ^ (- e)) d in
    let v := if (0 <=? e)%Z then inject_Z (m * 2 ^ e)
             else Qred (m # Z.to_pos (2 ^ (- e))) in
    if (Qnum x <? 0)%Z then (- v)%Q else v.

(* ------------------------------------------------------------------ *)
(** ** Tree nodes                                                      *)
(* ------------------------------------------------------------------ *)

(** The node dictionary.  Keys that are absent until [prune] adds them
    ([test_loss], [lower_loss]) and the key [data], which is deleted when
    a node splits, are options. *)
Inductive node : Type := mk_node {
  index : nat;
  loss : Q;
  poly : Poly;
  data : option dataset;
  n_samples : nat;
  j_feature : option nat;
  threshold : option Q;
  left : option node;
  right : option node;
  depth : nat;
  flag : bool;
  test_loss : option Q;
  lower_loss : option float
}.

Definition set_children (nd : node) (l r : option node) : node :=
  mk_node (index nd) (loss nd) (poly nd) (data nd) (n_samples nd)
          (j_feature nd) (threshold nd) l r (depth nd) (flag nd)
          (test_loss nd) (lower_loss nd).

Definition set_poly (nd : node) (p : Poly) : node :=
  mk_node (index nd) (loss nd) p (data nd) (n_samples nd)
          (j_feature nd) (threshold nd) (left nd) (right nd) (depth nd)
          (flag nd) (test_loss nd) (lower_loss nd).

Definition set_split (nd : node) (j : option nat) (t : option Q) : node :=
  mk_node (index nd) (loss nd) (poly nd) (data nd) (n_samples nd)
          j t (left nd) (right nd) (depth nd) (flag nd)
          (test_loss nd) (lower_loss nd).

Definition del_data (nd : node) : node :=
  mk_node (index nd) (loss nd) (poly nd) None (n_samples nd)
          (j_feature nd) (threshold nd) (left nd) (right nd) (depth nd)
          (flag nd) (test_loss nd) (lower_loss nd).

Definition set_test_loss (nd : node) (t : Q) : node :=
  mk_node (index nd) (loss nd) (poly nd) (data nd) (n_samples nd)
          (j_feature nd) (threshold nd) (left nd) (right nd) (depth nd)
          (flag nd) (Some t) (lower_loss nd).

Definition set_n_samples (nd : node) (n : nat) : node :=
  mk_node (index nd) (loss nd) (poly nd) (data nd) n
          (j_feature nd) (threshold nd) (left nd) (right nd) (depth nd)
          (flag nd) (test_loss nd) (lower_loss nd).

Definition set_lower_loss (nd : node) (t : float) : node :=
  mk_node (index nd) (loss nd) (poly nd) (data nd) (n_samples nd)
          (j_feature nd) (threshold nd) (left nd) (right nd) (depth nd)
          (flag nd) (test_loss nd) (Some t).

Definition no_children (nd : node) : bool :=
  match left nd, right nd with
  | None, None => true
  | _, _ => false
  end.

(** Subscripting [None] ([node["..."]] on an absent child) is a
    [TypeError]. *)
Definition some_node (o : option node) : result node :=
  match o with
  | Some nd => Ok nd
  | None => Raise TypeError
  end.

(* ------------------------------------------------------------------ *)
(** ** [_split_data]                                                   *)
(* ------------------------------------------------------------------ *)

(** [np.where(c <= threshold)[0]] *)
Fixpoint where_le (c : list Q) (t : Q) (i : nat) : list nat :=
  match c with
  | [] => []
  | x :: c' =>
      if Qle_bool x t then i :: where_le c' t (S i) else where_le c' t (S i)
  end.

(** [np.delete(np.arange(0, n), idx)] *)
Definition delete_arange (n : nat) (idx : list nat) : list nat :=
  filter (fun i => negb (existsb (Nat.eqb i) idx)) (seq 0 n).

(** A split feature or a threshold that is [None] (as on a leaf) cannot be
    used to compare the column: the comparison raises [TypeError]. *)
Definition _split_data (j_feature : option nat) (threshold : option Q)
           (X : matrix) (y : vec) : result (dataset * dataset) :=
  match j_feature, threshold with
  | Some j, Some t =>
      c <- column X j ;;
      let idx_left := where_le c t 0 in
      let idx_right := delete_arange (length X) idx_left in
      if negb (length idx_left + length idx_right =? length X)
      then Raise AssertionError
      else
        Xl <- take X idx_left ;; yl <- take y idx_left ;;
        Xr <- take X idx_right ;; yr <- take y idx_right ;;
        Ok ((Xl, yl), (Xr, yr))
  | _, _ => Raise TypeError
  end.

(* ------------------------------------------------------------------ *)
(** ** The [PolyTree] object                                           *)
(* ------------------------------------------------------------------ *)

Record PolyTree : Type := mk_PolyTree {
  splitting_criterion : string;
  max_depth : nat;
  min_samples_leaf : option nat;
  order : nat;
  basis : string;
  tree : option node;
  search : string;
  samples : nat;
  cardinality : option nat;
  actual_max_depth : nat;
  all_data : bool;
  k : Q;
  split_dims : option (list nat)
}.

(** [PolyTree.__init__]; the assertions of the constructor raise
    [AssertionError].  [max_depth >= 0] and the check that [split_dims]
    holds integers are carried by the types. *)
Definition __init__ (splitting_criterion : string) (max_depth : nat)
           (min_samples_leaf : option nat) (order : nat) (basis : string)
           (search : string) (samples : nat) (all_data : bool)
           (split_dims : option (list nat)) (k : Q) : result PolyTree :=
  if negb (0 <? order) then Raise AssertionError
  else if negb (0 <? samples) then Raise AssertionError
  else if Qlt_le_dec 0%Q k
       then Ok (mk_PolyTree splitting_criterion max_depth min_samples_leaf
                            order basis None search samples None 0 all_data
                            k split_dims)
       else Raise AssertionError.

(* ------------------------------------------------------------------ *)
(** ** [predict]                                                       *)
(* ------------------------------------------------------------------ *)

(** The cells of the prediction buffer are floats: NaN propagates through
    the arithmetic of the smoothing loop. *)
Definition fmul (a b : float) : float :=
  match a, b with Some x, Some y => Some (x * y)%Q | _, _ => None end.
Definition fadd (a b : float) : float :=
  match a, b with Some x, Some y => Some (x + y)%Q | _, _ => None end.
(** A zero divisor does not occur in [predict] ([k > 0], counts are
    non-negative); it is mapped to NaN. *)
Definition fdiv (a b : float) : float :=
  match a, b with
  | Some x, Some y => if Qeq_bool y 0%Q then None else Some (x / y)%Q
  | _, _ => None
  end.
Definition feq0 (a : float) : bool :=
  match a with Some x => Qeq_bool x 0%Q | None => false end.

(** [y_pred[row][depth]] holds the pair (prediction, sample count). *)
Definition cell := (float * float)%type.
Definition buffer := list (list cell).

Fixpoint set_nth {A} (l : list A) (i : nat) (a : A) : result (list A) :=
  match l, i with
  | [], _ => Raise IndexError
  | _ :: l', 0 => Ok (a :: l')
  | x :: l', S i' => r <- set_nth l' i' a ;; Ok (x :: r)
  end.

(** [y_pred[i, d, :] = c] *)
Definition store (y_pred : buffer) (i d : nat) (c : cell) : result buffer :=
  rb <- getitem y_pred i ;;
  rb' <- set_nth rb d c ;;
  set_nth y_pred i rb'.

(** [y_pred[indexes, d, 0] = vals; y_pred[indexes, d, 1] = n] *)
Fixpoint store_all (y_pred : buffer) (indexes : list nat) (d : nat)
         (vals : list Q) (n : nat) : result buffer :=
  match indexes, vals with
  | i :: indexes', v :: vals' =>
      y_pred' <- store y_pred i d (Some v, Some (Qnat n)) ;;
      store_all y_pred' indexes' d vals' n
  | _, _ => Ok y_pred
  end.

(** [np.where(c > threshold)[0]] *)
Fixpoint where_gt (c : list Q) (t : Q) (i : nat) : list nat :=
  match c with
  | [] => []
  | x :: c' =>
      if Qle_bool x t then where_gt c' t (S i) else i :: where_gt c' t (S i)
  end.

Fixpoint _predict (X : matrix) (nd : node) (indexes : list nat)
         (y_pred : buffer) : result buffer :=
  Xi <- take X indexes ;;
  y_pred <- store_all y_pred indexes (depth nd)
                      (get_polyfit (poly nd) Xi) (n_samples nd) ;;
  match left nd, right nd with
  | None, None => Ok y_pred
  | l, r =>
      match j_feature nd, threshold nd with
      | Some j, Some t =>
          c <- column Xi j ;;
          il <- take indexes (where_le c t 0) ;;
          ir <- take indexes (where_gt c t 0) ;;
          match l with
          | None => Raise TypeError
          | Some l' =>
              y_pred <- _predict X l' il y_pred ;;
              match r with
              | None => Raise TypeError
              | Some r' => _predict X r' ir y_pred
              end
          end
      | _, _ => Raise TypeError
      end
  end.

(** The buffer has [actual_max_depth + 2] levels and the loops only read
    levels [0 .. actual_max_depth + 1], so the default of [nth] is never
    returned. *)
Definition level (rb : list cell) (i : nat) : cell := nth i rb (nan, nan).

(** [while np.isnan(y_pred[y][i][0]) and i > 0: i -= 1] *)
Fixpoint deepest (rb : list cell) (i : nat) : nat :=
  match i with
  | 0 => 0
  | S i' => if isnan (fst (level rb i)) then deepest rb i' else i
  end.

(** [while i > 0: n_i = ...; if n_i == 0: break; smoothed_y = ...; i -= 1] *)
Fixpoint blend (k : Q) (rb : list cell) (i : nat) (smoothed_y : float)
  : float :=
  match i with
  | 0 => smoothed_y
  | S i' =>
      let n_i := snd (level rb i) in
      if feq0 n_i then smoothed_y
      else blend k rb i'
             (fdiv (fadd (fmul smoothed_y n_i) (fmul (fst (level rb i)) (Some k)))
                   (fadd (Some k) n_i))
  end.

Definition smooth (k : Q) (actual_max_depth : nat) (rb : list cell) : float :=
  let i := deepest rb (actual_max_depth + 1) in
  blend k rb i (fst (level rb i)).

Definition predict (self : PolyTree) (X : matrix) : result (list float) :=
  match tree self with
  | None => Raise AssertionError
  | Some t =>
      let y_pred :=
        repeat (repeat (nan, nan) (actual_max_depth self + 2)) (length X) in
      y_pred <- _predict X t (seq 0 (length X)) y_pred ;;
      Ok (map (smooth (k self) (actual_max_depth self)) y_pred)
  end.

(* ------------------------------------------------------------------ *)
(** ** [prune]                                                         *)
(* ------------------------------------------------------------------ *)

(** Reading a key that [prune] has not written yet is a [KeyError]. *)
Definition get_test_loss (nd : node) : result Q :=
  match test_loss nd with
  | Some t => Ok t
  | None => Raise KeyError
  end.

(** The weighted child loss of line 389,
    [(tl * nl + tr * nr) / (nl + nr)].  The counts are Python ints, and
    the test loss of a child that received rows is a NumPy float64; in
    [pruner] the rows of the node, of which there is at least one, are
    divided between the two children, so one of the two test losses is a
    float64 and the quotient is a float64 division.  When both counts are
    zero (a child keeps the count 0 that an earlier [prune] gave it) the
    quotient is [0.0 / 0], which NumPy evaluates to nan with a warning; it
    does not raise. *)
Definition weighted_loss (l r : node) : result float :=
  tl <- get_test_loss l ;;
  tr <- get_test_loss r ;;
  if n_samples l + n_samples r =? 0 then Ok nan
  else Ok (Some ((tl * Qnat (n_samples l) + tr * Qnat (n_samples r))
                 / Qnat (n_samples l + n_samples r))%Q).

(** [tol] is the tolerance after [tol /= 100.0].  The collapse test
    [lower_loss + (tol * test_loss) > test_loss] is false when [lower_loss]
    is nan. *)
Fixpoint pruner (tol : Q) (nd : node) (X_subset : matrix) (y_subset : vec)
  : result node :=
  if length X_subset <? 1 then
    Ok (set_n_samples (set_test_loss nd 0%Q) 0)
  else
    t <- mse (poly nd) X_subset y_subset ;;
    let nd1 := set_test_loss nd t in
    match left nd, right nd with
    | Some l, Some r =>
        parts <- _split_data (j_feature nd) (threshold nd) X_subset y_subset ;;
        let '((X_left, y_left), (X_right, y_right)) := parts in
        l' <- pruner tol l X_left y_left ;;
        r' <- pruner tol r X_right y_right ;;
        lower <- weighted_loss l' r' ;;
        let nd2 := set_lower_loss (set_children nd1 (Some l') (Some r')) lower in
        if fgt (fadd lower (Some (tol * t)%Q)) (Some t)
        then Ok (set_children nd2 None None)
        else Ok nd2
    | _, _ => Ok nd1
    end.

Definition set_tree (self : PolyTree) (t : option node) : PolyTree :=
  mk_PolyTree (splitting_criterion self) (max_depth self)
              (min_samples_leaf self) (order self) (basis self) t
              (search self) (samples self) (cardinality self)
              (actual_max_depth self) (all_data self) (k self)
              (split_dims self).

(** [prune] mutates the tree in place; the model returns the object after
    the call. *)
Definition prune (self : PolyTree) (X : matrix) (y : vec) (tol : Q)
  : result PolyTree :=
  let tol := (tol / 100)%Q in
  match tree self with
  | None => Raise AssertionError
  | Some root =>
      parts <- _split_data (j_feature root) (threshold root) X y ;;
      let '((X_left, y_left), (X_right, y_right)) := parts in
      l <- some_node (left root) ;;
      l' <- pruner tol l X_left y_left ;;
      r <- some_node (right root) ;;
      r' <- pruner tol r X_right y_right ;;
      Ok (set_tree self (Some (set_children root (Some l') (Some r'))))
  end.

(* ------------------------------------------------------------------ *)
(** ** Sorting and [np.unique]                                         *)
(* ------------------------------------------------------------------ *)

Fixpoint insert_sorted (x : Q) (l : list Q) : list Q :=
  match l with
  | [] => [x]
  | y :: l' => if Qle_bool x y then x :: l else y :: insert_sorted x l'
  end.

(** [np.sort] *)
Fixpoint np_sort (l : list Q) : list Q :=
  match l with
  | [] => []
  | x :: l' => insert_sorted x (np_sort l')
  end.

(** Drop repeated values of a sorted array. *)
Fixpoint dedup (l : list Q) : list Q :=
  match l with
  | [] => []
  | x :: l' =>
      match l' with
      | [] => [x]
      | y :: _ => if Qeq_bool x y then dedup l' else x :: dedup l'
      end
  end.

(** [np.unique(a)]: the sorted distinct values of [a]. *)
Definition np_unique (a : list Q) : list Q := dedup (np_sort a).

(** Index of the first occurrence of [v] in [a]. *)
Fixpoint first_index (v : Q) (a : list Q) : nat :=
  match a with
  | [] => 0
  | x :: a' => if Qeq_bool x v then 0 else S (first_index v a')
  end.

(** [np.unique(a, return_index=True)[1]]: for each distinct value, in
    increasing order, the index of its first occurrence in [a]. *)
Definition np_unique_index (a : list Q) : list nat :=
  map (fun v => first_index v a) (np_unique a).

(** [y[-1] = v] on a non-empty array. *)
Definition set_last (y : list Q) (v : Q) : list Q :=
  match rev y with
  | [] => []
  | _ :: r => rev (v :: r)
  end.

(** [np.linspace(start, stop, num=num)], as NumPy computes it in float64:
    [delta = stop - start], [step = delta / div] with [div = num - 1],
    [y = arange(0, num) * step + start], and the last entry is then set to
    [stop] itself.  Every operation rounds.  When [div] is 0 the array
    [arange(0, num) * delta + start] is returned (it is empty or [[start]]),
    and when [step] is 0 NumPy computes [arange(0, num) / div * delta].
    The grid points other than the two ends are therefore in general not
    data values, and not the exact rational grid either. *)
Definition np_linspace (start stop : Q) (num : nat) : list Q :=
  let div := num - 1 in
  let delta := fl64 (stop - start) in
  let y := map Qnat (seq 0 num) in
  let y :=
    if 0 <? div then
      let step := fl64 (delta / Qnat div) in
      if Qeq_bool step 0 then
        map (fun v => fl64 (fl64 (v / Qnat div) * delta)) y
      else map (fun v => fl64 (v * step)) y
    else map (fun v => fl64 (v * delta)) y in
  let y := map (fun v => fl64 (v + start)) y in
  if 1 <? num then set_last y stop else y.

Definition Qmin_list (l : list Q) : result Q :=
  match np_sort l with
  | [] => Raise ValueError
  | x :: _ => Ok x
  end.

Definition Qmax_list (l : list Q) : result Q :=
  match rev (np_sort l) with
  | [] => Raise ValueError
  | x :: _ => Ok x
  end.

(** [np.argmax] on a float64 array: the first index that holds the
    maximum, and the index of the first nan when there is one.  NumPy's
    loop keeps the running maximum [mp], replaces it by [x] when
    [!(x <= mp)], and stops as soon as [mp] is nan. *)
Fixpoint argmax_from (l : list float) (i best_i : nat) (best : float) : nat :=
  match l with
  | [] => best_i
  | x :: l' =>
      if isnan best then best_i
      else if negb (fle x best) then argmax_from l' (S i) i x
      else argmax_from l' (S i) best_i best
  end.

Definition np_argmax (l : list float) : nat :=
  match l with
  | [] => 0
  | x :: l' => argmax_from l' 1 0 x
  end.

(* ------------------------------------------------------------------ *)
(** ** External collaborators                                          *)
(* ------------------------------------------------------------------ *)

(** The polynomial library and the numerical routines whose values are not
    rational are taken as an interface:
    - [Poly_set_model X y]: [Poly(...)] followed by [set_model()], the
      least-squares fit of a surrogate to the samples; it may fail;
    - [np_std]: NumPy's standard deviation of a non-empty array (of an
      empty array it is nan, see [std_reduction]);
    - [grad_gain model X y d s]: the gain (Eq. (6) of ref. [2], after
      renormalisation) of the boundary at sorted position [s] along
      dimension [d], computed from the gradients of [model]; it is a
      float64 and can be nan (the renormalisation divides by [N_l - 1]
      and [N_r - 1], and by standard deviations);
    - [get_cardinality basis order d]: the cardinality of the basis. *)
Class External : Type := {
  Poly_set_model : matrix -> vec -> result Poly;
  np_std : vec -> Q;
  grad_gain : Poly -> matrix -> vec -> nat -> nat -> float;
  get_cardinality : string -> nat -> nat -> nat
}.

(* ------------------------------------------------------------------ *)
(** ** The state of a build                                            *)
(* ------------------------------------------------------------------ *)

(** [fit] runs closures that mutate the tree object ([self]) and the
    counter [container["index_node_global"]].  [solver_calls] is a ghost
    trace: every invocation of the external solver is appended to it. *)
Record world : Type := mk_world {
  self : PolyTree;
  index_node_global : nat;
  solver_calls : list dataset
}.

Definition M (A : Type) : Type := world -> result (A * world).

Definition ret {A} (a : A) : M A := fun w => Ok (a, w).
Definition raise {A} (e : exn) : M A := fun _ => Raise e.
Definition bind {A B} (m : M A) (f : A -> M B) : M B :=
  fun w => match m w with
           | Ok (a, w') => f a w'
           | Raise e => Raise e
           end.
Definition lift {A} (r : result A) : M A :=
  fun w => match r with Ok a => Ok (a, w) | Raise e => Raise e end.
Definition get_self : M PolyTree := fun w => Ok (self w, w).
(** An assignment to an attribute of [self]. *)
Definition modify_self (f : PolyTree -> PolyTree) : M unit :=
  fun w => Ok (tt, mk_world (f (self w)) (index_node_global w)
                            (solver_calls w)).

Declare Scope build_scope.
Delimit Scope build_scope with build.
Notation "x <-- m ;; k" := (bind m (fun x => k))
  (at level 100, m at next level, right associativity) : build_scope.
Notation "' p <-- m ;; k" := (bind m (fun x => let p := x in k))
  (at level 100, p pattern, m at next level, right associativity)
  : build_scope.
Local Open Scope build_scope.

(** A monadic left fold: the body of a [for] loop run over a list. *)
Fixpoint foldM {A B} (f : A -> B -> M A) (l : list B) (a : A) : M A :=
  match l with
  | [] => ret a
  | b :: l' => a' <-- f a b ;; foldM f l' a'
  end.

(** The running best loss; [Inf] is [np.inf]. *)
Inductive Qinf : Type :=
| Fin (q : Q)
| Inf.

(** [x < b] *)
Definition lt_inf (x : Q) (b : Qinf) : bool :=
  match b with
  | Inf => true
  | Fin q => if Qlt_le_dec x q then true else false
  end.

(** The dictionary returned by [_splitter]; during the search the same
    fields are the local variables [did_split], [loss_best], [polys_best],
    [data_best], [j_feature_best] and [threshold_best]. *)
Module Result.
Record t : Type := mk {
  did_split : bool;
  loss : Qinf;
  polys : option (Poly * Poly);
  data : option (dataset * dataset);
  j_feature : option nat;
  threshold : option Q;
  N : nat
}.
End Result.

Definition set_split_dims (s : PolyTree) (d : option (list nat)) : PolyTree :=
  mk_PolyTree (splitting_criterion s) (max_depth s) (min_samples_leaf s)
              (order s) (basis s) (tree s) (search s) (samples s)
              (cardinality s) (actual_max_depth s) (all_data s) (k s) d.

Definition set_actual_max_depth (s : PolyTree) (d : nat) : PolyTree :=
  mk_PolyTree (splitting_criterion s) (max_depth s) (min_samples_leaf s)
              (order s) (basis s) (tree s) (search s) (samples s)
              (cardinality s) d (all_data s) (k s) (split_dims s).

(** The three assignments of [fit] before the build:
    [self.cardinality], [self.min_samples_leaf] and [self.k]. *)
Definition set_fit_params (s : PolyTree) (card msl : nat) (k' : Q)
  : PolyTree :=
  mk_PolyTree (splitting_criterion s) (max_depth s) (Some msl)
              (order s) (basis s) (tree s) (search s) (samples s)
              (Some card) (actual_max_depth s) (all_data s) k'
              (split_dims s).

(** [X.shape] *)
Definition shape (X : matrix) : nat * nat := (length X, length (hd [] X)).

Definition tick : M unit :=
  fun w => Ok (tt, mk_world (self w) (S (index_node_global w))
                            (solver_calls w)).

Definition get_index : M nat := fun w => Ok (index_node_global w, w).

Definition reset_index : M unit :=
  fun w => Ok (tt, mk_world (self w) 0 (solver_calls w)).

Definition the {A} (o : option A) (e : exn) : result A :=
  match o with
  | Some a => Ok a
  | None => Raise e
  end.

Fixpoint foldR {A B} (f : A -> B -> result A) (l : list B) (a : A)
  : result A :=
  match l with
  | [] => Ok a
  | b :: l' => a' <- f a b ;; foldR f l' a'
  end.

(** The running best of the gradient selector; [gain_max = None] is
    [-np.inf]. *)
Record grad_best : Type := mk_grad_best {
  gain_max : option Q;
  best_split_dim : option nat;
  best_split_val : option Q
}.

(** [gain > gain_max] for a gain that is a number. *)
Definition gt_ninf (g : Q) (m : option Q) : bool :=
  match m with
  | None => true
  | Some q => if Qlt_le_dec q g then true else false
  end.

(** The candidate boundaries of one dimension: [splits] after
    [splits = splits[1:]] and [splits = splits[idx]]. *)
Definition grad_splits (msl N : nat) (Xd : list Q) : list nat :=
  filter (fun s => msl <=? Nat.min s (N - s)) (tl (np_unique_index Xd)).

Section Build.
Context {E : External}.

Definition call_solver (X : matrix) (y : vec) : M Poly :=
  fun w => match Poly_set_model X y with
           | Ok p => Ok (p, mk_world (self w) (index_node_global w)
                                     (solver_calls w ++ [(X, y)]))
           | Raise e => Raise e
           end.

(** [_fit_poly]: the extrema of an empty column raise [ValueError]. *)
Definition _fit_poly (X : matrix) (y : vec) : M (Q * Poly) :=
  _ <-- (if length X =? 0 then raise ValueError else ret tt) ;;
  _ <-- tick ;;
  poly <-- call_solver X y ;;
  m <-- lift (mse poly X y) ;;
  ret (m, poly).

(** The body of [for d in self.split_dims] in [_find_split_from_grad].
    [gain > gain_max] is false when the gain is nan, so [gain_max] is
    only replaced by a number.  The split value [0.5*(Xd[s-1] + Xd[s])] is computed in
    float64: the sum rounds, and the result can coincide with either of
    the two feature values. *)
Definition grad_step (model : Poly) (X : matrix) (y : vec) (msl N : nat)
           (acc : grad_best) (d : nat) : result grad_best :=
  c <- column X d ;;
  let Xd := np_sort c in
  let splits := grad_splits msl N Xd in
  if length splits <=? 1 then Ok acc
  else
    let gain := map (grad_gain model X y d) splits in
    let best_idx := np_argmax gain in
    gain <- getitem gain best_idx ;;
    match gain with
    | None => Ok acc
    | Some g =>
        if gt_ninf g (gain_max acc) then
          s <- getitem splits best_idx ;;
          a <- getitem Xd (s - 1) ;;
          b <- getitem Xd s ;;
          Ok (mk_grad_best (Some g) (Some d)
                           (Some (fl64 ((1 # 2) * fl64 (a + b)))))
        else Ok acc
    end.

Definition _find_split_from_grad (s : PolyTree) (model : Poly) (X : matrix)
           (y : vec) : result (bool * option nat * option Q) :=
  let N := length X in
  dims <- the (split_dims s) TypeError ;;
  msl <- the (min_samples_leaf s) TypeError ;;
  best <- foldR (grad_step model X y msl N) dims
                (mk_grad_best None None None) ;;
  match gain_max best with
  | None => Ok (false, None, None)
  | Some _ => Ok (true, best_split_dim best, best_split_val best)
  end.

(** [(N_left*loss_left + N_right*loss_right) / N] *)
Definition weighted_split_loss (N_left N_right N : nat)
           (loss_left loss_right : Q) : Q :=
  ((Qnat N_left * loss_left + Qnat N_right * loss_right) / Qnat N)%Q.

(** [np.std(y) - (N_left*np.std(y_left) + N_right*np.std(y_right)) / N].
    [np.std] of an empty array is nan (NumPy warns and returns nan), and
    nan propagates through the expression. *)
Definition std_reduction (N_left N_right N : nat) (y y_left y_right : vec)
  : float :=
  if (length y =? 0) || (length y_left =? 0) || (length y_right =? 0)
  then nan
  else Some (np_std y - (Qnat N_left * np_std y_left
                         + Qnat N_right * np_std y_right) / Qnat N)%Q.

(** The body of [for threshold in np.unique(np.sort(threshold_search))].
    With the model-agnostic criterion [loss_split < loss_best] is false
    when the score is nan. *)
Definition try_threshold (s : PolyTree) (X : matrix) (y : vec) (N : nat)
           (j_feature : nat) (acc : Result.t) (threshold : Q)
  : M Result.t :=
  parts <-- lift (_split_data (Some j_feature) (Some threshold) X y) ;;
  let '((X_left, y_left), (X_right, y_right)) := parts in
  let N_left := length X_left in
  let N_right := length X_right in
  msl <-- lift (the (min_samples_leaf s) TypeError) ;;
  if negb ((msl <=? N_left) && (msl <=? N_right)) then ret acc
  else if (splitting_criterion s =? "model_aware")%string then
    fl <-- _fit_poly X_left y_left ;;
    fr <-- _fit_poly X_right y_right ;;
    let loss_split :=
      weighted_split_loss N_left N_right N (fst fl) (fst fr) in
    if lt_inf loss_split (Result.loss acc) then
      ret (Result.mk true (Fin loss_split) (Some (snd fl, snd fr))
                     (Some parts) (Some j_feature) (Some threshold) N)
    else ret acc
  else if (splitting_criterion s =? "model_agnostic")%string then
    let loss_split := std_reduction N_left N_right N y y_left y_right in
    match loss_split with
    | Some L =>
        if lt_inf L (Result.loss acc) then
          ret (Result.mk true (Fin L) (Result.polys acc)
                         (Some parts) (Some j_feature) (Some threshold) N)
        else ret acc
    | None => ret acc
    end
  else raise (Exception "invalid splitting_criterion").

(** The array [threshold_search] of the chosen search mode. *)
Definition threshold_search (s : PolyTree) (X : matrix) (N j_feature : nat)
  : result (list Q) :=
  if (search s =? "exhaustive")%string then column X j_feature
  else if (search s =? "grid")%string then
    let samples := if N <? samples s then N else samples s in
    c <- column X j_feature ;;
    lo <- Qmin_list c ;;
    hi <- Qmax_list c ;;
    Ok (np_linspace lo hi samples)
  else Raise (Exception "Incorrect search type!").

(** The body of [for j_feature in range(d)]. *)
Definition search_feature (s : PolyTree) (X : matrix) (y : vec) (N : nat)
           (acc : Result.t) (j_feature : nat) : M Result.t :=
  ts <-- lift (threshold_search s X N j_feature) ;;
  foldM (try_threshold s X y N j_feature) (np_unique (np_sort ts)) acc.

(** [_splitter], the choice of the initial [loss_best]. *)
Definition initial_loss (s : PolyTree) (nd : node) : M Qinf :=
  if (splitting_criterion s =? "model_aware")%string then
    ret (Fin (loss nd))
  else if ((splitting_criterion s =? "model_agnostic")
           || (splitting_criterion s =? "loss_gradient"))%string then
    ret Inf
  else raise (Exception "invalid splitting_criterion").

(** [_splitter], the block under
    [if (depth >= 0) and (depth < self.max_depth)]. *)
Definition split_search (s : PolyTree) (nd : node) (X : matrix) (y : vec)
           (N d : nat) (loss_best : Qinf) : M Result.t :=
  let init := Result.mk false loss_best None None None None N in
  if depth nd <? max_depth s then
    if negb (splitting_criterion s =? "loss_gradient")%string then
      foldM (search_feature s X y N) (seq 0 d) init
    else
      f <-- _fit_poly X y ;;
      r <-- lift (_find_split_from_grad s (snd f) X y) ;;
      let '(did, j, t) := r in
      ret (Result.mk did loss_best None None j t N)
  else ret init.

(** [_splitter], the block under
    [if self.splitting_criterion != "model_aware" and did_split]. *)
Definition fit_children (s : PolyTree) (X : matrix) (y : vec) (N : nat)
           (best : Result.t) : M Result.t :=
  if negb (splitting_criterion s =? "model_aware")%string
     && Result.did_split best then
    parts <-- lift (_split_data (Result.j_feature best)
                                (Result.threshold best) X y) ;;
    let '((X_left, y_left), (X_right, y_right)) := parts in
    fl <-- _fit_poly X_left y_left ;;
    fr <-- _fit_poly X_right y_right ;;
    let N_left := length X_left in
    let N_right := length X_right in
    let loss_best :=
      weighted_split_loss N_left N_right N (fst fl) (fst fr) in
    ret (Result.mk true (Fin loss_best) (Some (snd fl, snd fr))
           (if (splitting_criterion s =? "loss_gradient")%string
            then Some parts else Result.data best)
           (Result.j_feature best) (Result.threshold best) N)
  else ret best.

(** [if self.split_dims is None: self.split_dims = range(d)] *)
Definition default_split_dims (d : nat) (s0 : PolyTree) : PolyTree :=
  match split_dims s0 with
  | None => set_split_dims s0 (Some (seq 0 d))
  | Some _ => s0
  end.

(** [if did_split and depth > self.actual_max_depth:
       self.actual_max_depth = depth] *)
Definition record_depth (did_split : bool) (depth : nat) (s1 : PolyTree)
  : PolyTree :=
  if did_split && (actual_max_depth s1 <? depth)
  then set_actual_max_depth s1 depth
  else s1.

Definition _splitter (nd : node) : M Result.t :=
  d0 <-- lift (the (data nd) KeyError) ;;
  let '(X, y) := d0 in
  let '(N, d) := shape X in
  _ <-- modify_self (default_split_dims d) ;;
  s <-- get_self ;;
  loss_best <-- initial_loss s nd ;;
  best <-- split_search s nd X y N d loss_best ;;
  best <-- fit_children s X y N best ;;
  _ <-- modify_self (record_depth (Result.did_split best) (depth nd)) ;;
  ret best.

Definition _create_node (X : matrix) (y : vec) (depth : nat) : M node :=
  f <-- _fit_poly X y ;;
  i <-- get_index ;;
  let nd := mk_node i (fst f) (snd f) (Some (X, y)) (length X) None None
                    None None depth false None None in
  _ <-- tick ;;
  ret nd.

(** The recursion of [_split_traverse_node] descends only after a split,
    and a node splits only while [depth < max_depth]; [fuel] counts the
    levels that remain, and the branch for [fuel = 0] is never taken when
    the traversal starts with [max_depth - depth] (see
    [_split_traverse_node_fuel]). *)
Fixpoint _split_traverse_node (fuel : nat) (nd : node) : M node :=
  result <-- _splitter nd ;;
  if negb (Result.did_split result) then ret nd
  else
    match fuel with
    | 0 => raise RecursionError
    | S fuel' =>
        let nd1 := set_split nd (Result.j_feature result)
                             (Result.threshold result) in
        s <-- get_self ;;
        let nd2 := if negb (all_data s) then del_data nd1 else nd1 in
        parts <-- lift (the (Result.data result) TypeError) ;;
        let '((X_left, y_left), (X_right, y_right)) := parts in
        ps <-- lift (the (Result.polys result) TypeError) ;;
        let '(poly_left, poly_right) := ps in
        l <-- _create_node X_left y_left (depth nd + 1) ;;
        r <-- _create_node X_right y_right (depth nd + 1) ;;
        let l1 := set_poly l poly_left in
        let r1 := set_poly r poly_right in
        l' <-- _split_traverse_node fuel' l1 ;;
        r' <-- _split_traverse_node fuel' r1 ;;
        ret (set_children nd2 (Some l') (Some r'))
    end.

Definition _build_tree (X : matrix) (y : vec) : M node :=
  _ <-- reset_index ;;
  root <-- _create_node X y 0 ;;
  s <-- get_self ;;
  _split_traverse_node (max_depth s) root.

(** [int(np.ceil(cardinality * 1.25))] *)
Definition ceil_125 (c : nat) : nat := (5 * c + 3) / 4.

(** [fit] mutates the object; the model returns the object after the
    call. *)
Definition fit (s : PolyTree) (X : matrix) (y : vec) : result PolyTree :=
  let '(N, d) := shape X in
  let card := get_cardinality (basis s) (order s) d in
  let msl :=
    match min_samples_leaf s with
    | None => ceil_125 card
    | Some m => if m =? card then ceil_125 card else m
    end in
  let s1 := set_fit_params s card msl (k s * Qnat msl)%Q in
  match _build_tree X y (mk_world s1 0 []) with
  | Ok (root, w) => Ok (set_tree (self w) (Some root))
  | Raise e => Raise e
  end.

End Build.

(* ------------------------------------------------------------------ *)
(** ** Example objects                                                 *)
(* ------------------------------------------------------------------ *)

Definition leaf (i : nat) (p : Poly) (n d : nat) : node :=
  mk_node i 0%Q p None n None None None None d false None None.

Definition split_node (i : nat) (p : Poly) (n d : nat) (j : nat) (t : Q)
           (l r : node) : node :=
  mk_node i 0%Q p None n (Some j) (Some t) (Some l) (Some r) d false
          None None.

Definition const_poly (c : Q) : Poly := fun _ => c.
Definition first_coord : Poly := fun r => hd 0%Q r.

Definition tree_of (root : node) (amd : nat) (k : Q) : PolyTree :=
  mk_PolyTree "model_aware" 5 (Some 2) 1 "total-order" (Some root)
              "exhaustive" 50 (Some 2) amd false k (Some [0]).

(** A root that splits the line at 2 into two leaves.  The root's
    polynomial is the identity, the leaves predict the constant 0. *)
Definition stump : node :=
  split_node 1 first_coord 4 0 0 2%Q
             (leaf 5 (const_poly 0) 2 1) (leaf 7 (const_poly 0) 2 1).

(** A root whose left child is itself split. *)
Definition two_level : node :=
  split_node 1 first_coord 8 0 0 10%Q
             (split_node 5 first_coord 4 1 0 5%Q
                         (leaf 9 (const_poly 1) 2 2)
                         (leaf 11 (const_poly 2) 2 2))
             (leaf 7 (const_poly 3) 4 1).

(** An example of the external interface: the solver fits the
    least-squares constant, the standard deviation is taken with an
    integer square root (exact on perfect squares), the gain is that of
    the intercept gradient alone, and the basis is total-order. *)
Definition mean (y : vec) : Q := (Qsum y / Qlen y)%Q.

Definition Qsqrt_floor (q : Q) : Q :=
  let r := Qred q in
  (inject_Z (Z.sqrt (Qnum r)) / inject_Z (Z.sqrt (Zpos (Qden r))))%Q.

Definition example_std (y : vec) : Q :=
  Qsqrt_floor (Qsum (map (fun v => ((v - mean y) * (v - mean y))%Q) y)
               / Qlen y)%Q.

Definition example_gain (model : Poly) (X : matrix) (y : vec) (d s : nat)
  : float :=
  let col := map (fun r => nth d r 0%Q) X in
  let b := nth s (np_sort col) 0%Q in
  let res := map (fun p => (snd p - model (fst p))%Q) (combine X y) in
  let gl := Qsum (map snd (filter (fun p => negb (Qle_bool b (fst p)))
                                  (combine col res))) in
  let gr := (Qsum res - gl)%Q in
  Some (gl * gl / Qnat s + gr * gr / Qnat (length X - s))%Q.

Fixpoint binom (n k : nat) : nat :=
  match n, k with
  | _, 0 => 1
  | 0, S _ => 0
  | S n', S k' => binom n' k' + binom n' k
  end.

#[export] Instance example_external : External := {|
  Poly_set_model := fun X y => Ok (const_poly (mean y));
  np_std := example_std;
  grad_gain := example_gain;
  get_cardinality := fun _ order d => binom (order + d) d
|}.

(** Six samples on a line with a jump between 3 and 4. *)
Definition X6 : matrix :=
  [[1%Q]; [2%Q]; [3%Q]; [4%Q]; [5%Q]; [6%Q]].
Definition y6 : vec := [1%Q; 1%Q; 1%Q; 5%Q; 5%Q; 5%Q].

Definition new_tree (criterion search : string) (max_depth : nat)
           (msl : option nat) (k : Q) : PolyTree :=
  mk_PolyTree criterion max_depth msl 1 "total-order" None search 50 None
              0 false k None.

(** A tree object fitted once, and the same object fitted a second time. *)
Definition unfitted : PolyTree :=
  new_tree "model_aware" "exhaustive" 2 None (1 # 20).

Definition fitted_once : PolyTree :=
  match fit unfitted X6 y6 with
  | Ok s => s
  | Raise _ => unfitted
  end.

Definition fitted_twice : PolyTree :=
  match fit fitted_once X6 y6 with
  | Ok s => s
  | Raise _ => fitted_once
  end.

(* ------------------------------------------------------------------ *)
(** ** Predicates used in the statements                              *)
(* ------------------------------------------------------------------ *)

(** What [_splitter] reports about an accepted split: the two parts are
    those of [_split_data] at the reported feature and threshold. *)
Definition reports_split (X : matrix) (y : vec) (r : Result.t)
           (j : nat) (t : Q) (Xl : matrix) (yl : vec) (Xr : matrix)
           (yr : vec) : Prop :=
  Result.j_feature r = Some j
  /\ Result.threshold r = Some t
  /\ Result.data r = Some ((Xl, yl), (Xr, yr))
  /\ _split_data (Some j) (Some t) X y = Ok ((Xl, yl), (Xr, yr)).

(** ... and the two children were fitted on these parts; the reported
    loss is the size-weighted average of their losses. *)
Definition reports_fits {E : External} (N : nat) (r : Result.t)
           (Xl : matrix) (yl : vec) (Xr : matrix) (yr : vec) : Prop :=
  exists pl pr ll lr,
    Result.polys r = Some (pl, pr)
    /\ Poly_set_model Xl yl = Ok pl /\ mse pl Xl yl = Ok ll
    /\ Poly_set_model Xr yr = Ok pr /\ mse pr Xr yr = Ok lr
    /\ Result.loss r
       = Fin (weighted_split_loss (length Xl) (length Xr) N ll lr).

(** The invariant of the model-aware search; [p] is the parent's loss. *)
Definition aware_inv {E : External} (msl N : nat) (X : matrix) (y : vec)
           (p : Q) (acc : Result.t) : Prop :=
  exists b,
    Result.loss acc = Fin b
    /\ (b <= p)%Q
    /\ (Result.did_split acc = false ->
        acc = Result.mk false (Fin p) None None None None N)
    /\ (Result.did_split acc = true ->
        (b < p)%Q
        /\ exists j t Xl yl Xr yr,
            reports_split X y acc j t Xl yl Xr yr
            /\ msl <= length Xl /\ msl <= length Xr
            /\ reports_fits N acc Xl yl Xr yr).


(** The root node of the six samples under the example solver (the
    constant 3, with loss 4), and a state of the build right after the
    root was created. *)
Definition root6 : node :=
  mk_node 1 4%Q (const_poly 3) (Some (X6, y6)) 6 None None None None 0
          false None None.

Definition world6 (criterion search : string) (msl : nat) : world :=
  mk_world (mk_PolyTree criterion 2 (Some msl) 1 "total-order" None search
                        50 (Some 2) 0 false (3 # 20) None)
           2 [(X6, y6)].


(** Seven samples on a line; the fourth and the fifth feature values are
    the float64 numbers next to 1, [1 + 2^-52] and [1 + 2^-51], and the
    output jumps between them. *)
Definition X7 : matrix :=
  [[0%Q]; [(1 # 4)%Q]; [(1 # 2)%Q];
   [(4503599627370497 # 4503599627370496)%Q];
   [(2251799813685249 # 2251799813685248)%Q]; [(3 # 2)%Q]; [2%Q]].
Definition y7 : vec := [0%Q; 0%Q; 0%Q; 0%Q; 1%Q; 1%Q; 1%Q].

(** Two samples that share their only feature value, their root node
    under the example solver (the constant 3/2, with loss 1/4), and a
    state of the build with [min_samples_leaf = 0]. *)
Definition X2 : matrix := [[1%Q]; [1%Q]].
Definition y2 : vec := [1%Q; 2%Q].

Definition root2 : node :=
  mk_node 1 (1 # 4) (const_poly (3 # 2)) (Some (X2, y2)) 2 None None None
          None 0 false None None.

Definition world2 : world :=
  mk_world (mk_PolyTree "model_agnostic" 2 (Some 0) 1 "total-order" None
                        "exhaustive" 50 (Some 2) 0 false (1 # 20) None)
           2 [(X2, y2)].

(** The invariant of the model-agnostic search, started in world [w1]:
    the search leaves the world alone, fits nothing, keeps [loss_best] at
    infinity until a candidate is accepted, and an accepted candidate
    respects [min_samples_leaf]. *)
Definition agnostic_inv (s : PolyTree) (X : matrix) (y : vec) (w1 : world)
           (acc : Result.t) (w0 : world) : Prop :=
  w0 = w1
  /\ Result.polys acc = None
  /\ (Result.did_split acc = false -> Result.loss acc = Inf)
  /\ (Result.did_split acc = true ->
      exists msl j t Xl yl Xr yr,
        min_samples_leaf s = Some msl
        /\ reports_split X y acc j t Xl yl Xr yr
        /\ msl <= length Xl /\ msl <= length Xr).



(** The candidate boundaries that remain for dimension [d] in the
    gradient selector. *)
Definition dim_splits (msl : nat) (X : matrix) (d : nat)
  : result (list nat) :=
  c <- column X d ;; Ok (grad_splits msl (length X) (np_sort c)).

(** Dimension [d], with the candidate boundaries [sp], is passed over by
    the gradient selector: fewer than two candidates remain, or the gain of
    some candidate is nan (then [np.argmax] returns the first nan, and
    [gain > gain_max] is false). *)
Definition passed_over {E : External} (model : Poly) (X : matrix) (y : vec)
           (d : nat) (sp : list nat) : Prop :=
  length sp <= 1 \/ exists s, In s sp /\ grad_gain model X y d s = nan.

(** The invariant of the loop over dimensions of the gradient selector,
    after the dimensions [processed]: either every one of them was passed
    over, or the running best is a boundary [s] of a dimension [d] that was
    not, with the largest gain so far and strictly larger than the gains of
    the dimensions before [d]. *)
Definition grad_inv {E : External} (model : Poly) (X : matrix) (y : vec)
           (msl : nat) (processed : list nat) (acc : grad_best) : Prop :=
  match gain_max acc with
  | None =>
      best_split_dim acc = None /\ best_split_val acc = None
      /\ forall d sp, In d processed -> dim_splits msl X d = Ok sp ->
                      passed_over model X y d sp
  | Some g =>
      exists d s c a b pre post,
        processed = pre ++ d :: post
        /\ best_split_dim acc = Some d
        /\ column X d = Ok c
        /\ 2 <= length (grad_splits msl (length X) (np_sort c))
        /\ In s (grad_splits msl (length X) (np_sort c))
        /\ grad_gain model X y d s = Some g
        /\ getitem (np_sort c) (s - 1) = Ok a
        /\ getitem (np_sort c) s = Ok b
        /\ best_split_val acc = Some (fl64 ((1 # 2) * fl64 (a + b)))
        /\ (forall s', In s' (grad_splits msl (length X) (np_sort c)) ->
               exists g', grad_gain model X y d s' = Some g' /\ (g' <= g)%Q)
        /\ (forall d' sp' s' g',
               In d' pre -> dim_splits msl X d' = Ok sp' ->
               ~ passed_over model X y d' sp' -> In s' sp' ->
               grad_gain model X y d' s' = Some g' -> (g' < g)%Q)
        /\ (forall d' sp' s' g',
               In d' post -> dim_splits msl X d' = Ok sp' ->
               ~ passed_over model X y d' sp' -> In s' sp' ->
               grad_gain model X y d' s' = Some g' -> (g' <= g)%Q)
  end.




(** Every child in the tree below [nd] holds at least [msl] training
    samples. *)
Fixpoint children_at_least (msl : nat) (nd : node) : Prop :=
  match left nd with
  | Some l => msl <= n_samples l /\ children_at_least msl l
  | None => True
  end
  /\ match right nd with
     | Some r => msl <= n_samples r /\ children_at_least msl r
     | None => True
     end.

(** What a build step may change: of [self] only [split_dims] and
    [actual_max_depth]; the solver trace only grows. *)
Record extends (w w' : world) : Prop := mk_extends {
  ext_criterion :
    splitting_criterion (self w') = splitting_criterion (self w);
  ext_max_depth : max_depth (self w') = max_depth (self w);
  ext_min_samples_leaf :
    min_samples_leaf (self w') = min_samples_leaf (self w);
  ext_search : search (self w') = search (self w);
  ext_samples : samples (self w') = samples (self w);
  ext_all_data : all_data (self w') = all_data (self w);
  ext_k : k (self w') = k (self w);
  ext_cardinality : cardinality (self w') = cardinality (self w);
  ext_tree : tree (self w') = tree (self w);
  ext_calls : exists c, solver_calls w' = solver_calls w ++ c
}.

(** A build step that respects [extends]. *)
Definition preserves {A} (m : M A) : Prop :=
  forall w a w', m w = Ok (a, w') -> extends w w'.


(** Two rows of the prediction buffer that differ at most in the cell of
    depth 0, and two buffers whose rows are so related. *)
Definition same_below (ra rb : list cell) : Prop :=
  length ra = length rb /\ tl ra = tl rb.

Definition buffers_agree_below (a b : buffer) : Prop :=
  length a = length b
  /\ forall i ra rb,
      nth_error a i = Some ra -> nth_error b i = Some rb -> same_below ra rb.

(** Row [i] of the buffer holds a prediction at depth [d]. *)
Definition recorded (b : buffer) (i d : nat) : Prop :=
  exists rb, nth_error b i = Some rb /\ isnan (fst (level rb d)) = false.

(** Two outcomes that fail alike or succeed with related values. *)
Definition rel_result {A} (R : A -> A -> Prop) (x y : result A) : Prop :=
  match x, y with
  | Ok a, Ok b => R a b
  | Raise e, Raise e' => e = e'
  | _, _ => False
  end.

Fixpoint height (nd : node) : nat :=
  S (Nat.max (match left nd with Some l => height l | None => 0 end)
             (match right nd with Some r => height r | None => 0 end)).


(** Buffer [b'] keeps the rows of [b] in number and length and keeps every
    prediction that [b] holds. *)
Definition keeps_records (b b' : buffer) : Prop :=
  length b' = length b
  /\ (forall i r r', nth_error b i = Some r -> nth_error b' i = Some r' ->
                     length r' = length r)
  /\ (forall i d, recorded b i d -> recorded b' i d).

(* ------------------------------------------------------------------ *)
(** ** Traversal utilities                                             *)
(* ------------------------------------------------------------------ *)

(** An entry [[threshold, j_feature]] of the list built by [get_splits];
    both fields are [None] on a node that never split. *)
Definition split_entry := (option Q * option nat)%type.

Definition opt_eqb {A} (eqb : A -> A -> bool) (a b : option A) : bool :=
  match a, b with
  | Some x, Some y => eqb x y
  | None, None => true
  | _, _ => false
  end.

(** [==] on two such lists. *)
Definition entry_eqb (a b : split_entry) : bool :=
  opt_eqb Qeq_bool (fst a) (fst b) && opt_eqb Nat.eqb (snd a) (snd b).

(** [if e not in splits: splits.append(e)] *)
Definition append_new (e : split_entry) (splits : list split_entry)
  : list split_entry :=
  if existsb (entry_eqb e) splits then splits else splits ++ [e].

(** [get_splits._search_tree] *)
Fixpoint _search_tree_splits (nd : node) (splits : list split_entry)
  : list split_entry :=
  let e := (threshold nd, j_feature nd) in
  let splits1 :=
    match left nd with
    | Some l => _search_tree_splits l (append_new e splits)
    | None => splits
    end in
  match right nd with
  | Some r => _search_tree_splits r (append_new e splits1)
  | None => splits1
  end.

(** Subscripting [self.tree] before [fit] ([None]) is a [TypeError]. *)
Definition get_splits (s : PolyTree) : result (list split_entry) :=
  r <- some_node (tree s) ;; Ok (_search_tree_splits r []).

(** [get_polys._search_tree] *)
Fixpoint _search_tree_polys (nd : node) (polys : list Poly) : list Poly :=
  let polys0 :=
    match left nd, right nd with
    | None, None => polys ++ [poly nd]
    | _, _ => polys
    end in
  let polys1 :=
    match left nd with
    | Some l => _search_tree_polys l polys0
    | None => polys0
    end in
  match right nd with
  | Some r => _search_tree_polys r polys1
  | None => polys1
  end.

Definition get_polys (s : PolyTree) : result (list Poly) :=
  r <- some_node (tree s) ;; Ok (_search_tree_polys r []).

(** [inode[indexes] = v] *)
Fixpoint store_index (inode : list nat) (indexes : list nat) (v : nat)
  : result (list nat) :=
  match indexes with
  | [] => Ok inode
  | i :: indexes' =>
      inode' <- set_nth inode i v ;; store_index inode' indexes' v
  end.

(** The arrays handed to the query methods ([apply], [get_node],
    [get_paths], [get_graphviz]) are float64 arrays of the caller: their
    entries may be nan.  [of_matrix] is a matrix of numbers seen as such
    an array. *)
Definition frow := list float.
Definition fmatrix := list frow.

Definition of_row (x : row) : frow := map Some x.
Definition of_matrix (X : matrix) : fmatrix := map of_row X.

(** [X[:, j]]; as for [column], an array without rows carries no
    width. *)
Definition fcolumn (X : fmatrix) (j : nat) : result (list float) :=
  mapM (fun r => getitem r j) X.

(** [np.where(cond)[0]], for the Boolean array [cond] that holds [P x] for
    every entry [x] of [c]. *)
Fixpoint np_where {A} (P : A -> bool) (c : list A) (i : nat) : list nat :=
  match c with
  | [] => []
  | x :: c' =>
      if P x then i :: np_where P c' (S i) else np_where P c' (S i)
  end.

(** [apply._apply].  A row whose entry is nan satisfies neither
    [<= threshold] nor [> threshold]: it is handed to neither child. *)
Fixpoint _apply (X : fmatrix) (nd : node) (indexes : list nat)
         (inode : list nat) : result (list nat) :=
  match left nd, right nd with
  | None, None => store_index inode indexes (index nd)
  | l, r =>
      match j_feature nd, threshold nd with
      | Some j, Some t =>
          Xi <- take X indexes ;;
          c <- fcolumn Xi j ;;
          il <- take indexes (np_where (fun v => fle v (Some t)) c 0) ;;
          ir <- take indexes (np_where (fun v => fgt v (Some t)) c 0) ;;
          match l with
          | None => Raise TypeError
          | Some l' =>
              inode <- _apply X l' il inode ;;
              match r with
              | None => Raise TypeError
              | Some r' => _apply X r' ir inode
              end
          end
      | _, _ => Raise TypeError
      end
  end.

(** The argument of [apply]: a 1-D vector or a 2-D array. *)
Inductive ndarray : Type :=
| Vector (x : frow)
| Matrix (X : fmatrix).

(** [if X.ndim == 1: X = X.reshape(1,-1)] *)
Definition as_matrix (X : ndarray) : fmatrix :=
  match X with
  | Vector x => [x]
  | Matrix X => X
  end.

(** [inode] starts as [np.zeros]: the entry of a row that reaches no leaf
    stays 0. *)
Definition apply (s : PolyTree) (X : ndarray) : result (list nat) :=
  let X := as_matrix X in
  r <- some_node (tree s) ;;
  _apply X r (seq 0 (length X)) (repeat 0 (length X)).

(** [get_node._get_node_from_n]; the searched index is a Python [int]. *)
Fixpoint _get_node_from_n (X : Z) (nd : node) : option node :=
  if (Z.of_nat (index nd) =? X)%Z then Some nd
  else
    match
      match right nd with
      | Some r => _get_node_from_n X r
      | None => None
      end
    with
    | Some result => Some result
    | None =>
        match left nd with
        | Some l => _get_node_from_n X l
        | None => None
        end
    end.

(** [get_node._get_node_from_X].  The two tests are two separate [if]
    statements: when the entry is nan neither holds, and the function
    falls off its end, which returns [None]. *)
Fixpoint _get_node_from_X (X : frow) (nd : node) : result (option node) :=
  match left nd, right nd with
  | None, None => Ok (Some nd)
  | l, r =>
      match j_feature nd, threshold nd with
      | Some j, Some t =>
          v <- getitem X j ;;
          if fle v (Some t) then
            match l with
            | Some l' => _get_node_from_X X l'
            | None => Raise TypeError
            end
          else if fgt v (Some t) then
            match r with
            | Some r' => _get_node_from_X X r'
            | None => Raise TypeError
            end
          else Ok None
      | _, _ => Raise TypeError
      end
  end.

(** The argument of [get_node]: a node number or an input vector. *)
Inductive node_query : Type :=
| ByIndex (n : Z)
| ByVector (x : frow).

Definition get_node (s : PolyTree) (X : node_query) : result (option node) :=
  match X with
  | ByIndex n =>
      Ok match tree s with
         | Some r => _get_node_from_n n r
         | None => None
         end
  | ByVector x =>
      r <- some_node (tree s) ;;
      _get_node_from_X x r
  end.

(** The dictionaries [{'node': .., 'j': .., 'thresh': ..}] of a path. *)
Record path_info : Type := mk_path_info {
  p_node : nat;
  p_j : option nat;
  p_thresh : option Q
}.

Definition info_eqb (a b : path_info) : bool :=
  (p_node a =? p_node b)
  && opt_eqb Nat.eqb (p_j a) (p_j b)
  && opt_eqb Qeq_bool (p_thresh a) (p_thresh b).

(** [path.remove(info)]: drops the first element equal to [info]. *)
Fixpoint list_remove (path : list path_info) (info : path_info)
  : result (list path_info) :=
  match path with
  | [] => Raise ValueError
  | x :: path' =>
      if info_eqb x info then Ok path'
      else r <- list_remove path' info ;; Ok (x :: r)
  end.

(** [get_paths._find_path]: the list [path] is updated in place; the model
    returns it with the Boolean. *)
Fixpoint _find_path (nd : node) (path : list path_info) (i : nat)
  : result (bool * list path_info) :=
  let info := mk_path_info (index nd) (j_feature nd) (threshold nd) in
  let path := path ++ [info] in
  if index nd =? i then Ok (true, path)
  else
    lp <- match left nd with
          | Some l => _find_path l path i
          | None => Ok (false, path)
          end ;;
    rp <- match right nd with
          | Some r => _find_path r (snd lp) i
          | None => Ok (false, snd lp)
          end ;;
    if fst lp || fst rp then Ok (true, snd rp)
    else path' <- list_remove (snd rp) info ;; Ok (false, path').

Fixpoint insert_nat (x : nat) (l : list nat) : list nat :=
  match l with
  | [] => [x]
  | y :: l' =>
      if x <? y then x :: l
      else if x =? y then l
      else y :: insert_nat x l'
  end.

(** [np.unique] on an integer array: sorted distinct values. *)
Definition unique_nat (l : list nat) : list nat :=
  fold_right insert_nat [] l.

(** [path_leaf[-1]["j"] = None; path_leaf[-1]["thresh"] = None] *)
Definition clear_last (path : list path_info) : result (list path_info) :=
  match rev path with
  | [] => Raise IndexError
  | x :: r => Ok (rev (mk_path_info (p_node x) None None :: r))
  end.

(** [get_paths]; the dictionary [paths] is the list of its items, in the
    order of insertion. *)
Definition get_paths (s : PolyTree) (X : option fmatrix)
  : result (list (nat * list path_info)) :=
  root <- some_node (tree s) ;;
  X <- match X with
       | Some X => Ok X
       | None => d <- the (data root) KeyError ;; Ok (of_matrix (fst d))
       end ;;
  leave_id <- apply s (Matrix X) ;;
  mapM (fun leaf =>
          fp <- _find_path root [] leaf ;;
          path_leaf <- clear_last (snd fp) ;;
          Ok (leaf, path_leaf))
       (unique_nat leave_id).

Definition set_flag (nd : node) (f : bool) : node :=
  mk_node (index nd) (loss nd) (poly nd) (data nd) (n_samples nd)
          (j_feature nd) (threshold nd) (left nd) (right nd) (depth nd)
          f (test_loss nd) (lower_loss nd).

(** [get_graphviz._flag_tree_walk]: flags the nodes on the path of the
    vector [X]; the model returns the flagged tree.  As in [get_node] the
    two tests are separate [if] statements: at a nan entry the walk ends
    at the node it has just flagged. *)
Fixpoint _flag_tree_walk (X : frow) (nd : node) : result node :=
  match left nd, right nd with
  | None, None => Ok (set_flag nd true)
  | l, r =>
      match j_feature nd, threshold nd with
      | Some j, Some t =>
          v <- getitem X j ;;
          if fle v (Some t) then
            match l with
            | Some l' =>
                l'' <- _flag_tree_walk X l' ;;
                Ok (set_children (set_flag nd true) (Some l'') r)
            | None => Raise TypeError
            end
          else if fgt v (Some t) then
            match r with
            | Some r' =>
                r'' <- _flag_tree_walk X r' ;;
                Ok (set_children (set_flag nd true) l (Some r''))
            | None => Raise TypeError
            end
          else Ok (set_flag nd true)
      | _, _ => Raise TypeError
      end
  end.

(** The nodes of a tree, and their indices in pre-order. *)
Inductive in_tree (nd' : node) : node -> Prop :=
| in_tree_here : in_tree nd' nd'
| in_tree_left nd l : left nd = Some l -> in_tree nd' l -> in_tree nd' nd
| in_tree_right nd r : right nd = Some r -> in_tree nd' r -> in_tree nd' nd.

Fixpoint indices (nd : node) : list nat :=
  index nd
  :: (match left nd with Some l => indices l | None => [] end)
  ++ (match right nd with Some r => indices r | None => [] end).

Definition is_leaf (nd : node) : Prop := left nd = None /\ right nd = None.

(** What [prune] leaves of a node [m]: the node [m'] carries the same
    number, loss, polynomial, data, split and depth, and either has no
    children or has children on the same sides as [m]. *)
Definition pruned_from (m' m : node) : Prop :=
  index m' = index m /\ loss m' = loss m /\ poly m' = poly m
  /\ data m' = data m /\ j_feature m' = j_feature m
  /\ threshold m' = threshold m /\ depth m' = depth m
  /\ flag m' = flag m
  /\ (is_leaf m'
      \/ ((left m' = None <-> left m = None)
          /\ (right m' = None <-> right m = None))).


(** What a build step never undoes: the node counter and the recorded
    depth only grow. *)
Definition grows (w w' : world) : Prop :=
  index_node_global w <= index_node_global w'
  /\ actual_max_depth (self w) <= actual_max_depth (self w').

Definition advances {A} (m : M A) : Prop :=
  forall w a w', m w = Ok (a, w') -> grows w w'.

(** The shape of a node of a tree grown by [fit], for the flags [all]
    ([all_data]), the depth limit [md], the recorded depth [amd], the
    minimum leaf size [msl] and the training inputs [Xtrain].  A node that
    was split holds at least twice the minimum leaf size, and neither
    child is empty. *)
Definition grown (all : bool) (md amd msl : nat) (Xtrain : matrix)
           (nd : node) : Prop :=
  depth nd <= md
  /\ depth nd <= amd + 1
  /\ (is_leaf nd ->
      j_feature nd = None /\ threshold nd = None
      /\ exists Xn yn,
           data nd = Some (Xn, yn) /\ n_samples nd = length Xn
           /\ Xn <> [] /\ forall x, In x Xn -> In x Xtrain)
  /\ (~ is_leaf nd ->
      exists l r j t,
        left nd = Some l /\ right nd = Some r
        /\ j_feature nd = Some j /\ threshold nd = Some t
        /\ depth nd < md /\ depth nd <= amd
        /\ depth l = depth nd + 1 /\ depth r = depth nd + 1
        /\ n_samples l + n_samples r = n_samples nd
        /\ 2 * msl <= n_samples nd
        /\ (1 <= n_samples l /\ 1 <= n_samples r)
        /\ (all = false -> data nd = None)
        /\ (all = true ->
            exists Xn yn, data nd = Some (Xn, yn) /\ n_samples nd = length Xn)
        /\ exists x, In x Xtrain /\ j < length x).


(** The nodes on the way from a node down to [target], both included. *)
Inductive path_to (target : node) : node -> list node -> Prop :=
| path_here : path_to target target [target]
| path_left nd l p :
    left nd = Some l -> path_to target l p -> path_to target nd (nd :: p)
| path_right nd r p :
    right nd = Some r -> path_to target r p -> path_to target nd (nd :: p).

(** The entry that [_find_path] records for a node. *)
Definition info_of (nd : node) : path_info :=
  mk_path_info (index nd) (j_feature nd) (threshold nd).


(** The numbers of the flagged nodes of a tree, in pre-order. *)
Fixpoint flagged (nd : node) : list nat :=
  (if flag nd then [index nd] else [])
    ++ (match left nd with Some l => flagged l | None => [] end)
    ++ (match right nd with Some r => flagged r | None => [] end).


(* ================================================================== *)
(** * Theorems                                                         *)
(* ================================================================== *)

Lemma rbind_Ok {A B} (m : result A) (f : A -> result B) (b : B) :
  rbind m f = Ok b -> exists a, m = Ok a /\ f a = Ok b.
Proof.
  destruct m as [a | e]; simpl; intro H.
  - exists a; split; [reflexivity | exact H].
  - discriminate H.
Qed.

Tactic Notation "inv_rbind" hyp(H) "as" ident(a) ident(Ha) :=
  apply rbind_Ok in H; destruct H as (a & Ha & H).

Lemma mapM_length {A B} (f : A -> result B) (l : list A) (l' : list B) :
  mapM f l = Ok l' -> length l' = length l.
Proof.
  revert l'. induction l as [| a l IH]; intros l' H; simpl in H.
  - injection H as <-. reflexivity.
  - inv_rbind H as b Hb. inv_rbind H as bs Hbs. injection H as <-.
    simpl. rewrite (IH bs Hbs). reflexivity.
Qed.

(** The outputs of the two parts of a split are as many as their rows,
    and a part that is not empty is taken from outputs that are not. *)
Lemma split_data_lengths j t X y Xl yl Xr yr :
  _split_data (Some j) (Some t) X y = Ok ((Xl, yl), (Xr, yr)) ->
  length yl = length Xl /\ length yr = length Xr
  /\ (1 <= length yl \/ 1 <= length yr -> 1 <= length y).
Proof.
  unfold _split_data. intro H. inv_rbind H as c Hc.
  match type of H with
  | (if ?b then _ else _) = _ => destruct b; [discriminate H |]
  end.
  inv_rbind H as Xl' HXl. inv_rbind H as yl' Hyl.
  inv_rbind H as Xr' HXr. inv_rbind H as yr' Hyr.
  injection H as <- <- <- <-.
  assert (forall idx r, take y idx = Ok r -> 1 <= length r ->
                        1 <= length y) as Hy.
  { intros idx r Hr Hlen. unfold take in Hr.
    destruct idx as [| i idx]; simpl in Hr.
    - injection Hr as <-. simpl in Hlen. lia.
    - inv_rbind Hr as v Hv. unfold getitem in Hv.
      destruct y; [destruct i; discriminate Hv | simpl; lia]. }
  rewrite (mapM_length _ _ _ HXl), (mapM_length _ _ _ Hyl),
    (mapM_length _ _ _ HXr), (mapM_length _ _ _ Hyr).
  split; [reflexivity |]. split; [reflexivity |].
  intros [Hl | Hr].
  - apply (Hy _ _ Hyl). rewrite (mapM_length _ _ _ Hyl). exact Hl.
  - apply (Hy _ _ Hyr). rewrite (mapM_length _ _ _ Hyr). exact Hr.
Qed.

(* ------------------------------------------------------------------ *)
(** ** Pruning                                                         *)
(* ------------------------------------------------------------------ *)

(** C10.  When the root of the tree is a leaf, [prune] raises instead of
    returning the tree: the top level partitions the held-out data with
    the root's split fields and then prunes the root's children, which
    are absent.  With the split fields unset, as on every leaf that [fit]
    creates, the exception is a [TypeError]. *)
Theorem prune_leaf_root_raises :
  forall (s : PolyTree) (root : node) (X : matrix) (y : vec) (tol : Q),
    tree s = Some root ->
    left root = None ->
    right root = None ->
    (exists e, prune s X y tol = Raise e)
    /\ (j_feature root = None -> prune s X y tol = Raise TypeError).
Proof.
  intros s root X y tol Ht Hl Hr. unfold prune. rewrite Ht. split.
  - destruct (_split_data (j_feature root) (threshold root) X y)
      as [[[Xl yl] [Xr yr]] | e]; simpl.
    + rewrite Hl. simpl. exists TypeError. reflexivity.
    + exists e. reflexivity.
  - intro Hj. rewrite Hj. reflexivity.
Qed.

Lemma prune_leaf_root_raises_witness :
  prune (tree_of (leaf 1 first_coord 4 0) 0 (1 # 10)) [[1%Q]; [3%Q]]
        [1%Q; 3%Q] 0 = Raise TypeError.
Proof.
  apply (prune_leaf_root_raises
           (tree_of (leaf 1 first_coord 4 0) 0 (1 # 10))
           (leaf 1 first_coord 4 0)); reflexivity.
Defined.

(** One unfolding of [pruner]. *)
Lemma pruner_eq (tol : Q) (nd : node) (X : matrix) (y : vec) :
  pruner tol nd X y =
  if length X <? 1 then Ok (set_n_samples (set_test_loss nd 0%Q) 0)
  else
    (t <- mse (poly nd) X y ;;
     let nd1 := set_test_loss nd t in
     match left nd, right nd with
     | Some l, Some r =>
         parts <- _split_data (j_feature nd) (threshold nd) X y ;;
         let '((X_left, y_left), (X_right, y_right)) := parts in
         l' <- pruner tol l X_left y_left ;;
         r' <- pruner tol r X_right y_right ;;
         lower <- weighted_loss l' r' ;;
         let nd2 :=
           set_lower_loss (set_children nd1 (Some l') (Some r')) lower in
         if fgt (fadd lower (Some (tol * t)%Q)) (Some t)
         then Ok (set_children nd2 None None)
         else Ok nd2
     | _, _ => Ok nd1
     end)%res.
Proof. destruct nd; reflexivity. Qed.

(** C3 (amended).  A node that receives zero held-out rows gets
    [test_loss = 0] and [n_samples = 0] and nothing else changes: [pruner]
    returns at once, so both children stay attached exactly as they were
    and the subtree below the node is not visited. *)
Theorem pruner_zero_rows :
  forall (tol : Q) (nd : node) (X : matrix) (y : vec),
    length X < 1 ->
    exists nd',
      pruner tol nd X y = Ok nd'
      /\ nd' = set_n_samples (set_test_loss nd 0%Q) 0
      /\ test_loss nd' = Some 0%Q
      /\ n_samples nd' = 0
      /\ left nd' = left nd
      /\ right nd' = right nd.
Proof.
  intros tol nd X y HX. rewrite pruner_eq.
  apply Nat.ltb_lt in HX. rewrite HX.
  eexists. split; [reflexivity |].
  repeat split.
Qed.

Lemma pruner_zero_rows_witness :
  exists nd',
    pruner 0 two_level [] [] = Ok nd'
    /\ nd' = set_n_samples (set_test_loss two_level 0%Q) 0
    /\ test_loss nd' = Some 0%Q
    /\ n_samples nd' = 0
    /\ left nd' = left two_level
    /\ right nd' = right two_level.
Proof.
  apply (pruner_zero_rows 0 two_level [] []). simpl. lia.
Defined.

(** C3 as stated fails: held-out data that all falls right of the root of
    [two_level] leaves its left child with zero rows; that child gets
    [test_loss = 0] and [n_samples = 0], but its own children are not
    visited: they have no [test_loss] and keep their training count,
    whereas a visit with an empty subset would have set both to 0. *)
Lemma pruner_zero_rows_children_not_visited :
  exists s' root' l' c visited,
    prune (tree_of two_level 1 (1 # 10)) [[20%Q]] [3%Q] 0 = Ok s'
    /\ tree s' = Some root'
    /\ left root' = Some l'
    /\ test_loss l' = Some 0%Q /\ n_samples l' = 0
    /\ left l' = Some c
    /\ test_loss c = None /\ n_samples c = 2
    /\ pruner (0 / 100) c [] [] = Ok visited
    /\ test_loss visited = Some 0%Q /\ n_samples visited = 0.
Proof.
  do 5 eexists.
  split; [vm_compute; reflexivity |].
  split; [reflexivity |]. split; [reflexivity |].
  split; [reflexivity |]. split; [reflexivity |].
  split; [reflexivity |]. split; [reflexivity |].
  split; [reflexivity |].
  split; [vm_compute; reflexivity |].
  split; reflexivity.
Qed.

(** The mean squared error written out: the sum of the squared
    differences between the outputs and the values of the polynomial,
    divided by the number of rows. *)
Lemma sub_vec_Ok (p : Poly) (X : matrix) :
  forall (y r : list Q),
    sub_vec y (get_polyfit p X) = Ok r ->
    length y = length X
    /\ r = map (fun xy => (snd xy - p (fst xy))%Q) (combine X y).
Proof.
  unfold get_polyfit.
  induction X as [| x X IH]; intros y r H; destruct y as [| v y];
    simpl in H; try discriminate H.
  - injection H as <-. split; reflexivity.
  - inv_rbind H as r' Hr'. injection H as <-.
    destruct (IH y r' Hr') as [Hlen ->]. simpl. rewrite Hlen.
    split; reflexivity.
Qed.

Lemma mse_Ok (p : Poly) (X : matrix) (y : vec) (m : Q) :
  mse p X y = Ok m ->
  length y = length X
  /\ m = (fold_right Qplus 0
            (map (fun xy => (snd xy - p (fst xy)) * (snd xy - p (fst xy)))
                 (combine X y))
          / inject_Z (Z.of_nat (length X)))%Q.
Proof.
  unfold mse. intro H. inv_rbind H as r Hr. injection H as <-.
  destruct (sub_vec_Ok p X y r Hr) as [Hlen ->].
  split; [exact Hlen |].
  unfold norm2, Qsum, Qlen. rewrite map_map. reflexivity.
Qed.

(** C2 (amended).  [prune] never tests the root: it partitions the
    held-out data at the root and prunes the two children with the
    tolerance divided by 100, and the root of the result is the old root
    with the pruned children attached (no [test_loss], never collapsed).
    Below the root, every node that receives at least one held-out row
    gets as [test_loss] the mean squared error of its own polynomial on
    those rows (the sum of the squared residuals divided by the number of
    rows).  If it has two children they are pruned on the two parts of
    the rows, and [lower_loss] is the average of their test losses
    weighted by their sample counts,
    [(tl_l * n_l + tl_r * n_r) / (n_l + n_r)].  When both counts are zero
    this quotient is nan, the test is false and the children stay.
    Otherwise both children are removed exactly when
    [lower_loss + tol * test_loss > test_loss]. *)
Theorem prune_collapse_below_root :
  forall (s s' : PolyTree) (root : node) (X : matrix) (y : vec) (tol : Q),
    tree s = Some root ->
    prune s X y tol = Ok s' ->
    (exists l r X_left y_left X_right y_right l' r',
        left root = Some l /\ right root = Some r
        /\ _split_data (j_feature root) (threshold root) X y
           = Ok ((X_left, y_left), (X_right, y_right))
        /\ pruner (tol / 100) l X_left y_left = Ok l'
        /\ pruner (tol / 100) r X_right y_right = Ok r'
        /\ tree s' = Some (set_children root (Some l') (Some r')))
    /\ (forall (t : Q) (nd nd' : node) (Xs : matrix) (ys : vec),
           1 <= length Xs ->
           pruner t nd Xs ys = Ok nd' ->
           let tl :=
             (fold_right Qplus 0
                (map (fun xy => (snd xy - poly nd (fst xy))
                                * (snd xy - poly nd (fst xy)))
                     (combine Xs ys))
              / inject_Z (Z.of_nat (length Xs)))%Q in
           length ys = length Xs
           /\ test_loss nd' = Some tl
           /\ (forall l r,
                  left nd = Some l -> right nd = Some r ->
                  exists X_left y_left X_right y_right l' r' tl_l tl_r,
                    _split_data (j_feature nd) (threshold nd) Xs ys
                    = Ok ((X_left, y_left), (X_right, y_right))
                    /\ pruner t l X_left y_left = Ok l'
                    /\ pruner t r X_right y_right = Ok r'
                    /\ test_loss l' = Some tl_l
                    /\ test_loss r' = Some tl_r
                    /\ (n_samples l' + n_samples r' = 0 ->
                        lower_loss nd' = Some nan
                        /\ left nd' = Some l' /\ right nd' = Some r')
                    /\ (n_samples l' + n_samples r' <> 0 ->
                        let lower :=
                          ((tl_l * inject_Z (Z.of_nat (n_samples l'))
                            + tl_r * inject_Z (Z.of_nat (n_samples r')))
                           / inject_Z (Z.of_nat (n_samples l'
                                                 + n_samples r')))%Q in
                        lower_loss nd' = Some (Some lower)
                        /\ ((tl < lower + t * tl)%Q ->
                            left nd' = None /\ right nd' = None)
                        /\ ((lower + t * tl <= tl)%Q ->
                            left nd' = Some l' /\ right nd' = Some r')))
           /\ (left nd = None \/ right nd = None ->
               left nd' = left nd /\ right nd' = right nd)).
Proof.
  intros s s' root X y tol Ht Hp. split.
  - unfold prune in Hp. rewrite Ht in Hp.
    inv_rbind Hp as parts Hparts. destruct parts as [[Xl yl] [Xr yr]].
    inv_rbind Hp as l Hl. inv_rbind Hp as l' Hl'.
    inv_rbind Hp as r Hr. inv_rbind Hp as r' Hr'.
    injection Hp as <-.
    destruct (left root) as [l0 |]; [| discriminate].
    destruct (right root) as [r0 |]; [| discriminate].
    injection Hl as <-. injection Hr as <-.
    exists l0, r0, Xl, yl, Xr, yr, l', r'. repeat split; assumption.
  - clear. intros t nd nd' Xs ys Hlen Hp tl.
    rewrite pruner_eq in Hp.
    destruct (length Xs <? 1) eqn:Hlt.
    { apply Nat.ltb_lt in Hlt. lia. }
    inv_rbind Hp as tl0 Htl. apply mse_Ok in Htl as [Hlen' Etl].
    fold tl in Etl. subst tl0. split; [exact Hlen' |].
    destruct (left nd) as [l |] eqn:Hl; destruct (right nd) as [r |] eqn:Hr.
    + inv_rbind Hp as parts Hparts. destruct parts as [[Xl yl] [Xr yr]].
      inv_rbind Hp as l' Hl'. inv_rbind Hp as r' Hr'.
      inv_rbind Hp as lower Hlow.
      unfold weighted_loss, get_test_loss in Hlow.
      destruct (test_loss l') as [tl_l |] eqn:Etl_l; [| discriminate Hlow].
      destruct (test_loss r') as [tl_r |] eqn:Etl_r; [| discriminate Hlow].
      cbn [rbind] in Hlow.
      destruct (n_samples l' + n_samples r' =? 0) eqn:Hz;
        injection Hlow as <-.
      * (* both counts are zero: nan *)
        apply Nat.eqb_eq in Hz. cbn [fadd fgt nan] in Hp.
        injection Hp as <-. split; [reflexivity |]. split.
        -- intros l0 r0 El Er. injection El as <-. injection Er as <-.
           exists Xl, yl, Xr, yr, l', r', tl_l, tl_r.
           split; [exact Hparts |]. split; [exact Hl' |].
           split; [exact Hr' |]. split; [exact Etl_l |].
           split; [exact Etl_r |]. split.
           ++ intros _. repeat split.
           ++ intro F. contradiction.
        -- intros [Hc | Hc]; discriminate Hc.
      * apply Nat.eqb_neq in Hz. cbn [fadd fgt] in Hp. unfold Qnat in Hp.
        match type of Hp with
        | context [Qle_bool ?a ?b] => destruct (Qle_bool a b) eqn:Hcmp
        end; cbn [negb] in Hp; injection Hp as <-;
          (split; [reflexivity |]); split.
        -- intros l0 r0 El Er. injection El as <-. injection Er as <-.
           exists Xl, yl, Xr, yr, l', r', tl_l, tl_r.
           split; [exact Hparts |]. split; [exact Hl' |].
           split; [exact Hr' |]. split; [exact Etl_l |].
           split; [exact Etl_r |]. split; [intro F; contradiction |].
           intros _ lower. split; [reflexivity |].
           apply Qle_bool_iff in Hcmp. fold lower in Hcmp. split.
           ++ intro F. exfalso. apply (Qlt_irrefl tl).
              eapply Qlt_le_trans; eassumption.
           ++ intros _. split; reflexivity.
        -- intros [Hc | Hc]; discriminate Hc.
        -- intros l0 r0 El Er. injection El as <-. injection Er as <-.
           exists Xl, yl, Xr, yr, l', r', tl_l, tl_r.
           split; [exact Hparts |]. split; [exact Hl' |].
           split; [exact Hr' |]. split; [exact Etl_l |].
           split; [exact Etl_r |]. split; [intro F; contradiction |].
           intros _ lower. split; [reflexivity |].
           assert (~ (lower + t * tl <= tl)%Q) as Hn.
           { intro F. apply Qle_bool_iff in F. fold lower in Hcmp.
             rewrite F in Hcmp. discriminate Hcmp. }
           split.
           ++ intros _. split; reflexivity.
           ++ intro F. contradiction.
        -- intros [Hc | Hc]; discriminate Hc.
    + injection Hp as <-. split; [reflexivity |]. split.
      * intros l0 r0 _ Er. discriminate Er.
      * intros _. simpl. rewrite Hl. split; [reflexivity | assumption].
    + injection Hp as <-. split; [reflexivity |]. split.
      * intros l0 r0 El _. discriminate El.
      * intros _. simpl. rewrite Hr. split; [assumption | reflexivity].
    + injection Hp as <-. split; [reflexivity |]. split.
      * intros l0 r0 El _. discriminate El.
      * intros _. simpl. split; assumption.
Qed.

Lemma prune_collapse_below_root_witness :
  exists s' l' r',
    prune (tree_of stump 0 (1 # 10)) [[1%Q]; [3%Q]] [1%Q; 3%Q] 0 = Ok s'
    /\ tree s' = Some (set_children stump (Some l') (Some r')).
Proof.
  destruct (prune (tree_of stump 0 (1 # 10)) [[1%Q]; [3%Q]] [1%Q; 3%Q] 0)
    as [s' | e] eqn:Hp; [| vm_compute in Hp; discriminate Hp].
  destruct (prune_collapse_below_root
              (tree_of stump 0 (1 # 10)) s' stump
              [[1%Q]; [3%Q]] [1%Q; 3%Q] 0 eq_refl Hp)
    as [(l & r & Xl & yl & Xr & yr & l' & r' & _ & _ & _ & _ & _ & Ht) _].
  exists s', l', r'. split; [reflexivity | exact Ht].
Defined.

(** C2 as stated fails at the root.  On [stump] the root's polynomial is
    exact on the held-out rows (its test loss would be 0) while the
    leaves are not (weighted child loss 5), so the collapse test holds at
    the root; [prune] nevertheless keeps both children and records no
    [test_loss] on the root. *)
Lemma prune_root_not_tested :
  exists s' root' l' r' t lower,
    prune (tree_of stump 0 (1 # 10)) [[1%Q]; [3%Q]] [1%Q; 3%Q] 0 = Ok s'
    /\ tree s' = Some root'
    /\ left root' = Some l' /\ right root' = Some r'
    /\ test_loss root' = None
    /\ mse (poly stump) [[1%Q]; [3%Q]] [1%Q; 3%Q] = Ok t
    /\ weighted_loss l' r' = Ok (Some lower)
    /\ (t < lower + (0 / 100) * t)%Q.
Proof.
  do 6 eexists.
  split; [vm_compute; reflexivity |].
  split; [reflexivity |].
  split; [reflexivity |].
  split; [reflexivity |].
  split; [reflexivity |].
  split; [vm_compute; reflexivity |].
  split; [vm_compute; reflexivity |].
  reflexivity.
Qed.

(** A second [prune] on the same tree can meet two children that both
    carry the count 0.  On [two_level], the row 7 of the first call leaves
    node 9 without rows (count 0), and the row 3 of the second call leaves
    node 11 without rows: the weighted child loss of node 5 is then nan,
    the call returns normally and node 5 keeps its children. *)
Lemma prune_twice_nan :
  exists s1 s2 root n5 l r,
    prune (tree_of two_level 1 (1 # 10)) [[7%Q]] [2%Q] 0 = Ok s1
    /\ prune s1 [[3%Q]] [1%Q] 0 = Ok s2
    /\ tree s2 = Some root /\ left root = Some n5
    /\ left n5 = Some l /\ right n5 = Some r
    /\ n_samples l = 0 /\ n_samples r = 0
    /\ lower_loss n5 = Some nan.
Proof.
  do 6 eexists.
  split; [vm_compute; reflexivity |].
  split; [vm_compute; reflexivity |].
  repeat (split; [reflexivity |]). reflexivity.
Qed.

(* ------------------------------------------------------------------ *)
(** ** Prediction                                                      *)
(* ------------------------------------------------------------------ *)

Lemma deepest_ignores_level0 (c0 c0' : cell) (rest : list cell) (i : nat) :
  deepest (c0 :: rest) i = deepest (c0' :: rest) i.
Proof.
  induction i as [| i IH]; simpl; [reflexivity |].
  unfold level; simpl. rewrite IH. reflexivity.
Qed.

Lemma blend_ignores_level0 (k : Q) (c0 c0' : cell) (rest : list cell)
      (i : nat) (sm : float) :
  blend k (c0 :: rest) i sm = blend k (c0' :: rest) i sm.
Proof.
  revert sm. induction i as [| i IH]; intro sm; simpl; [reflexivity |].
  unfold level; simpl. rewrite IH. reflexivity.
Qed.

(** The smoothing loops read the levels [deepest .. 1] of a row only: as
    soon as a level below the root is recorded, the cell written by the
    root has no influence on the smoothed value. *)
Lemma smooth_ignores_level0 (k : Q) (amd : nat) (c0 c0' : cell)
      (rest : list cell) :
  deepest (c0 :: rest) (amd + 1) <> 0 ->
  smooth k amd (c0 :: rest) = smooth k amd (c0' :: rest).
Proof.
  unfold smooth. intro Hd.
  rewrite (deepest_ignores_level0 c0 c0') in *.
  destruct (deepest (c0' :: rest) (amd + 1)) as [| i] eqn:Hi;
    [contradiction |].
  rewrite (blend_ignores_level0 k c0 c0').
  reflexivity.
Qed.

(** C1 (the code at the failing input).  On [stump], a tree with one
    split, the row [x = 1] is routed to the left leaf, whose polynomial
    predicts 0.  Whatever polynomial [p] the root holds, [predict] returns
    the leaf's own prediction 0: the value recorded for the root at depth
    0 takes no part in the blend. *)
Theorem predict_stump_ignores_root :
  forall p : Poly,
  exists v,
    predict (tree_of (set_poly stump p) 0 (1 # 10)) [[1%Q]] = Ok [Some v]
    /\ (v == 0)%Q.
Proof.
  intro p. eexists. split.
  - vm_compute. reflexivity.
  - reflexivity.
Qed.

(* ------------------------------------------------------------------ *)
(** ** The build monad                                                 *)
(* ------------------------------------------------------------------ *)

Lemma bind_Ok {A B} (m : M A) (f : A -> M B) (w : world) (b : B)
      (w' : world) :
  bind m f w = Ok (b, w') ->
  exists a w1, m w = Ok (a, w1) /\ f a w1 = Ok (b, w').
Proof.
  unfold bind. destruct (m w) as [[a w1] | e]; intro H.
  - exists a, w1. split; [reflexivity | exact H].
  - discriminate H.
Qed.

Tactic Notation "inv_bind" hyp(H) "as" ident(a) ident(w) ident(Ha) :=
  apply bind_Ok in H; destruct H as (a & w & Ha & H).

Lemma ret_Ok {A} (a b : A) (w w' : world) :
  ret a w = Ok (b, w') -> b = a /\ w' = w.
Proof. unfold ret. intro H. injection H as <- <-. split; reflexivity. Qed.

Lemma lift_Ok {A} (r : result A) (w : world) (a : A) (w' : world) :
  lift r w = Ok (a, w') -> r = Ok a /\ w' = w.
Proof.
  unfold lift. destruct r as [a0 | e]; intro H; [| discriminate H].
  injection H as <- <-. split; reflexivity.
Qed.

Lemma get_self_Ok (w : world) (s : PolyTree) (w' : world) :
  get_self w = Ok (s, w') -> s = self w /\ w' = w.
Proof.
  unfold get_self. intro H. injection H as <- <-. split; reflexivity.
Qed.

Lemma the_Ok {A} (o : option A) (e : exn) (a : A) :
  the o e = Ok a -> o = Some a.
Proof. destruct o; simpl; intro H; [injection H as <- | discriminate H]; reflexivity. Qed.

Lemma extends_refl (w : world) : extends w w.
Proof.
  constructor; try reflexivity. exists []. symmetry. apply app_nil_r.
Qed.

Lemma extends_trans (w1 w2 w3 : world) :
  extends w1 w2 -> extends w2 w3 -> extends w1 w3.
Proof.
  intros [] []. constructor; try (etransitivity; eassumption).
  destruct ext_calls0 as [c1 H1]. destruct ext_calls1 as [c2 H2].
  exists (c1 ++ c2). rewrite H2, H1. symmetry. apply app_assoc.
Qed.

Lemma preserves_ret {A} (a : A) : preserves (ret a).
Proof. intros w b w' H. apply ret_Ok in H as [_ ->]. apply extends_refl. Qed.

Lemma preserves_raise {A} (e : exn) : preserves (@raise A e).
Proof. intros w b w' H. discriminate H. Qed.

Lemma preserves_lift {A} (r : result A) : preserves (lift r).
Proof. intros w b w' H. apply lift_Ok in H as [_ ->]. apply extends_refl. Qed.

Lemma preserves_get_self : preserves get_self.
Proof. intros w b w' H. apply get_self_Ok in H as [_ ->]. apply extends_refl. Qed.

Lemma preserves_get_index : preserves get_index.
Proof. intros w b w' H. injection H as <- <-. apply extends_refl. Qed.

Lemma preserves_tick : preserves tick.
Proof.
  intros w b w' H. injection H as <- <-.
  constructor; try reflexivity. exists []. symmetry. apply app_nil_r.
Qed.

Lemma preserves_reset_index : preserves reset_index.
Proof.
  intros w b w' H. injection H as <- <-.
  constructor; try reflexivity. exists []. symmetry. apply app_nil_r.
Qed.

Lemma preserves_bind {A B} (m : M A) (f : A -> M B) :
  preserves m -> (forall a, preserves (f a)) -> preserves (bind m f).
Proof.
  intros Hm Hf w b w' H. inv_bind H as a w1 Ha.
  eapply extends_trans; [eapply Hm | eapply Hf]; eassumption.
Qed.

Lemma preserves_foldM {A B} (f : A -> B -> M A) (l : list B) :
  (forall a b, preserves (f a b)) -> forall a, preserves (foldM f l a).
Proof.
  intro Hf. induction l as [| b l IH]; intro a; simpl.
  - apply preserves_ret.
  - apply preserves_bind; [apply Hf | intro a'; apply IH].
Qed.

Lemma preserves_split_dims (d : nat) :
  preserves (modify_self (default_split_dims d)).
Proof.
  intros w b w' H. injection H as <- <-. unfold default_split_dims.
  destruct (split_dims (self w)); constructor; try reflexivity;
    exists []; symmetry; apply app_nil_r.
Qed.

Lemma preserves_actual_max_depth (b : bool) (depth : nat) :
  preserves (modify_self (record_depth b depth)).
Proof.
  intros w u w' H. injection H as <- <-. unfold record_depth.
  destruct (b && (actual_max_depth (self w) <? depth));
    constructor; try reflexivity; exists []; symmetry; apply app_nil_r.
Qed.

(** A loop invariant for [foldM]. *)
Lemma foldM_inv {A B} (I : A -> world -> Prop) (f : A -> B -> M A)
      (l : list B) :
  (forall a b w a' w',
      In b l -> I a w -> f a b w = Ok (a', w') -> I a' w') ->
  forall a w a' w', I a w -> foldM f l a w = Ok (a', w') -> I a' w'.
Proof.
  induction l as [| b l IH]; intros Hf a w a' w' Ha H; simpl in H.
  - apply ret_Ok in H as [-> ->]. exact Ha.
  - inv_bind H as a1 w1 H1.
    apply (IH (fun a0 b0 w0 a0' w0' Hin => Hf a0 b0 w0 a0' w0' (or_intror Hin))
              a1 w1 a' w'); [| exact H].
    eapply Hf; [left; reflexivity | exact Ha | exact H1].
Qed.

Create HintDb pres discriminated.

#[export] Hint Resolve preserves_ret preserves_raise preserves_lift
  preserves_get_self preserves_get_index preserves_tick
  preserves_reset_index preserves_split_dims preserves_actual_max_depth
  : pres.

Ltac pres :=
  repeat first
    [ solve [auto with pres nocore]
    | apply preserves_bind; [| intro ]
    | apply preserves_foldM; intros
    | progress cbv zeta
    | match goal with
      | |- preserves (if ?b then _ else _) => destruct b
      | |- preserves (match ?x with _ => _ end) => destruct x
      end ].

Section BuildFacts.
Context {E : External}.

Lemma preserves_call_solver (X : matrix) (y : vec) :
  preserves (call_solver X y).
Proof.
  intros w p w' H. unfold call_solver in H.
  destruct (Poly_set_model X y); [| discriminate H].
  injection H as <- <-. constructor; try reflexivity.
  exists [(X, y)]. reflexivity.
Qed.
Hint Resolve preserves_call_solver : pres.

Lemma preserves_fit_poly (X : matrix) (y : vec) : preserves (_fit_poly X y).
Proof. unfold _fit_poly. pres. Qed.
Hint Resolve preserves_fit_poly : pres.

Lemma preserves_try_threshold s X y N j acc t :
  preserves (try_threshold s X y N j acc t).
Proof. unfold try_threshold. pres. Qed.
Hint Resolve preserves_try_threshold : pres.

Lemma preserves_search_feature s X y N acc j :
  preserves (search_feature s X y N acc j).
Proof. unfold search_feature. pres. Qed.
Hint Resolve preserves_search_feature : pres.

Lemma preserves_splitter (nd : node) : preserves (_splitter nd).
Proof.
  unfold _splitter, initial_loss, split_search, fit_children. pres.
Qed.
Hint Resolve preserves_splitter : pres.

Lemma preserves_create_node X y d : preserves (_create_node X y d).
Proof. unfold _create_node. pres. Qed.
Hint Resolve preserves_create_node : pres.

Lemma preserves_split_traverse_node (fuel : nat) :
  forall nd, preserves (_split_traverse_node fuel nd).
Proof.
  induction fuel as [| fuel IH]; intro nd; simpl; pres.
Qed.
Hint Resolve preserves_split_traverse_node : pres.

Lemma preserves_build_tree X y : preserves (_build_tree X y).
Proof. unfold _build_tree. pres. Qed.

End BuildFacts.

(* ------------------------------------------------------------------ *)
(** ** [fit] and the smoothing constant                                *)
(* ------------------------------------------------------------------ *)

Section FitFacts.
Context {E : External}.

(** Each call of [fit] multiplies the stored [k] by the minimum leaf size
    it settles on. *)
Lemma fit_scales_k (s s' : PolyTree) (X : matrix) (y : vec) :
  fit s X y = Ok s' ->
  exists m,
    min_samples_leaf s' = Some m /\ k s' = (k s * Qnat m)%Q.
Proof.
  unfold fit. destruct (shape X) as [N d].
  match goal with
  | |- context [_build_tree X y ?w0] =>
      destruct (_build_tree X y w0) as [[root w] |] eqn:Hb
  end; [| discriminate].
  intro H. injection H as <-.
  apply preserves_build_tree in Hb. destruct Hb.
  simpl in *. eexists. split; [eassumption | assumption].
Qed.

(** Two calls compound. *)
Lemma fit_twice_scales_k_twice (s s1 s2 : PolyTree) (X X' : matrix)
      (y y' : vec) :
  fit s X y = Ok s1 ->
  fit s1 X' y' = Ok s2 ->
  exists m1 m2,
    min_samples_leaf s1 = Some m1 /\ min_samples_leaf s2 = Some m2
    /\ k s2 = (k s * Qnat m1 * Qnat m2)%Q.
Proof.
  intros H1 H2.
  apply fit_scales_k in H1 as (m1 & Hm1 & Hk1).
  apply fit_scales_k in H2 as (m2 & Hm2 & Hk2).
  exists m1, m2. rewrite Hk2, Hk1. repeat split; assumption.
Qed.

End FitFacts.

(** The object [unfitted] is what the constructor returns. *)
Lemma unfitted_init :
  __init__ "model_aware" 2 None 1 "total-order" "exhaustive" 50 false None
           (1 # 20)
  = Ok unfitted.
Proof. reflexivity. Qed.

(** C9 (the code at the failing input).  A tree constructed with
    [k = 1/20] and no [min_samples_leaf] is fitted twice on the same six
    samples.  Both calls settle on [min_samples_leaf = 3].  After the
    first call [k] is [3/20]; after the second call it is [9/20], not
    [1/20 * 3]: [self.k *= self.min_samples_leaf] scales the value left
    by the first call. *)
Theorem refit_compounds_k :
  fit unfitted X6 y6 = Ok fitted_once
  /\ fit fitted_once X6 y6 = Ok fitted_twice
  /\ min_samples_leaf fitted_once = Some 3
  /\ min_samples_leaf fitted_twice = Some 3
  /\ (k unfitted == 1 # 20)%Q
  /\ (k fitted_once == (1 # 20) * Qnat 3)%Q
  /\ (k fitted_twice == 9 # 20)%Q
  /\ ~ (k fitted_twice == (1 # 20) * Qnat 3)%Q.
Proof.
  split; [vm_compute; reflexivity |].
  split; [vm_compute; reflexivity |].
  split; [vm_compute; reflexivity |].
  split; [vm_compute; reflexivity |].
  split; [vm_compute; reflexivity |].
  split; [vm_compute; reflexivity |].
  split; [vm_compute; reflexivity |].
  vm_compute. discriminate.
Qed.

(* ------------------------------------------------------------------ *)
(** ** The split search                                                *)
(* ------------------------------------------------------------------ *)

Section SplitSearch.
Context {E : External}.

Lemma fit_poly_Ok (X : matrix) (y : vec) (w : world) (f : Q * Poly)
      (w' : world) :
  _fit_poly X y w = Ok (f, w') ->
  Poly_set_model X y = Ok (snd f)
  /\ mse (snd f) X y = Ok (fst f)
  /\ w' = mk_world (self w) (S (index_node_global w))
                   (solver_calls w ++ [(X, y)]).
Proof.
  unfold _fit_poly. intro H.
  inv_bind H as u w1 H1.
  destruct (length X =? 0); [discriminate H1 |].
  apply ret_Ok in H1 as [_ ->].
  inv_bind H as u2 w2 H2. injection H2 as _ <-.
  inv_bind H as p w3 H3. unfold call_solver in H3.
  destruct (Poly_set_model X y) as [p0 |] eqn:Hs; [| discriminate H3].
  injection H3 as <- <-.
  inv_bind H as m w4 H4. apply lift_Ok in H4 as [Hm ->].
  apply ret_Ok in H as [-> ->]. simpl. auto.
Qed.

(** The outcomes of one iteration of the threshold loop. *)
Lemma try_threshold_cases s X y N j acc t w acc' w' :
  try_threshold s X y N j acc t w = Ok (acc', w') ->
  exists Xl yl Xr yr msl,
    _split_data (Some j) (Some t) X y = Ok ((Xl, yl), (Xr, yr))
    /\ min_samples_leaf s = Some msl
    /\ (((msl <=? length Xl) && (msl <=? length Xr) = false
         /\ acc' = acc /\ w' = w)
        \/ (msl <= length Xl /\ msl <= length Xr
            /\ ((splitting_criterion s = "model_aware"%string
                 /\ exists fl fr w1,
                     _fit_poly Xl yl w = Ok (fl, w1)
                     /\ _fit_poly Xr yr w1 = Ok (fr, w')
                     /\ let L := weighted_split_loss (length Xl) (length Xr)
                                                     N (fst fl) (fst fr) in
                        if lt_inf L (Result.loss acc)
                        then acc' = Result.mk true (Fin L)
                                      (Some (snd fl, snd fr))
                                      (Some ((Xl, yl), (Xr, yr)))
                                      (Some j) (Some t) N
                        else acc' = acc)
                \/ (splitting_criterion s = "model_agnostic"%string
                    /\ splitting_criterion s <> "model_aware"%string
                    /\ w' = w
                    /\ match std_reduction (length Xl) (length Xr) N
                                            y yl yr with
                       | Some L =>
                           if lt_inf L (Result.loss acc)
                           then acc' = Result.mk true (Fin L)
                                         (Result.polys acc)
                                         (Some ((Xl, yl), (Xr, yr)))
                                         (Some j) (Some t) N
                           else acc' = acc
                       | None => acc' = acc
                       end)))).
Proof.
  unfold try_threshold. intro H.
  inv_bind H as parts w1 Hp. apply lift_Ok in Hp as [Hp ->].
  destruct parts as [[Xl yl] [Xr yr]].
  inv_bind H as msl w1 Hm. apply lift_Ok in Hm as [Hm ->].
  apply the_Ok in Hm.
  exists Xl, yl, Xr, yr, msl. split; [exact Hp |]. split; [exact Hm |].
  destruct ((msl <=? length Xl) && (msl <=? length Xr)) eqn:Hv; simpl in H.
  - right. apply andb_true_iff in Hv as [Hl Hr].
    apply Nat.leb_le in Hl. apply Nat.leb_le in Hr.
    split; [exact Hl |]. split; [exact Hr |].
    destruct (splitting_criterion s =? "model_aware")%string eqn:Ha.
    + left. apply String.eqb_eq in Ha. split; [exact Ha |].
      inv_bind H as fl w1 Hfl. inv_bind H as fr w2 Hfr.
      exists fl, fr, w1. split; [exact Hfl |].
      cbv zeta in *.
      destruct (lt_inf _ (Result.loss acc));
        apply ret_Ok in H as [-> ->]; auto.
    + right.
      destruct (splitting_criterion s =? "model_agnostic")%string eqn:Hg;
        [| discriminate H].
      apply String.eqb_eq in Hg. apply String.eqb_neq in Ha.
      split; [exact Hg |]. split; [exact Ha |].
      cbv zeta in *.
      destruct (std_reduction _ _ _ _ _ _) as [L |];
        [destruct (lt_inf L (Result.loss acc)) |];
        apply ret_Ok in H as [-> ->]; auto.
  - left. apply ret_Ok in H as [-> ->]. auto.
Qed.

(** The phases of [_splitter]. *)
Lemma splitter_phases nd w res w' :
  _splitter nd w = Ok (res, w') ->
  exists X y w1 lb w2 b1 w3,
    data nd = Some (X, y)
    /\ w1 = mk_world (default_split_dims (length (hd [] X)) (self w))
                     (index_node_global w) (solver_calls w)
    /\ initial_loss (self w1) nd w1 = Ok (lb, w1)
    /\ split_search (self w1) nd X y (length X) (length (hd [] X)) lb w1
       = Ok (b1, w2)
    /\ fit_children (self w1) X y (length X) b1 w2 = Ok (res, w3)
    /\ w' = mk_world (record_depth (Result.did_split res) (depth nd)
                                   (self w3))
                     (index_node_global w3) (solver_calls w3).
Proof.
  unfold _splitter. intro H.
  inv_bind H as d0 w0 Hd. apply lift_Ok in Hd as [Hd ->].
  apply the_Ok in Hd. destruct d0 as [X y]. unfold shape in H.
  inv_bind H as u w1 H1. injection H1 as _ <-.
  inv_bind H as s w2 H2. apply get_self_Ok in H2 as [-> ->].
  inv_bind H as lb w2 Hlb.
  assert (w2 = mk_world (default_split_dims (length (hd [] X)) (self w))
                        (index_node_global w) (solver_calls w)) as ->.
  { unfold initial_loss in Hlb.
    repeat match type of Hlb with
           | (if ?b then _ else _) _ = _ => destruct b
           end;
      try (apply ret_Ok in Hlb as [_ ->]; reflexivity); discriminate Hlb. }
  inv_bind H as b1 w2 Hs.
  inv_bind H as b2 w3 Hf.
  inv_bind H as u2 w4 Hr. injection Hr as _ <-.
  apply ret_Ok in H as [-> ->].
  exists X, y. eexists. exists lb, w2, b1, w3.
  split; [exact Hd |]. split; [reflexivity |].
  split; [exact Hlb |]. split; [exact Hs |]. split; [exact Hf |].
  reflexivity.
Qed.

End SplitSearch.

Section SearchLoops.
Context {E : External}.

(** An invariant of the loop body is an invariant of the whole search
    over features and thresholds. *)
Lemma search_inv (I : Result.t -> world -> Prop) s X y N :
  (forall j t acc w acc' w',
      I acc w -> try_threshold s X y N j acc t w = Ok (acc', w') ->
      I acc' w') ->
  forall d init w best w',
    I init w ->
    foldM (search_feature s X y N) (seq 0 d) init w = Ok (best, w') ->
    I best w'.
Proof.
  intros Hstep d. apply foldM_inv.
  intros acc j w acc' w' _ Hacc H. unfold search_feature in H.
  inv_bind H as ts w1 Hts. apply lift_Ok in Hts as [_ ->].
  revert H. apply foldM_inv; [| exact Hacc].
  intros a t w0 a' w0' _. apply Hstep.
Qed.

(** Once some iteration establishes [P], and every iteration keeps [P]
    and the side invariant [K], the loop ends with [P]. *)
Lemma foldM_reach {A B} (K P : A -> Prop) (f : A -> B -> M A)
      (l : list B) (b0 : B) :
  (forall a b w a' w', K a -> f a b w = Ok (a', w') -> K a') ->
  (forall a b w a' w', P a -> f a b w = Ok (a', w') -> P a') ->
  In b0 l ->
  (forall a w a' w', K a -> f a b0 w = Ok (a', w') -> P a') ->
  forall a w a' w', K a -> foldM f l a w = Ok (a', w') -> P a'.
Proof.
  intros HK HP Hin Hb0.
  induction l as [| b l IH]; [destruct Hin |].
  intros a w a' w' Ka H. simpl in H. inv_bind H as a1 w1 H1.
  destruct Hin as [-> | Hin].
  - assert (P a1) as Pa1 by (eapply Hb0; eassumption).
    revert H. apply (foldM_inv (fun a _ => P a)); [| exact Pa1].
    intros a0 b w0 a0' w0' _. apply HP.
  - eapply IH; [exact Hin | | exact H]. eapply HK; eassumption.
Qed.

Lemma aware_step s msl X y N p j t acc w acc' w' :
  splitting_criterion s = "model_aware"%string ->
  min_samples_leaf s = Some msl ->
  aware_inv msl N X y p acc ->
  try_threshold s X y N j acc t w = Ok (acc', w') ->
  aware_inv msl N X y p acc'.
Proof.
  intros Hc Hm Hinv H.
  apply try_threshold_cases in H
    as (Xl & yl & Xr & yr & msl' & Hsd & Hm' & Hcase).
  rewrite Hm in Hm'. injection Hm' as <-.
  destruct Hcase as [(_ & -> & _) | (Hl & Hr & Hcase)]; [exact Hinv |].
  destruct Hcase as [(_ & fl & fr & w1 & Hfl & Hfr & Hacc)
                    | (Hg & Hna & _)]; [| contradiction].
  apply fit_poly_Ok in Hfl as (Hpl & Hll & _).
  apply fit_poly_Ok in Hfr as (Hpr & Hlr & _).
  cbv zeta in Hacc.
  destruct Hinv as (b & Hb & Hbp & Hno & Hyes).
  rewrite Hb in Hacc. unfold lt_inf in Hacc.
  destruct (Qlt_le_dec _ b) as [Hlt | Hge].
  - subst acc'. eexists. split; [reflexivity |].
    split; [apply Qlt_le_weak; eapply Qlt_le_trans; eassumption |].
    split; [discriminate |]. intros _.
    split; [eapply Qlt_le_trans; eassumption |].
    exists j, t, Xl, yl, Xr, yr.
    split; [repeat split; assumption |].
    split; [exact Hl |]. split; [exact Hr |].
    exists (snd fl), (snd fr), (fst fl), (fst fr). repeat split; assumption.
  - subst acc'. exists b. auto.
Qed.

(** With the model-aware criterion the block that refits the children is
    skipped. *)
Lemma fit_children_aware s X y N best w res w' :
  splitting_criterion s = "model_aware"%string ->
  fit_children s X y N best w = Ok (res, w') ->
  res = best /\ w' = w.
Proof.
  intros Hc H. unfold fit_children in H. rewrite Hc in H. simpl in H.
  apply ret_Ok in H. exact H.
Qed.

Lemma default_split_dims_fields d s :
  splitting_criterion (default_split_dims d s) = splitting_criterion s
  /\ min_samples_leaf (default_split_dims d s) = min_samples_leaf s
  /\ max_depth (default_split_dims d s) = max_depth s
  /\ search (default_split_dims d s) = search s
  /\ samples (default_split_dims d s) = samples s
  /\ all_data (default_split_dims d s) = all_data s.
Proof.
  unfold default_split_dims. destruct (split_dims s); repeat split.
Qed.

End SearchLoops.

Section ModelAware.
Context {E : External}.

Lemma initial_loss_aware s nd w lb w' :
  splitting_criterion s = "model_aware"%string ->
  initial_loss s nd w = Ok (lb, w') -> lb = Fin (loss nd).
Proof.
  intros Hc H. unfold initial_loss in H. rewrite Hc in H. simpl in H.
  apply ret_Ok in H as [-> _]. reflexivity.
Qed.

Lemma split_search_aware s nd X y N d w best w' :
  splitting_criterion s = "model_aware"%string ->
  split_search s nd X y N d (Fin (loss nd)) w = Ok (best, w') ->
  (Result.did_split best = false /\ Result.loss best = Fin (loss nd))
  \/ (exists msl, min_samples_leaf s = Some msl
                  /\ aware_inv msl N X y (loss nd) best).
Proof.
  intros Hc H. unfold split_search in H. rewrite Hc in H. simpl in H.
  destruct (depth nd <? max_depth s).
  - destruct (min_samples_leaf s) as [msl |] eqn:Hm.
    + right. exists msl. split; [reflexivity |].
      revert H.
      apply (search_inv (fun acc _ => aware_inv msl N X y (loss nd) acc)).
      * intros j t acc w0 acc' w0'. apply aware_step; assumption.
      * exists (loss nd). split; [reflexivity |].
        split; [apply Qle_refl |]. split; [reflexivity | discriminate].
    + left. revert H.
      apply (search_inv
               (fun acc _ => Result.did_split acc = false
                             /\ Result.loss acc = Fin (loss nd))).
      * intros j t acc w0 acc' w0' _ H.
        apply try_threshold_cases in H as (? & ? & ? & ? & ? & _ & Hm' & _).
        rewrite Hm in Hm'. discriminate Hm'.
      * split; reflexivity.
  - left. apply ret_Ok in H as [-> _]. split; reflexivity.
Qed.

(** C5.  With the model-aware criterion the search starts from the
    parent's own loss, and a candidate replaces the running best only if
    its loss is strictly smaller.  The loss of a candidate is the
    size-weighted average of the losses of its two children,
    [(N_left * loss_left + N_right * loss_right) / N], where the loss of a
    child is the mean squared error of the polynomial fitted to it (the
    sum of its squared residuals divided by its number of rows).  Hence:
    (1) when the node splits, the reported split is a candidate that
        respects [min_samples_leaf], whose children were fitted, and whose
        weighted child loss is the reported loss and is strictly less than
        the parent's loss;
    (2) when it does not split, the reported loss is still the parent's;
    (3) in the threshold loop every replacement strictly lowers the best,
        a candidate whose weighted child loss equals the current best
        leaves the best unchanged, and a candidate that replaces the best
        stores its own weighted child loss. *)
Theorem model_aware_strict_improvement :
  forall (nd : node) (w : world) (res : Result.t) (w' : world),
    splitting_criterion (self w) = "model_aware"%string ->
    _splitter nd w = Ok (res, w') ->
    (Result.did_split res = true ->
     exists X y msl j t Xl yl Xr yr pl pr,
       data nd = Some (X, y)
       /\ min_samples_leaf (self w) = Some msl
       /\ reports_split X y res j t Xl yl Xr yr
       /\ msl <= length Xl /\ msl <= length Xr
       /\ Result.polys res = Some (pl, pr)
       /\ Poly_set_model Xl yl = Ok pl /\ Poly_set_model Xr yr = Ok pr
       /\ length yl = length Xl /\ length yr = length Xr
       /\ let ll :=
            (fold_right Qplus 0
               (map (fun xy => (snd xy - pl (fst xy)) * (snd xy - pl (fst xy)))
                    (combine Xl yl))
             / inject_Z (Z.of_nat (length Xl)))%Q in
          let lr :=
            (fold_right Qplus 0
               (map (fun xy => (snd xy - pr (fst xy)) * (snd xy - pr (fst xy)))
                    (combine Xr yr))
             / inject_Z (Z.of_nat (length Xr)))%Q in
          let L :=
            ((inject_Z (Z.of_nat (length Xl)) * ll
              + inject_Z (Z.of_nat (length Xr)) * lr)
             / inject_Z (Z.of_nat (length X)))%Q in
          Result.loss res = Fin L /\ (L < loss nd)%Q)
    /\ (Result.did_split res = false -> Result.loss res = Fin (loss nd))
    /\ (forall s X y N j t acc b w0 acc' w0',
           splitting_criterion s = "model_aware"%string ->
           Result.loss acc = Fin b ->
           try_threshold s X y N j acc t w0 = Ok (acc', w0') ->
           (acc' = acc
            \/ exists L, Result.loss acc' = Fin L /\ (L < b)%Q)
           /\ (forall Xl yl Xr yr pl pr,
                  _split_data (Some j) (Some t) X y
                  = Ok ((Xl, yl), (Xr, yr)) ->
                  Poly_set_model Xl yl = Ok pl ->
                  Poly_set_model Xr yr = Ok pr ->
                  let ll :=
                    (fold_right Qplus 0
                       (map (fun xy => (snd xy - pl (fst xy))
                                       * (snd xy - pl (fst xy)))
                            (combine Xl yl))
                     / inject_Z (Z.of_nat (length Xl)))%Q in
                  let lr :=
                    (fold_right Qplus 0
                       (map (fun xy => (snd xy - pr (fst xy))
                                       * (snd xy - pr (fst xy)))
                            (combine Xr yr))
                     / inject_Z (Z.of_nat (length Xr)))%Q in
                  let L :=
                    ((inject_Z (Z.of_nat (length Xl)) * ll
                      + inject_Z (Z.of_nat (length Xr)) * lr)
                     / inject_Z (Z.of_nat N))%Q in
                  ((L == b)%Q -> acc' = acc)
                  /\ (acc' <> acc ->
                      Result.loss acc' = Fin L /\ (L < b)%Q))).
Proof.
  intros nd w res w' Hc H. split; [| split].
  - intro Hd.
    apply splitter_phases in H
      as (X & y & w1 & lb & w2 & b1 & w3 & Hdata & -> & Hlb & Hs & Hf & ->).
    simpl in *.
    destruct (default_split_dims_fields (length (hd [] X)) (self w))
      as (Hc' & Hm' & _).
    rewrite <- Hc' in Hc.
    apply (initial_loss_aware _ _ _ _ _ Hc) in Hlb as ->.
    apply (fit_children_aware _ _ _ _ _ _ _ _ Hc) in Hf as [-> ->].
    apply (split_search_aware _ _ _ _ _ _ _ _ _ Hc) in Hs
      as [[Hno _] | (msl & Hm & (b & Hb & _ & _ & Hyes))].
    { rewrite Hno in Hd. discriminate Hd. }
    destruct (Hyes Hd)
      as (Hlt & j & t & Xl & yl & Xr & yr & Hrep & Hl & Hr
          & pl & pr & ll & lr & Hp & Hpl & Hll & Hpr & Hlr & Hloss).
    rewrite Hb in Hloss. injection Hloss as ->.
    rewrite Hm' in Hm.
    apply mse_Ok in Hll as [Hyl ->]. apply mse_Ok in Hlr as [Hyr ->].
    exists X, y, msl, j, t, Xl, yl, Xr, yr, pl, pr.
    split; [exact Hdata |]. split; [exact Hm |]. split; [exact Hrep |].
    split; [exact Hl |]. split; [exact Hr |]. split; [exact Hp |].
    split; [exact Hpl |]. split; [exact Hpr |].
    split; [exact Hyl |]. split; [exact Hyr |].
    cbv zeta. split; [exact Hb | exact Hlt].
  - intro Hd.
    apply splitter_phases in H
      as (X & y & w1 & lb & w2 & b1 & w3 & Hdata & -> & Hlb & Hs & Hf & ->).
    simpl in *.
    destruct (default_split_dims_fields (length (hd [] X)) (self w))
      as (Hc' & _).
    rewrite <- Hc' in Hc.
    apply (initial_loss_aware _ _ _ _ _ Hc) in Hlb as ->.
    apply (fit_children_aware _ _ _ _ _ _ _ _ Hc) in Hf as [-> ->].
    apply (split_search_aware _ _ _ _ _ _ _ _ _ Hc) in Hs
      as [[_ Hl] | (msl & Hm & (b & Hb & _ & Hno & _))];
      [exact Hl |].
    rewrite (Hno Hd). reflexivity.
  - clear. intros s X y N j t acc b w0 acc' w0' Hc Hb H.
    apply try_threshold_cases in H
      as (Xl & yl & Xr & yr & msl & Hsd & Hm & Hcase).
    destruct Hcase as [(_ & -> & _) | (Hl & Hr & Hcase)].
    { split; [left; reflexivity |].
      intros; cbv zeta; split; [reflexivity | contradiction]. }
    destruct Hcase as [(_ & fl & fr & w1 & Hfl & Hfr & Hacc)
                      | (_ & Hna & _)]; [| contradiction].
    apply fit_poly_Ok in Hfl as (Hpl & Hll & _).
    apply fit_poly_Ok in Hfr as (Hpr & Hlr & _).
    apply mse_Ok in Hll as [_ Ell]. apply mse_Ok in Hlr as [_ Elr].
    cbv zeta in Hacc. rewrite Hb in Hacc. unfold lt_inf in Hacc.
    unfold weighted_split_loss, Qnat in Hacc. rewrite Ell, Elr in Hacc.
    destruct (Qlt_le_dec _ b) as [Hlt | Hge].
    + split.
      * right. subst acc'. eexists. split; [reflexivity | exact Hlt].
      * intros Xl' yl' Xr' yr' pl pr Hsd' Hpl' Hpr'.
        rewrite Hsd in Hsd'. injection Hsd' as <- <- <- <-.
        rewrite Hpl in Hpl'. injection Hpl' as <-.
        rewrite Hpr in Hpr'. injection Hpr' as <-.
        cbv zeta. split.
        -- intro Heq. rewrite Heq in Hlt. exfalso. exact (Qlt_irrefl _ Hlt).
        -- intros _. subst acc'. split; [reflexivity | exact Hlt].
    + subst acc'. split; [left; reflexivity |].
      intros; cbv zeta; split; [reflexivity | contradiction].
Qed.

End ModelAware.

Lemma model_aware_strict_improvement_witness :
  exists res w' L,
    _splitter root6 (world6 "model_aware" "exhaustive" 3) = Ok (res, w')
    /\ Result.did_split res = true
    /\ Result.loss res = Fin L
    /\ (L < loss root6)%Q.
Proof.
  destruct (_splitter root6 (world6 "model_aware" "exhaustive" 3))
    as [[res w'] | e] eqn:H; [| vm_compute in H; discriminate H].
  assert (Result.did_split res = true) as Hd.
  { vm_compute in H. injection H as <- _. reflexivity. }
  destruct (model_aware_strict_improvement
              root6 (world6 "model_aware" "exhaustive" 3) res w'
              eq_refl H) as [Hyes _].
  destruct (Hyes Hd)
    as (X & y & msl & j & t & Xl & yl & Xr & yr & pl & pr
        & _ & _ & _ & _ & _ & _ & _ & _ & _ & _ & Hloss & Hlt).
  exists res, w'. eexists.
  split; [reflexivity |]. split; [exact Hd |].
  split; [exact Hloss | exact Hlt].
Defined.

Section ModelAgnostic.
Context {E : External}.

Lemma agnostic_step s X y N w1 j t acc w acc' w' :
  splitting_criterion s = "model_agnostic"%string ->
  agnostic_inv s X y w1 acc w ->
  try_threshold s X y N j acc t w = Ok (acc', w') ->
  agnostic_inv s X y w1 acc' w'.
Proof.
  intros Hc Hinv H.
  apply try_threshold_cases in H
    as (Xl & yl & Xr & yr & msl & Hsd & Hm & Hcase).
  destruct Hcase as [(_ & -> & ->) | (Hl & Hr & Hcase)]; [exact Hinv |].
  destruct Hcase as [(Ha & _) | (_ & _ & -> & Hacc)].
  { rewrite Hc in Ha. discriminate Ha. }
  destruct Hinv as (Hw & Hp & Hno & Hyes).
  destruct (std_reduction _ _ _ _ _ _) as [L |];
    [destruct (lt_inf L (Result.loss acc)) |]; subst acc'.
  - split; [exact Hw |]. split; [exact Hp |]. split; [discriminate |].
    intros _. exists msl, j, t, Xl, yl, Xr, yr.
    repeat split; assumption.
  - repeat split; assumption.
  - repeat split; assumption.
Qed.

(** The block that fits the children after a split was selected without
    fitting. *)
Lemma fit_children_refit s X y N best w res w' j t :
  splitting_criterion s <> "model_aware"%string ->
  Result.did_split best = true ->
  Result.j_feature best = Some j ->
  Result.threshold best = Some t ->
  fit_children s X y N best w = Ok (res, w') ->
  exists Xl yl Xr yr,
    _split_data (Some j) (Some t) X y = Ok ((Xl, yl), (Xr, yr))
    /\ Result.did_split res = true
    /\ Result.j_feature res = Some j
    /\ Result.threshold res = Some t
    /\ Result.data res
       = (if (splitting_criterion s =? "loss_gradient")%string
          then Some ((Xl, yl), (Xr, yr)) else Result.data best)
    /\ reports_fits N res Xl yl Xr yr
    /\ solver_calls w' = solver_calls w ++ [(Xl, yl); (Xr, yr)]
    /\ index_node_global w' = 2 + index_node_global w
    /\ self w' = self w.
Proof.
  intros Hc Hd Hj Ht H. unfold fit_children in H.
  apply String.eqb_neq in Hc. rewrite Hc, Hd, Hj, Ht in H. simpl in H.
  inv_bind H as parts w1 Hp. apply lift_Ok in Hp as [Hp ->].
  destruct parts as [[Xl yl] [Xr yr]].
  inv_bind H as fl w1 Hfl. inv_bind H as fr w2 Hfr.
  apply ret_Ok in H as [-> ->].
  apply fit_poly_Ok in Hfl as (Hpl & Hll & ->).
  apply fit_poly_Ok in Hfr as (Hpr & Hlr & ->).
  exists Xl, yl, Xr, yr. simpl.
  repeat (split; [first [assumption | reflexivity] |]).
  split.
  - exists (snd fl), (snd fr), (fst fl), (fst fr).
    repeat split; assumption.
  - split; [| split; reflexivity].
    rewrite <- app_assoc. reflexivity.
Qed.

Lemma fit_children_no_split s X y N best w res w' :
  Result.did_split best = false ->
  fit_children s X y N best w = Ok (res, w') ->
  res = best /\ w' = w.
Proof.
  intros Hd H. unfold fit_children in H. rewrite Hd, andb_false_r in H.
  apply ret_Ok in H. exact H.
Qed.

Lemma split_search_agnostic s nd X y N d w best w' :
  splitting_criterion s = "model_agnostic"%string ->
  split_search s nd X y N d Inf w = Ok (best, w') ->
  agnostic_inv s X y w best w'.
Proof.
  intros Hc H. unfold split_search in H. rewrite Hc in H. simpl in H.
  assert (agnostic_inv s X y w
            (Result.mk false Inf None None None None N) w) as Hinit.
  { split; [reflexivity |]. split; [reflexivity |].
    split; [reflexivity | discriminate]. }
  destruct (depth nd <? max_depth s).
  - revert H. apply (search_inv (agnostic_inv s X y w)); [| exact Hinit].
    intros j t acc w0 acc' w0'. apply agnostic_step. exact Hc.
  - apply ret_Ok in H as [-> ->]. exact Hinit.
Qed.

(** A candidate that respects [min_samples_leaf] makes the
    model-agnostic search split. *)
Lemma agnostic_candidate_splits s X y N msl j0 t0 Xl yl Xr yr acc w acc' w' :
  splitting_criterion s = "model_agnostic"%string ->
  min_samples_leaf s = Some msl ->
  _split_data (Some j0) (Some t0) X y = Ok ((Xl, yl), (Xr, yr)) ->
  msl <= length Xl -> msl <= length Xr ->
  1 <= length Xl -> 1 <= length Xr ->
  (Result.did_split acc = false -> Result.loss acc = Inf) ->
  try_threshold s X y N j0 acc t0 w = Ok (acc', w') ->
  Result.did_split acc' = true.
Proof.
  intros Hc Hm Hsd Hl Hr Hl1 Hr1 HK H.
  destruct (split_data_lengths _ _ _ _ _ _ _ _ Hsd) as (Eyl & Eyr & Ey).
  assert (1 <= length y) as Ey1 by (apply Ey; left; lia).
  apply try_threshold_cases in H
    as (Xl' & yl' & Xr' & yr' & msl' & Hsd' & Hm' & Hcase).
  rewrite Hsd in Hsd'. injection Hsd' as <- <- <- <-.
  rewrite Hm in Hm'. injection Hm' as <-.
  destruct Hcase as [(Hv & _) | (_ & _ & Hcase)].
  { apply Nat.leb_le in Hl. apply Nat.leb_le in Hr.
    rewrite Hl, Hr in Hv. discriminate Hv. }
  destruct Hcase as [(Ha & _) | (_ & _ & _ & Hacc)].
  { rewrite Hc in Ha. discriminate Ha. }
  unfold std_reduction in Hacc.
  assert ((length y =? 0) || (length yl =? 0) || (length yr =? 0) = false)
    as Hne.
  { apply orb_false_iff. split; [apply orb_false_iff; split |];
      apply Nat.eqb_neq; lia. }
  rewrite Hne in Hacc.
  destruct (lt_inf _ (Result.loss acc)) eqn:Hlt.
  - subst acc'. reflexivity.
  - subst acc'. destruct (Result.did_split acc); [reflexivity |].
    rewrite (HK eq_refl) in Hlt. discriminate Hlt.
Qed.

Lemma agnostic_keeps s X y N j t acc w acc' w' :
  splitting_criterion s = "model_agnostic"%string ->
  try_threshold s X y N j acc t w = Ok (acc', w') ->
  ((Result.did_split acc = false -> Result.loss acc = Inf) ->
   (Result.did_split acc' = false -> Result.loss acc' = Inf))
  /\ (Result.did_split acc = true -> Result.did_split acc' = true).
Proof.
  intros Hc H.
  apply try_threshold_cases in H
    as (Xl & yl & Xr & yr & msl & Hsd & Hm & Hcase).
  destruct Hcase as [(_ & -> & _) | (_ & _ & Hcase)]; [auto |].
  destruct Hcase as [(Ha & _) | (_ & _ & _ & Hacc)].
  { rewrite Hc in Ha. discriminate Ha. }
  destruct (std_reduction _ _ _ _ _ _) as [L |];
    [destruct (lt_inf L (Result.loss acc)) |]; subst acc'; simpl; auto.
  split; [discriminate | reflexivity].
Qed.

Lemma search_feature_agnostic_keeps s X y N j acc w acc' w' :
  splitting_criterion s = "model_agnostic"%string ->
  search_feature s X y N acc j w = Ok (acc', w') ->
  ((Result.did_split acc = false -> Result.loss acc = Inf) ->
   (Result.did_split acc' = false -> Result.loss acc' = Inf))
  /\ (Result.did_split acc = true -> Result.did_split acc' = true).
Proof.
  intros Hc H. unfold search_feature in H.
  inv_bind H as ts w1 Hts. split.
  - intro HK. revert H.
    apply (foldM_inv
             (fun a _ => Result.did_split a = false -> Result.loss a = Inf));
      [| exact HK].
    intros a t w0 a' w0' _ Ha Hs.
    apply (agnostic_keeps _ _ _ _ _ _ _ _ _ _ Hc Hs). exact Ha.
  - intro HP. revert H.
    apply (foldM_inv (fun a _ => Result.did_split a = true)); [| exact HP].
    intros a t w0 a' w0' _ Ha Hs.
    apply (agnostic_keeps _ _ _ _ _ _ _ _ _ _ Hc Hs). exact Ha.
Qed.

Lemma split_search_agnostic_splits s nd X y N d msl j0 ts t0 Xl yl Xr yr
      w best w' :
  splitting_criterion s = "model_agnostic"%string ->
  min_samples_leaf s = Some msl ->
  depth nd < max_depth s ->
  j0 < d ->
  threshold_search s X N j0 = Ok ts ->
  In t0 (np_unique (np_sort ts)) ->
  _split_data (Some j0) (Some t0) X y = Ok ((Xl, yl), (Xr, yr)) ->
  msl <= length Xl -> msl <= length Xr ->
  1 <= length Xl -> 1 <= length Xr ->
  split_search s nd X y N d Inf w = Ok (best, w') ->
  Result.did_split best = true.
Proof.
  intros Hc Hm Hdepth Hj Hts Hin Hsd Hl Hr Hl1 Hr1 H.
  unfold split_search in H. rewrite Hc in H. simpl in H.
  apply Nat.ltb_lt in Hdepth. rewrite Hdepth in H.
  revert H.
  apply (foldM_reach
           (fun a => Result.did_split a = false -> Result.loss a = Inf)
           (fun a => Result.did_split a = true)
           (search_feature s X y N) (seq 0 d) j0).
  - intros a j w0 a' w0' Ka Hs.
    apply (search_feature_agnostic_keeps _ _ _ _ _ _ _ _ _ Hc Hs). exact Ka.
  - intros a j w0 a' w0' Pa Hs.
    apply (search_feature_agnostic_keeps _ _ _ _ _ _ _ _ _ Hc Hs). exact Pa.
  - apply in_seq. lia.
  - intros a w0 a' w0' Ka Hs. unfold search_feature in Hs.
    inv_bind Hs as ts' w1 Hts'. apply lift_Ok in Hts' as [Hts' ->].
    rewrite Hts in Hts'. injection Hts' as <-.
    revert Hs.
    apply (foldM_reach
             (fun a => Result.did_split a = false -> Result.loss a = Inf)
             (fun a => Result.did_split a = true)
             (try_threshold s X y N j0) (np_unique (np_sort ts)) t0).
    + intros a0 t w2 a0' w2' Ka0 Hs.
      apply (agnostic_keeps _ _ _ _ _ _ _ _ _ _ Hc Hs). exact Ka0.
    + intros a0 t w2 a0' w2' Pa0 Hs.
      apply (agnostic_keeps _ _ _ _ _ _ _ _ _ _ Hc Hs). exact Pa0.
    + exact Hin.
    + intros a0 w2 a0' w2' Ka0 Hs.
      eapply agnostic_candidate_splits; eassumption.
    + exact Ka.
  - reflexivity.
Qed.

End ModelAgnostic.

Section ModelAgnosticMain.
Context {E : External}.

Lemma threshold_search_default d s X N j :
  threshold_search (default_split_dims d s) X N j = threshold_search s X N j.
Proof.
  unfold threshold_search, default_split_dims.
  destruct (split_dims s); reflexivity.
Qed.

Lemma initial_loss_agnostic s nd w lb w' :
  splitting_criterion s = "model_agnostic"%string ->
  initial_loss s nd w = Ok (lb, w') -> lb = Inf.
Proof.
  intros Hc H. unfold initial_loss in H. rewrite Hc in H. simpl in H.
  apply ret_Ok in H as [-> _]. reflexivity.
Qed.

(** C7 (amended).  With the model-agnostic criterion:
    (1) an iteration of the threshold loop never touches the solver; it
        scores the candidate by
        [std(y) - (N_left*std(y_left) + N_right*std(y_right))/N], which is
        nan when one of the three arrays is empty, and accepts the
        candidate exactly when it respects [min_samples_leaf], the score
        is a number and the score is strictly below the running best;
    (2) when the node does not split, the reported loss is still
        [+infinity] and no polynomial was fitted;
    (3) when it splits, the reported split respects [min_samples_leaf],
        and the solver was called exactly twice, once on each part of the
        selected split and after the search, which gives the reported
        polynomials; the reported loss is the size-weighted average of the
        mean squared errors of these two polynomials;
    (4) at an eligible depth, a single candidate that satisfies
        [min_samples_leaf] and leaves no side empty forces a split. *)
Theorem model_agnostic_search :
  forall (nd : node) (w : world) (res : Result.t) (w' : world),
    splitting_criterion (self w) = "model_agnostic"%string ->
    _splitter nd w = Ok (res, w') ->
    (forall s X y N j t acc w0 acc' w0',
        splitting_criterion s = "model_agnostic"%string ->
        try_threshold s X y N j acc t w0 = Ok (acc', w0') ->
        w0' = w0
        /\ exists Xl yl Xr yr msl,
            _split_data (Some j) (Some t) X y = Ok ((Xl, yl), (Xr, yr))
            /\ min_samples_leaf s = Some msl
            /\ let score :=
                 (np_std y
                  - (inject_Z (Z.of_nat (length Xl)) * np_std yl
                     + inject_Z (Z.of_nat (length Xr)) * np_std yr)
                    / inject_Z (Z.of_nat N))%Q in
               if (msl <=? length Xl) && (msl <=? length Xr)
                  && negb ((length y =? 0) || (length yl =? 0)
                           || (length yr =? 0))
                  && lt_inf score (Result.loss acc)
               then acc' = Result.mk true (Fin score) (Result.polys acc)
                             (Some ((Xl, yl), (Xr, yr))) (Some j) (Some t) N
               else acc' = acc)
    /\ (Result.did_split res = false ->
        Result.loss res = Inf /\ solver_calls w' = solver_calls w)
    /\ (Result.did_split res = true ->
        exists X y msl j t Xl yl Xr yr pl pr,
          data nd = Some (X, y)
          /\ min_samples_leaf (self w) = Some msl
          /\ reports_split X y res j t Xl yl Xr yr
          /\ msl <= length Xl /\ msl <= length Xr
          /\ Result.polys res = Some (pl, pr)
          /\ Poly_set_model Xl yl = Ok pl /\ Poly_set_model Xr yr = Ok pr
          /\ (let ll :=
                (fold_right Qplus 0
                   (map (fun xy => (snd xy - pl (fst xy))
                                   * (snd xy - pl (fst xy)))
                        (combine Xl yl))
                 / inject_Z (Z.of_nat (length Xl)))%Q in
              let lr :=
                (fold_right Qplus 0
                   (map (fun xy => (snd xy - pr (fst xy))
                                   * (snd xy - pr (fst xy)))
                        (combine Xr yr))
                 / inject_Z (Z.of_nat (length Xr)))%Q in
              Result.loss res
              = Fin ((inject_Z (Z.of_nat (length Xl)) * ll
                      + inject_Z (Z.of_nat (length Xr)) * lr)
                     / inject_Z (Z.of_nat (length X)))%Q)
          /\ solver_calls w' = solver_calls w ++ [(Xl, yl); (Xr, yr)])
    /\ (forall X y msl j ts t Xl yl Xr yr,
           data nd = Some (X, y) ->
           depth nd < max_depth (self w) ->
           min_samples_leaf (self w) = Some msl ->
           j < length (hd [] X) ->
           threshold_search (self w) X (length X) j = Ok ts ->
           In t (np_unique (np_sort ts)) ->
           _split_data (Some j) (Some t) X y = Ok ((Xl, yl), (Xr, yr)) ->
           msl <= length Xl -> msl <= length Xr ->
           1 <= length Xl -> 1 <= length Xr ->
           Result.did_split res = true).
Proof.
  intros nd w res w' Hc H. split.
  { clear. intros s X y N j t acc w0 acc' w0' Hc H.
    apply try_threshold_cases in H
      as (Xl & yl & Xr & yr & msl & Hsd & Hm & Hcase).
    destruct Hcase as [(Hv & -> & ->) | (Hl & Hr & Hcase)].
    - split; [reflexivity |]. exists Xl, yl, Xr, yr, msl.
      split; [exact Hsd |]. split; [exact Hm |].
      cbv zeta. rewrite Hv. reflexivity.
    - destruct Hcase as [(Ha & _) | (_ & _ & -> & Hacc)].
      { rewrite Hc in Ha. discriminate Ha. }
      split; [reflexivity |]. exists Xl, yl, Xr, yr, msl.
      split; [exact Hsd |]. split; [exact Hm |].
      apply Nat.leb_le in Hl. apply Nat.leb_le in Hr.
      cbv zeta. rewrite Hl, Hr. cbn [andb].
      unfold std_reduction, Qnat in Hacc.
      destruct ((length y =? 0) || (length yl =? 0) || (length yr =? 0));
        cbn [negb andb]; exact Hacc. }
  apply splitter_phases in H
    as (X & y & w1 & lb & w2 & b1 & w3 & Hdata & -> & Hlb & Hs & Hf & ->).
  simpl.
  destruct (default_split_dims_fields (length (hd [] X)) (self w))
    as (Hc' & Hm' & Hmd' & _).
  assert (splitting_criterion
            (default_split_dims (length (hd [] X)) (self w))
          = "model_agnostic"%string) as Hcs
      by (rewrite Hc'; exact Hc).
  assert (splitting_criterion
            (default_split_dims (length (hd [] X)) (self w))
          <> "model_aware"%string) as Hna
      by (rewrite Hcs; discriminate).
  apply (initial_loss_agnostic _ _ _ _ _ Hcs) in Hlb as ->.
  pose proof (split_search_agnostic _ _ _ _ _ _ _ _ _ Hcs Hs)
    as (-> & Hpolys & Hno & Hyes).
  split; [| split].
  - intro Hd. destruct (Result.did_split b1) eqn:Hd1.
    + destruct (Hyes eq_refl)
        as (msl & j & t & Xl & yl & Xr & yr & _ & (Hj & Ht & _) & _).
      destruct (fit_children_refit _ _ _ _ _ _ _ _ _ _ Hna Hd1 Hj Ht Hf)
        as (? & ? & ? & ? & _ & Hd' & _).
      rewrite Hd in Hd'. discriminate Hd'.
    + apply (fit_children_no_split _ _ _ _ _ _ _ _ Hd1) in Hf as [-> ->].
      split; [apply Hno; reflexivity | reflexivity].
  - intro Hd. destruct (Result.did_split b1) eqn:Hd1.
    + destruct (Hyes eq_refl)
        as (msl & j & t & Xl & yl & Xr & yr & Hm & (Hj & Ht & Hdt & Hsd)
            & Hl & Hr).
      destruct (fit_children_refit _ _ _ _ _ _ _ _ _ _ Hna Hd1 Hj Ht Hf)
        as (Xl' & yl' & Xr' & yr' & Hsd' & _ & Hj' & Ht' & Hdt' & Hfits
            & Hcalls & _).
      rewrite Hsd in Hsd'. injection Hsd' as <- <- <- <-.
      rewrite Hcs in Hdt'. simpl in Hdt'. rewrite Hdt in Hdt'.
      rewrite Hm' in Hm.
      destruct Hfits as (pl & pr & ll & lr & Hp & Hpl & Hll & Hpr & Hlr
                         & Hloss).
      apply mse_Ok in Hll as [_ ->]. apply mse_Ok in Hlr as [_ ->].
      exists X, y, msl, j, t, Xl, yl, Xr, yr, pl, pr.
      split; [exact Hdata |]. split; [exact Hm |].
      split; [repeat split; assumption |].
      split; [exact Hl |]. split; [exact Hr |].
      split; [exact Hp |]. split; [exact Hpl |]. split; [exact Hpr |].
      split; [exact Hloss | exact Hcalls].
    + apply (fit_children_no_split _ _ _ _ _ _ _ _ Hd1) in Hf as [-> _].
      rewrite Hd1 in Hd. discriminate Hd.
  - intros X0 y0 msl j ts t Xl yl Xr yr Hdata0 Hdepth Hm Hj Hts Hin Hsd
           Hl Hr Hl1 Hr1.
    rewrite Hdata in Hdata0. injection Hdata0 as <- <-.
    rewrite <- Hmd' in Hdepth. rewrite <- Hm' in Hm.
    rewrite <- (threshold_search_default (length (hd [] X))) in Hts.
    pose proof (split_search_agnostic_splits
                  _ _ _ _ _ _ _ _ _ _ _ _ _ _ _ _ _
                  Hcs Hm Hdepth Hj Hts Hin Hsd Hl Hr Hl1 Hr1 Hs) as Hd1.
    destruct (Hyes Hd1)
      as (msl1 & j1 & t1 & Xl1 & yl1 & Xr1 & yr1 & _ & (Hj1 & Ht1 & _) & _).
    destruct (fit_children_refit _ _ _ _ _ _ _ _ _ _ Hna Hd1 Hj1 Ht1 Hf)
      as (? & ? & ? & ? & _ & Hd' & _).
    exact Hd'.
Qed.

End ModelAgnosticMain.

Lemma model_agnostic_search_witness :
  exists res w' Xl yl Xr yr,
    _splitter root6 (world6 "model_agnostic" "exhaustive" 3) = Ok (res, w')
    /\ Result.did_split res = true
    /\ solver_calls w'
       = solver_calls (world6 "model_agnostic" "exhaustive" 3)
         ++ [(Xl, yl); (Xr, yr)].
Proof.
  destruct (_splitter root6 (world6 "model_agnostic" "exhaustive" 3))
    as [[res w'] | e] eqn:H; [| vm_compute in H; discriminate H].
  assert (Result.did_split res = true) as Hd.
  { vm_compute in H. injection H as <- _. reflexivity. }
  destruct (model_agnostic_search
              root6 (world6 "model_agnostic" "exhaustive" 3) res w'
              eq_refl H) as (_ & _ & Hyes & _).
  destruct (Hyes Hd)
    as (X & y & msl & j & t & Xl & yl & Xr & yr & pl & pr & _ & _ & _ & _
        & _ & _ & _ & _ & _ & Hcalls).
  exists res, w', Xl, yl, Xr, yr.
  split; [reflexivity |]. split; [exact Hd | exact Hcalls].
Defined.

(** C7 as stated fails when a side is empty.  With [min_samples_leaf = 0]
    (the constructor accepts it, and [fit] keeps it), the two samples
    [X2], which share their only feature value, have one candidate
    threshold; it puts both rows on the left and none on the right, which
    satisfies the constraint [N_left >= 0 and N_right >= 0].  The standard
    deviation of the empty right part is nan, so is the score, and
    [nan < inf] is false: the node, at depth 0 below [max_depth = 2],
    does not split. *)
Lemma agnostic_empty_side_no_split :
  exists res w' ts,
    _splitter root2 world2 = Ok (res, w')
    /\ Result.did_split res = false
    /\ data root2 = Some (X2, y2)
    /\ depth root2 < max_depth (self world2)
    /\ min_samples_leaf (self world2) = Some 0
    /\ threshold_search (self world2) X2 (length X2) 0 = Ok ts
    /\ In 1%Q (np_unique (np_sort ts))
    /\ _split_data (Some 0) (Some 1%Q) X2 y2 = Ok ((X2, y2), ([], []))
    /\ 0 <= length X2 /\ 0 <= length (@nil row).
Proof.
  do 3 eexists.
  split; [vm_compute; reflexivity |].
  split; [reflexivity |]. split; [reflexivity |].
  split; [vm_compute; lia |]. split; [reflexivity |].
  split; [vm_compute; reflexivity |].
  split; [vm_compute; left; reflexivity |].
  split; [vm_compute; reflexivity |].
  split; apply Nat.le_0_l.
Qed.

(* ------------------------------------------------------------------ *)
(** ** Sorting and unique values                                       *)
(* ------------------------------------------------------------------ *)







Lemma sorted_nth_le (l : list Q) (i j : nat) :
  StronglySorted Qle l -> i <= j -> j < length l ->
  (nth i l 0 <= nth j l 0)%Q.
Proof.
  intro Hs. revert i j.
  induction Hs as [| x l Hs IH Hall]; intros i j Hij Hj; simpl in Hj;
    [lia |].
  destruct i as [| i]; destruct j as [| j]; simpl.
  - apply Qle_refl.
  - rewrite Forall_forall in Hall. apply Hall. apply nth_In. lia.
  - lia.
  - apply IH; lia.
Qed.








(* ------------------------------------------------------------------ *)
(** ** The sizes of the two parts of a split                           *)
(* ------------------------------------------------------------------ *)

Lemma where_le_length (c : list Q) (t : Q) (i : nat) :
  length (where_le c t i) = length (filter (fun x => Qle_bool x t) c).
Proof.
  revert i. induction c as [| x c IH]; intro i; simpl; [reflexivity |].
  destruct (Qle_bool x t); simpl; rewrite IH; reflexivity.
Qed.

Lemma split_data_sizes j t X y Xl yl Xr yr :
  _split_data (Some j) (Some t) X y = Ok ((Xl, yl), (Xr, yr)) ->
  exists c,
    column X j = Ok c
    /\ length c = length X
    /\ length Xl = length (filter (fun x => Qle_bool x t) c)
    /\ length Xl + length Xr = length X.
Proof.
  unfold _split_data. intro H. inv_rbind H as c Hc.
  exists c. split; [exact Hc |].
  split; [apply (mapM_length _ _ _ Hc) |].
  destruct (length (where_le c t 0)
            + length (delete_arange (length X) (where_le c t 0))
            =? length X) eqn:Hassert; simpl in H; [| discriminate H].
  apply Nat.eqb_eq in Hassert.
  inv_rbind H as Xl' HXl. inv_rbind H as yl' Hyl.
  inv_rbind H as Xr' HXr. inv_rbind H as yr' Hyr.
  injection H as <- <- <- <-.
  apply mapM_length in HXl. apply mapM_length in HXr.
  rewrite HXl, HXr, where_le_length in *. split; [reflexivity | exact Hassert].
Qed.

Lemma filter_perm_length {A} (f : A -> bool) (l l' : list A) :
  Permutation l l' -> length (filter f l) = length (filter f l').
Proof.
  induction 1 as [| x l l' _ IH | x y l | l l' l'' _ IH1 _ IH2]; simpl.
  - reflexivity.
  - destruct (f x); simpl; rewrite IH; reflexivity.
  - destruct (f x), (f y); reflexivity.
  - rewrite IH1. exact IH2.
Qed.

Lemma count_le_split (l : list Q) (s : nat) (m : Q) :
  s <= length l ->
  (forall i, i < s -> (nth i l 0 <= m)%Q) ->
  (forall i, s <= i < length l -> (m < nth i l 0)%Q) ->
  length (filter (fun x => Qle_bool x m) l) = s.
Proof.
  revert s. induction l as [| x l IH]; intros s Hs Hlo Hhi.
  - simpl in *. lia.
  - simpl. destruct s as [| s].
    + assert (Qle_bool x m = false) as ->.
      { destruct (Qle_bool x m) eqn:Hx; [| reflexivity].
        apply Qle_bool_iff in Hx.
        specialize (Hhi 0 ltac:(simpl; lia)). simpl in Hhi.
        exfalso. apply (Qlt_irrefl m). eapply Qlt_le_trans; eassumption. }
      apply IH; [lia | intros i Hi; lia |].
      intros i Hi. apply (Hhi (S i)). simpl. lia.
    + assert (Qle_bool x m = true) as ->.
      { apply Qle_bool_iff. apply (Hlo 0). lia. }
      simpl. f_equal. apply IH.
      * simpl in Hs. lia.
      * intros i Hi. apply (Hlo (S i)). lia.
      * intros i Hi. apply (Hhi (S i)). simpl. lia.
Qed.

(** In a sorted array, a threshold that lies between the values at
    positions [s - 1] and [s] has exactly [s] values at or below it. *)
Lemma sorted_count_le (Xd : list Q) (s : nat) (m : Q) :
  StronglySorted Qle Xd ->
  1 <= s < length Xd ->
  (nth (s - 1) Xd 0 <= m)%Q ->
  (m < nth s Xd 0)%Q ->
  length (filter (fun x => Qle_bool x m) Xd) = s.
Proof.
  intros Hsorted Hs Hlo Hhi. apply count_le_split; [lia | |].
  - intros i Hi. eapply Qle_trans; [| exact Hlo].
    apply sorted_nth_le; [exact Hsorted | lia | lia].
  - intros i Hi. eapply Qlt_le_trans; [exact Hhi |].
    apply sorted_nth_le; [exact Hsorted | lia | lia].
Qed.

Lemma getitem_nth (l : list Q) (i : nat) (a : Q) :
  getitem l i = Ok a -> i < length l /\ nth i l 0%Q = a.
Proof.
  unfold getitem. destruct (nth_error l i) as [a' |] eqn:H; intro Ha;
    [| discriminate Ha].
  injection Ha as <-. split.
  - apply nth_error_Some. rewrite H. discriminate.
  - apply nth_error_nth. exact H.
Qed.

(* ------------------------------------------------------------------ *)
(** ** The gradient split selector                                     *)
(* ------------------------------------------------------------------ *)

Lemma fle_Some (x : float) (b : Q) :
  fle x (Some b) = true <-> exists w, x = Some w /\ (w <= b)%Q.
Proof.
  destruct x as [w |]; simpl; split.
  - intro H. exists w. split; [reflexivity |]. apply Qle_bool_iff. exact H.
  - intros (w' & E & H). injection E as ->. apply Qle_bool_iff. exact H.
  - discriminate.
  - intros (w' & E & _). discriminate E.
Qed.

Lemma argmax_from_spec (l pre : list float) (bi : nat) (bv : float) :
  nth_error pre bi = Some bv ->
  (bv <> nan -> forall x, In x pre -> fle x bv = true) ->
  exists g,
    nth_error (pre ++ l) (argmax_from l (length pre) bi bv) = Some g
    /\ (g <> nan -> forall x, In x (pre ++ l) -> fle x g = true).
Proof.
  revert pre bi bv. induction l as [| x l IH]; intros pre bi bv Hbi Hmax.
  - simpl. rewrite app_nil_r. exists bv. split; assumption.
  - cbn [argmax_from]. destruct bv as [b |]; cbn [isnan].
    + replace (pre ++ x :: l) with ((pre ++ [x]) ++ l)
        by (rewrite <- app_assoc; reflexivity).
      replace (S (length pre)) with (length (pre ++ [x]))
        by (rewrite length_app; simpl; lia).
      specialize (Hmax ltac:(discriminate)).
      destruct (fle x (Some b)) eqn:Hle; cbn [negb].
      * apply IH.
        -- rewrite nth_error_app1; [exact Hbi |].
           apply nth_error_Some. rewrite Hbi. discriminate.
        -- intros _ z Hz. apply in_app_or in Hz as [Hz | [<- | []]].
           ++ apply Hmax. exact Hz.
           ++ exact Hle.
      * apply IH.
        -- rewrite nth_error_app2 by lia. rewrite Nat.sub_diag.
           reflexivity.
        -- intros Hx z Hz. destruct x as [v |]; [| contradiction].
           assert (b < v)%Q as Hbv.
           { destruct (Qlt_le_dec b v) as [Hlt | Hge]; [exact Hlt |].
             apply Qle_bool_iff in Hge. cbn [fle] in Hle.
             rewrite Hge in Hle. discriminate Hle. }
           apply in_app_or in Hz as [Hz | [<- | []]].
           ++ apply Hmax in Hz. apply fle_Some in Hz as (w & -> & Hw).
              apply fle_Some. exists w. split; [reflexivity |].
              apply Qlt_le_weak. eapply Qle_lt_trans; eassumption.
           ++ apply fle_Some. exists v. split; [reflexivity | apply Qle_refl].
    + exists None. split; [| intro F; contradiction].
      rewrite nth_error_app1; [exact Hbi |].
      apply nth_error_Some. rewrite Hbi. discriminate.
Qed.

(** [np.argmax] returns the position of a nan when there is one, and of a
    largest entry otherwise. *)
Lemma np_argmax_spec (l : list float) :
  l <> [] ->
  exists g,
    nth_error l (np_argmax l) = Some g
    /\ (g <> nan -> forall x, In x l -> fle x g = true).
Proof.
  destruct l as [| x l]; [contradiction |]. intros _.
  apply (argmax_from_spec l [x] 0 x); [reflexivity |].
  intros Hx z [<- | []]. destruct x as [v |]; [| contradiction].
  apply fle_Some. exists v. split; [reflexivity | apply Qle_refl].
Qed.

Lemma grad_splits_In (msl N : nat) (Xd : list Q) (s : nat) :
  In s (grad_splits msl N Xd)
  <-> In s (tl (np_unique_index Xd)) /\ msl <= s /\ msl <= N - s.
Proof.
  unfold grad_splits. rewrite filter_In. split.
  - intros [Hin Hmin]. apply Nat.leb_le in Hmin.
    split; [exact Hin | lia].
  - intros (Hin & H1 & H2). split; [exact Hin |].
    apply Nat.leb_le. lia.
Qed.

Lemma gt_ninf_false (g : Q) (m : option Q) :
  gt_ninf g m = false -> exists q, m = Some q /\ (g <= q)%Q.
Proof.
  unfold gt_ninf. destruct m as [q |]; [| discriminate].
  destruct (Qlt_le_dec q g); [discriminate |]. intros _.
  exists q. split; [reflexivity | assumption].
Qed.

Lemma gt_ninf_true (g : Q) (m : option Q) :
  gt_ninf g m = true -> forall q, m = Some q -> (q < g)%Q.
Proof.
  unfold gt_ninf. intros H q ->.
  destruct (Qlt_le_dec q g); [assumption | discriminate].
Qed.

Section GradientSelector.
Context {E : External}.

(** The outcomes of one iteration of the loop over dimensions. *)
Lemma grad_step_cases model X y msl acc d acc' :
  grad_step model X y msl (length X) acc d = Ok acc' ->
  exists c,
    column X d = Ok c
    /\ let sp := grad_splits msl (length X) (np_sort c) in
       (passed_over model X y d sp /\ acc' = acc)
       \/ (2 <= length sp
           /\ exists s g,
               In s sp /\ grad_gain model X y d s = Some g
               /\ (forall s', In s' sp ->
                     exists g', grad_gain model X y d s' = Some g'
                                /\ (g' <= g)%Q)
               /\ ((gt_ninf g (gain_max acc) = false /\ acc' = acc)
                   \/ (gt_ninf g (gain_max acc) = true
                       /\ exists a b,
                           getitem (np_sort c) (s - 1) = Ok a
                           /\ getitem (np_sort c) s = Ok b
                           /\ acc' = mk_grad_best
                                       (Some g) (Some d)
                                       (Some (fl64 ((1 # 2)
                                                    * fl64 (a + b))))))).
Proof.
  unfold grad_step. intro H. inv_rbind H as c Hc.
  exists c. split; [exact Hc |]. cbv zeta.
  set (sp := grad_splits msl (length X) (np_sort c)) in *.
  destruct (length sp <=? 1) eqn:Hlen.
  { injection H as <-. apply Nat.leb_le in Hlen.
    left. split; [left; exact Hlen | reflexivity]. }
  apply Nat.leb_gt in Hlen.
  inv_rbind H as g0 Hg0.
  destruct (np_argmax_spec (map (grad_gain model X y d) sp))
    as (g' & Hg' & Hmax).
  { destruct sp; [simpl in Hlen; lia | discriminate]. }
  unfold getitem in Hg0. rewrite Hg' in Hg0. injection Hg0 as <-.
  rewrite nth_error_map in Hg'.
  destruct (nth_error sp (np_argmax (map (grad_gain model X y d) sp)))
    as [s |] eqn:Hs; [| discriminate Hg'].
  injection Hg' as Hgs.
  assert (In s sp) as Hin by (eapply nth_error_In; exact Hs).
  destruct g' as [g |].
  - right. split; [exact Hlen |]. exists s, g.
    split; [exact Hin |]. split; [exact Hgs |]. split.
    + intros s' Hs'. apply fle_Some. apply Hmax; [discriminate |].
      apply in_map. exact Hs'.
    + destruct (gt_ninf g (gain_max acc)) eqn:Hgt.
      * right. split; [reflexivity |].
        inv_rbind H as s0 Hs0. unfold getitem in Hs0. rewrite Hs in Hs0.
        injection Hs0 as <-.
        inv_rbind H as a Ha. inv_rbind H as b Hb. injection H as <-.
        exists a, b. auto.
      * left. injection H as <-. auto.
  - injection H as <-. left. split; [| reflexivity].
    right. exists s. split; [exact Hin | exact Hgs].
Qed.


Lemma grad_inv_keep model X y msl processed acc d sp :
  grad_inv model X y msl processed acc ->
  dim_splits msl X d = Ok sp ->
  (passed_over model X y d sp
   \/ exists g0,
       gain_max acc = Some g0
       /\ forall s' g', In s' sp -> grad_gain model X y d s' = Some g' ->
                        (g' <= g0)%Q) ->
  grad_inv model X y msl (processed ++ [d]) acc.
Proof.
  intros Hinv Hds Hcase. unfold grad_inv in *.
  destruct (gain_max acc) as [g |].
  - destruct Hinv
      as (d0 & s & c0 & a & b & pre & post & Hp & Hd & Hc0 & H2 & Hs & Hg
          & Ha & Hb & Hv & Hmax & Hpre & Hpost).
    exists d0, s, c0, a, b, pre, (post ++ [d]).
    split; [rewrite Hp, <- app_assoc; reflexivity |].
    repeat (split; [assumption |]).
    intros d' sp' s' g' Hin Hsp' Hnp Hs' Hg'.
    apply in_app_or in Hin as [Hin | [<- | []]].
    + eapply Hpost; eassumption.
    + rewrite Hds in Hsp'. injection Hsp' as <-.
      destruct Hcase as [Hpo | (g0 & E0 & Hall)]; [contradiction |].
      injection E0 as <-. eapply Hall; eassumption.
  - destruct Hinv as (Hd & Hv & Hall).
    destruct Hcase as [Hpo | (g0 & E0 & _)]; [| discriminate E0].
    split; [exact Hd |]. split; [exact Hv |].
    intros d' sp' Hin Hsp'.
    apply in_app_or in Hin as [Hin | [<- | []]].
    + eapply Hall; eassumption.
    + rewrite Hds in Hsp'. injection Hsp' as <-. exact Hpo.
Qed.

Lemma grad_step_inv model X y msl processed acc d acc' :
  grad_inv model X y msl processed acc ->
  grad_step model X y msl (length X) acc d = Ok acc' ->
  grad_inv model X y msl (processed ++ [d]) acc'.
Proof.
  intros Hinv H. apply grad_step_cases in H as (c & Hc & Hcase).
  assert (dim_splits msl X d
          = Ok (grad_splits msl (length X) (np_sort c))) as Hds
      by (unfold dim_splits; rewrite Hc; reflexivity).
  cbv zeta in Hcase.
  set (sp := grad_splits msl (length X) (np_sort c)) in *.
  destruct Hcase as [[Hpo ->] | (Hlen & s & g & Hs & Hg & Hmax & Hcase)].
  { eapply grad_inv_keep; [exact Hinv | exact Hds | left; exact Hpo]. }
  destruct Hcase as [[Hgt ->] | (Hgt & a & b & Ha & Hb & ->)].
  - (* the running best stays *)
    apply gt_ninf_false in Hgt as (g0 & Hg0 & Hle).
    eapply grad_inv_keep; [exact Hinv | exact Hds |].
    right. exists g0. split; [exact Hg0 |].
    intros s' g' Hs' Hg'. destruct (Hmax s' Hs') as (g'' & Hg'' & Hle').
    rewrite Hg' in Hg''. injection Hg'' as <-.
    eapply Qle_trans; eassumption.
  - (* the new dimension wins *)
    unfold grad_inv. cbn [gain_max best_split_dim best_split_val].
    exists d, s, c, a, b, processed, [].
    split; [reflexivity |]. split; [reflexivity |].
    split; [exact Hc |]. split; [exact Hlen |].
    split; [exact Hs |]. split; [exact Hg |].
    split; [exact Ha |]. split; [exact Hb |].
    split; [reflexivity |]. split; [exact Hmax |]. split.
    + intros d' sp' s' g' Hin Hsp' Hnp Hs' Hg'.
      unfold grad_inv in Hinv. destruct (gain_max acc) as [g0 |] eqn:Hg0.
      * pose proof (gt_ninf_true _ _ Hgt g0 eq_refl) as Hlt.
        destruct Hinv
          as (d0 & s1 & c0 & a0 & b0 & pre & post & Hp & Hd & Hc0 & H2
              & Hs1 & Hg1 & Ha0 & Hb0 & Hv & Hmax0 & Hpre & Hpost).
        eapply Qle_lt_trans; [| exact Hlt].
        rewrite Hp in Hin. apply in_app_or in Hin as [Hin | [<- | Hin]].
        -- apply Qlt_le_weak. eapply Hpre; eassumption.
        -- unfold dim_splits in Hsp'. rewrite Hc0 in Hsp'. simpl in Hsp'.
           injection Hsp' as <-.
           destruct (Hmax0 s' Hs') as (g'' & Hg'' & Hle'').
           rewrite Hg' in Hg''. injection Hg'' as <-. exact Hle''.
        -- eapply Hpost; eassumption.
      * destruct Hinv as (_ & _ & Hall).
        exfalso. apply Hnp. exact (Hall d' sp' Hin Hsp').
    + intros d' sp' s' g' [].
Qed.

Lemma grad_fold_inv model X y msl dims :
  forall processed acc acc',
    grad_inv model X y msl processed acc ->
    foldR (grad_step model X y msl (length X)) dims acc = Ok acc' ->
    grad_inv model X y msl (processed ++ dims) acc'.
Proof.
  induction dims as [| d dims IH]; intros processed acc acc' Hinv H;
    simpl in H.
  - injection H as <-. rewrite app_nil_r. exact Hinv.
  - inv_rbind H as acc1 H1.
    replace (processed ++ d :: dims) with ((processed ++ [d]) ++ dims)
      by (rewrite <- app_assoc; reflexivity).
    eapply IH; [| exact H]. eapply grad_step_inv; eassumption.
Qed.

End GradientSelector.

Section GradientSelectorMain.
Context {E : External}.

Lemma find_split_from_grad_inv s model X y did j t :
  _find_split_from_grad s model X y = Ok (did, j, t) ->
  exists dims msl best,
    split_dims s = Some dims
    /\ min_samples_leaf s = Some msl
    /\ grad_inv model X y msl dims best
    /\ did = match gain_max best with Some _ => true | None => false end
    /\ (did = true -> j = best_split_dim best /\ t = best_split_val best)
    /\ (did = false -> j = None /\ t = None).
Proof.
  unfold _find_split_from_grad. intro H.
  inv_rbind H as dims Hdims. apply the_Ok in Hdims.
  inv_rbind H as msl Hmsl. apply the_Ok in Hmsl.
  inv_rbind H as best Hbest.
  exists dims, msl, best.
  split; [exact Hdims |]. split; [exact Hmsl |]. split.
  - apply (grad_fold_inv model X y msl dims []
                         (mk_grad_best None None None) best);
      [| exact Hbest].
    simpl. split; [reflexivity |]. split; [reflexivity |].
    intros d sp [].
  - destruct (gain_max best); injection H as <- <- <-.
    + split; [reflexivity |]. split; [auto | discriminate].
    + split; [reflexivity |]. split; [discriminate | auto].
Qed.


End GradientSelectorMain.



(* ------------------------------------------------------------------ *)
(** ** The minimum leaf size                                           *)
(* ------------------------------------------------------------------ *)

Section MinSamplesLeaf.
Context {E : External}.

Lemma initial_loss_criterion s nd w lb w' :
  initial_loss s nd w = Ok (lb, w') ->
  splitting_criterion s = "model_aware"%string
  \/ splitting_criterion s = "model_agnostic"%string
  \/ splitting_criterion s = "loss_gradient"%string.
Proof.
  unfold initial_loss. intro H.
  destruct (splitting_criterion s =? "model_aware")%string eqn:Ha.
  { left. apply String.eqb_eq. exact Ha. }
  destruct (splitting_criterion s =? "model_agnostic")%string eqn:Hg.
  { right; left. apply String.eqb_eq. exact Hg. }
  destruct (splitting_criterion s =? "loss_gradient")%string eqn:Hl.
  { right; right. apply String.eqb_eq. exact Hl. }
  discriminate H.
Qed.

(** The search of the gradient criterion reports a feature and the
    rounded midpoint of a kept boundary. *)
Lemma split_search_gradient s nd X y N d lb w best w' :
  splitting_criterion s = "loss_gradient"%string ->
  split_search s nd X y N d lb w = Ok (best, w') ->
  Result.did_split best = true ->
  exists msl j c sb a b,
    min_samples_leaf s = Some msl
    /\ Result.j_feature best = Some j
    /\ Result.threshold best = Some (fl64 ((1 # 2) * fl64 (a + b)))
    /\ column X j = Ok c
    /\ In sb (grad_splits msl (length X) (np_sort c))
    /\ getitem (np_sort c) (sb - 1) = Ok a
    /\ getitem (np_sort c) sb = Ok b.
Proof.
  intros Hc H Hd. unfold split_search in H. rewrite Hc in H. simpl in H.
  destruct (depth nd <? max_depth s).
  - inv_bind H as f w1 Hf. inv_bind H as r w2 Hr.
    apply lift_Ok in Hr as [Hr ->]. destruct r as [[did j] t].
    apply ret_Ok in H as [-> ->]. simpl in Hd. subst did.
    apply find_split_from_grad_inv in Hr
      as (dims & msl & gb & _ & Hmsl & Hinv & Hdid & Hyes & _).
    destruct (Hyes eq_refl) as [-> ->].
    unfold grad_inv in Hinv.
    destruct (gain_max gb) as [g |]; [| discriminate Hdid].
    destruct Hinv
      as (j & sb & c & a & b & pre & post & _ & Hj & Hcol & _ & Hs & _
          & Ha & Hb & Hv & _).
    exists msl, j, c, sb, a, b. simpl. repeat split; assumption.
  - apply ret_Ok in H as [-> _]. discriminate Hd.
Qed.

(** What [_splitter] reports when it accepts a split, whatever the
    criterion: the parts of the node's data at the reported feature and
    threshold, and two polynomials.  The node holds at least twice the
    minimum leaf size.  With the two criteria that search thresholds, each
    part holds at least the minimum leaf size; with the gradient
    criterion this is checked for the boundary, not for the parts that
    the rounded midpoint gives. *)
Lemma splitter_reports nd w res w' :
  _splitter nd w = Ok (res, w') ->
  Result.did_split res = true ->
  exists X y msl j t Xl yl Xr yr,
    data nd = Some (X, y)
    /\ min_samples_leaf (self w) = Some msl
    /\ reports_split X y res j t Xl yl Xr yr
    /\ 2 * msl <= length X
    /\ (splitting_criterion (self w) <> "loss_gradient"%string ->
        msl <= length Xl /\ msl <= length Xr)
    /\ exists pl pr, Result.polys res = Some (pl, pr).
Proof.
  intros H Hd.
  apply splitter_phases in H
    as (X & y & w1 & lb & w2 & b1 & w3 & Hdata & -> & Hlb & Hs & Hf & ->).
  simpl in *.
  destruct (default_split_dims_fields (length (hd [] X)) (self w))
    as (Hcs & Hm' & _).
  set (s := default_split_dims (length (hd [] X)) (self w)) in *.
  destruct (initial_loss_criterion _ _ _ _ _ Hlb) as [Hc | [Hc | Hc]].
  - (* model_aware *)
    apply (initial_loss_aware _ _ _ _ _ Hc) in Hlb as ->.
    apply (fit_children_aware _ _ _ _ _ _ _ _ Hc) in Hf as [-> ->].
    apply (split_search_aware _ _ _ _ _ _ _ _ _ Hc) in Hs
      as [[Hno _] | (msl & Hm & (b & _ & _ & _ & Hyes))].
    { rewrite Hno in Hd. discriminate Hd. }
    destruct (Hyes Hd)
      as (_ & j & t & Xl & yl & Xr & yr & Hrep & Hl & Hr
          & pl & pr & ll & lr & Hp & _).
    rewrite Hm' in Hm.
    destruct Hrep as (Hj & Ht & Hdt & Hsd).
    destruct (split_data_sizes _ _ _ _ _ _ _ _ Hsd) as (c0 & _ & _ & _ & Hsum).
    exists X, y, msl, j, t, Xl, yl, Xr, yr.
    split; [exact Hdata |]. split; [exact Hm |].
    split; [repeat split; assumption |].
    split; [lia |]. split; [intros _; split; assumption |].
    exists pl, pr. exact Hp.
  - (* model_agnostic *)
    assert (splitting_criterion s <> "model_aware"%string) as Hna
        by (rewrite Hc; discriminate).
    apply (initial_loss_agnostic _ _ _ _ _ Hc) in Hlb as ->.
    pose proof (split_search_agnostic _ _ _ _ _ _ _ _ _ Hc Hs)
      as (-> & _ & _ & Hyes).
    destruct (Result.did_split b1) eqn:Hd1.
    + destruct (Hyes eq_refl)
        as (msl & j & t & Xl & yl & Xr & yr & Hm & (Hj & Ht & Hdt & Hsd)
            & Hl & Hr).
      destruct (fit_children_refit _ _ _ _ _ _ _ _ _ _ Hna Hd1 Hj Ht Hf)
        as (Xl' & yl' & Xr' & yr' & Hsd' & _ & Hj' & Ht' & Hdt'
            & (pl & pr & ? & ? & Hp & _) & _).
      rewrite Hsd in Hsd'. injection Hsd' as <- <- <- <-.
      rewrite Hc in Hdt'. simpl in Hdt'. rewrite Hdt in Hdt'.
      rewrite Hm' in Hm.
      destruct (split_data_sizes _ _ _ _ _ _ _ _ Hsd)
        as (c0 & _ & _ & _ & Hsum).
      exists X, y, msl, j, t, Xl, yl, Xr, yr.
      split; [exact Hdata |]. split; [exact Hm |].
      split; [repeat split; assumption |].
      split; [lia |]. split; [intros _; split; assumption |].
      exists pl, pr. exact Hp.
    + apply (fit_children_no_split _ _ _ _ _ _ _ _ Hd1) in Hf as [-> _].
      rewrite Hd1 in Hd. discriminate Hd.
  - (* loss_gradient *)
    assert (splitting_criterion s <> "model_aware"%string) as Hna
        by (rewrite Hc; discriminate).
    destruct (Result.did_split b1) eqn:Hd1.
    + destruct (split_search_gradient _ _ _ _ _ _ _ _ _ _ Hc Hs Hd1)
        as (msl & j & c & sb & a & b & Hm & Hj & Ht & Hcol & Hsb & Ha & Hb).
      destruct (fit_children_refit _ _ _ _ _ _ _ _ _ _ Hna Hd1 Hj Ht Hf)
        as (Xl & yl & Xr & yr & Hsd & _ & Hj' & Ht' & Hdt'
            & (pl & pr & ? & ? & Hp & _) & _).
      rewrite Hc in Hdt'. simpl in Hdt'.
      apply grad_splits_In in Hsb as (Hin & Hl & Hr).
      rewrite Hm' in Hm.
      exists X, y, msl, j, (fl64 ((1 # 2) * fl64 (a + b))), Xl, yl, Xr, yr.
      split; [exact Hdata |]. split; [exact Hm |].
      split; [repeat split; assumption |].
      split; [lia |].
      split; [intro F; exfalso; apply F; rewrite <- Hcs; exact Hc |].
      exists pl, pr. exact Hp.
    + apply (fit_children_no_split _ _ _ _ _ _ _ _ Hd1) in Hf as [-> _].
      rewrite Hd1 in Hd. discriminate Hd.
Qed.

Lemma create_node_Ok X y d w nd w' :
  _create_node X y d w = Ok (nd, w') ->
  exists m p,
    Poly_set_model X y = Ok p /\ mse p X y = Ok m
    /\ nd = mk_node (S (index_node_global w)) m p (Some (X, y)) (length X)
                    None None None None d false None None
    /\ w' = mk_world (self w) (S (S (index_node_global w)))
                     (solver_calls w ++ [(X, y)]).
Proof.
  unfold _create_node. intro H.
  inv_bind H as f w1 Hf. apply fit_poly_Ok in Hf as (Hp & Hm & ->).
  inv_bind H as i w2 Hi. injection Hi as <- <-.
  inv_bind H as u w3 Ht. injection Ht as _ <-.
  apply ret_Ok in H as [-> ->].
  exists (fst f), (snd f). repeat split; assumption.
Qed.

(** One level of [_split_traverse_node]. *)
Lemma split_traverse_node_step fuel nd w nd' w' :
  _split_traverse_node fuel nd w = Ok (nd', w') ->
  exists res w1,
    _splitter nd w = Ok (res, w1)
    /\ ((Result.did_split res = false /\ nd' = nd /\ w' = w1)
        \/ (Result.did_split res = true
            /\ exists fuel' X_left y_left X_right y_right poly_left
                      poly_right l w2 r w3 l' w4 r',
                fuel = S fuel'
                /\ Result.data res
                   = Some ((X_left, y_left), (X_right, y_right))
                /\ Result.polys res = Some (poly_left, poly_right)
                /\ _create_node X_left y_left (depth nd + 1) w1
                   = Ok (l, w2)
                /\ _create_node X_right y_right (depth nd + 1) w2
                   = Ok (r, w3)
                /\ _split_traverse_node fuel' (set_poly l poly_left) w3
                   = Ok (l', w4)
                /\ _split_traverse_node fuel' (set_poly r poly_right) w4
                   = Ok (r', w')
                /\ nd' = set_children
                           (let nd1 := set_split nd (Result.j_feature res)
                                                 (Result.threshold res) in
                            if negb (all_data (self w1)) then del_data nd1
                            else nd1)
                           (Some l') (Some r'))).
Proof.
  intro H.
  assert (_split_traverse_node fuel nd w
          = bind (_splitter nd) (fun result =>
              if negb (Result.did_split result) then ret nd
              else match fuel with
                   | 0 => raise RecursionError
                   | S fuel' =>
                       let nd1 := set_split nd (Result.j_feature result)
                                            (Result.threshold result) in
                       s <-- get_self ;;
                       let nd2 := if negb (all_data s) then del_data nd1
                                  else nd1 in
                       parts <-- lift (the (Result.data result) TypeError) ;;
                       let '((X_left, y_left), (X_right, y_right)) := parts in
                       ps <-- lift (the (Result.polys result) TypeError) ;;
                       let '(poly_left, poly_right) := ps in
                       l <-- _create_node X_left y_left (depth nd + 1) ;;
                       r <-- _create_node X_right y_right (depth nd + 1) ;;
                       let l1 := set_poly l poly_left in
                       let r1 := set_poly r poly_right in
                       l' <-- _split_traverse_node fuel' l1 ;;
                       r' <-- _split_traverse_node fuel' r1 ;;
                       ret (set_children nd2 (Some l') (Some r'))
                   end) w) as Heq
      by (destruct fuel; reflexivity).
  rewrite Heq in H. clear Heq.
  inv_bind H as res w1 Hs. exists res, w1. split; [exact Hs |].
  destruct (Result.did_split res) eqn:Hd; simpl in H.
  - right. split; [reflexivity |].
    destruct fuel as [| fuel']; [discriminate H |].
    inv_bind H as s w1' Hself. apply get_self_Ok in Hself as [-> ->].
    inv_bind H as parts w1' Hparts. apply lift_Ok in Hparts as [Hparts ->].
    apply the_Ok in Hparts. destruct parts as [[Xl yl] [Xr yr]].
    inv_bind H as ps w1' Hps. apply lift_Ok in Hps as [Hps ->].
    apply the_Ok in Hps. destruct ps as [pl pr].
    inv_bind H as l w2 Hl. inv_bind H as r w3 Hr.
    inv_bind H as l' w4 Hl'. inv_bind H as r' w5 Hr'.
    apply ret_Ok in H as [-> ->].
    exists fuel', Xl, yl, Xr, yr, pl, pr, l, w2, r, w3, l', w4, r'.
    repeat (split; [first [assumption | reflexivity] |]). reflexivity.
  - left. apply ret_Ok in H as [-> ->]. auto.
Qed.

(** With the criteria that search thresholds, every child of the tree
    that the traversal builds holds at least the minimum leaf size. *)
Lemma split_traverse_node_children fuel :
  forall nd w nd' w' msl,
    splitting_criterion (self w) <> "loss_gradient"%string ->
    min_samples_leaf (self w) = Some msl ->
    left nd = None -> right nd = None ->
    _split_traverse_node fuel nd w = Ok (nd', w') ->
    children_at_least msl nd' /\ n_samples nd' = n_samples nd.
Proof.
  induction fuel as [| fuel IH]; intros nd w nd' w' msl Hng Hm Hl Hr H;
    apply split_traverse_node_step in H
      as (res & w1 & Hs & [(Hd & -> & ->) | (Hd & Hsplit)]).
  - split; [| reflexivity].
    destruct nd; simpl in *; subst; simpl; auto.
  - destruct Hsplit as (fuel' & ? & ? & ? & ? & ? & ? & ? & ? & ? & ? & ?
                        & ? & ? & Hf & _).
    discriminate Hf.
  - split; [| reflexivity].
    destruct nd; simpl in *; subst; simpl; auto.
  - destruct Hsplit
      as (fuel' & Xl & yl & Xr & yr & pl & pr & l & w2 & r & w3 & l' & w4
          & r' & Hf & Hdata & Hpolys & Hcl & Hcr & Htl & Htr & ->).
    injection Hf as <-.
    destruct (splitter_reports _ _ _ _ Hs Hd)
      as (X & y & msl' & j & t & Xl' & yl' & Xr' & yr' & _ & Hm'
          & (_ & _ & Hdata' & _) & _ & Hparts & _).
    destruct (Hparts Hng) as [HXl HXr].
    rewrite Hm in Hm'. injection Hm' as <-.
    rewrite Hdata in Hdata'. injection Hdata' as <- <- <- <-.
    pose proof (preserves_splitter _ _ _ _ Hs) as E1.
    pose proof (preserves_create_node _ _ _ _ _ _ Hcl) as E2.
    pose proof (preserves_create_node _ _ _ _ _ _ Hcr) as E3.
    pose proof (preserves_split_traverse_node _ _ _ _ _ Htl) as E4.
    assert (min_samples_leaf (self w3) = Some msl) as Hm3.
    { rewrite (ext_min_samples_leaf _ _ E3), (ext_min_samples_leaf _ _ E2),
        (ext_min_samples_leaf _ _ E1). exact Hm. }
    assert (min_samples_leaf (self w4) = Some msl) as Hm4.
    { rewrite (ext_min_samples_leaf _ _ E4). exact Hm3. }
    assert (splitting_criterion (self w3) <> "loss_gradient"%string) as Hg3.
    { rewrite (ext_criterion _ _ E3), (ext_criterion _ _ E2),
        (ext_criterion _ _ E1). exact Hng. }
    assert (splitting_criterion (self w4) <> "loss_gradient"%string) as Hg4.
    { rewrite (ext_criterion _ _ E4). exact Hg3. }
    apply create_node_Ok in Hcl as (ml & pl0 & _ & _ & -> & _).
    apply create_node_Ok in Hcr as (mr & pr0 & _ & _ & -> & _).
    assert (forall a b c d (H0 : _split_traverse_node fuel a b = Ok (c, d)),
               splitting_criterion (self b) <> "loss_gradient"%string ->
               min_samples_leaf (self b) = Some msl ->
               left a = None -> right a = None ->
               children_at_least msl c /\ n_samples c = n_samples a) as IH'
        by (intros; eapply IH; eassumption).
    destruct (IH' _ _ _ _ Htl Hg3 Hm3 eq_refl eq_refl) as [Hcl Hnl].
    destruct (IH' _ _ _ _ Htr Hg4 Hm4 eq_refl eq_refl) as [Hcr Hnr].
    simpl in Hnl, Hnr.
    split.
    + destruct (all_data (self w1)); simpl;
        (split; (split; [lia | assumption])).
    + destruct (all_data (self w1)); reflexivity.
Qed.

End MinSamplesLeaf.

Section MinSamplesLeafMain.
Context {E : External}.

Lemma build_tree_children X y w root w' msl :
  splitting_criterion (self w) <> "loss_gradient"%string ->
  min_samples_leaf (self w) = Some msl ->
  _build_tree X y w = Ok (root, w') ->
  children_at_least msl root
  /\ min_samples_leaf (self w') = Some msl.
Proof.
  intros Hng Hm H. pose proof (preserves_build_tree _ _ _ _ _ H) as Ext.
  split; [| rewrite (ext_min_samples_leaf _ _ Ext); exact Hm].
  unfold _build_tree in H.
  inv_bind H as u w1 Hr. injection Hr as _ <-.
  inv_bind H as root0 w2 Hc.
  inv_bind H as s w3 Hself. apply get_self_Ok in Hself as [-> ->].
  pose proof (preserves_create_node _ _ _ _ _ _ Hc) as E2.
  apply create_node_Ok in Hc as (m & p & _ & _ & -> & _).
  eapply split_traverse_node_children; [| | | | exact H].
  - rewrite (ext_criterion _ _ E2). exact Hng.
  - rewrite (ext_min_samples_leaf _ _ E2). exact Hm.
  - reflexivity.
  - reflexivity.
Qed.

(** The invariant that C4 claims, for the two criteria that search
    thresholds (in both search modes):
    (1) a split accepted by [_splitter] is the split of the node's data at
        the reported feature and threshold, and both parts hold at least
        [min_samples_leaf] rows;
    (2) in the threshold loop, a candidate with a part below
        [min_samples_leaf] leaves the running best and the state
        untouched;
    (3) in the tree that [fit] builds, every child node holds at least
        [min_samples_leaf] training samples.
    In the gradient selector, every boundary kept has at least
    [min_samples_leaf] samples before and after it (4); the two parts of
    the split are made later, from the rounded midpoint. *)
Lemma threshold_search_respects_min_samples_leaf :
  (forall (nd : node) (w : world) (res : Result.t) (w' : world),
      splitting_criterion (self w) <> "loss_gradient"%string ->
      _splitter nd w = Ok (res, w') ->
      Result.did_split res = true ->
      exists X y msl j t Xl yl Xr yr,
        data nd = Some (X, y)
        /\ min_samples_leaf (self w) = Some msl
        /\ reports_split X y res j t Xl yl Xr yr
        /\ msl <= length Xl /\ msl <= length Xr)
  /\ (forall s X y N j t acc w acc' w' msl Xl yl Xr yr,
         try_threshold s X y N j acc t w = Ok (acc', w') ->
         min_samples_leaf s = Some msl ->
         _split_data (Some j) (Some t) X y = Ok ((Xl, yl), (Xr, yr)) ->
         length Xl < msl \/ length Xr < msl ->
         acc' = acc /\ w' = w)
  /\ (forall (s : PolyTree) (X : matrix) (y : vec) (s' : PolyTree),
         splitting_criterion s <> "loss_gradient"%string ->
         fit s X y = Ok s' ->
         exists root msl,
           tree s' = Some root
           /\ min_samples_leaf s' = Some msl
           /\ children_at_least msl root)
  /\ (forall msl N Xd sb,
         In sb (grad_splits msl N Xd) -> msl <= sb /\ msl <= N - sb).
Proof.
  split; [| split; [| split]].
  - intros nd w res w' Hng H Hd.
    destruct (splitter_reports _ _ _ _ H Hd)
      as (X & y & msl & j & t & Xl & yl & Xr & yr & H1 & H2 & H3 & _ & H4
          & _).
    destruct (H4 Hng) as [H5 H6].
    exists X, y, msl, j, t, Xl, yl, Xr, yr. auto.
  - intros s X y N j t acc w acc' w' msl Xl yl Xr yr H Hm Hsd Hlt.
    apply try_threshold_cases in H
      as (Xl' & yl' & Xr' & yr' & msl' & Hsd' & Hm' & Hcase).
    rewrite Hsd in Hsd'. injection Hsd' as <- <- <- <-.
    rewrite Hm in Hm'. injection Hm' as <-.
    destruct Hcase as [(_ & -> & ->) | (Hl & Hr & _)]; [auto | lia].
  - intros s X y s' Hng H. unfold fit in H. destruct (shape X) as [N d].
    match type of H with
    | context [_build_tree X y ?w0] =>
        destruct (_build_tree X y w0) as [[root w] |] eqn:Hb
    end; [| discriminate H].
    injection H as <-.
    apply build_tree_children with (msl := match min_samples_leaf s with
       | Some m =>
           if m =? get_cardinality (basis s) (order s) d
           then ceil_125 (get_cardinality (basis s) (order s) d) else m
       | None => ceil_125 (get_cardinality (basis s) (order s) d)
       end) in Hb; [| exact Hng | reflexivity].
    destruct Hb as [Hc Hm]. eexists. eexists.
    split; [reflexivity |]. split; [exact Hm | exact Hc].
  - intros msl N Xd sb Hin. apply grad_splits_In in Hin. tauto.
Qed.

End MinSamplesLeafMain.

(** C4 (the code at the failing input).  With the gradient criterion the
    minimum leaf size is checked for the boundary between two sorted
    feature values, and the threshold [0.5 * (a + b)] is computed
    afterwards in float64.  In the seven samples [X7] the values around
    boundary 4 are the adjacent float64 numbers [1 + 2^-52] and
    [1 + 2^-51]: their sum rounds up, the threshold is the larger value
    itself, and the sample that holds it goes to the left.  [fit], which
    settles on [min_samples_leaf = 3], keeps boundary 4 as a candidate
    (four samples before it, three after), selects it, and builds a right
    child with two samples. *)
Theorem min_samples_leaf_gradient_violation :
  exists s' root l r c a b t,
    fit (new_tree "loss_gradient" "exhaustive" 2 None (1 # 20)) X7 y7
    = Ok s'
    /\ min_samples_leaf s' = Some 3
    /\ tree s' = Some root
    /\ column X7 0 = Ok c
    /\ In 4 (grad_splits 3 (length X7) (np_sort c))
    /\ getitem (np_sort c) 3 = Ok a /\ getitem (np_sort c) 4 = Ok b
    /\ (a < b)%Q
    /\ j_feature root = Some 0
    /\ threshold root = Some t
    /\ t = fl64 ((1 # 2) * fl64 (a + b))
    /\ (t == b)%Q
    /\ left root = Some l /\ right root = Some r
    /\ n_samples l = 5 /\ n_samples r = 2
    /\ ~ children_at_least 3 root.
Proof.
  do 8 eexists.
  split; [vm_compute; reflexivity |].
  split; [reflexivity |]. split; [reflexivity |].
  split; [vm_compute; reflexivity |].
  split; [vm_compute; tauto |].
  split; [vm_compute; reflexivity |]. split; [vm_compute; reflexivity |].
  split; [reflexivity |].
  split; [reflexivity |]. split; [reflexivity |].
  split; [vm_compute; reflexivity |].
  split; [vm_compute; reflexivity |].
  split; [reflexivity |]. split; [reflexivity |].
  split; [reflexivity |]. split; [reflexivity |].
  intros [_ [H _]]. vm_compute in H. lia.
Qed.

(* ------------------------------------------------------------------ *)
(** ** The tree assembler                                              *)
(* ------------------------------------------------------------------ *)

Section Assembler.
Context {E : External}.

(** The traversal changes the split fields, the data and the children of
    a node, and nothing else. *)
Lemma split_traverse_node_keeps fuel nd w nd' w' :
  _split_traverse_node fuel nd w = Ok (nd', w') ->
  index nd' = index nd /\ loss nd' = loss nd /\ poly nd' = poly nd
  /\ n_samples nd' = n_samples nd /\ depth nd' = depth nd.
Proof.
  intro H. apply split_traverse_node_step in H
    as (res & w1 & _ & [(_ & -> & _) | (_ & Hsplit)]).
  - repeat split.
  - destruct Hsplit as (? & ? & ? & ? & ? & ? & ? & ? & ? & ? & ? & ? & ?
                        & ? & _ & _ & _ & _ & _ & _ & _ & ->).
    destruct (all_data (self w1)); repeat split.
Qed.

(** C8 (amended).  When [_split_traverse_node] accepts a split, the node
    takes the reported feature and threshold, loses its own data unless
    [all_data] is set, and gets two children at the next depth built from
    the two parts of the split.  Each child is created by [_create_node],
    which fits a surrogate to the child's data again: the child's loss is
    the loss of this new fit, and the solver trace grows by the two parts
    right after the split search.  The child's polynomial is then replaced
    by the one the split search reported. *)
Theorem accepted_split_children :
  forall (fuel : nat) (nd : node) (w : world) (nd' : node) (w' : world)
         (res : Result.t) (w1 : world),
    _split_traverse_node fuel nd w = Ok (nd', w') ->
    _splitter nd w = Ok (res, w1) ->
    Result.did_split res = true ->
    exists X_left y_left X_right y_right poly_left poly_right l' r',
      Result.data res = Some ((X_left, y_left), (X_right, y_right))
      /\ Result.polys res = Some (poly_left, poly_right)
      /\ j_feature nd' = Result.j_feature res
      /\ threshold nd' = Result.threshold res
      /\ data nd' = (if all_data (self w) then data nd else None)
      /\ left nd' = Some l' /\ right nd' = Some r'
      /\ poly l' = poly_left /\ poly r' = poly_right
      /\ n_samples l' = length X_left /\ n_samples r' = length X_right
      /\ depth l' = depth nd + 1 /\ depth r' = depth nd + 1
      /\ (exists p, Poly_set_model X_left y_left = Ok p
                    /\ mse p X_left y_left = Ok (loss l'))
      /\ (exists p, Poly_set_model X_right y_right = Ok p
                    /\ mse p X_right y_right = Ok (loss r'))
      /\ (exists rest,
             solver_calls w'
             = solver_calls w1
               ++ [(X_left, y_left); (X_right, y_right)] ++ rest).
Proof.
  intros fuel nd w nd' w' res w1 H Hs Hd.
  apply split_traverse_node_step in H
    as (res' & w1' & Hs' & Hcase).
  rewrite Hs in Hs'. injection Hs' as <- <-.
  destruct Hcase as [(Hd' & _) | (_ & Hsplit)].
  { rewrite Hd in Hd'. discriminate Hd'. }
  destruct Hsplit
    as (fuel' & Xl & yl & Xr & yr & pl & pr & l & w2 & r & w3 & l' & w4
        & r' & _ & Hdata & Hpolys & Hcl & Hcr & Htl & Htr & ->).
  pose proof (preserves_splitter _ _ _ _ Hs) as E1.
  pose proof (preserves_split_traverse_node _ _ _ _ _ Htl) as E4.
  pose proof (preserves_split_traverse_node _ _ _ _ _ Htr) as E5.
  apply create_node_Ok in Hcl as (ml & pl0 & Hpl & Hml & -> & ->).
  apply create_node_Ok in Hcr as (mr & pr0 & Hpr & Hmr & -> & ->).
  apply split_traverse_node_keeps in Htl as (_ & Hll & Hlp & Hln & Hld).
  apply split_traverse_node_keeps in Htr as (_ & Hrl & Hrp & Hrn & Hrd).
  simpl in *.
  exists Xl, yl, Xr, yr, pl, pr, l', r'.
  split; [exact Hdata |]. split; [exact Hpolys |].
  rewrite <- (ext_all_data _ _ E1).
  split; [destruct (all_data (self w1)); reflexivity |].
  split; [destruct (all_data (self w1)); reflexivity |].
  split; [destruct (all_data (self w1)); reflexivity |].
  split; [reflexivity |]. split; [reflexivity |].
  split; [exact Hlp |]. split; [exact Hrp |].
  split; [exact Hln |]. split; [exact Hrn |].
  split; [exact Hld |]. split; [exact Hrd |].
  split; [exists pl0; rewrite Hll; auto |].
  split; [exists pr0; rewrite Hrl; auto |].
  destruct (ext_calls _ _ E4) as [c4 Hc4].
  destruct (ext_calls _ _ E5) as [c5 Hc5].
  exists (c4 ++ c5). rewrite Hc5, Hc4. simpl.
  repeat rewrite <- app_assoc. reflexivity.
Qed.

End Assembler.

Lemma accepted_split_children_witness :
  exists nd' w' l' r',
    _split_traverse_node 2 root6 (world6 "model_agnostic" "exhaustive" 3)
    = Ok (nd', w')
    /\ data nd' = None
    /\ left nd' = Some l' /\ right nd' = Some r'
    /\ n_samples l' = 3 /\ n_samples r' = 3.
Proof.
  destruct (_split_traverse_node
              2 root6 (world6 "model_agnostic" "exhaustive" 3))
    as [[nd' w'] | e] eqn:H; [| vm_compute in H; discriminate H].
  destruct (_splitter root6 (world6 "model_agnostic" "exhaustive" 3))
    as [[res w1] | e] eqn:Hs; [| vm_compute in Hs; discriminate Hs].
  assert (Result.did_split res = true
          /\ exists Xr yr,
              Result.data res
              = Some (([[1%Q]; [2%Q]; [3%Q]], [1%Q; 1%Q; 1%Q]), (Xr, yr))
              /\ length Xr = 3) as (Hd & Xr0 & yr0 & Hdata0 & HXr0).
  { vm_compute in Hs. injection Hs as <- _. split; [reflexivity |].
    eexists. eexists. split; reflexivity. }
  destruct (accepted_split_children
              2 root6 (world6 "model_agnostic" "exhaustive" 3)
              nd' w' res w1 H Hs Hd)
    as (Xl & yl & Xr & yr & pl & pr & l' & r' & Hdata & _ & _ & _ & Hnd
        & Hl & Hr & _ & _ & Hnl & Hnr & _).
  rewrite Hdata0 in Hdata. injection Hdata as <- <- <- <-.
  exists nd', w', l', r'.
  split; [reflexivity |]. split; [exact Hnd |].
  split; [exact Hl |]. split; [exact Hr |].
  split; [exact Hnl | rewrite Hnr; exact HXr0].
Defined.

(** C8 as stated fails: child-node creation does refit.  On the six
    samples with the model-agnostic criterion, the split search fits the
    two parts of the selected split once; creating the two children then
    calls the solver on the same two parts a second time. *)
Lemma child_creation_refits :
  exists nd' w' X_left y_left X_right y_right,
    _split_traverse_node 2 root6 (world6 "model_agnostic" "exhaustive" 3)
    = Ok (nd', w')
    /\ solver_calls w'
       = solver_calls (world6 "model_agnostic" "exhaustive" 3)
         ++ [(X_left, y_left); (X_right, y_right);
             (X_left, y_left); (X_right, y_right)].
Proof.
  do 6 eexists. split; vm_compute; reflexivity.
Qed.

Section Fuel.
Context {E : External}.

Lemma split_search_depth s nd X y N d lb w best w' :
  split_search s nd X y N d lb w = Ok (best, w') ->
  Result.did_split best = true ->
  depth nd < max_depth s.
Proof.
  unfold split_search. intros H Hd.
  destruct (depth nd <? max_depth s) eqn:Hlt.
  - apply Nat.ltb_lt. exact Hlt.
  - apply ret_Ok in H as [-> _]. discriminate Hd.
Qed.

(** A node splits only above the maximum depth. *)
Lemma splitter_depth nd w res w' :
  _splitter nd w = Ok (res, w') ->
  Result.did_split res = true ->
  depth nd < max_depth (self w).
Proof.
  intros H Hd.
  apply splitter_phases in H
    as (X & y & w1 & lb & w2 & b1 & w3 & _ & -> & _ & Hs & Hf & _).
  simpl in *.
  destruct (default_split_dims_fields (length (hd [] X)) (self w))
    as (_ & _ & Hmd & _).
  rewrite <- Hmd.
  destruct (Result.did_split b1) eqn:Hd1.
  - eapply split_search_depth; eassumption.
  - apply (fit_children_no_split _ _ _ _ _ _ _ _ Hd1) in Hf as [-> _].
    rewrite Hd1 in Hd. discriminate Hd.
Qed.

Lemma bind_cong {A B} (m m' : M A) (f g : A -> M B) (w : world) :
  m w = m' w ->
  (forall a w1, m' w = Ok (a, w1) -> f a w1 = g a w1) ->
  bind m f w = bind m' g w.
Proof.
  intros Hm H. unfold bind. rewrite Hm.
  destruct (m' w) as [[a w1] |]; [| reflexivity].
  apply H. reflexivity.
Qed.

Lemma split_traverse_node_unfold fuel nd :
  _split_traverse_node fuel nd
  = (result <-- _splitter nd ;;
     if negb (Result.did_split result) then ret nd
     else match fuel with
          | 0 => raise RecursionError
          | S fuel' =>
              let nd1 := set_split nd (Result.j_feature result)
                                   (Result.threshold result) in
              s <-- get_self ;;
              let nd2 := if negb (all_data s) then del_data nd1 else nd1 in
              parts <-- lift (the (Result.data result) TypeError) ;;
              let '((X_left, y_left), (X_right, y_right)) := parts in
              ps <-- lift (the (Result.polys result) TypeError) ;;
              let '(poly_left, poly_right) := ps in
              l <-- _create_node X_left y_left (depth nd + 1) ;;
              r <-- _create_node X_right y_right (depth nd + 1) ;;
              let l1 := set_poly l poly_left in
              let r1 := set_poly r poly_right in
              l' <-- _split_traverse_node fuel' l1 ;;
              r' <-- _split_traverse_node fuel' r1 ;;
              ret (set_children nd2 (Some l') (Some r'))
          end).
Proof. destruct fuel; reflexivity. Qed.

(** The traversal never runs out of fuel: with at least
    [max_depth - depth] levels of fuel, one more level changes nothing, so
    the branch that raises [RecursionError] is not taken. *)
Lemma _split_traverse_node_fuel (fuel : nat) :
  forall nd w,
    max_depth (self w) - depth nd <= fuel ->
    _split_traverse_node (S fuel) nd w = _split_traverse_node fuel nd w.
Proof.
  induction fuel as [| fuel IH]; intros nd w Hfuel;
    rewrite (split_traverse_node_unfold (S _)),
            (split_traverse_node_unfold _ nd);
    (apply bind_cong; [reflexivity |]); intros res w1 Hs;
    (destruct (Result.did_split res) eqn:Hd; [| reflexivity]);
    pose proof (splitter_depth _ _ _ _ Hs Hd) as Hdepth; [lia |].
  pose proof (preserves_splitter _ _ _ _ Hs) as E1.
  cbn [negb]. cbv zeta.
  apply bind_cong; [reflexivity |]. intros s w1' Hself.
  apply get_self_Ok in Hself as [-> ->].
  apply bind_cong; [reflexivity |]. intros [[Xl yl] [Xr yr]] w1' Hparts.
  apply lift_Ok in Hparts as [_ ->].
  apply bind_cong; [reflexivity |]. intros [pl pr] w1' Hps.
  apply lift_Ok in Hps as [_ ->].
  apply bind_cong; [reflexivity |]. intros l w2 Hcl.
  apply bind_cong; [reflexivity |]. intros r w3 Hcr.
  pose proof (preserves_create_node _ _ _ _ _ _ Hcl) as E2.
  pose proof (preserves_create_node _ _ _ _ _ _ Hcr) as E3.
  apply create_node_Ok in Hcl as (ml & pl0 & _ & _ & -> & _).
  apply create_node_Ok in Hcr as (mr & pr0 & _ & _ & -> & _).
  assert (max_depth (self w3) = max_depth (self w)) as Hmd3.
  { rewrite (ext_max_depth _ _ E3), (ext_max_depth _ _ E2),
      (ext_max_depth _ _ E1). reflexivity. }
  apply bind_cong; [apply IH; simpl; lia |]. intros l' w4 Htl.
  pose proof (preserves_split_traverse_node _ _ _ _ _ Htl) as E4.
  apply bind_cong; [| reflexivity].
  apply IH. rewrite (ext_max_depth _ _ E4). simpl. lia.
Qed.

End Fuel.

(* ------------------------------------------------------------------ *)
(** ** The root's prediction and the blend                             *)
(* ------------------------------------------------------------------ *)

Lemma set_nth_spec {A} (l : list A) (i : nat) (a : A) :
  match set_nth l i a with
  | Ok l' =>
      i < length l /\ length l' = length l
      /\ nth_error l' i = Some a
      /\ forall j, j <> i -> nth_error l' j = nth_error l j
  | Raise e => e = IndexError /\ length l <= i
  end.
Proof.
  revert i. induction l as [| x l IH]; intro i; simpl.
  - destruct i; split; [reflexivity | lia | reflexivity | lia].
  - destruct i as [| i]; simpl.
    + repeat split; [lia |]. intros [| j] Hj; [contradiction | reflexivity].
    + specialize (IH i). destruct (set_nth l i a) as [l' | e]; simpl.
      * destruct IH as (Hi & Hlen & Hnth & Hother).
        repeat split; [lia | lia | exact Hnth |].
        intros [| j] Hj; [reflexivity |]. simpl. apply Hother. lia.
      * destruct IH as [-> Hlen]. split; [reflexivity | lia].
Qed.

Lemma set_nth_tl {A} (l : list A) (d : nat) (a : A) (l' : list A) :
  set_nth l (S d) a = Ok l' ->
  exists x t t', l = x :: t /\ l' = x :: t' /\ set_nth t d a = Ok t'.
Proof.
  destruct l as [| x t]; simpl; [discriminate |].
  destruct (set_nth t d a) as [t' |] eqn:Ht; simpl; [| discriminate].
  intro H. injection H as <-. exists x, t, t'. auto.
Qed.

(** Writing the same cell below depth 0, or any two cells at depth 0,
    keeps two rows related. *)
Lemma set_nth_same_below (ra rb : list cell) (d : nat) (ca cb : cell) :
  same_below ra rb ->
  (d <> 0 -> ca = cb) ->
  rel_result same_below (set_nth ra d ca) (set_nth rb d cb).
Proof.
  intros [Hlen Htl] Hc.
  destruct ra as [| xa ta]; destruct rb as [| xb tb]; simpl in Hlen, Htl;
    try discriminate.
  - simpl. destruct d; reflexivity.
  - subst tb. destruct d as [| d]; simpl.
    + split; reflexivity.
    + rewrite (Hc ltac:(discriminate)).
      pose proof (set_nth_spec ta d cb) as Hs.
      destruct (set_nth ta d cb) as [t' |]; simpl.
      * split; [simpl; reflexivity | reflexivity].
      * reflexivity.
Qed.

Lemma nth_error_same_length {A B} (a : list A) (b : list B) (i : nat) :
  length a = length b ->
  (nth_error a i = None <-> nth_error b i = None).
Proof. intro H. rewrite !nth_error_None, H. reflexivity. Qed.

Lemma store_agree (a b : buffer) (i d : nat) (ca cb : cell) :
  buffers_agree_below a b ->
  (d <> 0 -> ca = cb) ->
  rel_result buffers_agree_below (store a i d ca) (store b i d cb).
Proof.
  intros [Hlen Hrows] Hc. unfold store, getitem.
  destruct (nth_error a i) as [ra |] eqn:Ha;
    destruct (nth_error b i) as [rb |] eqn:Hb.
  - simpl. pose proof (set_nth_same_below ra rb d ca cb
                         (Hrows i ra rb Ha Hb) Hc) as Hrel.
    destruct (set_nth ra d ca) as [ra' |]; destruct (set_nth rb d cb)
      as [rb' |]; simpl in Hrel; try contradiction; simpl; [| exact Hrel].
    pose proof (set_nth_spec a i ra') as Sa.
    pose proof (set_nth_spec b i rb') as Sb.
    destruct (set_nth a i ra') as [a' |]; destruct (set_nth b i rb')
      as [b' |]; simpl.
    + destruct Sa as (_ & Hla & Hia & Hoa).
      destruct Sb as (_ & Hlb & Hib & Hob).
      split; [lia |]. intros k xa xb Hxa Hxb.
      destruct (Nat.eq_dec k i) as [-> | Hk].
      * rewrite Hia in Hxa. rewrite Hib in Hxb.
        injection Hxa as <-. injection Hxb as <-. exact Hrel.
      * rewrite (Hoa k Hk) in Hxa. rewrite (Hob k Hk) in Hxb.
        eapply Hrows; eassumption.
    + destruct Sb as [_ Hb']. apply nth_error_None in Hb'.
      rewrite Hb' in Hb. discriminate Hb.
    + destruct Sa as [_ Ha']. apply nth_error_None in Ha'.
      rewrite Ha' in Ha. discriminate Ha.
    + destruct Sa as [-> _]. destruct Sb as [-> _]. reflexivity.
  - apply (nth_error_same_length a b i Hlen) in Hb.
    rewrite Hb in Ha. discriminate Ha.
  - apply (nth_error_same_length a b i Hlen) in Ha.
    rewrite Ha in Hb. discriminate Hb.
  - reflexivity.
Qed.

Lemma store_all_agree (indexes : list nat) (d n : nat) :
  forall (va vb : list Q) (a b : buffer),
    buffers_agree_below a b ->
    length va = length vb ->
    (d <> 0 -> va = vb) ->
    rel_result buffers_agree_below
               (store_all a indexes d va n) (store_all b indexes d vb n).
Proof.
  induction indexes as [| i indexes IH]; intros va vb a b Hab Hlen Hv.
  - simpl. exact Hab.
  - destruct va as [| xa va]; destruct vb as [| xb vb];
      simpl in Hlen; try discriminate; simpl; [exact Hab |].
    assert (d <> 0 -> (Some xa, Some (Qnat n)) = (Some xb, Some (Qnat n)))
      as Hc.
    { intro Hd. specialize (Hv Hd). injection Hv as -> _. reflexivity. }
    pose proof (store_agree a b i d _ _ Hab Hc) as Hrel.
    destruct (store a i d (Some xa, Some (Qnat n))) as [a' |];
      destruct (store b i d (Some xb, Some (Qnat n))) as [b' |];
      simpl in Hrel; try contradiction; simpl; [| exact Hrel].
    apply IH; [exact Hrel | lia |].
    intro Hd. specialize (Hv Hd). injection Hv as _ ->. reflexivity.
Qed.

(** One unfolding of [_predict]. *)
Lemma _predict_eq (X : matrix) (nd : node) (indexes : list nat)
      (y_pred : buffer) :
  _predict X nd indexes y_pred =
  (Xi <- take X indexes ;;
   y_pred <- store_all y_pred indexes (depth nd)
                       (get_polyfit (poly nd) Xi) (n_samples nd) ;;
   match left nd, right nd with
   | None, None => Ok y_pred
   | l, r =>
       match j_feature nd, threshold nd with
       | Some j, Some t =>
           c <- column Xi j ;;
           il <- take indexes (where_le c t 0) ;;
           ir <- take indexes (where_gt c t 0) ;;
           match l with
           | None => Raise TypeError
           | Some l' =>
               y_pred <- _predict X l' il y_pred ;;
               match r with
               | None => Raise TypeError
               | Some r' => _predict X r' ir y_pred
               end
           end
       | _, _ => Raise TypeError
       end
   end)%res.
Proof. destruct nd; reflexivity. Qed.

Lemma rel_result_bind {A B} (R : A -> A -> Prop) (S : B -> B -> Prop)
      (x y : result A) (f g : A -> result B) :
  rel_result R x y ->
  (forall a b, R a b -> rel_result S (f a) (g b)) ->
  rel_result S (rbind x f) (rbind y g).
Proof.
  intros Hxy Hfg. destruct x as [a |]; destruct y as [b |]; simpl in *;
    try contradiction; [apply Hfg; exact Hxy | exact Hxy].
Qed.

Lemma rel_result_refl_eq {A} (x : result A) : rel_result eq x x.
Proof. destruct x; reflexivity. Qed.

(** Running [_predict] on two buffers that agree below depth 0 fails
    alike or yields two buffers that agree below depth 0. *)
Lemma _predict_agree (X : matrix) (n : nat) :
  forall (nd : node) (indexes : list nat) (a b : buffer),
    height nd <= n ->
    buffers_agree_below a b ->
    rel_result buffers_agree_below
               (_predict X nd indexes a) (_predict X nd indexes b).
Proof.
  induction n as [| n IH]; intros nd indexes a b Hh Hab.
  { destruct nd; simpl in Hh; lia. }
  rewrite !_predict_eq.
  apply (rel_result_bind eq); [apply rel_result_refl_eq |].
  intros Xi ? <-.
  apply (rel_result_bind buffers_agree_below).
  { apply store_all_agree; [exact Hab | reflexivity | reflexivity]. }
  intros a1 b1 Hab1.
  assert (forall c, left nd = Some c -> height c <= n) as Hhl.
  { intros c Hc. destruct nd; simpl in *; subst. lia. }
  assert (forall c, right nd = Some c -> height c <= n) as Hhr.
  { intros c Hc. destruct nd; simpl in *; subst. lia. }
  destruct (left nd) as [l |]; destruct (right nd) as [r |];
    [| | | exact Hab1];
    (destruct (j_feature nd) as [j |]; [| reflexivity]);
    (destruct (threshold nd) as [t |]; [| reflexivity]);
    (apply (rel_result_bind eq); [apply rel_result_refl_eq |]);
    intros c ? <-;
    (apply (rel_result_bind eq); [apply rel_result_refl_eq |]);
    intros il ? <-;
    (apply (rel_result_bind eq); [apply rel_result_refl_eq |]);
    intros ir ? <-.
  - apply (rel_result_bind buffers_agree_below).
    + apply IH; [apply Hhl; reflexivity | exact Hab1].
    + intros a2 b2 Hab2. apply IH; [apply Hhr; reflexivity | exact Hab2].
  - apply (rel_result_bind buffers_agree_below).
    + apply IH; [apply Hhl; reflexivity | exact Hab1].
    + intros a2 b2 Hab2. reflexivity.
  - reflexivity.
Qed.

Lemma level_nth_error (rb : list cell) (d : nat) :
  level rb d = match nth_error rb d with
               | Some c => c
               | None => (nan, nan)
               end.
Proof.
  unfold level. destruct (nth_error rb d) as [c |] eqn:H.
  - apply nth_error_nth. exact H.
  - apply nth_overflow. apply nth_error_None. exact H.
Qed.

Lemma recorded_depth_lt (b : buffer) (i d : nat) (rb : list cell) :
  nth_error b i = Some rb ->
  isnan (fst (level rb d)) = false ->
  d < length rb.
Proof.
  intros _ H. rewrite level_nth_error in H.
  destruct (nth_error rb d) eqn:Hn; [| discriminate H].
  apply nth_error_Some. rewrite Hn. discriminate.
Qed.

Lemma keeps_records_refl (b : buffer) : keeps_records b b.
Proof.
  split; [reflexivity |]. split; [| auto].
  intros i r r' H H'. rewrite H in H'. injection H' as <-. reflexivity.
Qed.

Lemma keeps_records_trans (a b c : buffer) :
  keeps_records a b -> keeps_records b c -> keeps_records a c.
Proof.
  intros (L1 & S1 & R1) (L2 & S2 & R2). split; [lia |]. split; [| auto].
  intros i r r'' Hr Hr''.
  destruct (nth_error b i) as [r' |] eqn:Hr'.
  - rewrite (S2 i r' r'' Hr' Hr''). apply (S1 i r r' Hr Hr').
  - apply nth_error_None in Hr'.
    assert (i < length a) by (apply nth_error_Some; rewrite Hr; discriminate).
    lia.
Qed.

Lemma store_keeps (a : buffer) (i d : nat) (v : Q) (c2 : float)
      (a' : buffer) :
  store a i d (Some v, c2) = Ok a' ->
  keeps_records a a' /\ recorded a' i d.
Proof.
  unfold store, getitem. intro H.
  destruct (nth_error a i) as [ra |] eqn:Ha; simpl in H; [| discriminate H].
  pose proof (set_nth_spec ra d (Some v, c2)) as Sr.
  destruct (set_nth ra d (Some v, c2)) as [ra' |]; simpl in H;
    [| discriminate H].
  destruct Sr as (Hd & Hlr & Hdr & Hor).
  pose proof (set_nth_spec a i ra') as Sa. rewrite H in Sa.
  destruct Sa as (Hi & Hla & Hia & Hoa).
  assert (recorded a' i d) as Hrec.
  { exists ra'. split; [exact Hia |].
    rewrite level_nth_error, Hdr. reflexivity. }
  split; [| exact Hrec].
  split; [exact Hla |]. split.
  - intros k r r' Hr Hr'. destruct (Nat.eq_dec k i) as [-> | Hk].
    + rewrite Ha in Hr. rewrite Hia in Hr'.
      injection Hr as <-. injection Hr' as <-. exact Hlr.
    + rewrite (Hoa k Hk), Hr in Hr'. injection Hr' as <-. reflexivity.
  - intros k d' (r & Hr & Hn). destruct (Nat.eq_dec k i) as [-> | Hk].
    + destruct (Nat.eq_dec d' d) as [-> | Hd']; [exact Hrec |].
      exists ra'. split; [exact Hia |].
      rewrite Ha in Hr. injection Hr as <-.
      rewrite level_nth_error in *. rewrite (Hor d' Hd'). exact Hn.
    + exists r. split; [rewrite (Hoa k Hk); exact Hr | exact Hn].
Qed.

Lemma store_all_keeps (indexes : list nat) (d n : nat) :
  forall (vals : list Q) (a a' : buffer),
    length indexes <= length vals ->
    store_all a indexes d vals n = Ok a' ->
    keeps_records a a' /\ forall i, In i indexes -> recorded a' i d.
Proof.
  induction indexes as [| i indexes IH]; intros vals a a' Hlen H.
  - simpl in H. injection H as <-.
    split; [apply keeps_records_refl | intros i []].
  - destruct vals as [| v vals]; simpl in Hlen; [lia |].
    simpl in H. inv_rbind H as a1 H1.
    apply store_keeps in H1 as [K1 R1].
    apply IH in H as [K2 R2]; [| lia].
    split; [eapply keeps_records_trans; eassumption |].
    intros k [<- | Hk]; [| apply R2; exact Hk].
    destruct K2 as (_ & _ & K2). apply K2. exact R1.
Qed.

Lemma _predict_keeps (X : matrix) (n : nat) :
  forall (nd : node) (indexes : list nat) (a a' : buffer),
    height nd <= n ->
    _predict X nd indexes a = Ok a' ->
    keeps_records a a' /\ forall i, In i indexes -> recorded a' i (depth nd).
Proof.
  induction n as [| n IH]; intros nd indexes a a' Hh H.
  { destruct nd; simpl in Hh; lia. }
  rewrite _predict_eq in H.
  inv_rbind H as Xi HXi. inv_rbind H as a1 H1.
  apply store_all_keeps in H1 as [K1 R1];
    [| unfold get_polyfit; rewrite length_map;
       rewrite (mapM_length _ _ _ HXi); lia].
  assert (forall c, left nd = Some c -> height c <= n) as Hhl.
  { intros c Hc. destruct nd; simpl in *; subst. lia. }
  assert (forall c, right nd = Some c -> height c <= n) as Hhr.
  { intros c Hc. destruct nd; simpl in *; subst. lia. }
  assert (forall a2, keeps_records a1 a2 ->
                     keeps_records a a2
                     /\ forall i, In i indexes -> recorded a2 i (depth nd))
    as Hfin.
  { intros a2 K2. split; [eapply keeps_records_trans; eassumption |].
    intros i Hi. destruct K2 as (_ & _ & K2). apply K2, R1, Hi. }
  destruct (left nd) as [l |]; destruct (right nd) as [r |].
  - destruct (j_feature nd); [| discriminate H].
    destruct (threshold nd); [| discriminate H].
    inv_rbind H as c Hc. inv_rbind H as il Hil. inv_rbind H as ir Hir.
    inv_rbind H as a2 H2.
    apply IH in H2 as [K2 _]; [| apply Hhl; reflexivity].
    apply IH in H as [K3 _]; [| apply Hhr; reflexivity].
    apply Hfin. eapply keeps_records_trans; eassumption.
  - destruct (j_feature nd); [| discriminate H].
    destruct (threshold nd); [| discriminate H].
    inv_rbind H as c Hc. inv_rbind H as il Hil. inv_rbind H as ir Hir.
    inv_rbind H as a2 H2. discriminate H.
  - destruct (j_feature nd); [| discriminate H].
    destruct (threshold nd); [| discriminate H].
    inv_rbind H as c Hc. inv_rbind H as il Hil. inv_rbind H as ir Hir.
    discriminate H.
  - injection H as <-. apply Hfin. apply keeps_records_refl.
Qed.

(** [np.where(c <= t)] and [np.where(c > t)] cover every position. *)
Lemma where_cover (c : list Q) (t : Q) :
  forall off k,
    k < length c ->
    In (off + k) (where_le c t off) \/ In (off + k) (where_gt c t off).
Proof.
  induction c as [| x c IH]; intros off k Hk; simpl in Hk; [lia |].
  simpl. destruct k as [| k].
  - rewrite Nat.add_0_r. destruct (Qle_bool x t); [left | right]; left;
      reflexivity.
  - replace (off + S k) with (S off + k) by lia.
    destruct (IH (S off) k ltac:(lia)) as [H | H];
      destruct (Qle_bool x t); simpl; auto.
Qed.

Lemma mapM_In {A B} (f : A -> result B) (l : list A) (l' : list B) (a : A) :
  mapM f l = Ok l' -> In a l -> exists b, f a = Ok b /\ In b l'.
Proof.
  revert l'. induction l as [| x l IH]; intros l' H Hin; [destruct Hin |].
  simpl in H. inv_rbind H as b Hb. inv_rbind H as bs Hbs.
  injection H as <-. destruct Hin as [-> | Hin].
  - exists b. split; [exact Hb | left; reflexivity].
  - destruct (IH bs Hbs Hin) as (b' & Hb' & Hin').
    exists b'. split; [exact Hb' | right; exact Hin'].
Qed.

(** Every row that reaches a split node is passed to one of the two
    children. *)
Lemma routed_left_or_right (indexes : list nat) (c : list Q) (t : Q)
      (il ir : list nat) (i : nat) :
  length c = length indexes ->
  take indexes (where_le c t 0) = Ok il ->
  take indexes (where_gt c t 0) = Ok ir ->
  In i indexes ->
  In i il \/ In i ir.
Proof.
  intros Hlen Hil Hir Hin.
  apply In_nth_error in Hin as [k Hk].
  assert (k < length c) as Hkc.
  { rewrite Hlen. apply nth_error_Some. rewrite Hk. discriminate. }
  destruct (where_cover c t 0 k Hkc) as [H | H]; simpl in H.
  - left. destruct (mapM_In _ _ _ _ Hil H) as (b & Hb & Hinb).
    unfold getitem in Hb. rewrite Hk in Hb. injection Hb as <-. exact Hinb.
  - right. destruct (mapM_In _ _ _ _ Hir H) as (b & Hb & Hinb).
    unfold getitem in Hb. rewrite Hk in Hb. injection Hb as <-. exact Hinb.
Qed.

Lemma deepest_recorded (rb : list cell) (n d : nat) :
  1 <= d <= n ->
  isnan (fst (level rb d)) = false ->
  deepest rb n <> 0.
Proof.
  induction n as [| n IH]; intros Hd Hn; [lia |].
  simpl. destruct (isnan (fst (level rb (S n)))) eqn:Hs; [| discriminate].
  apply IH; [| exact Hn].
  destruct (Nat.eq_dec d (S n)) as [-> | Hne]; [| lia].
  rewrite Hs in Hn. discriminate Hn.
Qed.

Lemma map_ext_nth_error {A B} (f : A -> B) (a b : list A) :
  length a = length b ->
  (forall i x y, nth_error a i = Some x -> nth_error b i = Some y ->
                 f x = f y) ->
  map f a = map f b.
Proof.
  revert b. induction a as [| x a IH]; intros [| y b] Hlen H;
    simpl in Hlen; try discriminate; [reflexivity |].
  simpl. f_equal.
  - apply (H 0); reflexivity.
  - apply IH; [lia |]. intros i x' y' Hx Hy. apply (H (S i)); assumption.
Qed.

Lemma buffers_agree_below_refl (b : buffer) : buffers_agree_below b b.
Proof.
  split; [reflexivity |]. intros i ra rb Ha Hb.
  rewrite Ha in Hb. injection Hb as <-. split; reflexivity.
Qed.

Lemma smooth_same_below (k : Q) (amd : nat) (ra rb : list cell) :
  same_below ra rb ->
  deepest rb (amd + 1) <> 0 ->
  smooth k amd ra = smooth k amd rb.
Proof.
  intros [Hlen Htl] Hd.
  destruct ra as [| ca ta]; destruct rb as [| cb tb]; simpl in Hlen, Htl;
    try discriminate; [reflexivity |].
  subst tb. apply smooth_ignores_level0.
  rewrite (deepest_ignores_level0 ca cb). exact Hd.
Qed.

(** In a tree whose root (at depth 0) has two children (at depth 1 or
    more), [predict] never reads the prediction of the root: replacing the
    root's polynomial by any other leaves the result unchanged, for every
    input array. *)
Lemma predict_root_never_read (s : PolyTree) (root l r : node) (p : Poly)
      (X : matrix) :
  tree s = Some root ->
  left root = Some l -> right root = Some r ->
  depth root = 0 -> 1 <= depth l -> 1 <= depth r ->
  predict (set_tree s (Some (set_poly root p))) X = predict s X.
Proof.
  intros Ht Hl Hr Hd0 Hdl Hdr. unfold predict. rewrite Ht.
  unfold set_tree. cbn [tree actual_max_depth k].
  set (amd := actual_max_depth s).
  set (y0 := repeat (repeat (nan, nan) (amd + 2)) (length X)).
  set (idx := seq 0 (length X)).
  rewrite !_predict_eq.
  cbn [set_poly depth poly n_samples left right j_feature threshold].
  rewrite Hl, Hr, Hd0.
  destruct (take X idx) as [Xi |] eqn:HXi; [| reflexivity].
  cbn [rbind].
  pose proof (store_all_agree idx 0 (n_samples root)
                (get_polyfit p Xi) (get_polyfit (poly root) Xi) y0 y0
                (buffers_agree_below_refl y0)) as Hrel.
  unfold get_polyfit in *. rewrite !length_map in Hrel.
  specialize (Hrel eq_refl ltac:(intro H; contradiction)).
  destruct (store_all y0 idx 0 (map p Xi) (n_samples root)) as [a1 |];
    destruct (store_all y0 idx 0 (map (poly root) Xi) (n_samples root))
      as [b1 |] eqn:Hb1; simpl in Hrel; try contradiction;
    [| subst; reflexivity].
  cbn [rbind].
  destruct (j_feature root) as [j |]; [| reflexivity].
  destruct (threshold root) as [t |]; [| reflexivity].
  destruct (column Xi j) as [c |] eqn:Hc; [| reflexivity]. cbn [rbind].
  destruct (take idx (where_le c t 0)) as [il |] eqn:Hil; [| reflexivity].
  cbn [rbind].
  destruct (take idx (where_gt c t 0)) as [ir |] eqn:Hir; [| reflexivity].
  cbn [rbind].
  pose proof (_predict_agree X (height l) l il a1 b1 (le_n _) Hrel) as Hrel2.
  destruct (_predict X l il a1) as [a2 |];
    destruct (_predict X l il b1) as [b2 |] eqn:Hb2; simpl in Hrel2;
    try contradiction; [| subst; reflexivity].
  cbn [rbind].
  pose proof (_predict_agree X (height r) r ir a2 b2 (le_n _) Hrel2)
    as Hrel3.
  destruct (_predict X r ir a2) as [a3 |];
    destruct (_predict X r ir b2) as [b3 |] eqn:Hb3; simpl in Hrel3;
    try contradiction; [| subst; reflexivity].
  cbn [rbind]. f_equal.
  destruct Hrel3 as [Hlen3 Hrows3].
  apply map_ext_nth_error; [exact Hlen3 |].
  intros i ra rb Hra Hrb.
  apply smooth_same_below; [eapply Hrows3; eassumption |].
  (* the row was recorded by one of the two children *)
  apply store_all_keeps in Hb1 as [K1 _];
    [| rewrite length_map, (mapM_length _ _ _ HXi); lia].
  apply _predict_keeps with (n := height l) in Hb2 as [K2 R2]; [| lia].
  apply _predict_keeps with (n := height r) in Hb3 as [K3 R3]; [| lia].
  pose proof (keeps_records_trans _ _ _ (keeps_records_trans _ _ _ K1 K2) K3)
    as (L03 & S03 & _).
  assert (i < length X) as Hi.
  { assert (i < length b3)
      by (apply nth_error_Some; rewrite Hrb; discriminate).
    unfold y0 in L03. rewrite repeat_length in L03. lia. }
  assert (length rb = amd + 2) as Hlrb.
  { assert (nth_error y0 i = Some (repeat (nan, nan) (amd + 2))) as Hy0.
    { unfold y0. rewrite nth_error_repeat by exact Hi. reflexivity. }
    rewrite (S03 i _ rb Hy0 Hrb). apply repeat_length. }
  assert (exists d, 1 <= d /\ recorded b3 i d) as (d & Hd & rb' & Hrb' & Hn).
  { assert (In i idx) as Hin by (apply in_seq; lia).
    assert (length c = length idx) as Hlc.
    { rewrite (mapM_length _ _ _ Hc). apply (mapM_length _ _ _ HXi). }
    destruct (routed_left_or_right idx c t il ir i Hlc Hil Hir Hin)
      as [Hi' | Hi'].
    - exists (depth l). split; [exact Hdl |].
      destruct K3 as (_ & _ & K3). apply K3, R2, Hi'.
    - exists (depth r). split; [exact Hdr |]. apply R3, Hi'. }
  rewrite Hrb in Hrb'. injection Hrb' as <-.
  apply (deepest_recorded rb (amd + 1) d); [| exact Hn].
  pose proof (recorded_depth_lt b3 i d rb Hrb Hn). lia.
Qed.

(* ================================================================== *)
(** * Further properties of the code                                   *)
(* ================================================================== *)

(** Induction on a tree: a property that holds for a node as soon as it
    holds for its children holds for every node. *)
Lemma node_children_ind (P : node -> Prop) :
  (forall nd,
      (forall l, left nd = Some l -> P l) ->
      (forall r, right nd = Some r -> P r) ->
      P nd) ->
  forall nd, P nd.
Proof.
  intros H nd.
  assert (forall n nd, height nd <= n -> P nd) as Hn.
  { induction n as [| n IH]; intros nd0 Hh.
    - destruct nd0; simpl in Hh; lia.
    - apply H; intros c Hc; apply IH;
        destruct nd0; simpl in *; subst; lia. }
  apply (Hn (height nd)). apply le_n.
Qed.

(* ------------------------------------------------------------------ *)
(** ** [_split_data]                                                   *)
(* ------------------------------------------------------------------ *)

Lemma where_le_ge (c : list Q) (t : Q) (off i : nat) :
  In i (where_le c t off) -> off <= i.
Proof.
  revert off. induction c as [| x c IH]; intros off H; simpl in H;
    [destruct H |].
  destruct (Qle_bool x t).
  - destruct H as [<- | H]; [lia |]. apply IH in H. lia.
  - apply IH in H. lia.
Qed.

(** [np.delete(np.arange(N), idx_left)] holds the positions whose value
    exceeds the threshold. *)
Lemma delete_arange_where_gt (c : list Q) (t : Q) (off : nat) :
  filter (fun i => negb (existsb (Nat.eqb i) (where_le c t off)))
         (seq off (length c))
  = where_gt c t off.
Proof.
  revert off. induction c as [| x c IH]; intro off; simpl; [reflexivity |].
  assert (existsb (Nat.eqb off) (where_le c t (S off)) = false) as Hoff.
  { destruct (existsb (Nat.eqb off) (where_le c t (S off))) eqn:He;
      [| reflexivity].
    apply existsb_exists in He as (i & Hi & Heq).
    apply Nat.eqb_eq in Heq. subst i. apply where_le_ge in Hi. lia. }
  destruct (Qle_bool x t); simpl.
  - rewrite Nat.eqb_refl. simpl. rewrite <- IH.
    apply filter_ext_in. intros i Hi. apply in_seq in Hi.
    assert ((i =? off) = false) as -> by (apply Nat.eqb_neq; lia).
    reflexivity.
  - rewrite Hoff. simpl. f_equal. apply IH.
Qed.

Lemma getitem_app_here {A} (pre : list A) (h : A) (post : list A) :
  getitem (pre ++ h :: post) (length pre) = Ok h.
Proof.
  unfold getitem. rewrite nth_error_app2 by lia.
  rewrite Nat.sub_diag. reflexivity.
Qed.

(** Picking, from an array, the positions at which a column of values
    satisfies a test keeps the entries whose value passes, in order. *)
Lemma take_where_le {A} (t : Q) (a : list A) :
  forall (pre post : list A) (c : list Q),
    length c = length a ->
    take (pre ++ a ++ post) (where_le c t (length pre))
    = Ok (map fst (filter (fun p => Qle_bool (snd p) t) (combine a c))).
Proof.
  unfold take.
  induction a as [| h a IH]; intros pre post c Hc; destruct c as [| x c];
    try discriminate Hc; [reflexivity |].
  injection Hc as Hc.
  assert (mapM (getitem (pre ++ (h :: a) ++ post))
               (where_le c t (S (length pre)))
          = Ok (map fst (filter (fun p => Qle_bool (snd p) t)
                                (combine a c)))) as Hrest.
  { replace (pre ++ (h :: a) ++ post) with ((pre ++ [h]) ++ a ++ post)
      by (rewrite <- app_assoc; reflexivity).
    replace (S (length pre)) with (length (pre ++ [h]))
      by (rewrite length_app; simpl; lia).
    apply IH. exact Hc. }
  cbn [where_le combine filter snd]. destruct (Qle_bool x t).
  - cbn [mapM map fst]. rewrite Hrest.
    change ((h :: a) ++ post) with (h :: a ++ post).
    rewrite getitem_app_here. reflexivity.
  - exact Hrest.
Qed.

Lemma take_where_gt {A} (t : Q) (a : list A) :
  forall (pre post : list A) (c : list Q),
    length c = length a ->
    take (pre ++ a ++ post) (where_gt c t (length pre))
    = Ok (map fst (filter (fun p => negb (Qle_bool (snd p) t))
                          (combine a c))).
Proof.
  unfold take.
  induction a as [| h a IH]; intros pre post c Hc; destruct c as [| x c];
    try discriminate Hc; [reflexivity |].
  injection Hc as Hc.
  assert (mapM (getitem (pre ++ (h :: a) ++ post))
               (where_gt c t (S (length pre)))
          = Ok (map fst (filter (fun p => negb (Qle_bool (snd p) t))
                                (combine a c)))) as Hrest.
  { replace (pre ++ (h :: a) ++ post) with ((pre ++ [h]) ++ a ++ post)
      by (rewrite <- app_assoc; reflexivity).
    replace (S (length pre)) with (length (pre ++ [h]))
      by (rewrite length_app; simpl; lia).
    apply IH. exact Hc. }
  cbn [where_gt combine filter snd]. destruct (Qle_bool x t).
  - exact Hrest.
  - cbn [negb mapM map fst]. rewrite Hrest.
    change ((h :: a) ++ post) with (h :: a ++ post).
    rewrite getitem_app_here. reflexivity.
Qed.

(** A column that can be read is the list of the rows' entries. *)
Lemma column_Ok_map (X : matrix) (j : nat) (c : list Q) :
  column X j = Ok c ->
  c = map (fun r => nth j r 0%Q) X /\ forall r, In r X -> j < length r.
Proof.
  unfold column. revert c.
  induction X as [| r X IH]; intros c H; simpl in H.
  - injection H as <-. split; [reflexivity | intros r []].
  - inv_rbind H as v Hv. inv_rbind H as c' Hc'. injection H as <-.
    apply getitem_nth in Hv as [Hlt Hv].
    destruct (IH c' Hc') as [-> Hall].
    split; [simpl; rewrite Hv; reflexivity |].
    intros r' [<- | Hr]; [exact Hlt | apply Hall; exact Hr].
Qed.

Lemma column_defined (X : matrix) (j : nat) :
  (forall r, In r X -> j < length r) ->
  column X j = Ok (map (fun r => nth j r 0%Q) X).
Proof.
  unfold column. induction X as [| r X IH]; intro H; simpl;
    [reflexivity |].
  rewrite IH by (intros r' Hr; apply H; right; exact Hr).
  unfold getitem.
  destruct (nth_error r j) as [v |] eqn:Hn.
  - simpl. rewrite (nth_error_nth _ _ _ Hn). reflexivity.
  - apply nth_error_None in Hn.
    specialize (H r (or_introl eq_refl)). lia.
Qed.

Lemma mapM_getitem_Raise {A} (a : list A) (idx : list nat) (e : exn) :
  mapM (getitem a) idx = Raise e -> e = IndexError.
Proof.
  induction idx as [| i idx IH]; simpl; intro H; [discriminate H |].
  unfold getitem at 1 in H.
  destruct (nth_error a i); simpl in H.
  - destruct (mapM (getitem a) idx); simpl in H;
      [discriminate H | apply IH; exact H].
  - injection H as <-. reflexivity.
Qed.

Lemma column_Raise (X : matrix) (j : nat) (e : exn) :
  column X j = Raise e -> e = IndexError.
Proof.
  unfold column. induction X as [| r X IH]; simpl; intro H;
    [discriminate H |].
  unfold getitem at 1 in H.
  destruct (nth_error r j); simpl in H.
  - destruct (mapM (fun r0 => getitem r0 j) X); simpl in H;
      [discriminate H | apply IH; exact H].
  - injection H as <-. reflexivity.
Qed.

Lemma where_lengths (c : list Q) (t : Q) (off : nat) :
  length (where_le c t off) + length (where_gt c t off) = length c.
Proof.
  revert off. induction c as [| x c IH]; intro off; simpl; [reflexivity |].
  destruct (Qle_bool x t); simpl; rewrite <- (IH (S off)); lia.
Qed.

(** The assertion of [_split_data] holds whenever it is reached. *)
Lemma split_data_assertion (X : matrix) (c : list Q) (t : Q) :
  length c = length X ->
  delete_arange (length X) (where_le c t 0) = where_gt c t 0
  /\ negb (length (where_le c t 0)
           + length (delete_arange (length X) (where_le c t 0))
           =? length X) = false.
Proof.
  intro Hc. unfold delete_arange. rewrite <- Hc.
  rewrite delete_arange_where_gt. split; [reflexivity |].
  rewrite where_lengths, Nat.eqb_refl. reflexivity.
Qed.

(** The two parts in terms of the rows paired with their targets. *)
Lemma filter_pairs (f : row -> Q) (t : Q) (P : bool -> bool) (X : matrix) :
  forall y1 : vec,
    length y1 = length X ->
    combine
      (map fst (filter (fun p => P (Qle_bool (snd p) t))
                       (combine X (map f X))))
      (map fst (filter (fun p => P (Qle_bool (snd p) t))
                       (combine y1 (map f X))))
    = filter (fun p : row * Q => P (Qle_bool (f (fst p)) t)) (combine X y1).
Proof.
  induction X as [| r X IH]; intros y1 Hy; destruct y1 as [| v y1];
    try discriminate Hy; [reflexivity |].
  injection Hy as Hy. cbn [map combine filter fst snd].
  destruct (P (Qle_bool (f r) t)); cbn [map combine fst];
    rewrite IH by exact Hy; reflexivity.
Qed.

Lemma split_data_Ok_inv j t X y Xl yl Xr yr :
  _split_data (Some j) (Some t) X y = Ok ((Xl, yl), (Xr, yr)) ->
  exists c,
    column X j = Ok c
    /\ take X (where_le c t 0) = Ok Xl /\ take y (where_le c t 0) = Ok yl
    /\ take X (where_gt c t 0) = Ok Xr /\ take y (where_gt c t 0) = Ok yr.
Proof.
  unfold _split_data. intro H. inv_rbind H as c Hc.
  assert (length c = length X) as Hlen
    by (apply (mapM_length _ _ _ Hc)).
  destruct (split_data_assertion X c t Hlen) as [Hd Ha].
  rewrite Ha, Hd in H.
  inv_rbind H as Xl' HXl. inv_rbind H as yl' Hyl.
  inv_rbind H as Xr' HXr. inv_rbind H as yr' Hyr.
  injection H as <- <- <- <-. exists c. repeat split; assumption.
Qed.

Lemma take_length_le {A} (a : list A) (idx : list nat) (r : list A) (i : nat) :
  take a idx = Ok r -> In i idx -> i < length a.
Proof.
  intros H Hi. destruct (mapM_In _ _ _ _ H Hi) as (b & Hb & _).
  unfold getitem in Hb. destruct (nth_error a i) eqn:Hn; [| discriminate Hb].
  apply nth_error_Some. congruence.
Qed.

Lemma where_last (c : list Q) (t : Q) (off : nat) :
  c <> [] ->
  In (off + (length c - 1)) (where_le c t off)
  \/ In (off + (length c - 1)) (where_gt c t off).
Proof.
  intro Hc. apply where_cover. destruct c; [congruence | simpl; lia].
Qed.

(** X1.  [_split_data] partitions the rows by the rule [x_j <= t]: the left
    part holds, in their order, exactly the rows whose entry [j] is at most
    the threshold, the right part the others, and every row stays paired
    with its own target value. *)
Theorem split_data_partition (j : nat) (t : Q) (X : matrix) (y : vec)
        (Xl : matrix) (yl : vec) (Xr : matrix) (yr : vec) :
  _split_data (Some j) (Some t) X y = Ok ((Xl, yl), (Xr, yr)) ->
  combine Xl yl
  = filter (fun p => Qle_bool (nth j (fst p) 0%Q) t) (combine X y)
  /\ combine Xr yr
     = filter (fun p => negb (Qle_bool (nth j (fst p) 0%Q) t)) (combine X y)
  /\ length yl = length Xl /\ length yr = length Xr.
Proof.
  intro H. apply split_data_Ok_inv in H as (c & Hc & HXl & Hyl & HXr & Hyr).
  apply column_Ok_map in Hc as [-> _].
  set (f := fun r : row => nth j r 0%Q) in *.
  assert (length X <= length y) as Hy.
  { destruct X as [| r X]; [simpl; lia |].
    assert (0 + (length (map f (r :: X)) - 1) < length y) as Hlt.
    { destruct (where_last (map f (r :: X)) t 0) as [Hi | Hi];
        [discriminate | |].
      - apply (take_length_le _ _ _ _ Hyl Hi).
      - apply (take_length_le _ _ _ _ Hyr Hi). }
    rewrite length_map in Hlt. simpl in *. lia. }
  assert (length (firstn (length X) y) = length X) as Hy1
    by (rewrite length_firstn; lia).
  assert (combine X y = combine X (firstn (length X) y)) as ->.
  { rewrite <- (firstn_skipn (length X) y) at 1.
    clear - Hy1. revert Hy1. generalize (firstn (length X) y) as y1.
    generalize (skipn (length X) y) as rest. intros rest.
    induction X as [| r X IH]; intros [| v y1] Hy1; try discriminate Hy1;
      [reflexivity |].
    simpl. f_equal. apply IH. injection Hy1 as Hy1. exact Hy1. }
  pose proof (take_where_le t X [] [] (map f X) (length_map f X)) as EXl.
  pose proof (take_where_gt t X [] [] (map f X) (length_map f X)) as EXr.
  pose proof (take_where_le t (firstn (length X) y) []
                (skipn (length X) y) (map f X)
                (eq_trans (length_map f X) (eq_sym Hy1))) as Eyl.
  pose proof (take_where_gt t (firstn (length X) y) []
                (skipn (length X) y) (map f X)
                (eq_trans (length_map f X) (eq_sym Hy1))) as Eyr.
  cbn [app length] in EXl, EXr, Eyl, Eyr.
  rewrite app_nil_r in EXl, EXr. rewrite firstn_skipn in Eyl, Eyr.
  pose proof (eq_trans (eq_sym HXl) EXl) as E1. injection E1 as ->.
  pose proof (eq_trans (eq_sym HXr) EXr) as E2. injection E2 as ->.
  pose proof (eq_trans (eq_sym Hyl) Eyl) as E3. injection E3 as ->.
  pose proof (eq_trans (eq_sym Hyr) Eyr) as E4. injection E4 as ->.
  split; [apply (filter_pairs f t (fun b => b)); exact Hy1 |].
  split; [apply (filter_pairs f t negb); exact Hy1 |].
  assert (forall (P : bool -> bool) (y1 : vec),
             length y1 = length X ->
             length (map fst (filter (fun p => P (Qle_bool (snd p) t))
                                     (combine y1 (map f X))))
             = length (map fst (filter (fun p => P (Qle_bool (snd p) t))
                                       (combine X (map f X))))) as Hl.
  { intros P. clear. induction X as [| r X IH]; intros [| v y1] Hy;
      try discriminate Hy; [reflexivity |].
    injection Hy as Hy. cbn [map combine filter snd].
    destruct (P (Qle_bool (f r) t)); cbn [map length];
      rewrite (IH y1 Hy); reflexivity. }
  split; [apply (Hl (fun b => b)) | apply (Hl negb)]; exact Hy1.
Qed.

Lemma split_data_partition_witness :
  combine [[1%Q]; [2%Q]] [10%Q; 20%Q]
  = filter (fun p => Qle_bool (nth 0 (fst p) 0%Q) 2%Q)
           (combine [[1%Q]; [5%Q]; [2%Q]] [10%Q; 50%Q; 20%Q]).
Proof.
  apply (split_data_partition 0 2%Q [[1%Q]; [5%Q]; [2%Q]] [10%Q; 50%Q; 20%Q]
           [[1%Q]; [2%Q]] [10%Q; 20%Q] [[5%Q]] [50%Q]).
  vm_compute. reflexivity.
Defined.

(** X2.  A failure of [_split_data] on a feature and a threshold is always
    an [IndexError] (a row without entry [j], or fewer targets than rows);
    in particular its assertion never fails. *)
Theorem split_data_failure_is_IndexError (j : nat) (t : Q) (X : matrix)
        (y : vec) (e : exn) :
  _split_data (Some j) (Some t) X y = Raise e -> e = IndexError.
Proof.
  unfold _split_data. intro H.
  destruct (column X j) as [c |] eqn:Hc; simpl in H;
    [| injection H as <-; apply (column_Raise _ _ _ Hc)].
  assert (length c = length X) as Hlen by (apply (mapM_length _ _ _ Hc)).
  destruct (split_data_assertion X c t Hlen) as [Hd Ha].
  rewrite Ha, Hd in H.
  repeat match type of H with
  | rbind (take ?a ?i) _ = _ =>
      let E := fresh "E" in
      destruct (take a i) eqn:E; simpl in H;
        [| injection H as <-; apply (mapM_getitem_Raise _ _ _ E)]
  end.
  discriminate H.
Qed.

Lemma split_data_failure_is_IndexError_witness :
  _split_data (Some 1) (Some 0%Q) [[1%Q]] [1%Q] = Raise IndexError
  /\ IndexError = IndexError.
Proof.
  split; [reflexivity |].
  apply (split_data_failure_is_IndexError 1 0%Q [[1%Q]] [1%Q] IndexError).
  reflexivity.
Defined.

Lemma take_defined {A} (a : list A) (idx : list nat) :
  (forall i, In i idx -> i < length a) -> exists r, take a idx = Ok r.
Proof.
  unfold take. induction idx as [| i idx IH]; intro H; simpl.
  - eexists. reflexivity.
  - destruct IH as [r Hr]; [intros i' Hi'; apply H; right; exact Hi' |].
    rewrite Hr. unfold getitem.
    destruct (nth_error a i) eqn:Hn.
    + simpl. eexists. reflexivity.
    + apply nth_error_None in Hn. specialize (H i (or_introl eq_refl)). lia.
Qed.

Lemma where_le_lt (c : list Q) (t : Q) (off i : nat) :
  In i (where_le c t off) -> i < off + length c.
Proof.
  revert off. induction c as [| x c IH]; intros off H; simpl in H;
    [destruct H |].
  simpl. destruct (Qle_bool x t).
  - destruct H as [<- | H]; [lia |]. apply IH in H. lia.
  - apply IH in H. lia.
Qed.

Lemma where_gt_lt (c : list Q) (t : Q) (off i : nat) :
  In i (where_gt c t off) -> i < off + length c.
Proof.
  revert off. induction c as [| x c IH]; intros off H; simpl in H;
    [destruct H |].
  simpl. destruct (Qle_bool x t).
  - apply IH in H. lia.
  - destruct H as [<- | H]; [lia |]. apply IH in H. lia.
Qed.

(** X3.  [_split_data] succeeds on every array with at least one row
    whose rows all have an entry [j], given at least as many targets as
    rows. *)
Theorem split_data_succeeds (j : nat) (t : Q) (X : matrix) (y : vec) :
  X <> [] ->
  (forall r, In r X -> j < length r) ->
  length X <= length y ->
  exists Xl yl Xr yr,
    _split_data (Some j) (Some t) X y = Ok ((Xl, yl), (Xr, yr)).
Proof.
  intros _ Hrows Hy. unfold _split_data.
  rewrite (column_defined X j Hrows). cbn [rbind].
  set (c := map (fun r => nth j r 0%Q) X).
  assert (length c = length X) as Hlen by apply length_map.
  destruct (split_data_assertion X c t Hlen) as [Hd Ha].
  rewrite Ha, Hd.
  destruct (take_defined X (where_le c t 0)) as [Xl ->];
    [intros i Hi; apply where_le_lt in Hi; lia |].
  destruct (take_defined y (where_le c t 0)) as [yl ->];
    [intros i Hi; apply where_le_lt in Hi; lia |].
  destruct (take_defined X (where_gt c t 0)) as [Xr ->];
    [intros i Hi; apply where_gt_lt in Hi; lia |].
  destruct (take_defined y (where_gt c t 0)) as [yr ->];
    [intros i Hi; apply where_gt_lt in Hi; lia |].
  exists Xl, yl, Xr, yr. reflexivity.
Qed.

Lemma split_data_succeeds_witness :
  exists Xl yl Xr yr,
    _split_data (Some 0) (Some 3%Q) X6 y6 = Ok ((Xl, yl), (Xr, yr)).
Proof.
  apply (split_data_succeeds 0 3%Q X6 y6).
  - discriminate.
  - intros r Hr. simpl in Hr.
    repeat (destruct Hr as [<- | Hr]; [simpl; lia |]). destruct Hr.
  - simpl. lia.
Defined.

(* ------------------------------------------------------------------ *)
(** ** [get_node] and [apply]                                          *)
(* ------------------------------------------------------------------ *)

Lemma indices_eq (nd : node) :
  indices nd
  = index nd :: (match left nd with Some l => indices l | None => [] end)
             ++ (match right nd with Some r => indices r | None => [] end).
Proof. destruct nd; reflexivity. Qed.

Lemma in_tree_indices (nd root : node) :
  in_tree nd root -> In (index nd) (indices root).
Proof.
  induction 1 as [| root l Hl _ IH | root r Hr _ IH]; rewrite indices_eq.
  - left. reflexivity.
  - right. rewrite Hl. apply in_or_app. left. exact IH.
  - right. rewrite Hr. apply in_or_app. right. exact IH.
Qed.

Lemma in_tree_trans (a b c : node) :
  in_tree a b -> in_tree b c -> in_tree a c.
Proof.
  intros Hab Hbc. induction Hbc as [| c l Hl _ IH | c r Hr _ IH].
  - exact Hab.
  - eapply in_tree_left; [exact Hl | exact IH].
  - eapply in_tree_right; [exact Hr | exact IH].
Qed.

Lemma in_tree_leaf (nd root : node) :
  is_leaf root -> in_tree nd root -> nd = root.
Proof.
  intros [Hl Hr] H. inversion H; subst; [reflexivity | congruence ..].
Qed.

Lemma _get_node_from_n_eq (X : Z) (nd : node) :
  _get_node_from_n X nd
  = if (Z.of_nat (index nd) =? X)%Z then Some nd
    else match (match right nd with
                | Some r => _get_node_from_n X r
                | None => None
                end) with
         | Some result => Some result
         | None => match left nd with
                   | Some l => _get_node_from_n X l
                   | None => None
                   end
         end.
Proof. destruct nd; reflexivity. Qed.

Lemma _get_node_from_n_sound (n : Z) :
  forall nd r,
    _get_node_from_n n nd = Some r -> in_tree r nd /\ Z.of_nat (index r) = n.
Proof.
  intro nd. induction nd as [nd IHl IHr] using node_children_ind.
  intros r H. rewrite _get_node_from_n_eq in H.
  destruct (Z.eqb_spec (Z.of_nat (index nd)) n) as [He | _].
  - injection H as <-. split; [constructor | exact He].
  - destruct (right nd) as [rc |] eqn:Hr.
    + destruct (_get_node_from_n n rc) as [res |] eqn:Hres.
      * injection H as <-. destruct (IHr rc eq_refl res Hres) as [Hin Hi].
        split; [eapply in_tree_right; eassumption | exact Hi].
      * destruct (left nd) as [lc |] eqn:Hl; [| discriminate H].
        destruct (IHl lc eq_refl r H) as [Hin Hi].
        split; [eapply in_tree_left; eassumption | exact Hi].
    + destruct (left nd) as [lc |] eqn:Hl; [| discriminate H].
      destruct (IHl lc eq_refl r H) as [Hin Hi].
      split; [eapply in_tree_left; eassumption | exact Hi].
Qed.

Lemma _get_node_from_n_None (n : Z) (nd r : node) :
  in_tree r nd -> _get_node_from_n n nd = None -> Z.of_nat (index r) <> n.
Proof.
  induction 1 as [| nd l Hl _ IH | nd rc Hr _ IH]; intro H;
    rewrite _get_node_from_n_eq in H.
  - destruct (Z.eqb_spec (Z.of_nat (index r)) n); [discriminate H | assumption].
  - destruct (Z.of_nat (index nd) =? n)%Z; [discriminate H |].
    rewrite Hl in H.
    destruct (match right nd with
              | Some r0 => _get_node_from_n n r0
              | None => None
              end); [discriminate H |].
    apply IH. exact H.
  - destruct (Z.of_nat (index nd) =? n)%Z; [discriminate H |].
    rewrite Hr in H.
    destruct (_get_node_from_n n rc); [discriminate H |].
    apply IH. reflexivity.
Qed.

(** X4.  [get_node] with a node number never raises.  A node it returns
    belongs to the tree and carries the requested number; it returns
    [None] only when no node of the tree carries that number (also for a
    negative number, and for an object that has no tree). *)
Theorem get_node_by_index_spec (s : PolyTree) (n : Z) :
  match get_node s (ByIndex n) with
  | Ok (Some nd) =>
      (exists root, tree s = Some root /\ in_tree nd root)
      /\ Z.of_nat (index nd) = n
  | Ok None =>
      forall root nd,
        tree s = Some root -> in_tree nd root -> Z.of_nat (index nd) <> n
  | Raise _ => False
  end.
Proof.
  unfold get_node. destruct (tree s) as [root |].
  - destruct (_get_node_from_n n root) as [nd |] eqn:H.
    + apply _get_node_from_n_sound in H as [Hin Hi].
      split; [exists root; split; [reflexivity | exact Hin] | exact Hi].
    + intros root' nd E Hin. injection E as <-.
      eapply _get_node_from_n_None; eassumption.
  - intros root nd E. discriminate E.
Qed.

Lemma NoDup_indices_children (nd : node) :
  NoDup (indices nd) ->
  (forall l, left nd = Some l ->
             NoDup (indices l) /\ ~ In (index nd) (indices l))
  /\ (forall r, right nd = Some r ->
                NoDup (indices r) /\ ~ In (index nd) (indices r))
  /\ (forall l r, left nd = Some l -> right nd = Some r ->
                  forall i, In i (indices l) -> ~ In i (indices r)).
Proof.
  rewrite indices_eq. intro H. apply NoDup_cons_iff in H as [Hn H].
  pose proof (NoDup_app_remove_l _ _ H) as Hr.
  pose proof (NoDup_app_remove_r _ _ H) as Hl.
  split; [| split].
  - intros l E. rewrite E in Hl, Hn. split; [exact Hl |].
    intro Hi. apply Hn, in_or_app. left. exact Hi.
  - intros r E. rewrite E in Hr, Hn. split; [exact Hr |].
    intro Hi. apply Hn, in_or_app. right. exact Hi.
  - intros l r El Er i Hil Hir. rewrite El, Er in H.
    revert H Hil Hir. clear. generalize (indices l) as a, (indices r) as b.
    induction a as [| x a IH]; intros b H Hil Hir; [destruct Hil |].
    simpl in H. apply NoDup_cons_iff in H as [Hx H].
    destruct Hil as [<- | Hil].
    + apply Hx, in_or_app. right. exact Hir.
    + exact (IH b H Hil Hir).
Qed.

Lemma _get_node_from_n_unique (root : node) :
  forall nd,
    NoDup (indices root) -> in_tree nd root ->
    _get_node_from_n (Z.of_nat (index nd)) root = Some nd.
Proof.
  induction root as [root IHl IHr] using node_children_ind.
  intros nd Hnd Hin.
  destruct (NoDup_indices_children root Hnd) as (HL & HR & HLR).
  rewrite _get_node_from_n_eq.
  inversion Hin as [| ? l Hl Hinl | ? r Hr Hinr]; subst.
  - rewrite Z.eqb_refl. reflexivity.
  - destruct (HL l Hl) as [Hndl Hroot].
    destruct (Z.eqb_spec (Z.of_nat (index root)) (Z.of_nat (index nd)))
      as [He | _].
    { exfalso. apply Hroot. apply Nat2Z.inj in He. rewrite He.
      apply in_tree_indices. exact Hinl. }
    rewrite Hl, (IHl l Hl nd Hndl Hinl).
    destruct (right root) as [r |] eqn:Hr; [| reflexivity].
    destruct (_get_node_from_n (Z.of_nat (index nd)) r) as [res |] eqn:Hres;
      [| reflexivity].
    exfalso. apply _get_node_from_n_sound in Hres as [Hinr Hi].
    apply Nat2Z.inj in Hi.
    apply (HLR l r Hl eq_refl (index nd)).
    + apply in_tree_indices. exact Hinl.
    + rewrite <- Hi. apply in_tree_indices. exact Hinr.
  - destruct (HR r Hr) as [Hndr Hroot].
    destruct (Z.eqb_spec (Z.of_nat (index root)) (Z.of_nat (index nd)))
      as [He | _].
    { exfalso. apply Hroot. apply Nat2Z.inj in He. rewrite He.
      apply in_tree_indices. exact Hinr. }
    rewrite Hr, (IHr r Hr nd Hndr Hinr). reflexivity.
Qed.

(** X5.  In a tree whose node numbers are pairwise different, looking a
    node up by its own number returns that node. *)
Theorem get_node_by_index_round_trip (s : PolyTree) (root nd : node) :
  tree s = Some root ->
  NoDup (indices root) ->
  in_tree nd root ->
  get_node s (ByIndex (Z.of_nat (index nd))) = Ok (Some nd).
Proof.
  intros Ht Hnd Hin. unfold get_node. rewrite Ht.
  rewrite (_get_node_from_n_unique root nd Hnd Hin). reflexivity.
Qed.

Lemma get_node_by_index_round_trip_witness :
  get_node (tree_of two_level 1 1%Q) (ByIndex 11%Z)
  = Ok (Some (leaf 11 (const_poly 2) 2 2)).
Proof.
  apply (get_node_by_index_round_trip (tree_of two_level 1 1%Q) two_level
           (leaf 11 (const_poly 2) 2 2)).
  - reflexivity.
  - vm_compute. repeat constructor; simpl; intuition discriminate.
  - eapply in_tree_left; [reflexivity |].
    eapply in_tree_right; [reflexivity |]. constructor.
Defined.

Lemma _get_node_from_X_eq (X : frow) (nd : node) :
  _get_node_from_X X nd
  = match left nd, right nd with
    | None, None => Ok (Some nd)
    | l, r =>
        match j_feature nd, threshold nd with
        | Some j, Some t =>
            v <- getitem X j ;;
            if fle v (Some t) then
              match l with
              | Some l' => _get_node_from_X X l'
              | None => Raise TypeError
              end
            else if fgt v (Some t) then
              match r with
              | Some r' => _get_node_from_X X r'
              | None => Raise TypeError
              end
            else Ok None
        | _, _ => Raise TypeError
        end
    end.
Proof. destruct nd as [? ? ? ? ? ? ? [l |] [r |] ? ? ? ?]; reflexivity. Qed.

(** Neither test holds for nan only. *)
Lemma fle_fgt_nan (v : float) (t : Q) :
  fle v (Some t) = false -> fgt v (Some t) = false -> v = nan.
Proof.
  destruct v as [q |]; [| reflexivity]. cbn [fle fgt].
  intros H1 H2. rewrite H1 in H2. discriminate H2.
Qed.

(** What the walk of [get_node] returns: a leaf of the tree, or [None]
    at a node that was split on a feature whose entry is nan. *)
Lemma _get_node_from_X_spec (x : frow) :
  forall nd o,
    _get_node_from_X x nd = Ok o ->
    match o with
    | Some lf => in_tree lf nd /\ is_leaf lf
    | None =>
        exists m j,
          in_tree m nd /\ ~ is_leaf m
          /\ j_feature m = Some j /\ nth_error x j = Some nan
    end.
Proof.
  intro nd. induction nd as [nd IHl IHr] using node_children_ind.
  intros o H. rewrite _get_node_from_X_eq in H.
  assert (forall l r,
             left nd = l -> right nd = r -> (l <> None \/ r <> None) ->
             match j_feature nd, threshold nd with
             | Some j, Some t =>
                 v <- getitem x j ;;
                 if fle v (Some t) then
                   match l with
                   | Some l' => _get_node_from_X x l'
                   | None => Raise TypeError
                   end
                 else if fgt v (Some t) then
                   match r with
                   | Some r' => _get_node_from_X x r'
                   | None => Raise TypeError
                   end
                 else Ok None
             | _, _ => Raise TypeError
             end = Ok o ->
             match o with
             | Some lf => in_tree lf nd /\ is_leaf lf
             | None =>
                 exists m j,
                   in_tree m nd /\ ~ is_leaf m
                   /\ j_feature m = Some j /\ nth_error x j = Some nan
             end) as Hsplit.
  { clear H. intros l r Hl Hr Hch H.
    destruct (j_feature nd) as [j |] eqn:Hj; [| discriminate H].
    destruct (threshold nd) as [t |]; [| discriminate H].
    inv_rbind H as v Hv.
    destruct (fle v (Some t)) eqn:Hle.
    - destruct l as [l' |]; [| discriminate H].
      specialize (IHl l' Hl o H). destruct o as [lf |].
      + destruct IHl as [Hin Hlf].
        split; [exact (in_tree_left _ _ _ Hl Hin) | exact Hlf].
      + destruct IHl as (m & j' & Hin & Hm).
        exists m, j'. split; [exact (in_tree_left _ _ _ Hl Hin) | exact Hm].
    - destruct (fgt v (Some t)) eqn:Hgt.
      + destruct r as [r' |]; [| discriminate H].
        specialize (IHr r' Hr o H). destruct o as [lf |].
        * destruct IHr as [Hin Hlf].
          split; [exact (in_tree_right _ _ _ Hr Hin) | exact Hlf].
        * destruct IHr as (m & j' & Hin & Hm).
          exists m, j'.
          split; [exact (in_tree_right _ _ _ Hr Hin) | exact Hm].
      + injection H as <-. exists nd, j.
        split; [constructor |].
        split; [intros [F1 F2]; destruct Hch as [F | F]; apply F;
                congruence |].
        split; [exact Hj |].
        rewrite (fle_fgt_nan v t Hle Hgt) in Hv.
        unfold getitem in Hv.
        destruct (nth_error x j); [| discriminate Hv].
        injection Hv as ->. reflexivity. }
  destruct (left nd) as [l |] eqn:Hl, (right nd) as [r |] eqn:Hr;
    try (apply (Hsplit _ _ eq_refl eq_refl); [| exact H];
         solve [left; discriminate | right; discriminate]).
  injection H as <-. split; [constructor | split; assumption].
Qed.

Lemma _get_node_from_X_leaf (x : frow) (nd lf : node) :
  _get_node_from_X x nd = Ok (Some lf) -> in_tree lf nd /\ is_leaf lf.
Proof. intro H. exact (_get_node_from_X_spec x nd (Some lf) H). Qed.

(** X6.  [get_node] with an input vector, when it returns normally,
    returns either a leaf of the tree or [None]; it returns [None] only
    when the walk meets a node split on a feature at which the vector
    holds nan, so it returns a leaf for every vector without nan. *)
Theorem get_node_by_vector_leaf (s : PolyTree) (x : frow) (o : option node) :
  get_node s (ByVector x) = Ok o ->
  exists root,
    tree s = Some root
    /\ match o with
       | Some nd => in_tree nd root /\ is_leaf nd
       | None =>
           exists m j,
             in_tree m root /\ ~ is_leaf m
             /\ j_feature m = Some j /\ nth_error x j = Some nan
       end
    /\ ((forall v, In v x -> v <> nan) -> exists nd, o = Some nd).
Proof.
  unfold get_node. intro H. inv_rbind H as root Hroot.
  destruct (tree s) as [root' |]; [| discriminate Hroot].
  injection Hroot as ->.
  pose proof (_get_node_from_X_spec x root o H) as Hspec.
  exists root. split; [reflexivity |]. split; [exact Hspec |].
  intro Hfin. destruct o as [nd |]; [exists nd; reflexivity |].
  destruct Hspec as (m & j & _ & _ & _ & Hnan).
  exfalso. apply (Hfin nan); [| reflexivity].
  eapply nth_error_In. exact Hnan.
Qed.

Lemma get_node_by_vector_leaf_witness :
  (exists root,
      tree (tree_of two_level 1 1%Q) = Some root
      /\ (in_tree (leaf 11 (const_poly 2) 2 2) root
          /\ is_leaf (leaf 11 (const_poly 2) 2 2))
      /\ ((forall v, In v [Some 7%Q] -> v <> nan) ->
          exists nd, Some (leaf 11 (const_poly 2) 2 2) = Some nd))
  /\ (exists root,
         tree (tree_of two_level 1 1%Q) = Some root
         /\ (exists m j,
                in_tree m root /\ ~ is_leaf m
                /\ j_feature m = Some j /\ nth_error [nan] j = Some nan)
         /\ ((forall v, In v [nan] -> v <> nan) ->
             exists nd, @None node = Some nd)).
Proof.
  split.
  - apply (get_node_by_vector_leaf (tree_of two_level 1 1%Q) [Some 7%Q]
             (Some (leaf 11 (const_poly 2) 2 2))).
    vm_compute. reflexivity.
  - apply (get_node_by_vector_leaf (tree_of two_level 1 1%Q) [nan] None).
    vm_compute. reflexivity.
Defined.

Lemma take_Ok_map {A} (d : A) (a : list A) (idx : list nat) (r : list A) :
  take a idx = Ok r ->
  r = map (fun i => nth i a d) idx /\ forall i, In i idx -> i < length a.
Proof.
  unfold take. revert r.
  induction idx as [| i idx IH]; intros r H; simpl in H.
  - injection H as <-. split; [reflexivity | intros i []].
  - inv_rbind H as v Hv. inv_rbind H as r' Hr'. injection H as <-.
    destruct (IH r' Hr') as [-> Hall].
    unfold getitem in Hv. destruct (nth_error a i) eqn:Hn; [| discriminate Hv].
    injection Hv as ->.
    split.
    + simpl. rewrite (nth_error_nth _ _ _ Hn). reflexivity.
    + intros i' [<- | Hi']; [| apply Hall; exact Hi'].
      apply nth_error_Some. congruence.
Qed.

Lemma filter_combine_map {A B} (g : A -> B) (P : B -> bool) (l : list A) :
  map fst (filter (fun p => P (snd p)) (combine l (map g l)))
  = filter (fun i => P (g i)) l.
Proof.
  induction l as [| a l IH]; [reflexivity |].
  cbn [map combine filter snd]. destruct (P (g a)); cbn [map fst];
    rewrite IH; reflexivity.
Qed.

Lemma take_np_where {A B} (P : B -> bool) (a : list A) :
  forall (pre post : list A) (c : list B),
    length c = length a ->
    take (pre ++ a ++ post) (np_where P c (length pre))
    = Ok (map fst (filter (fun p => P (snd p)) (combine a c))).
Proof.
  unfold take.
  induction a as [| h a IH]; intros pre post c Hc; destruct c as [| x c];
    try discriminate Hc; [reflexivity |].
  injection Hc as Hc.
  assert (mapM (getitem (pre ++ (h :: a) ++ post))
               (np_where P c (S (length pre)))
          = Ok (map fst (filter (fun p => P (snd p)) (combine a c))))
    as Hrest.
  { replace (pre ++ (h :: a) ++ post) with ((pre ++ [h]) ++ a ++ post)
      by (rewrite <- app_assoc; reflexivity).
    replace (S (length pre)) with (length (pre ++ [h]))
      by (rewrite length_app; simpl; lia).
    apply IH. exact Hc. }
  cbn [np_where combine filter snd]. destruct (P x).
  - cbn [mapM map fst]. rewrite Hrest.
    change ((h :: a) ++ post) with (h :: a ++ post).
    rewrite getitem_app_here. reflexivity.
  - exact Hrest.
Qed.

Lemma np_where_lt {A} (P : A -> bool) (c : list A) (off i : nat) :
  In i (np_where P c off) -> i < off + length c.
Proof.
  revert off. induction c as [| x c IH]; intros off H; simpl in H;
    [destruct H |].
  simpl. destruct (P x).
  - destruct H as [<- | H]; [lia |]. apply IH in H. lia.
  - apply IH in H. lia.
Qed.

Lemma fcolumn_Ok_map (X : fmatrix) (j : nat) (c : list float) :
  fcolumn X j = Ok c ->
  c = map (fun r => nth j r nan) X /\ forall r, In r X -> j < length r.
Proof.
  unfold fcolumn. revert c.
  induction X as [| r X IH]; intros c H; simpl in H.
  - injection H as <-. split; [reflexivity | intros r []].
  - inv_rbind H as v Hv. inv_rbind H as c' Hc'. injection H as <-.
    unfold getitem in Hv.
    destruct (nth_error r j) as [v' |] eqn:Hn; [| discriminate Hv].
    injection Hv as ->.
    destruct (IH c' Hc') as [-> Hall].
    split; [simpl; rewrite (nth_error_nth _ _ _ Hn); reflexivity |].
    intros r' [<- | Hr]; [| apply Hall; exact Hr].
    apply nth_error_Some. rewrite Hn. discriminate.
Qed.

Lemma fcolumn_defined (X : fmatrix) (j : nat) :
  (forall r, In r X -> j < length r) ->
  fcolumn X j = Ok (map (fun r => nth j r nan) X).
Proof.
  unfold fcolumn. induction X as [| r X IH]; intro H; simpl;
    [reflexivity |].
  rewrite IH by (intros r' Hr; apply H; right; exact Hr).
  unfold getitem.
  destruct (nth_error r j) as [v |] eqn:Hn.
  - simpl. rewrite (nth_error_nth _ _ _ Hn). reflexivity.
  - apply nth_error_None in Hn.
    specialize (H r (or_introl eq_refl)). lia.
Qed.

(** The rows that [_apply] hands to the two children: those whose entry
    [j] is at most the threshold, and those whose entry exceeds it. *)
Lemma routing (X : fmatrix) (indexes : list nat) (j : nat) (t : Q)
      (Xi : fmatrix) (c : list float) (il ir : list nat) :
  take X indexes = Ok Xi ->
  fcolumn Xi j = Ok c ->
  take indexes (np_where (fun v => fle v (Some t)) c 0) = Ok il ->
  take indexes (np_where (fun v => fgt v (Some t)) c 0) = Ok ir ->
  let g := fun i => nth j (nth i X []) nan in
  il = filter (fun i => fle (g i) (Some t)) indexes
  /\ ir = filter (fun i => fgt (g i) (Some t)) indexes
  /\ (forall i, In i indexes -> i < length X /\ j < length (nth i X [])).
Proof.
  intros HXi Hc Hil Hir g.
  apply (take_Ok_map []) in HXi as [-> Hlt].
  apply fcolumn_Ok_map in Hc as [-> Hj].
  rewrite map_map in Hil, Hir. fold g in Hil, Hir.
  pose proof (take_np_where (fun v => fle v (Some t)) indexes [] []
                (map g indexes) (length_map g indexes)) as El.
  pose proof (take_np_where (fun v => fgt v (Some t)) indexes [] []
                (map g indexes) (length_map g indexes)) as Er.
  cbn [app length] in El, Er. rewrite app_nil_r in El, Er.
  rewrite (filter_combine_map g (fun v => fle v (Some t))) in El.
  rewrite (filter_combine_map g (fun v => fgt v (Some t))) in Er.
  pose proof (eq_trans (eq_sym Hil) El) as E1. injection E1 as ->.
  pose proof (eq_trans (eq_sym Hir) Er) as E2. injection E2 as ->.
  repeat split; try reflexivity.
  - apply Hlt. assumption.
  - apply Hj. apply in_map_iff. exists i. split; [reflexivity | assumption].
Qed.

Lemma _apply_eq (X : fmatrix) (nd : node) (indexes inode : list nat) :
  _apply X nd indexes inode
  = match left nd, right nd with
    | None, None => store_index inode indexes (index nd)
    | l, r =>
        match j_feature nd, threshold nd with
        | Some j, Some t =>
            Xi <- take X indexes ;;
            c <- fcolumn Xi j ;;
            il <- take indexes (np_where (fun v => fle v (Some t)) c 0) ;;
            ir <- take indexes (np_where (fun v => fgt v (Some t)) c 0) ;;
            match l with
            | None => Raise TypeError
            | Some l' =>
                inode <- _apply X l' il inode ;;
                match r with
                | None => Raise TypeError
                | Some r' => _apply X r' ir inode
                end
            end
        | _, _ => Raise TypeError
        end
    end.
Proof. destruct nd as [? ? ? ? ? ? ? [l |] [r |] ? ? ? ?]; reflexivity. Qed.

Lemma set_nth_nth_error {A} (l : list A) (i : nat) (a : A) (l' : list A) :
  set_nth l i a = Ok l' ->
  length l' = length l
  /\ nth_error l' i = Some a
  /\ forall k, k <> i -> nth_error l' k = nth_error l k.
Proof.
  revert i l'. induction l as [| x l IH]; intros i l' H; simpl in H;
    [discriminate H |].
  destruct i as [| i].
  - injection H as <-. split; [reflexivity |]. split; [reflexivity |].
    intros [| k] Hk; [congruence | reflexivity].
  - inv_rbind H as r Hr. injection H as <-.
    destruct (IH i r Hr) as (Hlen & Hi & Hk).
    split; [simpl; congruence |]. split; [exact Hi |].
    intros [| k] Hne; [reflexivity |]. simpl. apply Hk. congruence.
Qed.

Lemma store_index_spec (v : nat) (indexes : list nat) :
  forall inode inode',
    store_index inode indexes v = Ok inode' ->
    length inode' = length inode
    /\ (forall i, In i indexes -> nth_error inode' i = Some v)
    /\ (forall i, ~ In i indexes -> nth_error inode' i = nth_error inode i).
Proof.
  induction indexes as [| i indexes IH]; intros inode inode' H; simpl in H.
  - injection H as <-. split; [reflexivity |].
    split; [intros i [] | reflexivity].
  - inv_rbind H as inode1 H1.
    apply set_nth_nth_error in H1 as (Hlen1 & Hi1 & Hk1).
    destruct (IH inode1 inode' H) as (Hlen & Hin & Hout).
    split; [congruence |]. split.
    + intros i' Hi'. destruct (in_dec Nat.eq_dec i' indexes) as [Hd | Hd].
      * apply Hin. exact Hd.
      * rewrite (Hout i' Hd). destruct Hi' as [<- | Hi']; [exact Hi1 |].
        contradiction.
    + intros i' Hi'. rewrite Hout by (intro; apply Hi'; right; assumption).
      apply Hk1. intro. apply Hi'. left. congruence.
Qed.

(** No entry is both at most the threshold and above it. *)
Lemma fle_fgt (v : float) (t : Q) :
  fle v (Some t) = true -> fgt v (Some t) = false.
Proof.
  destruct v as [q |]; cbn [fle fgt]; [| discriminate].
  intros ->. reflexivity.
Qed.

(** What [_apply] writes: at every index routed through the node, the number
    of the leaf that the row reaches, if it reaches one; nothing else. *)
Lemma _apply_spec (X : fmatrix) :
  forall nd indexes inode inode',
    _apply X nd indexes inode = Ok inode' ->
    length inode' = length inode
    /\ (forall i, ~ In i indexes -> nth_error inode' i = nth_error inode i)
    /\ (forall i, In i indexes ->
          exists o,
            _get_node_from_X (nth i X []) nd = Ok o
            /\ nth_error inode' i
               = match o with
                 | Some lf => Some (index lf)
                 | None => nth_error inode i
                 end).
Proof.
  intro nd. induction nd as [nd IHl IHr] using node_children_ind.
  intros indexes inode inode' H.
  rewrite _apply_eq in H.
  assert (forall l r j t,
             left nd = l -> right nd = r ->
             j_feature nd = Some j -> threshold nd = Some t ->
             (Xi <- take X indexes ;;
              c <- fcolumn Xi j ;;
              il <- take indexes (np_where (fun v => fle v (Some t)) c 0) ;;
              ir <- take indexes (np_where (fun v => fgt v (Some t)) c 0) ;;
              match l with
              | None => Raise TypeError
              | Some l' =>
                  inode <- _apply X l' il inode ;;
                  match r with
                  | None => Raise TypeError
                  | Some r' => _apply X r' ir inode
                  end
              end) = Ok inode' ->
             (l <> None \/ r <> None) ->
             length inode' = length inode
             /\ (forall i, ~ In i indexes ->
                           nth_error inode' i = nth_error inode i)
             /\ (forall i, In i indexes ->
                   exists o,
                     _get_node_from_X (nth i X []) nd = Ok o
                     /\ nth_error inode' i
                        = match o with
                          | Some lf => Some (index lf)
                          | None => nth_error inode i
                          end)) as Hsplit.
  { clear H. intros l r j t Hl Hr Hj Ht H Hch.
    inv_rbind H as Xi HXi. inv_rbind H as c Hc.
    inv_rbind H as il Hil. inv_rbind H as ir Hir.
    destruct l as [l' |]; [| discriminate H].
    inv_rbind H as inode1 H1.
    destruct r as [r' |]; [| discriminate H].
    destruct (routing X indexes j t Xi c il ir HXi Hc Hil Hir)
      as (Eil & Eir & Hrow).
    destruct (IHl l' Hl il inode inode1 H1) as (Hlen1 & Hout1 & Hin1).
    destruct (IHr r' Hr ir inode1 inode' H) as (Hlen2 & Hout2 & Hin2).
    split; [congruence |]. split.
    - intros i Hi. rewrite Hout2, Hout1; [reflexivity | |];
        intro Hc'; apply Hi; [rewrite Eil in Hc' | rewrite Eir in Hc'];
        apply filter_In in Hc'; apply Hc'.
    - intros i Hi. destruct (Hrow i Hi) as [Hlt Hjlt].
      rewrite _get_node_from_X_eq, Hl, Hr, Hj, Ht.
      unfold getitem.
      destruct (nth_error (nth i X []) j) as [v |] eqn:Hv;
        [| apply nth_error_None in Hv; lia].
      cbn [rbind]. pose proof (nth_error_nth _ _ nan Hv) as Hg.
      destruct (fle v (Some t)) eqn:Hle.
      + assert (In i il) as Hil'.
        { rewrite Eil. apply filter_In. split; [exact Hi |].
          rewrite Hg. exact Hle. }
        assert (~ In i ir) as Hir'.
        { rewrite Eir. intro F. apply filter_In in F as [_ F].
          rewrite Hg, (fle_fgt v t Hle) in F. discriminate F. }
        destruct (Hin1 i Hil') as (o & Ho & Hn).
        exists o. split; [exact Ho |]. rewrite (Hout2 i Hir'). exact Hn.
      + assert (~ In i il) as Hil'.
        { rewrite Eil. intro F. apply filter_In in F as [_ F].
          rewrite Hg, Hle in F. discriminate F. }
        destruct (fgt v (Some t)) eqn:Hgt.
        * assert (In i ir) as Hir'.
          { rewrite Eir. apply filter_In. split; [exact Hi |].
            rewrite Hg. exact Hgt. }
          destruct (Hin2 i Hir') as (o & Ho & Hn).
          exists o. split; [exact Ho |]. rewrite Hn.
          destruct o; [reflexivity | apply Hout1; exact Hil'].
        * assert (~ In i ir) as Hir'.
          { rewrite Eir. intro F. apply filter_In in F as [_ F].
            rewrite Hg, Hgt in F. discriminate F. }
          exists None. split; [reflexivity |].
          rewrite (Hout2 i Hir'). apply Hout1. exact Hil'. }
  destruct (left nd) as [l |] eqn:Hl, (right nd) as [r |] eqn:Hr;
    try (destruct (j_feature nd) as [j |] eqn:Hj; [| discriminate H];
         destruct (threshold nd) as [t |] eqn:Ht; [| discriminate H];
         apply (Hsplit _ _ j t eq_refl eq_refl eq_refl eq_refl H);
         solve [left; discriminate | right; discriminate]).
  apply store_index_spec in H as (Hlen & Hin & Hout).
  split; [exact Hlen |]. split; [exact Hout |].
  intros i Hi.
  assert (_get_node_from_X (nth i X []) nd = Ok (Some nd)) as Hleaf
    by (rewrite _get_node_from_X_eq, Hl, Hr; reflexivity).
  exists (Some nd). split; [exact Hleaf | apply Hin; exact Hi].
Qed.

(** X7.  [apply] and [get_node] agree: when [apply] succeeds it returns one
    entry per row (a one-dimensional input counts as a single row), and the
    entry of each row is the number of the leaf that [get_node] returns for
    this row, or 0 when [get_node] returns [None] for it (the walk met a
    nan entry). *)
Theorem apply_agrees_with_get_node (s : PolyTree) (A : ndarray)
        (inode : list nat) :
  apply s A = Ok inode ->
  length inode = length (as_matrix A)
  /\ forall i x,
       nth_error (as_matrix A) i = Some x ->
       exists o,
         get_node s (ByVector x) = Ok o
         /\ nth_error inode i
            = Some (match o with Some lf => index lf | None => 0 end).
Proof.
  unfold apply, get_node. generalize (as_matrix A) as X. intros X H.
  inv_rbind H as root Hroot. rewrite Hroot. cbn [rbind].
  destruct (_apply_spec X root _ _ _ H) as (Hlen & _ & Hin).
  rewrite repeat_length in Hlen. split; [exact Hlen |].
  intros i x Hx.
  assert (i < length X) as Hi by (apply nth_error_Some; congruence).
  destruct (Hin i) as (o & Ho & Hn); [apply in_seq; lia |].
  pose proof (nth_error_nth X i [] Hx) as E.
  change (nth i X [] = x) in E. rewrite E in Ho.
  exists o. split; [exact Ho |]. rewrite Hn.
  destruct o; [reflexivity | apply nth_error_repeat; exact Hi].
Qed.

Lemma apply_agrees_with_get_node_witness :
  length [9; 0; 7]
  = length (as_matrix (Matrix [[Some 1%Q]; [nan]; [Some 20%Q]]))
  /\ forall i x,
       nth_error (as_matrix (Matrix [[Some 1%Q]; [nan]; [Some 20%Q]])) i
       = Some x ->
       exists o,
         get_node (tree_of two_level 1 1%Q) (ByVector x) = Ok o
         /\ nth_error [9; 0; 7] i
            = Some (match o with Some lf => index lf | None => 0 end).
Proof.
  apply (apply_agrees_with_get_node (tree_of two_level 1 1%Q)
           (Matrix [[Some 1%Q]; [nan]; [Some 20%Q]]) [9; 0; 7]).
  vm_compute. reflexivity.
Defined.

(* ------------------------------------------------------------------ *)
(** ** [get_polys] and [get_splits]                                    *)
(* ------------------------------------------------------------------ *)

Lemma _search_tree_polys_eq (nd : node) (polys : list Poly) :
  _search_tree_polys nd polys
  = let polys0 := match left nd, right nd with
                  | None, None => polys ++ [poly nd]
                  | _, _ => polys
                  end in
    let polys1 := match left nd with
                  | Some l => _search_tree_polys l polys0
                  | None => polys0
                  end in
    match right nd with
    | Some r => _search_tree_polys r polys1
    | None => polys1
    end.
Proof. destruct nd as [? ? ? ? ? ? ? [l |] [r |] ? ? ? ?]; reflexivity. Qed.

Lemma _search_tree_polys_spec :
  forall nd polys,
  exists new,
    _search_tree_polys nd polys = polys ++ new
    /\ forall p, In p new
                 <-> exists lf, in_tree lf nd /\ is_leaf lf /\ poly lf = p.
Proof.
  intro nd. induction nd as [nd IHl IHr] using node_children_ind.
  intro polys. rewrite _search_tree_polys_eq.
  destruct (left nd) as [l |] eqn:Hl, (right nd) as [r |] eqn:Hr; cbv zeta.
  - destruct (IHl l eq_refl polys) as (n1 & -> & H1).
    destruct (IHr r eq_refl (polys ++ n1)) as (n2 & -> & H2).
    exists (n1 ++ n2). split; [symmetry; apply app_assoc |].
    intro p. rewrite in_app_iff, H1, H2. split.
    + intros [(lf & Hin & Hlf) | (lf & Hin & Hlf)]; exists lf;
        (split; [| exact Hlf]);
        [eapply in_tree_left | eapply in_tree_right]; eassumption.
    + intros (lf & Hin & Hlf & Hp).
      inversion Hin as [| ? l' Hl' Hin' | ? r' Hr' Hin']; subst.
      * destruct Hlf as [F _]. congruence.
      * left. exists lf. rewrite Hl in Hl'. injection Hl' as <-. auto.
      * right. exists lf. rewrite Hr in Hr'. injection Hr' as <-. auto.
  - destruct (IHl l eq_refl polys) as (n1 & -> & H1).
    exists n1. split; [reflexivity |].
    intro p. rewrite H1. split.
    + intros (lf & Hin & Hlf); exists lf.
      split; [eapply in_tree_left; eassumption | exact Hlf].
    + intros (lf & Hin & Hlf & Hp).
      inversion Hin as [| ? l' Hl' Hin' | ? r' Hr' Hin']; subst.
      * destruct Hlf as [F _]. congruence.
      * exists lf. rewrite Hl in Hl'. injection Hl' as <-. auto.
      * congruence.
  - destruct (IHr r eq_refl polys) as (n2 & -> & H2).
    exists n2. split; [reflexivity |].
    intro p. rewrite H2. split.
    + intros (lf & Hin & Hlf); exists lf.
      split; [eapply in_tree_right; eassumption | exact Hlf].
    + intros (lf & Hin & Hlf & Hp).
      inversion Hin as [| ? l' Hl' Hin' | ? r' Hr' Hin']; subst.
      * destruct Hlf as [_ F]. congruence.
      * congruence.
      * exists lf. rewrite Hr in Hr'. injection Hr' as <-. auto.
  - exists [poly nd]. split; [reflexivity |].
    intro p. split.
    + intros [<- | []]. exists nd.
      split; [constructor | split; [split; assumption | reflexivity]].
    + intros (lf & Hin & Hlf & Hp).
      apply in_tree_leaf in Hin; [| split; assumption]. subst. left.
      reflexivity.
Qed.

(** X8.  [get_polys] lists the polynomials of the leaves and nothing else:
    a polynomial is in the list exactly when it is that of a node of the
    tree without children. *)
Theorem get_polys_are_leaf_polys (s : PolyTree) (root : node) :
  tree s = Some root ->
  exists polys,
    get_polys s = Ok polys
    /\ forall p, In p polys
                 <-> exists lf, in_tree lf root /\ is_leaf lf /\ poly lf = p.
Proof.
  intro Ht. unfold get_polys. rewrite Ht. cbn [some_node rbind].
  destruct (_search_tree_polys_spec root []) as (new & -> & H).
  exists new. split; [reflexivity | exact H].
Qed.

Lemma get_polys_are_leaf_polys_witness :
  exists polys,
    get_polys (tree_of two_level 1 1%Q) = Ok polys
    /\ forall p, In p polys
                 <-> exists lf, in_tree lf two_level /\ is_leaf lf
                                /\ poly lf = p.
Proof.
  apply (get_polys_are_leaf_polys (tree_of two_level 1 1%Q) two_level).
  reflexivity.
Defined.

(** X9.  The polynomial of the leaf that [get_node] finds for an input
    vector is one of those that [get_polys] lists. *)
Theorem get_polys_cover_queries (s : PolyTree) (x : frow) (nd : node) :
  get_node s (ByVector x) = Ok (Some nd) ->
  exists polys, get_polys s = Ok polys /\ In (poly nd) polys.
Proof.
  intro H. unfold get_node in H. inv_rbind H as root Hroot.
  destruct (tree s) as [root' |] eqn:Ht; [| discriminate Hroot].
  injection Hroot as ->.
  destruct (_search_tree_polys_spec root []) as (new & E & Hn).
  unfold get_polys. rewrite Ht. cbn [some_node rbind]. rewrite E.
  exists new. split; [reflexivity |].
  apply Hn. exists nd.
  destruct (_get_node_from_X_leaf x root nd H) as [Hin Hlf].
  auto.
Qed.

Lemma get_polys_cover_queries_witness :
  exists polys,
    get_polys (tree_of two_level 1 1%Q) = Ok polys
    /\ In (poly (leaf 11 (const_poly 2) 2 2)) polys.
Proof.
  apply (get_polys_cover_queries (tree_of two_level 1 1%Q) [Some 7%Q]).
  vm_compute. reflexivity.
Defined.

Lemma _search_tree_splits_eq (nd : node) (splits : list split_entry) :
  _search_tree_splits nd splits
  = let e := (threshold nd, j_feature nd) in
    let splits1 := match left nd with
                   | Some l => _search_tree_splits l (append_new e splits)
                   | None => splits
                   end in
    match right nd with
    | Some r => _search_tree_splits r (append_new e splits1)
    | None => splits1
    end.
Proof. destruct nd as [? ? ? ? ? ? ? [l |] [r |] ? ? ? ?]; reflexivity. Qed.

Lemma opt_eqb_refl {A} (eqb : A -> A -> bool) (o : option A) :
  (forall a, eqb a a = true) -> opt_eqb eqb o o = true.
Proof. intro H. destruct o; simpl; [apply H | reflexivity]. Qed.

Lemma entry_eqb_refl (e : split_entry) : entry_eqb e e = true.
Proof.
  unfold entry_eqb. rewrite !opt_eqb_refl; [reflexivity | |].
  - apply Nat.eqb_refl.
  - intro a. apply Qeq_bool_iff. reflexivity.
Qed.

Lemma Qeq_bool_sym (x y : Q) : Qeq_bool x y = Qeq_bool y x.
Proof.
  destruct (Qeq_bool x y) eqn:E1, (Qeq_bool y x) eqn:E2; try reflexivity.
  - apply Qeq_bool_iff in E1. symmetry in E1. apply Qeq_bool_iff in E1.
    congruence.
  - apply Qeq_bool_iff in E2. symmetry in E2. apply Qeq_bool_iff in E2.
    congruence.
Qed.

Lemma opt_eqb_sym {A} (eqb : A -> A -> bool) (a b : option A) :
  (forall x y, eqb x y = eqb y x) -> opt_eqb eqb a b = opt_eqb eqb b a.
Proof. intro H. destruct a, b; simpl; auto. Qed.

Lemma entry_eqb_sym (a b : split_entry) : entry_eqb a b = entry_eqb b a.
Proof.
  unfold entry_eqb.
  rewrite (opt_eqb_sym Qeq_bool _ _ Qeq_bool_sym).
  rewrite (opt_eqb_sym Nat.eqb _ _ Nat.eqb_sym). reflexivity.
Qed.

(** [append_new] adds the entry unless an equal one (in the sense of
    Python's [==]) is listed already, and keeps a list without equal
    entries free of them. *)
Lemma append_new_spec (e : split_entry) (acc : list split_entry) :
  exists new,
    append_new e acc = acc ++ new
    /\ (forall x, In x new -> x = e)
    /\ (exists x, In x (acc ++ new) /\ entry_eqb e x = true)
    /\ ((forall i j a b, i < j -> nth_error acc i = Some a ->
                         nth_error acc j = Some b -> entry_eqb a b = false) ->
        forall i j a b, i < j -> nth_error (acc ++ new) i = Some a ->
                        nth_error (acc ++ new) j = Some b ->
                        entry_eqb a b = false).
Proof.
  unfold append_new. destruct (existsb (entry_eqb e) acc) eqn:Hex.
  - exists []. rewrite app_nil_r. split; [reflexivity |].
    split; [intros x [] |]. split; [| auto].
    apply existsb_exists in Hex as (x & Hx & He). exists x. auto.
  - exists [e]. split; [reflexivity |].
    split; [intros x [<- | []]; reflexivity |]. split.
    + exists e. split; [apply in_or_app; right; left; reflexivity |].
      apply entry_eqb_refl.
    + intros Hacc i j a b Hij Ha Hb.
      assert (j < length (acc ++ [e])) as Hj
        by (apply nth_error_Some; congruence).
      rewrite length_app in Hj. simpl in Hj.
      rewrite nth_error_app1 in Ha by lia.
      destruct (Nat.eq_dec j (length acc)) as [-> | Hne].
      * rewrite nth_error_app2, Nat.sub_diag in Hb by lia.
        injection Hb as <-. rewrite entry_eqb_sym.
        destruct (entry_eqb e a) eqn:E; [| reflexivity].
        assert (existsb (entry_eqb e) acc = true) as F; [| congruence].
        apply existsb_exists. exists a.
        split; [eapply nth_error_In; eassumption | exact E].
      * rewrite nth_error_app1 in Hb by lia. exact (Hacc i j a b Hij Ha Hb).
Qed.

Lemma _search_tree_splits_spec :
  forall nd acc,
  exists new,
    _search_tree_splits nd acc = acc ++ new
    /\ (forall e, In e new ->
          exists nd', in_tree nd' nd /\ ~ is_leaf nd'
                      /\ e = (threshold nd', j_feature nd'))
    /\ (forall nd', in_tree nd' nd -> ~ is_leaf nd' ->
          exists e, In e (acc ++ new)
                    /\ entry_eqb (threshold nd', j_feature nd') e = true)
    /\ ((forall i j a b, i < j -> nth_error acc i = Some a ->
                         nth_error acc j = Some b -> entry_eqb a b = false) ->
        forall i j a b, i < j -> nth_error (acc ++ new) i = Some a ->
                        nth_error (acc ++ new) j = Some b ->
                        entry_eqb a b = false).
Proof.
  intro nd. induction nd as [nd IHl IHr] using node_children_ind.
  intro acc. rewrite _search_tree_splits_eq. cbv zeta.
  set (e := (threshold nd, j_feature nd)).
  assert (forall l, left nd = Some l -> ~ is_leaf nd) as NL
    by (intros l E [F _]; congruence).
  assert (forall r, right nd = Some r -> ~ is_leaf nd) as NR
    by (intros r E [_ F]; congruence).
  destruct (left nd) as [l |] eqn:Hl.
  - destruct (append_new_spec e acc) as (n0 & -> & S0 & C0 & D0).
    destruct (IHl l eq_refl (acc ++ n0)) as (n1 & -> & S1 & C1 & D1).
    destruct (right nd) as [r |] eqn:Hr.
    + destruct (append_new_spec e ((acc ++ n0) ++ n1))
        as (n2 & -> & S2 & C2 & D2).
      destruct (IHr r eq_refl (((acc ++ n0) ++ n1) ++ n2))
        as (n3 & -> & S3 & C3 & D3).
      exists (n0 ++ n1 ++ n2 ++ n3).
      split; [rewrite <- !app_assoc; reflexivity |].
      replace (acc ++ n0 ++ n1 ++ n2 ++ n3)
        with ((((acc ++ n0) ++ n1) ++ n2) ++ n3)
        by (rewrite <- !app_assoc; reflexivity).
      split; [| split; [| intro Hacc; exact (D3 (D2 (D1 (D0 Hacc))))]].
      * intros x Hx. rewrite !in_app_iff in Hx.
        destruct Hx as [Hx | [Hx | [Hx | Hx]]].
        -- exists nd. split; [constructor |]. split; [eauto |].
           apply S0. exact Hx.
        -- destruct (S1 x Hx) as (nd' & Hin & Hnl & Hx').
           exists nd'. split; [eapply in_tree_left; eassumption | auto].
        -- exists nd. split; [constructor |]. split; [eauto |].
           apply S2. exact Hx.
        -- destruct (S3 x Hx) as (nd' & Hin & Hnl & Hx').
           exists nd'. split; [eapply in_tree_right; eassumption | auto].
      * intros nd' Hin Hnl.
        inversion Hin as [| ? l' Hl' Hin' | ? r' Hr' Hin']; subst.
        -- destruct C0 as (x & Hx & He). exists x. split; [| exact He].
           rewrite !in_app_iff in *. tauto.
        -- rewrite Hl in Hl'. injection Hl' as <-.
           destruct (C1 nd' Hin' Hnl) as (x & Hx & He).
           exists x. split; [| exact He]. rewrite !in_app_iff in *. tauto.
        -- rewrite Hr in Hr'. injection Hr' as <-.
           destruct (C3 nd' Hin' Hnl) as (x & Hx & He).
           exists x. split; [| exact He]. exact Hx.
    + exists (n0 ++ n1). split; [rewrite <- !app_assoc; reflexivity |].
      replace (acc ++ n0 ++ n1) with ((acc ++ n0) ++ n1)
        by (rewrite <- !app_assoc; reflexivity).
      split; [| split; [| intro Hacc; exact (D1 (D0 Hacc))]].
      * intros x Hx. rewrite !in_app_iff in Hx. destruct Hx as [Hx | Hx].
        -- exists nd. split; [constructor |]. split; [eauto |].
           apply S0. exact Hx.
        -- destruct (S1 x Hx) as (nd' & Hin & Hnl & Hx').
           exists nd'. split; [eapply in_tree_left; eassumption | auto].
      * intros nd' Hin Hnl.
        inversion Hin as [| ? l' Hl' Hin' | ? r' Hr' Hin']; subst.
        -- destruct C0 as (x & Hx & He). exists x. split; [| exact He].
           rewrite !in_app_iff in *. tauto.
        -- rewrite Hl in Hl'. injection Hl' as <-.
           destruct (C1 nd' Hin' Hnl) as (x & Hx & He).
           exists x. split; [| exact He]. exact Hx.
        -- congruence.
  - destruct (right nd) as [r |] eqn:Hr.
    + destruct (append_new_spec e acc) as (n2 & -> & S2 & C2 & D2).
      destruct (IHr r eq_refl (acc ++ n2)) as (n3 & -> & S3 & C3 & D3).
      exists (n2 ++ n3). split; [rewrite <- !app_assoc; reflexivity |].
      replace (acc ++ n2 ++ n3) with ((acc ++ n2) ++ n3)
        by (rewrite <- !app_assoc; reflexivity).
      split; [| split; [| intro Hacc; exact (D3 (D2 Hacc))]].
      * intros x Hx. rewrite !in_app_iff in Hx. destruct Hx as [Hx | Hx].
        -- exists nd. split; [constructor |]. split; [eauto |].
           apply S2. exact Hx.
        -- destruct (S3 x Hx) as (nd' & Hin & Hnl & Hx').
           exists nd'. split; [eapply in_tree_right; eassumption | auto].
      * intros nd' Hin Hnl.
        inversion Hin as [| ? l' Hl' Hin' | ? r' Hr' Hin']; subst.
        -- destruct C2 as (x & Hx & He). exists x. split; [| exact He].
           rewrite !in_app_iff in *. tauto.
        -- congruence.
        -- rewrite Hr in Hr'. injection Hr' as <-.
           destruct (C3 nd' Hin' Hnl) as (x & Hx & He).
           exists x. split; [| exact He]. exact Hx.
    + exists []. rewrite app_nil_r. split; [reflexivity |].
      split; [intros x [] |]. split; [| auto].
      intros nd' Hin Hnl. exfalso.
      apply in_tree_leaf in Hin; [| split; assumption]. subst nd'.
      apply Hnl. split; assumption.
Qed.

(** X10.  [get_splits] lists the splits of the nodes that have a child,
    each once: every entry is the pair (threshold, feature) of such a node,
    every such node finds its pair in the list, and no two entries of the
    list are equal. *)
Theorem get_splits_spec (s : PolyTree) (root : node) :
  tree s = Some root ->
  exists splits,
    get_splits s = Ok splits
    /\ (forall e, In e splits ->
          exists nd, in_tree nd root /\ ~ is_leaf nd
                     /\ e = (threshold nd, j_feature nd))
    /\ (forall nd, in_tree nd root -> ~ is_leaf nd ->
          exists e, In e splits
                    /\ entry_eqb (threshold nd, j_feature nd) e = true)
    /\ (forall i j a b, i < j -> nth_error splits i = Some a ->
                        nth_error splits j = Some b ->
                        entry_eqb a b = false).
Proof.
  intro Ht. unfold get_splits. rewrite Ht. cbn [some_node rbind].
  destruct (_search_tree_splits_spec root []) as (new & -> & S & C & D).
  exists new. split; [reflexivity |]. split; [exact S |].
  split; [exact C |]. apply D.
  intros i j a b _ Ha. destruct i; discriminate Ha.
Qed.

Lemma get_splits_spec_witness :
  exists splits,
    get_splits (tree_of two_level 1 1%Q) = Ok splits
    /\ (forall e, In e splits ->
          exists nd, in_tree nd two_level /\ ~ is_leaf nd
                     /\ e = (threshold nd, j_feature nd))
    /\ (forall nd, in_tree nd two_level -> ~ is_leaf nd ->
          exists e, In e splits
                    /\ entry_eqb (threshold nd, j_feature nd) e = true)
    /\ (forall i j a b, i < j -> nth_error splits i = Some a ->
                        nth_error splits j = Some b ->
                        entry_eqb a b = false).
Proof.
  apply (get_splits_spec (tree_of two_level 1 1%Q) two_level).
  reflexivity.
Defined.

(* ------------------------------------------------------------------ *)
(** ** [predict]                                                       *)
(* ------------------------------------------------------------------ *)

(** A buffer of [N] rows with [W] levels each. *)
Lemma keeps_records_shape (N W : nat) (a a' : buffer) :
  keeps_records a a' ->
  length a = N /\ (forall i r, nth_error a i = Some r -> length r = W) ->
  length a' = N /\ (forall i r, nth_error a' i = Some r -> length r = W).
Proof.
  intros (Hlen & Hrows & _) [HN HW]. split; [congruence |].
  intros i r' Hr'.
  assert (i < length a) as Hi
    by (rewrite <- Hlen; apply nth_error_Some; congruence).
  destruct (nth_error a i) as [r |] eqn:Hr;
    [| apply nth_error_None in Hr; lia].
  rewrite (Hrows i r r' Hr Hr'). apply (HW i r Hr).
Qed.

Lemma set_nth_defined {A} (l : list A) (i : nat) (a : A) :
  i < length l -> exists l', set_nth l i a = Ok l'.
Proof.
  intro Hi. pose proof (set_nth_spec l i a) as H.
  destruct (set_nth l i a) as [l' | e]; [exists l'; reflexivity |].
  destruct H as [_ H]. lia.
Qed.

Lemma store_defined (a : buffer) (i d : nat) (c : cell) :
  i < length a ->
  (forall r, nth_error a i = Some r -> d < length r) ->
  exists a', store a i d c = Ok a'.
Proof.
  intros Hi Hd. unfold store, getitem.
  destruct (nth_error a i) as [r |] eqn:Hr;
    [| apply nth_error_None in Hr; lia].
  cbn [rbind].
  destruct (set_nth_defined r d c (Hd r eq_refl)) as [r' ->]. cbn [rbind].
  apply set_nth_defined. exact Hi.
Qed.

Lemma store_all_defined (N W d n : nat) (indexes : list nat) :
  forall (vals : list Q) (a : buffer),
    d < W ->
    (forall i, In i indexes -> i < N) ->
    length a = N /\ (forall i r, nth_error a i = Some r -> length r = W) ->
    exists a', store_all a indexes d vals n = Ok a'.
Proof.
  induction indexes as [| i indexes IH]; intros vals a Hd Hin Ha;
    [exists a; reflexivity |].
  destruct vals as [| v vals]; [exists a; reflexivity |].
  cbn [store_all].
  destruct (store_defined a i d (Some v, Some (Qnat n))) as [a1 H1].
  - destruct Ha as [-> _]. apply Hin. left. reflexivity.
  - intros r Hr. destruct Ha as [_ HW]. rewrite (HW i r Hr). exact Hd.
  - rewrite H1. cbn [rbind]. apply IH; [exact Hd | |].
    + intros i' Hi'. apply Hin. right. exact Hi'.
    + apply (keeps_records_shape N W a a1); [| exact Ha].
      apply (store_keeps a i d v (Some (Qnat n)) a1 H1).
Qed.

Lemma take_length {A} (a : list A) (idx : list nat) (r : list A) :
  take a idx = Ok r -> length r = length idx.
Proof. apply mapM_length. Qed.

(** [_predict] succeeds on a tree whose nodes with a child have both
    children, a feature that every row of [X] has, and a threshold, and
    whose depths fit the levels of the buffer. *)
Lemma _predict_defined (X : matrix) (W : nat) :
  forall nd indexes a,
    (forall nd', in_tree nd' nd -> depth nd' < W) ->
    (forall nd', in_tree nd' nd -> ~ is_leaf nd' ->
       exists l r j t,
         left nd' = Some l /\ right nd' = Some r
         /\ j_feature nd' = Some j /\ threshold nd' = Some t
         /\ forall x, In x X -> j < length x) ->
    (forall i, In i indexes -> i < length X) ->
    length a = length X
    /\ (forall i r, nth_error a i = Some r -> length r = W) ->
    exists a', _predict X nd indexes a = Ok a'.
Proof.
  intro nd. induction nd as [nd IHl IHr] using node_children_ind.
  intros indexes a Hdep Hroute Hidx Ha.
  rewrite _predict_eq.
  destruct (take_defined X indexes Hidx) as [Xi HXi]. rewrite HXi.
  cbn [rbind].
  destruct (store_all_defined (length X) W (depth nd) (n_samples nd)
              indexes (get_polyfit (poly nd) Xi) a) as [a1 H1];
    [apply Hdep; constructor | exact Hidx | exact Ha |].
  rewrite H1. cbn [rbind].
  assert (length a1 = length X
          /\ (forall i r, nth_error a1 i = Some r -> length r = W)) as Ha1.
  { apply (keeps_records_shape (length X) W a a1); [| exact Ha].
    apply (store_all_keeps indexes (depth nd) (n_samples nd)
             (get_polyfit (poly nd) Xi) a a1); [| exact H1].
    unfold get_polyfit. rewrite length_map, (take_length _ _ _ HXi).
    apply le_n. }
  destruct (left nd) as [l |] eqn:Hl, (right nd) as [r |] eqn:Hr;
    try (destruct (Hroute nd (in_tree_here nd)) as
            (l0 & r0 & j & t & El & Er & Ej & Et & Hj);
         [intros [F1 F2]; congruence |]);
    try congruence; [| exists a1; reflexivity].
  rewrite Ej, Et.
  assert (forall x, In x Xi -> In x X) as Hsub.
  { intros x Hx. destruct (take_Ok_map [] _ _ _ HXi) as [E Hlt].
    rewrite E in Hx.
    apply in_map_iff in Hx as (i & <- & Hi). apply nth_In. apply Hlt.
    exact Hi. }
  rewrite (column_defined Xi j) by (intros x Hx; apply Hj, Hsub; exact Hx).
  cbn [rbind].
  match goal with
  | |- context [where_le ?c0 t 0] => set (c := c0)
  end.
  assert (length c = length indexes) as Hc
    by (unfold c; rewrite length_map; apply (take_length _ _ _ HXi)).
  destruct (take_defined indexes (where_le c t 0)) as [il Hil];
    [intros i Hi; apply where_le_lt in Hi; lia |].
  destruct (take_defined indexes (where_gt c t 0)) as [ir Hir];
    [intros i Hi; apply where_gt_lt in Hi; lia |].
  rewrite Hil, Hir. cbn [rbind].
  assert (forall i, In i il -> In i indexes) as Hsubl.
  { intros i Hi. destruct (take_Ok_map 0 _ _ _ Hil) as [E Hlt].
    rewrite E in Hi.
    apply in_map_iff in Hi as (p & <- & Hp). apply nth_In. apply Hlt.
    exact Hp. }
  assert (forall i, In i ir -> In i indexes) as Hsubr.
  { intros i Hi. destruct (take_Ok_map 0 _ _ _ Hir) as [E Hlt].
    rewrite E in Hi.
    apply in_map_iff in Hi as (p & <- & Hp). apply nth_In. apply Hlt.
    exact Hp. }
  destruct (IHl l eq_refl il a1) as [a2 H2].
  - intros nd' Hin. apply Hdep. exact (in_tree_left _ _ _ Hl Hin).
  - intros nd' Hin. apply Hroute. exact (in_tree_left _ _ _ Hl Hin).
  - intros i Hi. apply Hidx, Hsubl. exact Hi.
  - exact Ha1.
  - rewrite H2. cbn [rbind].
    apply (IHr r eq_refl ir a2).
    + intros nd' Hin. apply Hdep. exact (in_tree_right _ _ _ Hr Hin).
    + intros nd' Hin. apply Hroute. exact (in_tree_right _ _ _ Hr Hin).
    + intros i Hi. apply Hidx, Hsubr. exact Hi.
    + apply (keeps_records_shape (length X) W a1 a2); [| exact Ha1].
      apply (_predict_keeps X (height l) l il a1 a2 (le_n _) H2).
Qed.

Lemma repeat_nth_error {A} (a : A) (n i : nat) (x : A) :
  nth_error (repeat a n) i = Some x -> x = a.
Proof.
  intro H. apply nth_error_In in H. apply repeat_spec in H. exact H.
Qed.

(** [predict] succeeds on a tree that can be walked and whose depths fit
    the buffer. *)
Lemma predict_defined (s : PolyTree) (root : node) (X : matrix) :
  tree s = Some root ->
  (forall nd, in_tree nd root -> depth nd <= actual_max_depth s + 1) ->
  (forall nd, in_tree nd root -> ~ is_leaf nd ->
     exists l r j t,
       left nd = Some l /\ right nd = Some r
       /\ j_feature nd = Some j /\ threshold nd = Some t
       /\ forall x, In x X -> j < length x) ->
  exists ys, predict s X = Ok ys /\ length ys = length X.
Proof.
  intros Ht Hdep Hroute. unfold predict. rewrite Ht.
  set (a := repeat (repeat (nan, nan) (actual_max_depth s + 2)) (length X)).
  assert (length a = length X
          /\ (forall i r, nth_error a i = Some r ->
                          length r = actual_max_depth s + 2)) as Ha.
  { split; [apply repeat_length |]. intros i r Hr.
    apply repeat_nth_error in Hr. subst r. apply repeat_length. }
  destruct (_predict_defined X (actual_max_depth s + 2) root
              (seq 0 (length X)) a) as [a' H'].
  - intros nd Hin. specialize (Hdep nd Hin). lia.
  - exact Hroute.
  - intros i Hi. apply in_seq in Hi. lia.
  - exact Ha.
  - rewrite H'. cbn [rbind]. eexists. split; [reflexivity |].
    rewrite length_map.
    destruct (_predict_keeps X (height root) root _ a a' (le_n _) H')
      as [(Hlen & _) _].
    rewrite Hlen. apply Ha.
Qed.

(** X11.  [predict] succeeds, with one prediction per row, on every tree in
    which each node with a child has both children, a threshold and a
    feature that all rows of the input have, and in which no node lies
    deeper than [actual_max_depth + 1]. *)
Theorem predict_succeeds (s : PolyTree) (root : node) (X : matrix) :
  tree s = Some root ->
  (forall nd, in_tree nd root -> depth nd <= actual_max_depth s + 1) ->
  (forall nd, in_tree nd root -> ~ is_leaf nd ->
     exists l r j t,
       left nd = Some l /\ right nd = Some r
       /\ j_feature nd = Some j /\ threshold nd = Some t
       /\ forall x, In x X -> j < length x) ->
  exists ys, predict s X = Ok ys /\ length ys = length X.
Proof. apply predict_defined. Qed.

Lemma predict_succeeds_witness :
  exists ys,
    predict (tree_of two_level 1 1%Q) [[1%Q]; [7%Q]; [20%Q]] = Ok ys
    /\ length ys = length [[1%Q]; [7%Q]; [20%Q]].
Proof.
  apply (predict_succeeds (tree_of two_level 1 1%Q) two_level
           [[1%Q]; [7%Q]; [20%Q]]).
  - reflexivity.
  - intros nd Hin.
    inversion Hin as [| ? l Hl Hin1 | ? r Hr Hin1]; subst;
      [simpl; lia | injection Hl as <- | injection Hr as <-].
    + inversion Hin1 as [| ? l Hl Hin2 | ? r Hr Hin2]; subst;
        [simpl; lia | injection Hl as <- | injection Hr as <-];
        inversion Hin2; subst; simpl; try lia; discriminate.
    + inversion Hin1; subst; simpl; try lia; discriminate.
  - intros nd Hin Hnl.
    assert (forall x, In x [[1%Q]; [7%Q]; [20%Q]] -> 0 < length x) as Hw.
    { intros x Hx. simpl in Hx.
      repeat (destruct Hx as [<- | Hx]; [simpl; lia |]). destruct Hx. }
    inversion Hin as [| ? l Hl Hin1 | ? r Hr Hin1]; subst;
      [do 4 eexists; repeat (split; [reflexivity |]); exact Hw
      | injection Hl as <- | injection Hr as <-].
    + inversion Hin1 as [| ? l Hl Hin2 | ? r Hr Hin2]; subst;
        [do 4 eexists; repeat (split; [reflexivity |]); exact Hw
        | injection Hl as <- | injection Hr as <-];
        inversion Hin2; subst; try discriminate;
        exfalso; apply Hnl; split; reflexivity.
    + inversion Hin1; subst; try discriminate.
      exfalso; apply Hnl; split; reflexivity.
Defined.

Lemma take_seq_all {A} (a : list A) :
  forall pre, take (pre ++ a) (seq (length pre) (length a)) = Ok a.
Proof.
  unfold take. induction a as [| h a IH]; intro pre; [reflexivity |].
  cbn [length seq mapM]. rewrite getitem_app_here. cbn [rbind].
  replace (pre ++ h :: a) with ((pre ++ [h]) ++ a)
    by (rewrite <- app_assoc; reflexivity).
  replace (S (length pre)) with (length (pre ++ [h]))
    by (rewrite length_app; simpl; lia).
  rewrite IH. reflexivity.
Qed.

Lemma set_nth_app_here {A} (pre : list A) (x new : A) (rest : list A) :
  set_nth (pre ++ x :: rest) (length pre) new = Ok (pre ++ new :: rest).
Proof.
  induction pre as [| p pre IH]; [reflexivity |].
  cbn [app length set_nth]. rewrite IH. reflexivity.
Qed.

(** Storing the root's predictions in a fresh buffer fills level 0 of every
    row. *)
Lemma store_all_fresh (n : nat) (c0 : cell) (r0 : list cell) (vals : list Q) :
  forall pre : buffer,
    store_all (pre ++ repeat (c0 :: r0) (length vals))
              (seq (length pre) (length vals)) 0 vals n
    = Ok (pre ++ map (fun v => (Some v, Some (Qnat n)) :: r0) vals).
Proof.
  induction vals as [| v vals IH]; intro pre; [reflexivity |].
  cbn [length repeat seq store_all map]. unfold store.
  rewrite getitem_app_here. cbn [rbind set_nth].
  rewrite set_nth_app_here. cbn [rbind].
  pose proof (IH (pre ++ [(Some v, Some (Qnat n)) :: r0])) as E.
  rewrite length_app in E. cbn [length] in E. rewrite Nat.add_1_r in E.
  rewrite <- !app_assoc in E. exact E.
Qed.

Lemma deepest_fresh (c : cell) (m i : nat) :
  deepest (c :: repeat (nan, nan) m) i = 0.
Proof.
  induction i as [| i IH]; [reflexivity |].
  cbn [deepest]. unfold level. cbn [nth]. rewrite nth_repeat.
  cbn [fst isnan nan]. exact IH.
Qed.

(** X12.  A tree that did not split predicts with the polynomial of its
    root, unsmoothed: for a root without children at depth 0, [predict]
    returns the root polynomial's value on every row, whatever [k] and
    [actual_max_depth] are. *)
Theorem predict_leaf_root (s : PolyTree) (root : node) (X : matrix) :
  tree s = Some root ->
  is_leaf root ->
  depth root = 0 ->
  predict s X = Ok (map (fun x => Some (poly root x)) X).
Proof.
  intros Ht [Hl Hr] Hd. unfold predict. rewrite Ht.
  rewrite _predict_eq, Hl, Hr, Hd.
  pose proof (take_seq_all X []) as EX. cbn [app length] in EX.
  rewrite EX. cbn [rbind].
  replace (actual_max_depth s + 2) with (S (actual_max_depth s + 1)) by lia.
  cbn [repeat]. unfold get_polyfit.
  pose proof (store_all_fresh (n_samples root) (nan, nan)
                (repeat (nan, nan) (actual_max_depth s + 1))
                (map (poly root) X) []) as E.
  rewrite length_map in E. cbn [app length] in E.
  match goal with
  | |- context [store_all ?a ?i ?d ?v ?n] =>
      match type of E with
      | _ = ?rhs => replace (store_all a i d v n) with rhs
                      by (symmetry; exact E)
      end
  end.
  cbn [rbind]. f_equal. rewrite !map_map. apply map_ext. intro x.
  unfold smooth. rewrite deepest_fresh. reflexivity.
Qed.

Lemma predict_leaf_root_witness :
  predict (tree_of (leaf 1 first_coord 3 0) 4 2%Q) [[1%Q]; [7%Q]]
  = Ok (map (fun x => Some (poly (leaf 1 first_coord 3 0) x)) [[1%Q]; [7%Q]]).
Proof.
  apply (predict_leaf_root (tree_of (leaf 1 first_coord 3 0) 4 2%Q)
           (leaf 1 first_coord 3 0) [[1%Q]; [7%Q]]).
  - reflexivity.
  - split; reflexivity.
  - reflexivity.
Defined.

(* ------------------------------------------------------------------ *)
(** ** [prune]                                                         *)
(* ------------------------------------------------------------------ *)

Lemma pruned_from_refl (m : node) : pruned_from m m.
Proof.
  unfold pruned_from. repeat (split; [reflexivity |]). right.
  split; reflexivity.
Qed.

(** A node that differs from [nd] in fields that [pruned_from] ignores, and
    has the children of [nd]. *)
Lemma same_children_nodes (nd nd' : node) :
  pruned_from nd' nd ->
  left nd' = left nd -> right nd' = right nd ->
  forall m', in_tree m' nd' -> exists m, in_tree m nd /\ pruned_from m' m.
Proof.
  intros Hp Hl Hr m' Hin.
  inversion Hin as [| ? l El Hin1 | ? r Er Hin1]; subst.
  - exists nd. split; [constructor | exact Hp].
  - exists m'. split; [| apply pruned_from_refl].
    rewrite Hl in El. exact (in_tree_left _ _ _ El Hin1).
  - exists m'. split; [| apply pruned_from_refl].
    rewrite Hr in Er. exact (in_tree_right _ _ _ Er Hin1).
Qed.

(** Every node of the tree that [pruner] returns is what is left of a node
    of the tree it was given. *)
Lemma pruner_nodes (tol : Q) :
  forall nd X y nd',
    pruner tol nd X y = Ok nd' ->
    pruned_from nd' nd
    /\ forall m', in_tree m' nd' -> exists m, in_tree m nd /\ pruned_from m' m.
Proof.
  intro nd. induction nd as [nd IHl IHr] using node_children_ind.
  intros X y nd' H. rewrite pruner_eq in H.
  destruct (length X <? 1).
  { injection H as <-.
    assert (pruned_from (set_n_samples (set_test_loss nd 0%Q) 0) nd) as Hp
      by (unfold pruned_from; simpl; repeat (split; [reflexivity |]);
          right; split; reflexivity).
    split; [exact Hp |].
    apply same_children_nodes; [exact Hp | reflexivity | reflexivity]. }
  inv_rbind H as t Ht. cbv zeta in H.
  assert (pruned_from (set_test_loss nd t) nd) as Hp1
    by (unfold pruned_from; simpl; repeat (split; [reflexivity |]);
        right; split; reflexivity).
  destruct (left nd) as [l |] eqn:Hl, (right nd) as [r |] eqn:Hr;
    try (injection H as <-; split; [exact Hp1 |];
         apply same_children_nodes; [exact Hp1 | | ]; simpl; congruence).
  inv_rbind H as parts Hparts.
  destruct parts as [[Xl yl] [Xr yr]].
  inv_rbind H as l' Hl'. inv_rbind H as r' Hr'. inv_rbind H as lower Hlo.
  destruct (IHl l eq_refl Xl yl l' Hl') as [Hpl Hnl].
  destruct (IHr r eq_refl Xr yr r' Hr') as [Hpr Hnr].
  destruct (fgt (fadd lower (Some (tol * t)%Q)) (Some t));
    injection H as <-.
  - assert (pruned_from
              (set_children
                 (set_lower_loss
                    (set_children (set_test_loss nd t) (Some l') (Some r'))
                    lower) None None) nd) as Hp.
    { unfold pruned_from. simpl. repeat (split; [reflexivity |]).
      left. split; reflexivity. }
    split; [exact Hp |].
    intros m' Hin. apply in_tree_leaf in Hin; [| split; reflexivity].
    subst m'. exists nd. split; [constructor | exact Hp].
  - assert (pruned_from
              (set_lower_loss
                 (set_children (set_test_loss nd t) (Some l') (Some r'))
                 lower) nd) as Hp.
    { unfold pruned_from. simpl. repeat (split; [reflexivity |]).
      right. rewrite Hl, Hr. split; split; discriminate. }
    split; [exact Hp |].
    intros m' Hin.
    inversion Hin as [| ? l0 El Hin1 | ? r0 Er Hin1]; subst.
    + exists nd. split; [constructor | exact Hp].
    + simpl in El. injection El as <-.
      destruct (Hnl m' Hin1) as (m & Hm & Hpm).
      exists m. split; [exact (in_tree_left _ _ _ Hl Hm) | exact Hpm].
    + simpl in Er. injection Er as <-.
      destruct (Hnr m' Hin1) as (m & Hm & Hpm).
      exists m. split; [exact (in_tree_right _ _ _ Hr Hm) | exact Hpm].
Qed.

Lemma prune_nodes (s : PolyTree) (X : matrix) (y : vec) (tol : Q)
      (s' : PolyTree) :
  prune s X y tol = Ok s' ->
  exists root root',
    tree s = Some root /\ s' = set_tree s (Some root')
    /\ forall m', in_tree m' root' ->
                  exists m, in_tree m root /\ pruned_from m' m.
Proof.
  unfold prune. intro H.
  destruct (tree s) as [root |]; [| discriminate H].
  inv_rbind H as parts Hparts. destruct parts as [[Xl yl] [Xr yr]].
  inv_rbind H as l Hl. inv_rbind H as l' Hl'.
  inv_rbind H as r Hr. inv_rbind H as r' Hr'. injection H as <-.
  destruct (left root) as [l0 |] eqn:El; [| discriminate Hl].
  destruct (right root) as [r0 |] eqn:Er; [| discriminate Hr].
  injection Hl as ->. injection Hr as ->.
  destruct (pruner_nodes _ l Xl yl l' Hl') as [_ Hnl].
  destruct (pruner_nodes _ r Xr yr r' Hr') as [_ Hnr].
  exists root, (set_children root (Some l') (Some r')).
  split; [reflexivity |]. split; [reflexivity |].
  intros m' Hin.
  inversion Hin as [| ? l0 El0 Hin1 | ? r0 Er0 Hin1]; subst.
  - exists root. split; [constructor |].
    unfold pruned_from. simpl. repeat (split; [reflexivity |]).
    right. rewrite El, Er. split; split; discriminate.
  - simpl in El0. injection El0 as <-.
    destruct (Hnl m' Hin1) as (m & Hm & Hpm).
    exists m. split; [exact (in_tree_left _ _ _ El Hm) | exact Hpm].
  - simpl in Er0. injection Er0 as <-.
    destruct (Hnr m' Hin1) as (m & Hm & Hpm).
    exists m. split; [exact (in_tree_right _ _ _ Er Hm) | exact Hpm].
Qed.

(** X13.  [prune] only removes children.  Every node of the pruned tree is
    left of a node of the tree before: it has the same number, loss,
    polynomial, data, split feature, threshold and depth, and no child on a
    side where the original had none.  The other attributes of the object,
    among them [actual_max_depth] and [k], are as before. *)
Theorem prune_only_removes (s : PolyTree) (X : matrix) (y : vec) (tol : Q)
        (s' : PolyTree) :
  prune s X y tol = Ok s' ->
  exists root root',
    tree s = Some root /\ tree s' = Some root'
    /\ s' = set_tree s (Some root')
    /\ forall m', in_tree m' root' ->
                  exists m, in_tree m root /\ pruned_from m' m.
Proof.
  intro H. destruct (prune_nodes s X y tol s' H) as (root & root' & Ht & -> & Hn).
  exists root, root'. repeat split; assumption.
Qed.

Lemma prune_only_removes_witness :
  exists root root',
    tree (tree_of two_level 1 1%Q) = Some root
    /\ tree (match prune (tree_of two_level 1 1%Q)
                         [[1%Q]; [7%Q]; [20%Q]] [1%Q; 1%Q; 3%Q] 0%Q with
             | Ok s' => s'
             | Raise _ => tree_of two_level 1 1%Q
             end) = Some root'
    /\ match prune (tree_of two_level 1 1%Q)
                   [[1%Q]; [7%Q]; [20%Q]] [1%Q; 1%Q; 3%Q] 0%Q with
       | Ok s' => s'
       | Raise _ => tree_of two_level 1 1%Q
       end = set_tree (tree_of two_level 1 1%Q) (Some root')
    /\ forall m', in_tree m' root' ->
                  exists m, in_tree m root /\ pruned_from m' m.
Proof.
  apply (prune_only_removes (tree_of two_level 1 1%Q)
           [[1%Q]; [7%Q]; [20%Q]] [1%Q; 1%Q; 3%Q] 0%Q).
  vm_compute. reflexivity.
Defined.

(** X14.  Pruning keeps a tree usable: when the tree satisfies the
    conditions under which [predict] succeeds on [X], [predict] also
    succeeds on [X] after any successful [prune]. *)
Theorem predict_after_prune (s : PolyTree) (root : node) (X : matrix)
        (Xp : matrix) (yp : vec) (tol : Q) (s' : PolyTree) :
  tree s = Some root ->
  (forall nd, in_tree nd root -> depth nd <= actual_max_depth s + 1) ->
  (forall nd, in_tree nd root -> ~ is_leaf nd ->
     exists l r j t,
       left nd = Some l /\ right nd = Some r
       /\ j_feature nd = Some j /\ threshold nd = Some t
       /\ forall x, In x X -> j < length x) ->
  prune s Xp yp tol = Ok s' ->
  exists ys, predict s' X = Ok ys /\ length ys = length X.
Proof.
  intros Ht Hdep Hroute Hp.
  destruct (prune_nodes s Xp yp tol s' Hp) as (root0 & root' & Ht0 & -> & Hn).
  rewrite Ht in Ht0. injection Ht0 as <-.
  apply (predict_defined _ root'); [reflexivity | |].
  - intros m' Hin. destruct (Hn m' Hin) as (m & Hm & Hpm).
    destruct Hpm as (_ & _ & _ & _ & _ & _ & Hd & _).
    simpl. rewrite Hd. apply Hdep. exact Hm.
  - intros m' Hin Hnl. destruct (Hn m' Hin) as (m & Hm & Hpm).
    destruct Hpm as (_ & _ & _ & _ & Hj & Hth & _ & _ & [Hlf | [Hsl Hsr]]);
      [contradiction |].
    destruct (Hroute m Hm) as (l & r & j & t & El & Er & Ej & Et & Hw).
    { intros [F1 F2]. apply Hnl. split; [apply Hsl | apply Hsr]; assumption. }
    destruct (left m') as [l' |] eqn:El';
      [| destruct Hsl as [Hsl _]; specialize (Hsl eq_refl); congruence].
    destruct (right m') as [r' |] eqn:Er';
      [| destruct Hsr as [Hsr _]; specialize (Hsr eq_refl); congruence].
    exists l', r', j, t. repeat split; try congruence. exact Hw.
Qed.

Lemma two_level_depths (nd : node) :
  in_tree nd two_level -> depth nd <= 1 + 1.
Proof.
  intro Hin.
  inversion Hin as [| ? l Hl Hin1 | ? r Hr Hin1]; subst;
    [simpl; lia | injection Hl as <- | injection Hr as <-].
  - inversion Hin1 as [| ? l Hl Hin2 | ? r Hr Hin2]; subst;
      [simpl; lia | injection Hl as <- | injection Hr as <-];
      inversion Hin2; subst; simpl; try lia; discriminate.
  - inversion Hin1; subst; simpl; try lia; discriminate.
Qed.

Lemma two_level_walkable (X : matrix) (nd : node) :
  (forall x, In x X -> 0 < length x) ->
  in_tree nd two_level -> ~ is_leaf nd ->
  exists l r j t,
    left nd = Some l /\ right nd = Some r
    /\ j_feature nd = Some j /\ threshold nd = Some t
    /\ forall x, In x X -> j < length x.
Proof.
  intros Hw Hin Hnl.
  inversion Hin as [| ? l Hl Hin1 | ? r Hr Hin1]; subst;
    [do 4 eexists; repeat (split; [reflexivity |]); exact Hw
    | injection Hl as <- | injection Hr as <-].
  - inversion Hin1 as [| ? l Hl Hin2 | ? r Hr Hin2]; subst;
      [do 4 eexists; repeat (split; [reflexivity |]); exact Hw
      | injection Hl as <- | injection Hr as <-];
      inversion Hin2; subst; try discriminate;
      exfalso; apply Hnl; split; reflexivity.
  - inversion Hin1; subst; try discriminate.
    exfalso; apply Hnl; split; reflexivity.
Qed.

Lemma predict_after_prune_witness :
  exists ys,
    predict (match prune (tree_of two_level 1 1%Q)
                         [[1%Q]; [7%Q]; [20%Q]] [1%Q; 1%Q; 3%Q] 0%Q with
             | Ok s' => s'
             | Raise _ => tree_of two_level 1 1%Q
             end) [[2%Q]; [30%Q]] = Ok ys
    /\ length ys = length [[2%Q]; [30%Q]].
Proof.
  apply (predict_after_prune (tree_of two_level 1 1%Q) two_level
           [[2%Q]; [30%Q]] [[1%Q]; [7%Q]; [20%Q]] [1%Q; 1%Q; 3%Q] 0%Q).
  - reflexivity.
  - exact two_level_depths.
  - intros nd. apply two_level_walkable.
    intros x Hx. simpl in Hx.
    repeat (destruct Hx as [<- | Hx]; [simpl; lia |]). destruct Hx.
  - vm_compute. reflexivity.
Defined.

(* ------------------------------------------------------------------ *)
(** ** The tree that [fit] grows                                       *)
(* ------------------------------------------------------------------ *)

Lemma grows_refl (w : world) : grows w w.
Proof. split; apply le_n. Qed.

Lemma grows_trans (w1 w2 w3 : world) :
  grows w1 w2 -> grows w2 w3 -> grows w1 w3.
Proof. intros [] []. split; etransitivity; eassumption. Qed.

Lemma advances_ret {A} (a : A) : advances (ret a).
Proof. intros w b w' H. apply ret_Ok in H as [_ ->]. apply grows_refl. Qed.

Lemma advances_raise {A} (e : exn) : advances (@raise A e).
Proof. intros w b w' H. discriminate H. Qed.

Lemma advances_lift {A} (r : result A) : advances (lift r).
Proof. intros w b w' H. apply lift_Ok in H as [_ ->]. apply grows_refl. Qed.

Lemma advances_get_self : advances get_self.
Proof. intros w b w' H. apply get_self_Ok in H as [_ ->]. apply grows_refl. Qed.

Lemma advances_get_index : advances get_index.
Proof. intros w b w' H. injection H as <- <-. apply grows_refl. Qed.

Lemma advances_tick : advances tick.
Proof. intros w b w' H. injection H as <- <-. split; simpl; lia. Qed.

Lemma advances_bind {A B} (m : M A) (f : A -> M B) :
  advances m -> (forall a, advances (f a)) -> advances (bind m f).
Proof.
  intros Hm Hf w b w' H. inv_bind H as a w1 Ha.
  eapply grows_trans; [eapply Hm | eapply Hf]; eassumption.
Qed.

Lemma advances_foldM {A B} (f : A -> B -> M A) (l : list B) :
  (forall a b, advances (f a b)) -> forall a, advances (foldM f l a).
Proof.
  intro Hf. induction l as [| b l IH]; intro a; simpl.
  - apply advances_ret.
  - apply advances_bind; [apply Hf | intro a'; apply IH].
Qed.

Lemma advances_split_dims (d : nat) :
  advances (modify_self (default_split_dims d)).
Proof.
  intros w b w' H. injection H as <- <-. unfold default_split_dims.
  destruct (split_dims (self w)); split; simpl; lia.
Qed.

Lemma advances_record_depth (b : bool) (depth : nat) :
  advances (modify_self (record_depth b depth)).
Proof.
  intros w u w' H. injection H as <- <-. unfold record_depth.
  destruct (actual_max_depth (self w) <? depth) eqn:Hlt.
  - apply Nat.ltb_lt in Hlt. destruct b; split; simpl; lia.
  - destruct b; split; simpl; lia.
Qed.

Create HintDb adv discriminated.

#[export] Hint Resolve advances_ret advances_raise advances_lift
  advances_get_self advances_get_index advances_tick
  advances_split_dims advances_record_depth : adv.

Ltac adv :=
  repeat first
    [ solve [auto with adv nocore]
    | apply advances_bind; [| intro ]
    | apply advances_foldM; intros
    | progress cbv zeta
    | match goal with
      | |- advances (if ?b then _ else _) => destruct b
      | |- advances (match ?x with _ => _ end) => destruct x
      end ].

Section FitTree.
Context {E : External}.

Lemma advances_call_solver (X : matrix) (y : vec) :
  advances (call_solver X y).
Proof.
  intros w p w' H. unfold call_solver in H.
  destruct (Poly_set_model X y); [| discriminate H].
  injection H as <- <-. split; apply le_n.
Qed.
Hint Resolve advances_call_solver : adv.

Lemma advances_fit_poly (X : matrix) (y : vec) : advances (_fit_poly X y).
Proof. unfold _fit_poly. adv. Qed.
Hint Resolve advances_fit_poly : adv.

Lemma advances_try_threshold s X y N j acc t :
  advances (try_threshold s X y N j acc t).
Proof. unfold try_threshold. adv. Qed.
Hint Resolve advances_try_threshold : adv.

Lemma advances_search_feature s X y N acc j :
  advances (search_feature s X y N acc j).
Proof. unfold search_feature. adv. Qed.
Hint Resolve advances_search_feature : adv.

Lemma advances_splitter (nd : node) : advances (_splitter nd).
Proof.
  unfold _splitter, initial_loss, split_search, fit_children. adv.
Qed.
Hint Resolve advances_splitter : adv.

Lemma advances_create_node X y d : advances (_create_node X y d).
Proof. unfold _create_node. adv. Qed.
Hint Resolve advances_create_node : adv.

Lemma advances_split_traverse_node (fuel : nat) :
  forall nd, advances (_split_traverse_node fuel nd).
Proof.
  induction fuel as [| fuel IH]; intro nd; simpl; adv.
Qed.

(** A split is recorded: after [_splitter] reports one, the recorded depth
    is at least the depth of the node. *)
Lemma splitter_records_depth nd w res w' :
  _splitter nd w = Ok (res, w') ->
  Result.did_split res = true ->
  depth nd <= actual_max_depth (self w').
Proof.
  intros H Hd.
  destruct (splitter_phases nd w res w' H)
    as (X & y & w1 & lb & w2 & b1 & w3 & _ & _ & _ & _ & _ & ->).
  rewrite Hd. cbn [self]. unfold record_depth. cbn [andb].
  destruct (actual_max_depth (self w3) <? depth nd) eqn:Hlt.
  - simpl. apply le_n.
  - apply Nat.ltb_ge in Hlt. exact Hlt.
Qed.

Lemma create_node_nonempty X y d w nd w' :
  _create_node X y d w = Ok (nd, w') -> X <> [].
Proof.
  unfold _create_node, _fit_poly. intro H.
  inv_bind H as f w1 Hf. inv_bind Hf as u w0 Hu.
  intros ->. simpl in Hu. discriminate Hu.
Qed.

Lemma take_In {A} (a : list A) (idx : list nat) (r : list A) (x : A) :
  take a idx = Ok r -> In x r -> In x a.
Proof.
  unfold take. revert r. induction idx as [| i idx IH]; intros r H Hx;
    simpl in H.
  - injection H as <-. destruct Hx.
  - inv_rbind H as v Hv. inv_rbind H as r' Hr'. injection H as <-.
    destruct Hx as [<- | Hx]; [| exact (IH r' Hr' Hx)].
    unfold getitem in Hv. destruct (nth_error a i) eqn:Hn; [| discriminate Hv].
    injection Hv as <-. eapply nth_error_In. exact Hn.
Qed.

Lemma split_data_rows j t X y Xl yl Xr yr :
  _split_data (Some j) (Some t) X y = Ok ((Xl, yl), (Xr, yr)) ->
  (forall x, In x Xl -> In x X) /\ (forall x, In x Xr -> In x X)
  /\ (forall x, In x X -> j < length x)
  /\ length Xl + length Xr = length X.
Proof.
  intro H.
  destruct (split_data_sizes _ _ _ _ _ _ _ _ H) as (c0 & _ & _ & _ & Hsum).
  apply split_data_Ok_inv in H as (c & Hc & HXl & _ & HXr & _).
  apply column_Ok_map in Hc as [_ Hj].
  repeat split; try assumption.
  - intros x Hx. exact (take_In _ _ _ _ HXl Hx).
  - intros x Hx. exact (take_In _ _ _ _ HXr Hx).
Qed.

(** Every node of the tree that [_split_traverse_node] returns has the
    shape [grown], when the traversal starts at a fresh leaf. *)
Lemma traverse_grown (all : bool) (md msl : nat) (Xtrain : matrix)
      (fuel : nat) :
  forall nd w nd' w' X y,
    _split_traverse_node fuel nd w = Ok (nd', w') ->
    all_data (self w) = all -> max_depth (self w) = md ->
    min_samples_leaf (self w) = Some msl ->
    left nd = None -> right nd = None ->
    j_feature nd = None -> threshold nd = None ->
    data nd = Some (X, y) -> n_samples nd = length X -> X <> [] ->
    (forall x, In x X -> In x Xtrain) ->
    depth nd <= md -> depth nd <= actual_max_depth (self w) + 1 ->
    forall amd, actual_max_depth (self w') <= amd ->
    forall m, in_tree m nd' -> grown all md amd msl Xtrain m.
Proof.
  induction fuel as [| fuel IH];
    intros nd w nd' w' X y H Hall Hmd Hmsl Hl Hr Hj Ht Hdat Hn HX Hrows
           Hdep Hamd amd Hamd' m Hin;
    destruct (split_traverse_node_step _ _ _ _ _ H)
      as (res & w1 & Hs
          & [(Hd & -> & ->)
            | (Hd & fuel' & Xl & yl & Xr & yr & pl & pr & l & w2 & r & w3
               & l' & w4 & r' & Hfuel & Hrdata & Hpolys & Hcl & Hcr & Htl
               & Htr & ->)]);
    try discriminate Hfuel;
    pose proof (advances_splitter nd w res w1 Hs) as [_ G1].
  1, 2: apply in_tree_leaf in Hin; [| split; assumption]; subst m;
    (split; [exact Hdep |]); (split; [lia |]);
    (split; [intros _; split; [exact Hj |]; split; [exact Ht |];
             exists X, y; repeat split; assumption
            | intros F; exfalso; apply F; split; assumption]).
  injection Hfuel as <-.
  pose proof (preserves_splitter nd w res w1 Hs) as E1.
  destruct (splitter_reports nd w res w1 Hs Hd)
    as (X0 & y0 & msl0 & j & t & Xl0 & yl0 & Xr0 & yr0 & Hdat0 & Hmsl0
        & (Hrj & Hrt & Hrd & Hsd) & H2msl & _).
  rewrite Hdat in Hdat0. injection Hdat0 as <- <-.
  rewrite Hmsl in Hmsl0. injection Hmsl0 as <-.
  rewrite Hrdata in Hrd. injection Hrd as <- <- <- <-.
  destruct (split_data_rows _ _ _ _ _ _ _ _ Hsd) as (HrowsL & HrowsR & Hjw & Hsum).
  pose proof (splitter_depth nd w res w1 Hs Hd) as Hlt.
  pose proof (splitter_records_depth nd w res w1 Hs Hd) as Hrec.
  pose proof (create_node_nonempty _ _ _ _ _ _ Hcl) as HXl.
  pose proof (create_node_nonempty _ _ _ _ _ _ Hcr) as HXr.
  destruct (create_node_Ok _ _ _ _ _ _ Hcl) as (ml & ppl & _ & _ & -> & ->).
  destruct (create_node_Ok _ _ _ _ _ _ Hcr) as (mr & ppr & _ & _ & -> & ->).
  cbn [self index_node_global] in *.
  match type of Htl with
  | _split_traverse_node _ ?l1 ?w3 = _ =>
      pose proof (preserves_split_traverse_node fuel l1 w3 l' w4 Htl) as E4;
      pose proof (advances_split_traverse_node fuel l1 w3 l' w4 Htl)
        as [_ G4];
      destruct (split_traverse_node_keeps _ _ _ _ _ Htl)
        as (_ & _ & _ & Hnl & Hdl)
  end.
  match type of Htr with
  | _split_traverse_node _ ?r1 ?w4 = _ =>
      pose proof (preserves_split_traverse_node fuel r1 w4 r' w' Htr) as E5;
      pose proof (advances_split_traverse_node fuel r1 w4 r' w' Htr)
        as [_ G5];
      destruct (split_traverse_node_keeps _ _ _ _ _ Htr)
        as (_ & _ & _ & Hnr & Hdr)
  end.
  cbn [self index_node_global set_poly n_samples depth] in *.
  destruct E1 as [_ E1md E1msl _ _ E1all _ _ _ _].
  destruct E4 as [_ E4md E4msl _ _ E4all _ _ _ _].
  cbn [self] in *.
  inversion Hin as [| ? l0 El Hin1 | ? r0 Er Hin1]; try subst m.
  - (* the node itself *)
    unfold grown.
    assert (forall b : bool,
               depth (set_children
                        (if b then del_data (set_split nd (Result.j_feature res)
                                                       (Result.threshold res))
                         else set_split nd (Result.j_feature res)
                                        (Result.threshold res))
                        (Some l') (Some r')) = depth nd) as Ed
      by (intros []; reflexivity).
    rewrite Ed. split; [exact Hdep |]. split; [lia |].
    split; [intros [F _]; discriminate F |]. intros _.
    exists l', r', j, t.
    split; [reflexivity |]. split; [reflexivity |].
    split; [destruct (negb (all_data (self w1))); exact Hrj |].
    split; [destruct (negb (all_data (self w1))); exact Hrt |].
    split; [lia |]. split; [lia |].
    split; [rewrite Hdl; reflexivity |]. split; [rewrite Hdr; reflexivity |].
    assert (forall b : bool,
               n_samples (set_children
                        (if b then del_data (set_split nd (Result.j_feature res)
                                                       (Result.threshold res))
                         else set_split nd (Result.j_feature res)
                                        (Result.threshold res))
                        (Some l') (Some r')) = n_samples nd) as En
      by (intros []; reflexivity).
    rewrite En, Hnl, Hnr, Hn. split; [exact Hsum |].
    split; [exact H2msl |].
    split; [split; [destruct Xl; [congruence | simpl; lia]
                   | destruct Xr; [congruence | simpl; lia]] |].
    rewrite E1all, Hall.
    split; [intros ->; reflexivity |].
    split; [intros ->; exists X, y; split; [exact Hdat | reflexivity] |].
    destruct X as [| x X]; [congruence |].
    exists x. split; [apply Hrows; left; reflexivity
                     | apply Hjw; left; reflexivity].
  - (* the left subtree *)
    cbn [left set_children] in El. injection El as <-.
    match type of Htl with
    | _split_traverse_node _ ?l1 ?w3 = _ =>
        apply (IH l1 w3 l' w4 Xl yl Htl)
    end; cbn [self left right j_feature threshold data n_samples depth
              set_poly]; try reflexivity; try congruence; try lia;
      try assumption.
    + intros x Hx. apply Hrows, HrowsL. exact Hx.
  - (* the right subtree *)
    cbn [right set_children] in Er. injection Er as <-.
    match type of Htr with
    | _split_traverse_node _ ?r1 ?w4 = _ =>
        apply (IH r1 w4 r' w' Xr yr Htr)
    end; cbn [self left right j_feature threshold data n_samples depth
              set_poly]; try reflexivity; try congruence; try lia;
      try assumption.
    + intros x Hx. apply Hrows, HrowsR. exact Hx.
Qed.


(** The numbers of the nodes below a traversed leaf are taken from the
    counter during the traversal, each once. *)
Lemma traverse_indices (fuel : nat) :
  forall nd w nd' w',
    _split_traverse_node fuel nd w = Ok (nd', w') ->
    left nd = None -> right nd = None ->
    index nd <= index_node_global w ->
    index_node_global w <= index_node_global w'
    /\ NoDup (indices nd')
    /\ forall i, In i (indices nd') ->
         i = index nd \/ index_node_global w < i <= index_node_global w'.
Proof.
  induction fuel as [| fuel IH]; intros nd w nd' w' H Hl Hr Hi;
    destruct (split_traverse_node_step _ _ _ _ _ H)
      as (res & w1 & Hs
          & [(Hd & -> & ->)
            | (Hd & fuel' & Xl & yl & Xr & yr & pl & pr & l & w2 & r & w3
               & l' & w4 & r' & Hfuel & Hrdata & Hpolys & Hcl & Hcr & Htl
               & Htr & ->)]);
    try discriminate Hfuel;
    pose proof (advances_splitter nd w res w1 Hs) as [G1 _].
  1, 2: rewrite indices_eq, Hl, Hr; cbn [app];
    (split; [exact G1 |]);
    (split; [constructor; [intros [] | constructor] |]);
    intros i [<- | []]; left; reflexivity.
  injection Hfuel as <-.
  destruct (create_node_Ok _ _ _ _ _ _ Hcl) as (ml & ppl & _ & _ & -> & ->).
  destruct (create_node_Ok _ _ _ _ _ _ Hcr) as (mr & ppr & _ & _ & -> & ->).
  cbn [self index_node_global] in *.
  destruct (IH _ _ _ _ Htl eq_refl eq_refl) as (G4 & NDl & Rl);
    [cbn [index set_poly index_node_global]; lia |].
  cbn [index set_poly index_node_global] in G4, Rl.
  destruct (IH _ _ _ _ Htr eq_refl eq_refl) as (G5 & NDr & Rr);
    [cbn [index set_poly index_node_global]; lia |].
  cbn [index set_poly index_node_global] in G5, Rr.
  assert (indices
            (set_children
               (if negb (all_data (self w1))
                then del_data (set_split nd (Result.j_feature res)
                                         (Result.threshold res))
                else set_split nd (Result.j_feature res)
                               (Result.threshold res))
               (Some l') (Some r'))
          = index nd :: indices l' ++ indices r') as ->.
  { rewrite indices_eq. destruct (negb (all_data (self w1))); reflexivity. }
  split; [lia |]. split.
  - constructor.
    + intro F. apply in_app_or in F as [F | F];
        [apply Rl in F | apply Rr in F]; lia.
    + apply NoDup_app; [exact NDl | exact NDr |].
      intros a Ha Hb. apply Rl in Ha. apply Rr in Hb. lia.
  - intros i [<- | Hin]; [left; reflexivity |]. right.
    apply in_app_or in Hin as [F | F];
      [apply Rl in F | apply Rr in F]; lia.
Qed.

(** The steps of [fit]: the root is created as node 1 on the whole data,
    then traversed. *)
Lemma fit_inv (s : PolyTree) (X : matrix) (y : vec) (s' : PolyTree) :
  fit s X y = Ok s' ->
  exists msl m p wr root w,
    _split_traverse_node (max_depth s)
      (mk_node 1 m p (Some (X, y)) (length X) None None None None 0 false
               None None) wr = Ok (root, w)
    /\ s' = set_tree (self w) (Some root)
    /\ self wr
       = set_fit_params s (get_cardinality (basis s) (order s)
                                           (length (hd [] X)))
                        msl (k s * Qnat msl)%Q
    /\ index_node_global wr = 2
    /\ X <> [].
Proof.
  unfold fit. cbn [shape].
  match goal with
  | |- context [_build_tree X y ?w0] =>
      destruct (_build_tree X y w0) as [[root w] |] eqn:Hb
  end; [| discriminate].
  intro H. injection H as <-.
  unfold _build_tree in Hb.
  inv_bind Hb as u w0 Hu. injection Hu as <- <-.
  inv_bind Hb as r0 wr Hc. inv_bind Hb as s1 w1 Hg.
  apply get_self_Ok in Hg as [-> ->].
  pose proof (create_node_nonempty _ _ _ _ _ _ Hc) as HX.
  destruct (create_node_Ok _ _ _ _ _ _ Hc) as (m & p & _ & _ & -> & ->).
  cbn [self index_node_global max_depth set_fit_params] in Hb.
  eexists _, m, p, _, root, w.
  split; [exact Hb |]. split; [reflexivity |].
  split; [reflexivity |]. split; [reflexivity | exact HX].
Qed.

(** The tree of a fitted object. *)
Lemma fit_grown (s : PolyTree) (X : matrix) (y : vec) (s' : PolyTree) :
  fit s X y = Ok s' ->
  exists root msl,
    tree s' = Some root
    /\ min_samples_leaf s' = Some msl
    /\ max_depth s' = max_depth s /\ all_data s' = all_data s
    /\ actual_max_depth s <= actual_max_depth s'
    /\ depth root = 0 /\ n_samples root = length X /\ index root = 1
    /\ NoDup (indices root)
    /\ forall nd, in_tree nd root ->
         grown (all_data s) (max_depth s) (actual_max_depth s') msl X nd.
Proof.
  intro H.
  destruct (fit_inv s X y s' H)
    as (msl & m & p & wr & root & w & Ht & -> & Hself & Hidx & HX).
  pose proof (preserves_split_traverse_node _ _ _ _ _ Ht) as Ew.
  pose proof (advances_split_traverse_node _ _ _ _ _ Ht) as [_ Gw].
  destruct (split_traverse_node_keeps _ _ _ _ _ Ht)
    as (Hi & _ & _ & Hn & Hd).
  destruct (traverse_indices _ _ _ _ _ Ht eq_refl eq_refl)
    as (_ & ND & _); [cbn [index]; lia |].
  destruct Ew as [_ Emd Emsl _ _ Eall _ _ _ _].
  rewrite Hself in Emd, Emsl, Eall, Gw.
  cbn [max_depth min_samples_leaf all_data actual_max_depth set_fit_params]
    in Emd, Emsl, Eall, Gw.
  exists root, msl. cbn [tree set_tree min_samples_leaf max_depth all_data
                        actual_max_depth].
  split; [reflexivity |]. split; [exact Emsl |]. split; [exact Emd |].
  split; [exact Eall |]. split; [exact Gw |].
  split; [exact Hd |]. split; [exact Hn |]. split; [exact Hi |].
  split; [exact ND |].
  intros nd Hin.
  apply (traverse_grown (all_data s) (max_depth s) msl X (max_depth s)
           _ wr root w X y Ht); cbn [left right j_feature threshold data
                                     n_samples depth];
    try reflexivity; try (rewrite Hself; reflexivity); try assumption;
    try lia; auto.
Qed.

End FitTree.

Section FitProperties.
Context {E : External}.

(** X15.  The tree that [fit] stores is a full binary tree whose split
    fields match its shape: every node either has no children, no split
    feature and no threshold, or has both children, a split feature and a
    threshold. *)
Theorem fit_tree_structure (s : PolyTree) (X : matrix) (y : vec)
        (s' : PolyTree) :
  fit s X y = Ok s' ->
  exists root,
    tree s' = Some root
    /\ forall nd, in_tree nd root ->
         (is_leaf nd /\ j_feature nd = None /\ threshold nd = None)
         \/ (exists l r j t,
               left nd = Some l /\ right nd = Some r
               /\ j_feature nd = Some j /\ threshold nd = Some t).
Proof.
  intro H. destruct (fit_grown s X y s' H) as (root & msl & Ht & _ & _ & _
    & _ & _ & _ & _ & _ & Hg).
  exists root. split; [exact Ht |]. intros nd Hin.
  destruct (Hg nd Hin) as (_ & _ & Hleaf & Hsplit).
  destruct (left nd) as [l |] eqn:Hl.
  - right. destruct Hsplit as (l0 & r & j & t & El & Er & Ej & Et & _);
      [intros [F _]; congruence |].
    exists l0, r, j, t. repeat split; assumption.
  - destruct (right nd) as [r |] eqn:Hr.
    + right. destruct Hsplit as (l0 & r0 & j & t & El & Er & Ej & Et & _);
        [intros [_ F]; congruence |].
      exists l0, r0, j, t. repeat split; assumption.
    + left. destruct Hleaf as (Hj & Hth & _); [split; assumption |].
      repeat split; assumption.
Qed.

(** X16.  Depths in a fitted tree: the root has depth 0, a child lies one
    level below its parent, no node lies deeper than [max_depth], and a
    node that was split lies above [max_depth]. *)
Theorem fit_depths (s : PolyTree) (X : matrix) (y : vec) (s' : PolyTree) :
  fit s X y = Ok s' ->
  exists root,
    tree s' = Some root
    /\ depth root = 0
    /\ forall nd, in_tree nd root ->
         depth nd <= max_depth s
         /\ forall c, left nd = Some c \/ right nd = Some c ->
                      depth c = depth nd + 1 /\ depth nd < max_depth s.
Proof.
  intro H. destruct (fit_grown s X y s' H) as (root & msl & Ht & _ & _ & _
    & _ & Hd & _ & _ & _ & Hg).
  exists root. split; [exact Ht |]. split; [exact Hd |]. intros nd Hin.
  destruct (Hg nd Hin) as (Hmd & _ & _ & Hsplit).
  split; [exact Hmd |]. intros c Hc.
  destruct Hsplit as (l & r & j & t & El & Er & _ & _ & Hlt & _ & Hdl & Hdr
                      & _); [intros [F1 F2]; destruct Hc; congruence |].
  destruct Hc as [Hc | Hc]; split; try exact Hlt; congruence.
Qed.

(** X17.  Sample counts in a fitted tree: the root counts the training
    rows, and the counts of the two children of a node add up to the count
    of the node. *)
Theorem fit_sample_counts (s : PolyTree) (X : matrix) (y : vec)
        (s' : PolyTree) :
  fit s X y = Ok s' ->
  exists root,
    tree s' = Some root
    /\ n_samples root = length X
    /\ forall nd l r,
         in_tree nd root -> left nd = Some l -> right nd = Some r ->
         n_samples l + n_samples r = n_samples nd.
Proof.
  intro H. destruct (fit_grown s X y s' H) as (root & msl & Ht & _ & _ & _
    & _ & _ & Hn & _ & _ & Hg).
  exists root. split; [exact Ht |]. split; [exact Hn |].
  intros nd l r Hin Hl Hr.
  destruct (Hg nd Hin) as (_ & _ & _ & Hsplit).
  destruct Hsplit as (l0 & r0 & j & t & El & Er & _ & _ & _ & _ & _ & _
                      & Hsum & _); [intros [F _]; congruence |].
  congruence.
Qed.

(** X18.  The data a fitted tree keeps: a leaf holds its part of the
    training data, which is not empty, consists of training rows and has
    [n_samples] rows; a node that was split has its data deleted, unless
    the object was built with [all_data], in which case it keeps it. *)
Theorem fit_node_data (s : PolyTree) (X : matrix) (y : vec)
        (s' : PolyTree) :
  fit s X y = Ok s' ->
  exists root,
    tree s' = Some root
    /\ forall nd, in_tree nd root ->
         (is_leaf nd ->
          exists Xn yn,
            data nd = Some (Xn, yn) /\ n_samples nd = length Xn
            /\ Xn <> [] /\ forall x, In x Xn -> In x X)
         /\ (~ is_leaf nd ->
             if all_data s
             then exists Xn yn,
                    data nd = Some (Xn, yn) /\ n_samples nd = length Xn
             else data nd = None).
Proof.
  intro H. destruct (fit_grown s X y s' H) as (root & msl & Ht & _ & _ & _
    & _ & _ & _ & _ & _ & Hg).
  exists root. split; [exact Ht |]. intros nd Hin.
  destruct (Hg nd Hin) as (_ & _ & Hleaf & Hsplit).
  split.
  - intro Hlf. destruct (Hleaf Hlf) as (_ & _ & Hdat). exact Hdat.
  - intro Hnl.
    destruct (Hsplit Hnl) as (l & r & j & t & _ & _ & _ & _ & _ & _ & _ & _
                              & _ & _ & _ & Hnone & Hsome & _).
    destruct (all_data s); [apply Hsome | apply Hnone]; reflexivity.
Qed.

(** X19.  A node is split only when it holds at least twice the minimum
    leaf size that [fit] settled on; in particular fewer training rows than
    that give a tree that is a single leaf. *)
Theorem fit_split_needs_two_leaves (s : PolyTree) (X : matrix) (y : vec)
        (s' : PolyTree) :
  fit s X y = Ok s' ->
  exists root msl,
    tree s' = Some root /\ min_samples_leaf s' = Some msl
    /\ (forall nd, in_tree nd root -> ~ is_leaf nd ->
                   2 * msl <= n_samples nd)
    /\ (length X < 2 * msl -> is_leaf root).
Proof.
  intro H. destruct (fit_grown s X y s' H) as (root & msl & Ht & Hmsl & _
    & _ & _ & _ & Hn & _ & _ & Hg).
  exists root, msl. split; [exact Ht |]. split; [exact Hmsl |].
  assert (forall nd, in_tree nd root -> ~ is_leaf nd ->
                     2 * msl <= n_samples nd) as Hall.
  { intros nd Hin Hnl. destruct (Hg nd Hin) as (_ & _ & _ & Hsplit).
    destruct (Hsplit Hnl) as (l & r & j & t & _ & _ & _ & _ & _ & _ & _ & _
                              & _ & H2msl & _).
    exact H2msl. }
  split; [exact Hall |]. intro Hlt.
  destruct (left root) as [l |] eqn:Hl.
  - exfalso. specialize (Hall root (in_tree_here root)).
    rewrite Hn in Hall. assert (~ is_leaf root) as F
      by (intros [F _]; congruence).
    specialize (Hall F). lia.
  - destruct (right root) as [r |] eqn:Hr; [| split; assumption].
    exfalso. specialize (Hall root (in_tree_here root)).
    rewrite Hn in Hall. assert (~ is_leaf root) as F
      by (intros [_ F]; congruence).
    specialize (Hall F). lia.
Qed.

(** X20.  Node numbers of a fitted tree: the root is node 1 and no two
    nodes carry the same number. *)
Theorem fit_indices_unique (s : PolyTree) (X : matrix) (y : vec)
        (s' : PolyTree) :
  fit s X y = Ok s' ->
  exists root,
    tree s' = Some root /\ index root = 1 /\ NoDup (indices root).
Proof.
  intro H. destruct (fit_grown s X y s' H) as (root & msl & Ht & _ & _ & _
    & _ & _ & _ & Hi & ND & _).
  exists root. repeat split; assumption.
Qed.

(** X21.  The recorded depth covers the tree: after [fit], every node that
    was split lies at depth [actual_max_depth] at most and every node at
    depth [actual_max_depth + 1] at most; [fit] never lowers
    [actual_max_depth] (it also keeps the value of an earlier fit). *)
Theorem fit_records_depth (s : PolyTree) (X : matrix) (y : vec)
        (s' : PolyTree) :
  fit s X y = Ok s' ->
  exists root,
    tree s' = Some root
    /\ actual_max_depth s <= actual_max_depth s'
    /\ forall nd, in_tree nd root ->
         depth nd <= actual_max_depth s' + 1
         /\ (~ is_leaf nd -> depth nd <= actual_max_depth s').
Proof.
  intro H. destruct (fit_grown s X y s' H) as (root & msl & Ht & _ & _ & _
    & Hamd & _ & _ & _ & _ & Hg).
  exists root. split; [exact Ht |]. split; [exact Hamd |]. intros nd Hin.
  destruct (Hg nd Hin) as (_ & Hd & _ & Hsplit).
  split; [exact Hd |]. intro Hnl.
  destruct (Hsplit Hnl) as (l & r & j & t & _ & _ & _ & _ & _ & Hle & _).
  exact Hle.
Qed.

(** X22.  After a successful [fit] on inputs of width [d], [predict]
    succeeds on every input of width [d], with one prediction per row. *)
Theorem predict_after_fit (s : PolyTree) (X : matrix) (y : vec)
        (s' : PolyTree) (d : nat) (X' : matrix) :
  fit s X y = Ok s' ->
  (forall x, In x X -> length x = d) ->
  (forall x, In x X' -> length x = d) ->
  exists ys, predict s' X' = Ok ys /\ length ys = length X'.
Proof.
  intros H Hw Hw'. destruct (fit_grown s X y s' H) as (root & msl & Ht & _
    & _ & _ & _ & _ & _ & _ & _ & Hg).
  apply (predict_defined s' root X' Ht).
  - intros nd Hin. destruct (Hg nd Hin) as (_ & Hd & _). exact Hd.
  - intros nd Hin Hnl. destruct (Hg nd Hin) as (_ & _ & _ & Hsplit).
    destruct (Hsplit Hnl) as (l & r & j & t & El & Er & Ej & Et & _ & _ & _
                              & _ & _ & _ & _ & _ & _ & x & Hx & Hj).
    exists l, r, j, t. repeat split; try assumption.
    intros x' Hx'. rewrite (Hw' x' Hx'), <- (Hw x Hx). exact Hj.
Qed.

(** X23.  With [all_data] off (the default), [get_paths] without an input
    fails on a fitted tree whose root was split: the training data it
    wants to read from the root has been deleted ([KeyError]). *)
Theorem get_paths_default_KeyError (s : PolyTree) (X : matrix) (y : vec)
        (s' : PolyTree) (root : node) :
  fit s X y = Ok s' ->
  all_data s = false ->
  tree s' = Some root ->
  ~ is_leaf root ->
  get_paths s' None = Raise KeyError.
Proof.
  intros H Hall Ht Hnl. destruct (fit_grown s X y s' H) as (root0 & msl
    & Ht0 & _ & _ & _ & _ & _ & _ & _ & _ & Hg).
  rewrite Ht in Ht0. injection Ht0 as <-.
  destruct (Hg root (in_tree_here root)) as (_ & _ & _ & Hsplit).
  destruct (Hsplit Hnl) as (l & r & j & t & _ & _ & _ & _ & _ & _ & _ & _
                            & _ & _ & _ & Hnone & _).
  unfold get_paths. rewrite Ht. cbn [some_node rbind].
  rewrite (Hnone Hall). reflexivity.
Qed.

(** X24.  [fit] never returns normally on an object whose splitting
    criterion is none of the three known ones (the constructor accepts any
    string). *)
Theorem fit_invalid_criterion (s : PolyTree) (X : matrix) (y : vec)
        (s' : PolyTree) :
  splitting_criterion s <> "model_aware"%string ->
  splitting_criterion s <> "model_agnostic"%string ->
  splitting_criterion s <> "loss_gradient"%string ->
  fit s X y <> Ok s'.
Proof.
  intros H1 H2 H3 H.
  destruct (fit_inv s X y s' H)
    as (msl & m & p & wr & root & w & Ht & _ & Hself & _ & _).
  destruct (split_traverse_node_step _ _ _ _ _ Ht) as (res & w1 & Hs & _).
  destruct (splitter_phases _ _ _ _ Hs)
    as (X0 & y0 & w0 & lb & w2 & b1 & w3 & _ & -> & Hil & _).
  cbn [self] in Hil. unfold initial_loss in Hil.
  assert (splitting_criterion
            (default_split_dims (length (hd [] X0)) (self wr))
          = splitting_criterion s) as Ec.
  { unfold default_split_dims. rewrite Hself.
    destruct (split_dims _); reflexivity. }
  rewrite Ec in Hil.
  apply String.eqb_neq in H1, H2, H3. rewrite H1, H2, H3 in Hil.
  discriminate Hil.
Qed.

End FitProperties.

Lemma fit_unfitted : fit unfitted X6 y6 = Ok fitted_once.
Proof. vm_compute. reflexivity. Qed.

Lemma fit_tree_structure_witness :
  exists root,
    tree fitted_once = Some root
    /\ forall nd, in_tree nd root ->
         (is_leaf nd /\ j_feature nd = None /\ threshold nd = None)
         \/ (exists l r j t,
               left nd = Some l /\ right nd = Some r
               /\ j_feature nd = Some j /\ threshold nd = Some t).
Proof.
  apply (fit_tree_structure unfitted X6 y6 fitted_once). exact fit_unfitted.
Defined.

Lemma fit_depths_witness :
  exists root,
    tree fitted_once = Some root
    /\ depth root = 0
    /\ forall nd, in_tree nd root ->
         depth nd <= max_depth unfitted
         /\ forall c, left nd = Some c \/ right nd = Some c ->
                      depth c = depth nd + 1 /\ depth nd < max_depth unfitted.
Proof.
  apply (fit_depths unfitted X6 y6 fitted_once). exact fit_unfitted.
Defined.

Lemma fit_sample_counts_witness :
  exists root,
    tree fitted_once = Some root
    /\ n_samples root = length X6
    /\ forall nd l r,
         in_tree nd root -> left nd = Some l -> right nd = Some r ->
         n_samples l + n_samples r = n_samples nd.
Proof.
  apply (fit_sample_counts unfitted X6 y6 fitted_once). exact fit_unfitted.
Defined.

Lemma fit_node_data_witness :
  exists root,
    tree fitted_once = Some root
    /\ forall nd, in_tree nd root ->
         (is_leaf nd ->
          exists Xn yn,
            data nd = Some (Xn, yn) /\ n_samples nd = length Xn
            /\ Xn <> [] /\ forall x, In x Xn -> In x X6)
         /\ (~ is_leaf nd ->
             if all_data unfitted
             then exists Xn yn,
                    data nd = Some (Xn, yn) /\ n_samples nd = length Xn
             else data nd = None).
Proof.
  apply (fit_node_data unfitted X6 y6 fitted_once). exact fit_unfitted.
Defined.

Lemma fit_split_needs_two_leaves_witness :
  exists root msl,
    tree fitted_once = Some root /\ min_samples_leaf fitted_once = Some msl
    /\ (forall nd, in_tree nd root -> ~ is_leaf nd ->
                   2 * msl <= n_samples nd)
    /\ (length X6 < 2 * msl -> is_leaf root).
Proof.
  apply (fit_split_needs_two_leaves unfitted X6 y6 fitted_once).
  exact fit_unfitted.
Defined.

Lemma fit_indices_unique_witness :
  exists root,
    tree fitted_once = Some root /\ index root = 1 /\ NoDup (indices root).
Proof.
  apply (fit_indices_unique unfitted X6 y6 fitted_once). exact fit_unfitted.
Defined.

Lemma fit_records_depth_witness :
  exists root,
    tree fitted_once = Some root
    /\ actual_max_depth unfitted <= actual_max_depth fitted_once
    /\ forall nd, in_tree nd root ->
         depth nd <= actual_max_depth fitted_once + 1
         /\ (~ is_leaf nd -> depth nd <= actual_max_depth fitted_once).
Proof.
  apply (fit_records_depth unfitted X6 y6 fitted_once). exact fit_unfitted.
Defined.

Lemma predict_after_fit_witness :
  exists ys,
    predict fitted_once [[2%Q]; [9%Q]] = Ok ys
    /\ length ys = length [[2%Q]; [9%Q]].
Proof.
  apply (predict_after_fit unfitted X6 y6 fitted_once 1 [[2%Q]; [9%Q]]).
  - exact fit_unfitted.
  - intros x Hx. unfold X6 in Hx. simpl in Hx.
    repeat (destruct Hx as [<- | Hx]; [reflexivity |]). destruct Hx.
  - intros x Hx. simpl in Hx.
    repeat (destruct Hx as [<- | Hx]; [reflexivity |]). destruct Hx.
Defined.

Lemma fitted_once_root :
  exists root, tree fitted_once = Some root /\ ~ is_leaf root.
Proof.
  destruct (tree fitted_once) as [root |] eqn:Ht;
    [| vm_compute in Ht; discriminate Ht].
  exists root. split; [reflexivity |].
  intros [Hl _]. revert Ht Hl. vm_compute.
  intros Ht Hl. injection Ht as <-. discriminate Hl.
Qed.

Lemma get_paths_default_KeyError_witness :
  get_paths fitted_once None = Raise KeyError.
Proof.
  destruct fitted_once_root as (root & Ht & Hnl).
  apply (get_paths_default_KeyError unfitted X6 y6 fitted_once root);
    [exact fit_unfitted | reflexivity | exact Ht | exact Hnl].
Defined.

Lemma fit_invalid_criterion_witness :
  fit (new_tree "gini" "exhaustive" 2 None (1 # 20)) X6 y6 <> Ok unfitted.
Proof.
  apply (fit_invalid_criterion (new_tree "gini" "exhaustive" 2 None (1 # 20))
           X6 y6 unfitted); discriminate.
Defined.

(* ------------------------------------------------------------------ *)
(** ** [get_paths]                                                     *)
(* ------------------------------------------------------------------ *)

Lemma in_tree_path (t nd : node) :
  in_tree t nd -> exists p, path_to t nd p.
Proof.
  induction 1 as [| nd l Hl _ [p IH] | nd r Hr _ [p IH]].
  - exists [t]. constructor.
  - exists (nd :: p). eapply path_left; eassumption.
  - exists (nd :: p). eapply path_right; eassumption.
Qed.

Lemma path_to_in_tree (t nd : node) (p : list node) :
  path_to t nd p -> forall m, In m p -> in_tree m nd.
Proof.
  induction 1 as [| nd l p Hl _ IH | nd r p Hr _ IH]; intros m Hm.
  - destruct Hm as [<- | []]. constructor.
  - destruct Hm as [<- | Hm]; [constructor |].
    exact (in_tree_left _ _ _ Hl (IH m Hm)).
  - destruct Hm as [<- | Hm]; [constructor |].
    exact (in_tree_right _ _ _ Hr (IH m Hm)).
Qed.

Lemma path_to_last (t nd : node) (p : list node) :
  path_to t nd p -> exists p', p = p' ++ [t].
Proof.
  induction 1 as [| nd l p Hl _ [p' ->] | nd r p Hr _ [p' ->]].
  - exists []. reflexivity.
  - exists (nd :: p'). reflexivity.
  - exists (nd :: p'). reflexivity.
Qed.

Lemma path_to_target_in (t nd : node) (p : list node) :
  path_to t nd p -> in_tree t nd.
Proof.
  intro H. destruct (path_to_last t nd p H) as [p' ->].
  apply (path_to_in_tree t nd _ H). apply in_or_app. right. left.
  reflexivity.
Qed.

Lemma _find_path_eq (nd : node) (path : list path_info) (i : nat) :
  _find_path nd path i
  = let info := mk_path_info (index nd) (j_feature nd) (threshold nd) in
    let path := path ++ [info] in
    if index nd =? i then Ok (true, path)
    else
      lp <- match left nd with
            | Some l => _find_path l path i
            | None => Ok (false, path)
            end ;;
      rp <- match right nd with
            | Some r => _find_path r (snd lp) i
            | None => Ok (false, snd lp)
            end ;;
      if fst lp || fst rp then Ok (true, snd rp)
      else path' <- list_remove (snd rp) info ;; Ok (false, path').
Proof. destruct nd; reflexivity. Qed.

Lemma info_eqb_node (a b : path_info) :
  info_eqb a b = true -> p_node a = p_node b.
Proof.
  unfold info_eqb. intro H.
  apply andb_prop in H as [H _]. apply andb_prop in H as [H _].
  apply Nat.eqb_eq. exact H.
Qed.

Lemma info_eqb_refl (a : path_info) : info_eqb a a = true.
Proof.
  unfold info_eqb. rewrite Nat.eqb_refl, !opt_eqb_refl; [reflexivity | |].
  - intro q. apply Qeq_bool_iff. reflexivity.
  - apply Nat.eqb_refl.
Qed.

(** Removing the entry appended last gives the list back, when no earlier
    entry belongs to the same node. *)
Lemma list_remove_last (acc : list path_info) (info : path_info) :
  (forall x, In x acc -> p_node x <> p_node info) ->
  list_remove (acc ++ [info]) info = Ok acc.
Proof.
  induction acc as [| a acc IH]; intro H; cbn [app list_remove].
  - rewrite info_eqb_refl. reflexivity.
  - destruct (info_eqb a info) eqn:He.
    + apply info_eqb_node in He. exfalso.
      apply (H a (or_introl eq_refl)). exact He.
    + rewrite IH by (intros x Hx; apply H; right; exact Hx). reflexivity.
Qed.

(** [_find_path] in a tree with pairwise different node numbers: a number
    that is not in the tree leaves the path as it was; the number of a node
    of the tree appends the entries of the nodes on the way to it. *)
Lemma _find_path_spec (i : nat) :
  forall nd acc,
    NoDup (indices nd) ->
    (forall x, In x acc -> ~ In (p_node x) (indices nd)) ->
    (~ In i (indices nd) -> _find_path nd acc i = Ok (false, acc))
    /\ (forall t p, path_to t nd p -> index t = i ->
                    _find_path nd acc i = Ok (true, acc ++ map info_of p)).
Proof.
  intro nd. induction nd as [nd IHl IHr] using node_children_ind.
  intros acc ND Hacc.
  destruct (NoDup_indices_children nd ND) as (HL & HR & HLR).
  assert (In (index nd) (indices nd)) as Hself
    by (rewrite indices_eq; left; reflexivity).
  assert (forall l, left nd = Some l ->
                    forall k, In k (indices l) -> In k (indices nd)) as SubL.
  { intros l Hl k Hk. rewrite indices_eq, Hl. right. apply in_or_app.
    left. exact Hk. }
  assert (forall r, right nd = Some r ->
                    forall k, In k (indices r) -> In k (indices nd)) as SubR.
  { intros r Hr k Hk. rewrite indices_eq, Hr. right. apply in_or_app.
    right. exact Hk. }
  set (info := mk_path_info (index nd) (j_feature nd) (threshold nd)).
  assert (forall l, left nd = Some l ->
                    forall x, In x (acc ++ [info]) ->
                              ~ In (p_node x) (indices l)) as AccL.
  { intros l Hl x Hx Hk. apply in_app_or in Hx as [Hx | [<- | []]].
    - apply (Hacc x Hx). exact (SubL l Hl _ Hk).
    - destruct (HL l Hl) as [_ F]. apply F. exact Hk. }
  (* the search of the left subtree for a number that is not in it *)
  assert (forall path,
             (forall l, left nd = Some l ->
                        forall x, In x path -> ~ In (p_node x) (indices l)) ->
             (forall l, left nd = Some l -> ~ In i (indices l)) ->
             match left nd with
             | Some l => _find_path l path i
             | None => Ok (false, path)
             end = Ok (false, path)) as MissL.
  { intros path Hp Hi. destruct (left nd) as [l |] eqn:Hl; [| reflexivity].
    destruct (HL l eq_refl) as [NDl _].
    apply (IHl l eq_refl path NDl (Hp l eq_refl)). apply Hi. reflexivity. }
  assert (forall path,
             (forall r, right nd = Some r ->
                        forall x, In x path -> ~ In (p_node x) (indices r)) ->
             (forall r, right nd = Some r -> ~ In i (indices r)) ->
             match right nd with
             | Some r => _find_path r path i
             | None => Ok (false, path)
             end = Ok (false, path)) as MissR.
  { intros path Hp Hi. destruct (right nd) as [r |] eqn:Hr; [| reflexivity].
    destruct (HR r eq_refl) as [NDr _].
    apply (IHr r eq_refl path NDr (Hp r eq_refl)). apply Hi. reflexivity. }
  assert (forall r, right nd = Some r ->
                    forall x, In x (acc ++ [info]) ->
                              ~ In (p_node x) (indices r)) as AccR.
  { intros r Hr x Hx Hk. apply in_app_or in Hx as [Hx | [<- | []]].
    - apply (Hacc x Hx). exact (SubR r Hr _ Hk).
    - destruct (HR r Hr) as [_ F]. apply F. exact Hk. }
  split.
  - intro Hi. rewrite _find_path_eq. cbv zeta. fold info.
    destruct (Nat.eqb_spec (index nd) i) as [E | _];
      [exfalso; apply Hi; rewrite <- E; exact Hself |].
    rewrite (MissL (acc ++ [info]) AccL)
      by (intros l Hl Hk; apply Hi; exact (SubL l Hl _ Hk)).
    cbn [rbind snd].
    rewrite (MissR (acc ++ [info]) AccR)
      by (intros r Hr Hk; apply Hi; exact (SubR r Hr _ Hk)).
    cbn [rbind snd fst orb].
    rewrite list_remove_last; [reflexivity |].
    intros x Hx E. apply (Hacc x Hx). rewrite E. exact Hself.
  - intros t p Hp Hi. rewrite _find_path_eq. cbv zeta. fold info.
    inversion Hp as [| ? l p' Hl Hp' | ? r p' Hr Hp']; subst.
    + rewrite Nat.eqb_refl. reflexivity.
    + pose proof (path_to_target_in _ _ _ Hp') as Hin.
      apply in_tree_indices in Hin.
      destruct (HL l Hl) as [NDl Hnd].
      destruct (Nat.eqb_spec (index nd) (index t)) as [E | _];
        [exfalso; apply Hnd; rewrite E; exact Hin |].
      rewrite Hl.
      destruct (IHl l Hl (acc ++ [info]) NDl (AccL l Hl)) as [_ Found].
      rewrite (Found t p' Hp' eq_refl). cbn [rbind snd fst orb].
      rewrite MissR.
      * cbn [rbind snd]. rewrite <- app_assoc. reflexivity.
      * intros r Hr x Hx Hk.
        apply in_app_or in Hx as [Hx | Hx]; [exact (AccR r Hr x Hx Hk) |].
        apply in_map_iff in Hx as (m & <- & Hm).
        apply (path_to_in_tree _ _ _ Hp') in Hm.
        apply in_tree_indices in Hm.
        exact (HLR l r Hl Hr _ Hm Hk).
      * intros r Hr Hk. exact (HLR l r Hl Hr _ Hin Hk).
    + pose proof (path_to_target_in _ _ _ Hp') as Hin.
      apply in_tree_indices in Hin.
      destruct (HR r Hr) as [NDr Hnd].
      destruct (Nat.eqb_spec (index nd) (index t)) as [E | _];
        [exfalso; apply Hnd; rewrite E; exact Hin |].
      rewrite (MissL (acc ++ [info]) AccL)
        by (intros l Hl Hk; exact (HLR l r Hl Hr _ Hk Hin)).
      cbn [rbind snd]. rewrite Hr.
      destruct (IHr r Hr (acc ++ [info]) NDr (AccR r Hr)) as [_ Found].
      rewrite (Found t p' Hp' eq_refl). cbn [rbind snd fst orb].
      rewrite <- app_assoc. reflexivity.
Qed.

Lemma insert_nat_In (x y : nat) (l : list nat) :
  In y (insert_nat x l) <-> y = x \/ In y l.
Proof.
  induction l as [| h l IH]; simpl.
  - intuition.
  - destruct (x <? h); [simpl; intuition |].
    destruct (Nat.eqb_spec x h) as [-> | _]; simpl; [intuition |].
    rewrite IH. intuition.
Qed.

Lemma unique_nat_In (y : nat) (l : list nat) :
  In y (unique_nat l) <-> In y l.
Proof.
  unfold unique_nat. induction l as [| h l IH]; simpl; [reflexivity |].
  rewrite insert_nat_In, IH. intuition.
Qed.

Lemma mapM_In_inv {A B} (f : A -> result B) (l : list A) (l' : list B)
      (b : B) :
  mapM f l = Ok l' -> In b l' -> exists a, In a l /\ f a = Ok b.
Proof.
  revert l'. induction l as [| a l IH]; intros l' H Hb; simpl in H.
  - injection H as <-. destruct Hb.
  - inv_rbind H as b0 Hb0. inv_rbind H as bs Hbs. injection H as <-.
    destruct Hb as [<- | Hb].
    + exists a. split; [left; reflexivity | exact Hb0].
    + destruct (IH bs Hbs Hb) as (a' & Ha' & Hf).
      exists a'. split; [right; exact Ha' | exact Hf].
Qed.

Lemma clear_last_app (p : list path_info) (x : path_info) :
  clear_last (p ++ [x]) = Ok (p ++ [mk_path_info (p_node x) None None]).
Proof.
  unfold clear_last. rewrite rev_app_distr. cbn [rev app].
  rewrite rev_involutive. reflexivity.
Qed.

Lemma indices_in_tree (root : node) (i : nat) :
  In i (indices root) -> exists nd, in_tree nd root /\ index nd = i.
Proof.
  induction root as [root IHl IHr] using node_children_ind.
  rewrite indices_eq. intros [<- | Hin].
  - exists root. split; [constructor | reflexivity].
  - apply in_app_or in Hin as [Hin | Hin].
    + destruct (left root) as [l |] eqn:Hl; [| destruct Hin].
      destruct (IHl l eq_refl Hin) as (nd & Hnd & Hi).
      exists nd. split; [exact (in_tree_left _ _ _ Hl Hnd) | exact Hi].
    + destruct (right root) as [r |] eqn:Hr; [| destruct Hin].
      destruct (IHr r eq_refl Hin) as (nd & Hnd & Hi).
      exists nd. split; [exact (in_tree_right _ _ _ Hr Hnd) | exact Hi].
Qed.

(** On a vector without nan the walk of [get_node] does not return
    [None]. *)
Lemma _get_node_from_X_finite (x : frow) (nd : node) (o : option node) :
  (forall v, In v x -> v <> nan) ->
  _get_node_from_X x nd = Ok o -> exists lf, o = Some lf.
Proof.
  intros Hfin H. destruct o as [lf |]; [exists lf; reflexivity |].
  destruct (_get_node_from_X_spec x nd None H) as (m & j & _ & _ & _ & Hn).
  exfalso. apply (Hfin nan); [| reflexivity].
  eapply nth_error_In. exact Hn.
Qed.

(** An entry that [apply] returns is the number of a leaf of the tree, or
    the 0 left for a row on which [get_node] returns [None]. *)
Lemma apply_leaves (s : PolyTree) (root : node) (X : fmatrix)
      (inode : list nat) (leaf : nat) :
  tree s = Some root ->
  apply s (Matrix X) = Ok inode ->
  In leaf inode ->
  (exists lf, in_tree lf root /\ is_leaf lf /\ index lf = leaf)
  \/ (leaf = 0
      /\ exists x, In x X /\ get_node s (ByVector x) = Ok None).
Proof.
  intros Ht H Hin. unfold apply in H. rewrite Ht in H.
  cbn [some_node rbind as_matrix] in H.
  destruct (_apply_spec X root _ _ _ H) as (Hlen & _ & Hw).
  rewrite repeat_length in Hlen.
  apply In_nth_error in Hin as [i Hi].
  assert (i < length X) as Hlt
    by (rewrite <- Hlen; apply nth_error_Some; congruence).
  destruct (Hw i) as (o & Ho & Hn); [apply in_seq; lia |].
  rewrite Hi in Hn. destruct o as [lf |].
  - injection Hn as ->. left.
    destruct (_get_node_from_X_leaf _ root lf Ho) as [Hin' Hleaf].
    exists lf. auto.
  - rewrite (nth_error_repeat 0 Hlt) in Hn. injection Hn as ->. right.
    split; [reflexivity |]. exists (nth i X []).
    split; [apply nth_In; exact Hlt |].
    unfold get_node. rewrite Ht. exact Ho.
Qed.

(** X25.  [get_paths] on a tree with pairwise different node numbers: the
    keys of the result are the distinct numbers that [apply] returns
    ([np.unique] of them).  On an input without nan these are leaf
    numbers, and the path stored for a key lists, from the root down, the
    entries (number, feature, threshold) of the nodes on the way to that
    leaf, and ends with the entry of the leaf itself, whose feature and
    threshold are cleared.  In general a key is a leaf number or the 0
    that [apply] leaves for a row on which [get_node] returns [None], and
    the path stored for it leads to the node with that number. *)
Theorem get_paths_spec (s : PolyTree) (root : node) (X : fmatrix)
        (paths : list (nat * list path_info)) :
  tree s = Some root ->
  NoDup (indices root) ->
  get_paths s (Some X) = Ok paths ->
  (exists leave_id,
      apply s (Matrix X) = Ok leave_id
      /\ map fst paths = unique_nat leave_id)
  /\ ((forall x v, In x X -> In v x -> v <> nan) ->
      forall leaf path,
        In (leaf, path) paths ->
        exists lf p,
          in_tree lf root /\ is_leaf lf /\ index lf = leaf
          /\ path_to lf root (p ++ [lf])
          /\ path = map info_of p ++ [mk_path_info leaf None None])
  /\ (forall leaf path,
        In (leaf, path) paths ->
        exists nd p,
          in_tree nd root /\ index nd = leaf
          /\ path_to nd root (p ++ [nd])
          /\ path = map info_of p ++ [mk_path_info leaf None None]
          /\ (is_leaf nd
              \/ (leaf = 0
                  /\ exists x,
                      In x X /\ get_node s (ByVector x) = Ok None))).
Proof.
  intros Ht ND H. unfold get_paths in H. rewrite Ht in H.
  cbn [some_node rbind] in H.
  inv_rbind H as leave_id Hap.
  assert (forall leaf path,
             In (leaf, path) paths ->
             In leaf leave_id
             /\ exists nd p,
                 in_tree nd root /\ index nd = leaf
                 /\ path_to nd root (p ++ [nd])
                 /\ path = map info_of p ++ [mk_path_info leaf None None])
    as Hkey.
  { intros leaf path Hin.
    destruct (mapM_In_inv _ _ _ _ H Hin) as (leaf' & Hleaf' & Hf).
    inv_rbind Hf as fp Hfp. inv_rbind Hf as pl Hpl.
    injection Hf as -> ->.
    apply (proj1 (unique_nat_In _ _)) in Hleaf'.
    split; [exact Hleaf' |].
    destruct (_find_path_spec leaf root [] ND) as [Lost Found];
      [intros x [] |].
    destruct (in_dec Nat.eq_dec leaf (indices root)) as [Hi | Hi].
    - destruct (indices_in_tree root leaf Hi) as (nd & Hnd & Hidx).
      destruct (in_tree_path nd root Hnd) as [p0 Hp0].
      destruct (path_to_last _ _ _ Hp0) as [p ->].
      rewrite (Found nd (p ++ [nd]) Hp0 Hidx) in Hfp. injection Hfp as <-.
      cbn [snd app] in Hpl. rewrite map_app in Hpl. cbn [map] in Hpl.
      rewrite clear_last_app in Hpl. injection Hpl as <-.
      exists nd, p. cbn [info_of p_node]. rewrite Hidx. auto.
    - rewrite (Lost Hi) in Hfp. injection Hfp as <-.
      discriminate Hpl. }
  split; [| split].
  - exists leave_id. split; [exact Hap |].
    clear Hkey. revert paths H. generalize (unique_nat leave_id) as ks.
    induction ks as [| k ks IH]; intros paths H; simpl in H.
    + injection H as <-. reflexivity.
    + inv_rbind H as b Hb. inv_rbind H as bs Hbs. injection H as <-.
      inv_rbind Hb as fp Hfp. inv_rbind Hb as pl Hpl. injection Hb as <-.
      simpl. f_equal. apply IH. exact Hbs.
  - intros Hfin leaf path Hin.
    destruct (Hkey leaf path Hin) as (Hleaf & nd & p & Hnd & Hidx & Hp & ->).
    destruct (apply_leaves s root X leave_id leaf Ht Hap Hleaf)
      as [(lf & Hlf & Hlfl & Hi) | (_ & x & Hx & Hnone)].
    + assert (lf = nd) as ->.
      { pose proof (_get_node_from_n_unique root lf ND Hlf) as E1.
        pose proof (_get_node_from_n_unique root nd ND Hnd) as E2.
        rewrite Hi, <- Hidx in E1. rewrite E2 in E1.
        injection E1 as ->. reflexivity. }
      exists nd, p. auto.
    + exfalso. unfold get_node in Hnone. rewrite Ht in Hnone.
      cbn [some_node rbind] in Hnone.
      destruct (_get_node_from_X_finite x root None
                  (fun v Hv => Hfin x v Hx Hv) Hnone) as [lf F].
      discriminate F.
  - intros leaf path Hin.
    destruct (Hkey leaf path Hin) as (Hleaf & nd & p & Hnd & Hidx & Hp & ->).
    exists nd, p. split; [exact Hnd |]. split; [exact Hidx |].
    split; [exact Hp |]. split; [reflexivity |].
    destruct (apply_leaves s root X leave_id leaf Ht Hap Hleaf)
      as [(lf & Hlf & Hlfl & Hi) | Hzero]; [| right; exact Hzero].
    left.
    assert (lf = nd) as ->; [| exact Hlfl].
    pose proof (_get_node_from_n_unique root lf ND Hlf) as E1.
    pose proof (_get_node_from_n_unique root nd ND Hnd) as E2.
    rewrite Hi, <- Hidx in E1. rewrite E2 in E1.
    injection E1 as ->. reflexivity.
Qed.

Lemma get_paths_spec_witness :
  (exists leave_id,
      apply (tree_of two_level 1 1%Q)
            (Matrix [[Some 1%Q]; [Some 7%Q]; [Some 20%Q]])
      = Ok leave_id
      /\ map fst
           [(7, [mk_path_info 1 (Some 0) (Some 10%Q);
                 mk_path_info 7 None None]);
            (9, [mk_path_info 1 (Some 0) (Some 10%Q);
                 mk_path_info 5 (Some 0) (Some 5%Q);
                 mk_path_info 9 None None]);
            (11, [mk_path_info 1 (Some 0) (Some 10%Q);
                  mk_path_info 5 (Some 0) (Some 5%Q);
                  mk_path_info 11 None None])]
         = unique_nat leave_id)
  /\ forall leaf path,
       In (leaf, path)
          [(7, [mk_path_info 1 (Some 0) (Some 10%Q);
                mk_path_info 7 None None]);
           (9, [mk_path_info 1 (Some 0) (Some 10%Q);
                mk_path_info 5 (Some 0) (Some 5%Q);
                mk_path_info 9 None None]);
           (11, [mk_path_info 1 (Some 0) (Some 10%Q);
                 mk_path_info 5 (Some 0) (Some 5%Q);
                 mk_path_info 11 None None])] ->
       exists lf p,
         in_tree lf two_level /\ is_leaf lf /\ index lf = leaf
         /\ path_to lf two_level (p ++ [lf])
         /\ path = map info_of p ++ [mk_path_info leaf None None].
Proof.
  destruct (get_paths_spec (tree_of two_level 1 1%Q) two_level
              [[Some 1%Q]; [Some 7%Q]; [Some 20%Q]]
              [(7, [mk_path_info 1 (Some 0) (Some 10%Q);
                    mk_path_info 7 None None]);
               (9, [mk_path_info 1 (Some 0) (Some 10%Q);
                    mk_path_info 5 (Some 0) (Some 5%Q);
                    mk_path_info 9 None None]);
               (11, [mk_path_info 1 (Some 0) (Some 10%Q);
                     mk_path_info 5 (Some 0) (Some 5%Q);
                     mk_path_info 11 None None])])
    as (H1 & H2 & _).
  - reflexivity.
  - vm_compute. repeat constructor; simpl; intuition discriminate.
  - vm_compute. reflexivity.
  - split; [exact H1 |]. apply H2.
    intros x v Hx Hv. simpl in Hx.
    repeat (destruct Hx as [<- | Hx];
            [destruct Hv as [<- | []]; discriminate |]).
    destruct Hx.
Defined.

(* ------------------------------------------------------------------ *)
(** ** Before and at the start of [fit]                                *)
(* ------------------------------------------------------------------ *)

(** X26.  What the methods do on an object that the constructor has just
    returned (no tree yet): [predict] and [prune] fail their assertion;
    [get_splits], [get_polys], [apply], [get_paths] and [get_node] with a
    vector subscript [None] and raise [TypeError]; [get_node] with a node
    number returns [None]. *)
Theorem methods_before_fit (criterion : string) (md : nat)
        (msl : option nat) (ord : nat) (bas srch : string) (smp : nat)
        (all : bool) (dims : option (list nat)) (k0 : Q) (s : PolyTree)
        (X : matrix) (y : vec) (tol : Q) (A : ndarray) (X' : fmatrix)
        (x : frow) (n : Z) :
  __init__ criterion md msl ord bas srch smp all dims k0 = Ok s ->
  predict s X = Raise AssertionError
  /\ prune s X y tol = Raise AssertionError
  /\ get_splits s = Raise TypeError
  /\ get_polys s = Raise TypeError
  /\ apply s A = Raise TypeError
  /\ get_paths s (Some X') = Raise TypeError
  /\ get_paths s None = Raise TypeError
  /\ get_node s (ByVector x) = Raise TypeError
  /\ get_node s (ByIndex n) = Ok None.
Proof.
  unfold __init__. intro H.
  destruct (negb (0 <? ord)); [discriminate H |].
  destruct (negb (0 <? smp)); [discriminate H |].
  destruct (Qlt_le_dec 0 k0); [| discriminate H].
  injection H as <-.
  repeat split.
Qed.

Lemma methods_before_fit_witness :
  predict unfitted X6 = Raise AssertionError
  /\ prune unfitted X6 y6 0%Q = Raise AssertionError
  /\ get_splits unfitted = Raise TypeError
  /\ get_polys unfitted = Raise TypeError
  /\ apply unfitted (Matrix (of_matrix X6)) = Raise TypeError
  /\ get_paths unfitted (Some (of_matrix X6)) = Raise TypeError
  /\ get_paths unfitted None = Raise TypeError
  /\ get_node unfitted (ByVector [Some 1%Q]) = Raise TypeError
  /\ get_node unfitted (ByIndex 1%Z) = Ok None.
Proof.
  apply (methods_before_fit "model_aware" 2 None 1 "total-order"
           "exhaustive" 50 false None (1 # 20) unfitted X6 y6 0%Q
           (Matrix (of_matrix X6)) (of_matrix X6) [Some 1%Q] 1%Z).
  reflexivity.
Defined.

Section FitParameters.
Context {E : External}.

(** X27.  The minimum leaf size that [fit] settles on and stores.  When
    none was given, or the given one equals the basis cardinality, it is
    the least integer that is at least 1.25 times the cardinality, that is
    [(5 * card + 3) / 4] in integer division, which is at least the
    cardinality; otherwise it is the given one, also when that is smaller
    than the cardinality.  The cardinality is stored as well. *)
Theorem fit_settles_min_samples_leaf (s : PolyTree) (X : matrix) (y : vec)
        (s' : PolyTree) :
  fit s X y = Ok s' ->
  let card := get_cardinality (basis s) (order s) (length (hd [] X)) in
  cardinality s' = Some card
  /\ exists m',
      min_samples_leaf s' = Some m'
      /\ (min_samples_leaf s = None \/ min_samples_leaf s = Some card ->
          m' = (5 * card + 3) / 4
          /\ 5 * card <= 4 * m' < 5 * card + 4
          /\ card <= m')
      /\ (forall m, min_samples_leaf s = Some m -> m <> card -> m' = m).
Proof.
  intros H card. unfold fit in H. cbn [shape] in H.
  match type of H with
  | context [_build_tree X y ?w0] =>
      destruct (_build_tree X y w0) as [[root w] |] eqn:Hb
  end; [| discriminate H].
  injection H as <-.
  apply preserves_build_tree in Hb.
  destruct Hb as [_ _ Emsl _ _ _ _ Ecard _ _].
  cbn [self set_fit_params cardinality min_samples_leaf] in Emsl, Ecard.
  cbn [set_tree cardinality min_samples_leaf].
  split; [exact Ecard |].
  eexists. split; [exact Emsl |].
  fold card. unfold ceil_125.
  pose proof (Nat.div_mod_eq (5 * card + 3) 4) as Hdm.
  pose proof (Nat.mod_upper_bound (5 * card + 3) 4) as Hub.
  split.
  - intros [-> | ->]; [| rewrite Nat.eqb_refl]; (split; [reflexivity | lia]).
  - intros m -> Hm. apply Nat.eqb_neq in Hm. rewrite Hm. reflexivity.
Qed.

End FitParameters.

Lemma fit_settles_min_samples_leaf_witness :
  let card := get_cardinality (basis unfitted) (order unfitted)
                              (length (hd [] X6)) in
  cardinality fitted_once = Some card
  /\ exists m',
      min_samples_leaf fitted_once = Some m'
      /\ (min_samples_leaf unfitted = None
          \/ min_samples_leaf unfitted = Some card ->
          m' = (5 * card + 3) / 4
          /\ 5 * card <= 4 * m' < 5 * card + 4
          /\ card <= m')
      /\ (forall m, min_samples_leaf unfitted = Some m -> m <> card ->
                    m' = m).
Proof.
  apply (fit_settles_min_samples_leaf unfitted X6 y6 fitted_once).
  exact fit_unfitted.
Defined.

Lemma get_node_by_index_spec_witness :
  match get_node (tree_of two_level 1 1%Q) (ByIndex 11%Z) with
  | Ok (Some nd) =>
      (exists root,
          tree (tree_of two_level 1 1%Q) = Some root /\ in_tree nd root)
      /\ Z.of_nat (index nd) = 11%Z
  | Ok None =>
      forall root nd,
        tree (tree_of two_level 1 1%Q) = Some root ->
        in_tree nd root -> Z.of_nat (index nd) <> 11%Z
  | Raise _ => False
  end.
Proof.
  apply (get_node_by_index_spec (tree_of two_level 1 1%Q) 11%Z).
Defined.

(* ------------------------------------------------------------------ *)
(** ** [get_graphviz]: flagging the path of an input                   *)
(* ------------------------------------------------------------------ *)

Lemma flagged_eq (nd : node) :
  flagged nd
  = (if flag nd then [index nd] else [])
      ++ (match left nd with Some l => flagged l | None => [] end)
      ++ (match right nd with Some r => flagged r | None => [] end).
Proof. destruct nd; reflexivity. Qed.

Lemma _flag_tree_walk_eq (X : frow) (nd : node) :
  _flag_tree_walk X nd
  = match left nd, right nd with
    | None, None => Ok (set_flag nd true)
    | l, r =>
        match j_feature nd, threshold nd with
        | Some j, Some t =>
            v <- getitem X j ;;
            if fle v (Some t) then
              match l with
              | Some l' =>
                  l'' <- _flag_tree_walk X l' ;;
                  Ok (set_children (set_flag nd true) (Some l'') r)
              | None => Raise TypeError
              end
            else if fgt v (Some t) then
              match r with
              | Some r' =>
                  r'' <- _flag_tree_walk X r' ;;
                  Ok (set_children (set_flag nd true) l (Some r''))
              | None => Raise TypeError
              end
            else Ok (set_flag nd true)
        | _, _ => Raise TypeError
        end
    end.
Proof. destruct nd as [? ? ? ? ? ? ? [l |] [r |] ? ? ? ?]; reflexivity. Qed.

Lemma flagged_own (nd : node) (i : nat) :
  In i (if flag nd then [index nd] else []) -> i = index nd.
Proof.
  destruct (flag nd); simpl; intro H;
    [destruct H as [<- | []]; reflexivity | destruct H].
Qed.

(** The walk at a node that was split, for the three outcomes of the two
    tests. *)
Lemma flag_walk_down (x : frow) (nd c c' last : node) (p : list node)
      (o : option node) (left_side : bool) :
  (if left_side then left nd = Some c else right nd = Some c) ->
  indices c' = indices c ->
  path_to last c p ->
  (forall i, In i (flagged c') <-> In i (flagged c) \/ In i (map index p)) ->
  let nd' := if left_side
             then set_children (set_flag nd true) (Some c') (right nd)
             else set_children (set_flag nd true) (left nd) (Some c') in
  indices nd' = indices nd
  /\ path_to last nd (nd :: p)
  /\ forall i, In i (flagged nd')
               <-> In i (flagged nd) \/ In i (map index (nd :: p)).
Proof.
  intros Hside Ei Hp Hfl nd'. subst nd'.
  destruct left_side.
  - split; [| split].
    + rewrite (indices_eq nd), Hside, indices_eq. cbn. rewrite Ei.
      reflexivity.
    + exact (path_left _ _ _ _ Hside Hp).
    + intro i. rewrite (flagged_eq nd), Hside, flagged_eq.
      cbn [flag index left right set_children set_flag map].
      rewrite !in_app_iff, Hfl. cbn [In].
      pose proof (flagged_own nd i). intuition.
  - split; [| split].
    + rewrite (indices_eq nd), Hside, indices_eq. cbn. rewrite Ei.
      reflexivity.
    + exact (path_right _ _ _ _ Hside Hp).
    + intro i. rewrite (flagged_eq nd), Hside, flagged_eq.
      cbn [flag index left right set_children set_flag map].
      rewrite !in_app_iff, Hfl. cbn [In].
      pose proof (flagged_own nd i). intuition.
Qed.

Lemma flag_walk_stop (nd : node) :
  indices (set_flag nd true) = indices nd
  /\ path_to nd nd [nd]
  /\ forall i, In i (flagged (set_flag nd true))
               <-> In i (flagged nd) \/ In i (map index [nd]).
Proof.
  split; [| split].
  - rewrite (indices_eq nd), indices_eq. reflexivity.
  - constructor.
  - intro i. rewrite (flagged_eq nd), flagged_eq.
    cbn [flag index left right set_flag map].
    rewrite !in_app_iff. cbn [In].
    pose proof (flagged_own nd i). intuition.
Qed.

(** X28.  The walk that [get_graphviz] makes for an input vector keeps
    the node numbers of the tree and flags exactly the nodes on the way
    from the root to the node where the walk ends: the leaf that
    [get_node] returns for this vector, or, when [get_node] returns
    [None], the node that was split on a feature at which the vector holds
    nan.  A flag that was set before is never cleared, so the nodes
    flagged by an earlier call stay flagged. *)
Theorem flag_tree_walk_flags_path (x : frow) (nd nd' : node) :
  _flag_tree_walk x nd = Ok nd' ->
  indices nd' = indices nd
  /\ exists last p,
       path_to last nd p
       /\ (forall i, In i (flagged nd')
                     <-> In i (flagged nd) \/ In i (map index p))
       /\ exists o,
           _get_node_from_X x nd = Ok o
           /\ match o with
              | Some lf => last = lf
              | None =>
                  ~ is_leaf last
                  /\ exists j, j_feature last = Some j
                               /\ nth_error x j = Some nan
              end.
Proof.
  revert nd'. induction nd as [nd IHl IHr] using node_children_ind.
  intros nd' H. rewrite _flag_tree_walk_eq in H.
  rewrite _get_node_from_X_eq.
  assert (forall l r,
             left nd = l -> right nd = r -> (l <> None \/ r <> None) ->
             match j_feature nd, threshold nd with
             | Some j, Some t =>
                 v <- getitem x j ;;
                 if fle v (Some t) then
                   match l with
                   | Some l' =>
                       l'' <- _flag_tree_walk x l' ;;
                       Ok (set_children (set_flag nd true) (Some l'') r)
                   | None => Raise TypeError
                   end
                 else if fgt v (Some t) then
                   match r with
                   | Some r' =>
                       r'' <- _flag_tree_walk x r' ;;
                       Ok (set_children (set_flag nd true) l (Some r''))
                   | None => Raise TypeError
                   end
                 else Ok (set_flag nd true)
             | _, _ => Raise TypeError
             end = Ok nd' ->
             indices nd' = indices nd
             /\ exists last p,
                 path_to last nd p
                 /\ (forall i, In i (flagged nd')
                               <-> In i (flagged nd) \/ In i (map index p))
                 /\ exists o,
                     match j_feature nd, threshold nd with
                     | Some j, Some t =>
                         v <- getitem x j ;;
                         if fle v (Some t) then
                           match l with
                           | Some l' => _get_node_from_X x l'
                           | None => Raise TypeError
                           end
                         else if fgt v (Some t) then
                           match r with
                           | Some r' => _get_node_from_X x r'
                           | None => Raise TypeError
                           end
                         else Ok None
                     | _, _ => Raise TypeError
                     end = Ok o
                     /\ match o with
                        | Some lf => last = lf
                        | None =>
                            ~ is_leaf last
                            /\ exists j, j_feature last = Some j
                                         /\ nth_error x j = Some nan
                        end) as Hsplit.
  { clear H. intros l r Hl Hr Hch H.
    destruct (j_feature nd) as [j |] eqn:Hj; [| discriminate H].
    destruct (threshold nd) as [t |]; [| discriminate H].
    inv_rbind H as v Hv. rewrite Hv. cbn [rbind].
    destruct (fle v (Some t)) eqn:Hle; [| destruct (fgt v (Some t)) eqn:Hgt].
    - destruct l as [l' |]; [| discriminate H].
      inv_rbind H as c' Hc'. injection H as <-.
      destruct (IHl l' Hl c' Hc') as (Ei & last & p & Hp & Hfl & o & Ho & Hlast).
      rewrite <- Hr.
      destruct (flag_walk_down x nd l' c' last p o true Hl Ei Hp Hfl)
        as (E1 & E2 & E3).
      split; [exact E1 |]. exists last, (nd :: p).
      split; [exact E2 |]. split; [exact E3 |].
      exists o. split; [exact Ho | exact Hlast].
    - destruct r as [r' |]; [| discriminate H].
      inv_rbind H as c' Hc'. injection H as <-.
      destruct (IHr r' Hr c' Hc') as (Ei & last & p & Hp & Hfl & o & Ho & Hlast).
      rewrite <- Hl.
      destruct (flag_walk_down x nd r' c' last p o false Hr Ei Hp Hfl)
        as (E1 & E2 & E3).
      split; [exact E1 |]. exists last, (nd :: p).
      split; [exact E2 |]. split; [exact E3 |].
      exists o. split; [exact Ho | exact Hlast].
    - injection H as <-.
      destruct (flag_walk_stop nd) as (E1 & E2 & E3).
      split; [exact E1 |]. exists nd, [nd].
      split; [exact E2 |]. split; [exact E3 |].
      exists None. split; [reflexivity |].
      split; [intros [F1 F2]; destruct Hch as [F | F]; apply F; congruence |].
      exists j. split; [exact Hj |].
      rewrite (fle_fgt_nan v t Hle Hgt) in Hv.
      unfold getitem in Hv.
      destruct (nth_error x j); [| discriminate Hv].
      injection Hv as ->. reflexivity. }
  destruct (left nd) as [l |] eqn:Hl, (right nd) as [r |] eqn:Hr;
    try (apply (Hsplit _ _ eq_refl eq_refl); [| exact H];
         solve [left; discriminate | right; discriminate]).
  injection H as <-.
  destruct (flag_walk_stop nd) as (E1 & E2 & E3).
  split; [exact E1 |]. exists nd, [nd].
  split; [exact E2 |]. split; [exact E3 |].
  exists (Some nd). split; reflexivity.
Qed.

Lemma flag_tree_walk_flags_path_witness :
  indices (match _flag_tree_walk [nan] two_level with
           | Ok nd' => nd'
           | Raise _ => two_level
           end) = indices two_level
  /\ exists last p,
       path_to last two_level p
       /\ (forall i,
              In i (flagged (match _flag_tree_walk [nan] two_level with
                             | Ok nd' => nd'
                             | Raise _ => two_level
                             end))
              <-> In i (flagged two_level) \/ In i (map index p))
       /\ exists o,
           _get_node_from_X [nan] two_level = Ok o
           /\ match o with
              | Some lf => last = lf
              | None =>
                  ~ is_leaf last
                  /\ exists j, j_feature last = Some j
                               /\ nth_error [nan] j = Some nan
              end.
Proof.
  apply (flag_tree_walk_flags_path [nan] two_level).
  vm_compute. reflexivity.
Defined.

(* ------------------------------------------------------------------ *)
(** ** [apply] and [get_paths] on a fitted tree                        *)
(* ------------------------------------------------------------------ *)

Lemma store_index_defined (v : nat) (indexes : list nat) :
  forall inode,
    (forall i, In i indexes -> i < length inode) ->
    exists inode', store_index inode indexes v = Ok inode'.
Proof.
  induction indexes as [| i indexes IH]; intros inode H; simpl.
  - exists inode. reflexivity.
  - destruct (set_nth_defined inode i v (H i (or_introl eq_refl)))
      as [inode1 H1].
    rewrite H1. cbn [rbind]. apply IH.
    apply set_nth_nth_error in H1 as (Hlen & _).
    intros i' Hi'. rewrite Hlen. apply H. right. exact Hi'.
Qed.

(** [_apply] succeeds on a tree that can be walked by every row. *)
Lemma _apply_defined (X : fmatrix) :
  forall nd indexes inode,
    (forall nd', in_tree nd' nd -> ~ is_leaf nd' ->
       exists l r j t,
         left nd' = Some l /\ right nd' = Some r
         /\ j_feature nd' = Some j /\ threshold nd' = Some t
         /\ forall x, In x X -> j < length x) ->
    (forall i, In i indexes -> i < length X) ->
    length inode = length X ->
    exists inode', _apply X nd indexes inode = Ok inode'.
Proof.
  intro nd. induction nd as [nd IHl IHr] using node_children_ind.
  intros indexes inode Hroute Hidx Hlen.
  rewrite _apply_eq.
  destruct (left nd) as [l |] eqn:Hl, (right nd) as [r |] eqn:Hr;
    try (destruct (Hroute nd (in_tree_here nd)) as
            (l0 & r0 & j & t & El & Er & Ej & Et & Hj);
         [intros [F1 F2]; congruence |]);
    try congruence;
    [| apply store_index_defined; intros i Hi; rewrite Hlen; apply Hidx;
       exact Hi].
  rewrite Ej, Et.
  destruct (take_defined X indexes Hidx) as [Xi HXi]. rewrite HXi.
  cbn [rbind].
  assert (forall x, In x Xi -> In x X) as Hsub
    by (intros x Hx; exact (take_In _ _ _ _ HXi Hx)).
  rewrite (fcolumn_defined Xi j) by (intros x Hx; apply Hj, Hsub; exact Hx).
  cbn [rbind].
  match goal with
  | |- context [np_where _ ?c0 0] => set (c := c0)
  end.
  assert (length c = length indexes) as Hc
    by (unfold c; rewrite length_map; apply (take_length _ _ _ HXi)).
  destruct (take_defined indexes (np_where (fun v => fle v (Some t)) c 0))
    as [il Hil]; [intros i Hi; apply np_where_lt in Hi; lia |].
  destruct (take_defined indexes (np_where (fun v => fgt v (Some t)) c 0))
    as [ir Hir]; [intros i Hi; apply np_where_lt in Hi; lia |].
  rewrite Hil, Hir. cbn [rbind].
  destruct (IHl l eq_refl il inode) as [inode1 H1].
  - intros nd' Hin. apply Hroute. exact (in_tree_left _ _ _ Hl Hin).
  - intros i Hi. apply Hidx. exact (take_In _ _ _ _ Hil Hi).
  - exact Hlen.
  - rewrite H1. cbn [rbind].
    apply (IHr r eq_refl ir inode1).
    + intros nd' Hin. apply Hroute. exact (in_tree_right _ _ _ Hr Hin).
    + intros i Hi. apply Hidx. exact (take_In _ _ _ _ Hir Hi).
    + destruct (_apply_spec X l il inode inode1 H1) as (E & _). congruence.
Qed.

Lemma mapM_defined {A B} (f : A -> result B) (l : list A) :
  (forall a, In a l -> exists b, f a = Ok b) -> exists l', mapM f l = Ok l'.
Proof.
  induction l as [| a l IH]; intro H; simpl.
  - eexists. reflexivity.
  - destruct (H a (or_introl eq_refl)) as [b ->].
    destruct IH as [l' ->]; [intros a' Ha'; apply H; right; exact Ha' |].
    eexists. reflexivity.
Qed.

(** [get_paths] succeeds when [apply] does and every row reaches a leaf,
    on a tree with pairwise different node numbers. *)
Lemma get_paths_defined (s : PolyTree) (root : node) (X : fmatrix)
      (leave_id : list nat) :
  tree s = Some root ->
  NoDup (indices root) ->
  apply s (Matrix X) = Ok leave_id ->
  (forall x, In x X -> get_node s (ByVector x) <> Ok None) ->
  exists paths, get_paths s (Some X) = Ok paths.
Proof.
  intros Ht ND Hap Hreach. unfold get_paths. rewrite Ht.
  cbn [some_node rbind].
  rewrite Hap. cbn [rbind].
  apply mapM_defined. intros leaf Hleaf.
  apply (proj1 (unique_nat_In _ _)) in Hleaf.
  destruct (apply_leaves s root X leave_id leaf Ht Hap Hleaf)
    as [(lf & Hlf & _ & Hi) | (_ & x & Hx & Hnone)];
    [| exfalso; exact (Hreach x Hx Hnone)].
  destruct (in_tree_path lf root Hlf) as [p0 Hp0].
  destruct (path_to_last _ _ _ Hp0) as [p ->].
  destruct (_find_path_spec leaf root [] ND) as [_ Found]; [intros x [] |].
  rewrite (Found lf (p ++ [lf]) Hp0 Hi). cbn [rbind snd app].
  rewrite map_app. cbn [map]. rewrite clear_last_app. cbn [rbind].
  eexists. reflexivity.
Qed.

(** [np.unique] puts a 0 first. *)
Lemma insert_nat_zero_head (x : nat) (l rest : list nat) :
  l = 0 :: rest \/ x = 0 -> exists rest', insert_nat x l = 0 :: rest'.
Proof.
  intros [-> | ->].
  - cbn [insert_nat]. destruct (x <? 0) eqn:F;
      [apply Nat.ltb_lt in F; lia |].
    destruct (x =? 0); eexists; reflexivity.
  - destruct l as [| h l]; cbn [insert_nat]; [eexists; reflexivity |].
    destruct (0 <? h) eqn:F; [eexists; reflexivity |].
    apply Nat.ltb_ge in F. assert (h = 0) as -> by lia.
    cbn [Nat.eqb]. eexists. reflexivity.
Qed.

Lemma unique_nat_zero_head (l : list nat) :
  In 0 l -> exists rest, unique_nat l = 0 :: rest.
Proof.
  unfold unique_nat. induction l as [| h l IH]; [intros [] |].
  intros [-> | Hin]; cbn [fold_right].
  - apply (insert_nat_zero_head 0 _ []). right. reflexivity.
  - destruct (IH Hin) as [rest ->].
    apply (insert_nat_zero_head h _ rest). left. reflexivity.
Qed.

(** [get_paths] on an input with a row that reaches no leaf: the 0 that
    [apply] leaves for the row is the first key, no node has this number,
    and the last entry of the empty path is read. *)
Lemma get_paths_no_leaf (s : PolyTree) (root : node) (X : fmatrix)
      (leave_id : list nat) :
  tree s = Some root ->
  NoDup (indices root) ->
  ~ In 0 (indices root) ->
  apply s (Matrix X) = Ok leave_id ->
  (exists x, In x X /\ get_node s (ByVector x) = Ok None) ->
  get_paths s (Some X) = Raise IndexError.
Proof.
  intros Ht ND Hpos Hap (x & Hx & Hnone).
  assert (In 0 leave_id) as Hin.
  { pose proof Hap as H. unfold apply in H. rewrite Ht in H.
    cbn [some_node rbind as_matrix] in H.
    destruct (_apply_spec X root _ _ _ H) as (Hlen & _ & Hw).
    apply (In_nth _ _ []) in Hx as (i & Hlt & Hi).
    destruct (Hw i) as (o & Ho & Hn);
      [apply in_seq; split; [apply Nat.le_0_l | exact Hlt] |].
    unfold get_node in Hnone. rewrite Ht in Hnone.
    cbn [some_node rbind] in Hnone.
    subst x. pose proof (eq_trans (eq_sym Ho) Hnone) as Eo.
    injection Eo as ->.
    apply (nth_error_In _ i).
    exact (eq_trans Hn (nth_error_repeat 0 Hlt)). }
  unfold get_paths. rewrite Ht. cbn [some_node rbind].
  rewrite Hap. cbn [rbind].
  destruct (unique_nat_zero_head leave_id Hin) as [rest ->].
  cbn [mapM].
  destruct (_find_path_spec 0 root [] ND) as [Absent _]; [intros x' [] |].
  rewrite (Absent Hpos). reflexivity.
Qed.

Section FitQueries.
Context {E : External}.

(** The numbers of the nodes of a fitted tree start at 1. *)
Lemma fit_indices_positive (s : PolyTree) (X : matrix) (y : vec)
      (s' : PolyTree) (root : node) :
  fit s X y = Ok s' -> tree s' = Some root ->
  forall i, In i (indices root) -> 1 <= i.
Proof.
  intros H Ht i Hi.
  destruct (fit_inv s X y s' H) as (msl & m & p & wr & root' & w & Htr & ->
                                    & _ & Hc & _).
  cbn [tree set_tree] in Ht. injection Ht as ->.
  destruct (traverse_indices _ _ _ _ _ Htr eq_refl eq_refl) as (_ & _ & R);
    [cbn [index]; lia |].
  destruct (R i Hi) as [-> | Hgt]; [cbn [index]; lia | lia].
Qed.

(** X29.  After a successful [fit] on training rows that all have [d]
    entries, [apply] succeeds on every input whose rows all have [d]
    entries and returns one number per row.  [get_paths] succeeds on such
    an input when every row reaches a leaf, in particular when no entry is
    nan; when [get_node] returns [None] for some row (a nan at a split
    feature), [get_paths] raises [IndexError]. *)
Theorem apply_and_get_paths_after_fit (s : PolyTree) (X : matrix) (y : vec)
        (s' : PolyTree) (d : nat) (X' : fmatrix) :
  fit s X y = Ok s' ->
  (forall x, In x X -> length x = d) ->
  (forall x, In x X' -> length x = d) ->
  exists inode,
    apply s' (Matrix X') = Ok inode /\ length inode = length X'
    /\ ((forall x, In x X' -> get_node s' (ByVector x) <> Ok None) ->
        exists paths, get_paths s' (Some X') = Ok paths)
    /\ ((forall x v, In x X' -> In v x -> v <> nan) ->
        exists paths, get_paths s' (Some X') = Ok paths)
    /\ ((exists x, In x X' /\ get_node s' (ByVector x) = Ok None) ->
        get_paths s' (Some X') = Raise IndexError).
Proof.
  intros H Hw Hw'. destruct (fit_grown s X y s' H) as (root & msl & Ht & _
    & _ & _ & _ & _ & _ & _ & ND & Hg).
  destruct (_apply_defined X' root (seq 0 (length X'))
              (repeat 0 (length X'))) as [inode Hap].
  - intros nd Hin Hnl. destruct (Hg nd Hin) as (_ & _ & _ & Hsplit).
    destruct (Hsplit Hnl) as (l & r & j & t & El & Er & Ej & Et & _ & _ & _
                              & _ & _ & _ & _ & _ & _ & x & Hx & Hj).
    exists l, r, j, t. repeat split; try assumption.
    intros x' Hx'. rewrite (Hw' x' Hx'), <- (Hw x Hx). exact Hj.
  - intros i Hi. apply in_seq in Hi. lia.
  - apply repeat_length.
  - assert (apply s' (Matrix X') = Ok inode) as Hap'
      by (unfold apply; rewrite Ht; exact Hap).
    exists inode. split; [exact Hap' |]. split; [| split; [| split]].
    + destruct (_apply_spec X' root _ _ _ Hap) as (Hlen & _).
      rewrite Hlen. apply repeat_length.
    + exact (get_paths_defined s' root X' inode Ht ND Hap').
    + intro Hfin. apply (get_paths_defined s' root X' inode Ht ND Hap').
      intros x Hx Hnone. unfold get_node in Hnone. rewrite Ht in Hnone.
      cbn [some_node rbind] in Hnone.
      destruct (_get_node_from_X_finite x root None
                  (fun v Hv => Hfin x v Hx Hv) Hnone) as [lf F].
      discriminate F.
    + apply (get_paths_no_leaf s' root X' inode Ht ND); [| exact Hap'].
      intro F. pose proof (fit_indices_positive s X y s' root H Ht 0 F).
      lia.
Qed.

End FitQueries.

Lemma apply_and_get_paths_after_fit_witness :
  exists inode,
    apply fitted_once (Matrix [[Some 2%Q]; [nan]]) = Ok inode
    /\ length inode = length [[Some 2%Q]; [nan]]
    /\ ((forall x, In x [[Some 2%Q]; [nan]] ->
                   get_node fitted_once (ByVector x) <> Ok None) ->
        exists paths,
          get_paths fitted_once (Some [[Some 2%Q]; [nan]]) = Ok paths)
    /\ ((forall x v, In x [[Some 2%Q]; [nan]] -> In v x -> v <> nan) ->
        exists paths,
          get_paths fitted_once (Some [[Some 2%Q]; [nan]]) = Ok paths)
    /\ ((exists x, In x [[Some 2%Q]; [nan]]
                   /\ get_node fitted_once (ByVector x) = Ok None) ->
        get_paths fitted_once (Some [[Some 2%Q]; [nan]])
        = Raise IndexError).
Proof.
  apply (apply_and_get_paths_after_fit unfitted X6 y6 fitted_once 1
           [[Some 2%Q]; [nan]]).
  - exact fit_unfitted.
  - intros x Hx. unfold X6 in Hx. simpl in Hx.
    repeat (destruct Hx as [<- | Hx]; [reflexivity |]). destruct Hx.
  - intros x Hx. simpl in Hx.
    repeat (destruct Hx as [<- | Hx]; [reflexivity |]). destruct Hx.
Defined.
